(** * palrvs: Quine-McCluskey / Petrick minimiser, PAL dump analysis and
      GAL assembler, embedded from boolexprsimplifier.py, pete.py and
      simplegalasm.py. *)

From Stdlib Require Import String Ascii.
From Stdlib Require Import List NArith ZArith PArith Arith Bool Lia.
From Stdlib Require Import Permutation ListSet.
From Stdlib Require Strings.Byte.
Import ListNotations.

Set Implicit Arguments.

(** ** Python containers *)

(** A Python [dict] keeps its keys in insertion order; assigning to an
    existing key replaces the value in place. *)
Module PyDict.
Section Dict.
Variable V : Type.

Definition t := list (N * V).

Fixpoint get (k : N) (d : t) : option V :=
    match d with
    | [] => None
    | (k', v) :: d' => if N.eqb k' k then Some v else get k d'
    end.

Definition mem (k : N) (d : t) : bool :=
    match get k d with Some _ => true | None => false end.

Fixpoint set (k : N) (v : V) (d : t) : t :=
    match d with
    | [] => [(k, v)]
    | (k', v') :: d' =>
        if N.eqb k' k then (k', v) :: d' else (k', v') :: set k v d'
    end.

Definition keys (d : t) : list N := map fst d.

  (** [d[k].method()] for a method mutating the stored object. *)
Fixpoint update (k : N) (f : V -> V) (d : t) : t :=
    match d with
    | [] => []
    | (k', v') :: d' =>
        if N.eqb k' k then (k', f v') :: d' else (k', v') :: update k f d'
    end.
End Dict.
End PyDict.

(** A Python [set] is a duplicate-free list; [|] is [set_union]. *)
Definition zset := list Z.
Definition zset_union (a b : zset) : zset := set_union Z.eq_dec a b.
Definition zset_mem (x : Z) (a : zset) : bool := set_mem Z.eq_dec x a.

Definition natset := list nat.
Definition natset_union (a b : natset) : natset := set_union Nat.eq_dec a b.
Definition natset_mem (x : nat) (a : natset) : bool := set_mem Nat.eq_dec x a.
Definition issubset (a b : natset) : bool :=
  forallb (fun x => natset_mem x b) a.

(** [enumerate(l)] *)
Definition enumerate {A} (l : list A) : list (nat * A) :=
  combine (seq 0 (length l)) l.

(** [int.bit_count()] *)
Fixpoint pos_bit_count (p : positive) : nat :=
  match p with
  | xH => 1
  | xO p' => pos_bit_count p'
  | xI p' => S (pos_bit_count p')
  end.

Definition bit_count (n : N) : nat :=
  match n with N0 => 0 | Npos p => pos_bit_count p end.

(** The values taken by [bit] in [bit = 1; for _ in range(n): ...; bit <<= 1]. *)
Fixpoint bit_values (n : nat) (bit : N) : list N :=
  match n with
  | O => []
  | S n' => bit :: bit_values n' (N.shiftl bit 1)
  end.

(** A [while] loop run with a binary step budget: [step] is applied until
    it answers [inr], at most [p] times. *)
Fixpoint iterate_pos {S R : Type} (step : S -> S + R) (p : positive) (s : S)
  : S + R :=
  match p with
  | xH => step s
  | xO p' =>
      match iterate_pos step p' s with
      | inl s' => iterate_pos step p' s'
      | inr r => inr r
      end
  | xI p' =>
      match step s with
      | inl s1 =>
          match iterate_pos step p' s1 with
          | inl s' => iterate_pos step p' s'
          | inr r => inr r
          end
      | inr r => inr r
      end
  end.

Fixpoint iterate_nat {S R : Type} (step : S -> S + R) (n : nat) (s : S)
  : S + R :=
  match n with
  | O => inl s
  | S n' =>
      match step s with
      | inl s' => iterate_nat step n' s'
      | inr r => inr r
      end
  end.

(** ** boolexprsimplifier.py *)

Module BoolExpr.

(** *** ImplicantTable *)

Record Attrs := mkAttrs {
  covered_minterms : zset;
  was_combined : bool
}.

Definition mark_as_combined (a : Attrs) : Attrs :=
  mkAttrs (covered_minterms a) true.

Record ImplicantTable := mkTable {
  true_implicants : PyDict.t Attrs;
  dontcare_implicants : PyDict.t Attrs
}.

Definition empty_table : ImplicantTable := mkTable [] [].

Definition set_implicants (minterms dontcareterms : list N) : ImplicantTable :=
  mkTable
    (fold_left (fun d ix => PyDict.set (snd ix)
                                (mkAttrs [Z.of_nat (fst ix)] false) d)
               (enumerate minterms) [])
    (fold_left (fun d impl => PyDict.set impl (mkAttrs [(-1)%Z] false) d)
               dontcareterms []).

Definition add_true_implicant (minterm : N) (cov : zset) (t : ImplicantTable)
  : ImplicantTable :=
  mkTable (PyDict.set minterm (mkAttrs cov false) (true_implicants t))
          (dontcare_implicants t).

Definition add_dontcare_implicant (minterm : N) (t : ImplicantTable)
  : ImplicantTable :=
  mkTable (true_implicants t)
          (PyDict.set minterm (mkAttrs [(-1)%Z] false) (dontcare_implicants t)).

(** *** QuineMcCluskeyAlgorithm *)

Definition prime := (N * N * zset)%type.

(** [self._pending_implicanttables] is a [defaultdict(ImplicantTable)]:
    indexing a missing mask creates an empty table at the end. *)
Definition pending_tables := PyDict.t ImplicantTable.

Definition pending_at (mask : N) (f : ImplicantTable -> ImplicantTable)
  (pend : pending_tables) : pending_tables :=
  match PyDict.get mask pend with
  | Some t => PyDict.set mask (f t) pend
  | None => PyDict.set mask (f empty_table) pend
  end.

(** State while one table is processed: the popped table (whose [Attrs]
    objects are shared with the FIFO snapshot), the pending tables and the
    primes found so far. *)
Record qm_state := mkQm {
  impltbl : ImplicantTable;
  pending : pending_tables;
  primes : list prime
}.

Definition attrs_of (impl : N) (t : ImplicantTable) : Attrs :=
  match PyDict.get impl (true_implicants t) with
  | Some a => a
  | None => mkAttrs [] false
  end.

Definition mark_true (impl : N) (t : ImplicantTable) : ImplicantTable :=
  mkTable (PyDict.update impl mark_as_combined (true_implicants t))
          (dontcare_implicants t).

(** Body of the inner [for _ in range(numvars)] loop for a true implicant. *)
Definition combine_true_bit (mask impl : N) (st : qm_state) (bit : N)
  : qm_state :=
  if negb (N.eqb (N.land mask bit) 0) then
    let combinable_impl := N.lxor impl bit in
    let tbl := impltbl st in
    if PyDict.mem combinable_impl (true_implicants tbl) then
      let cov := zset_union (covered_minterms (attrs_of impl tbl))
                            (covered_minterms (attrs_of combinable_impl tbl)) in
      let tbl' := mark_true combinable_impl (mark_true impl tbl) in
      let combined_mask := N.lxor mask bit in
      mkQm tbl'
           (pending_at combined_mask
              (add_true_implicant (N.land impl combined_mask) cov) (pending st))
           (primes st)
    else if PyDict.mem combinable_impl (dontcare_implicants tbl) then
      let cov := covered_minterms (attrs_of impl tbl) in
      let tbl' := mark_true impl tbl in
      let combined_mask := N.lxor mask bit in
      mkQm tbl'
           (pending_at combined_mask
              (add_true_implicant (N.land impl combined_mask) cov) (pending st))
           (primes st)
    else st
  else st.

(** One iteration of [while len(impls) > 0] over the true implicants. *)
Definition process_true (numvars : nat) (mask : N) (st : qm_state) (impl : N)
  : qm_state :=
  let st' := fold_left (combine_true_bit mask impl) (bit_values numvars 1) st in
  let attrs := attrs_of impl (impltbl st') in
  if negb (was_combined attrs) then
    mkQm (impltbl st') (pending st')
         (primes st' ++ [(impl, mask, covered_minterms attrs)])
  else st'.

Definition combine_dontcare_bit (mask impl : N) (st : qm_state) (bit : N)
  : qm_state :=
  if negb (N.eqb (N.land mask bit) 0) then
    let combinable_impl := N.lxor impl bit in
    let tbl := impltbl st in
    if PyDict.mem impl (dontcare_implicants tbl)
       && PyDict.mem combinable_impl (dontcare_implicants tbl) then
      let combined_mask := N.lxor mask bit in
      mkQm tbl
           (pending_at combined_mask
              (add_dontcare_implicant (N.land impl combined_mask)) (pending st))
           (primes st)
    else st
  else st.

Definition process_dontcare (numvars : nat) (mask : N) (st : qm_state)
  (impl : N) : qm_state :=
  fold_left (combine_dontcare_bit mask impl) (bit_values numvars 1) st.

(** Everything done for one popped table. *)
Definition process_table (numvars : nat) (mask : N) (tbl : ImplicantTable)
  (pend : pending_tables) (found : list prime) : qm_state :=
  let st1 := fold_left (process_true numvars mask)
               (PyDict.keys (true_implicants tbl)) (mkQm tbl pend found) in
  fold_left (process_dontcare numvars mask)
    (PyDict.keys (dontcare_implicants tbl)) st1.

(** One iteration of [while len(self._pending_implicanttables) > 0]. *)
Definition qm_step (numvars : nat) (s : pending_tables * list prime)
  : (pending_tables * list prime) + list prime :=
  match fst s with
  | [] => inr (snd s)
  | (mask, tbl) :: rest =>
      let st := process_table numvars mask tbl rest (snd s) in
      inl (pending st, primes st)
  end.

Definition qm_budget (numvars : nat) : positive :=
  Pos.succ (Pos.pow (Pos.of_succ_nat numvars) (Pos.of_succ_nat numvars)).

Definition compute_prime_implicants (numvars : nat)
  (minterms dontcareterms : list N) : option (list prime) :=
  let mask := N.sub (N.shiftl 1 (N.of_nat numvars)) 1 in
  let pend := pending_at mask (fun _ => set_implicants minterms dontcareterms) [] in
  match iterate_pos (qm_step numvars) (qm_budget numvars) (pend, []) with
  | inr found => Some found
  | inl _ => None
  end.

(** *** PetricksMethod *)

Inductive simplest := AlwaysTrue | AlwaysFalse | Covers (rs : list (list (N * N))).

Record MintermInfo := mkInfo {
  covered_by : natset;
  absorbed : bool
}.

Definition pi_impl (p : prime) : N := fst (fst p).
Definition pi_mask (p : prime) : N := snd (fst p).
Definition pi_covered (p : prime) : zset := snd p.

(** [min(...)] of a non-empty sequence. *)
Definition list_min (l : list nat) : nat :=
  match l with
  | [] => 0
  | x :: r => fold_left Nat.min r x
  end.

Section Petrick.
  (** The order in which a Python [set] is iterated is left to the
      implementation; [set_iter] gives it for a set held as a list. *)
Variable set_iter : forall A : Type, list A -> list A.

  (** The union of the covered sets [p[2]] of all prime implicants. *)
Definition all_mintermidxs (pis : list prime) : zset :=
    fold_left zset_union (map pi_covered pis) [].

  (** The prime implicant indexes covering [mintermidx]. *)
Definition covering (pis : list prime) (mintermidx : Z) : natset :=
    fold_left (fun s ip => if zset_mem mintermidx (pi_covered (snd ip))
                           then set_add Nat.eq_dec (fst ip) s else s)
              (enumerate pis) [].

  (** The absorption scan over the sums recorded so far: the new sum is
      absorbed when a recorded one is a subset of it, and otherwise every
      recorded superset of it is marked absorbed. *)
Definition absorb_new (mintermidxs : natset) (infos : list (Z * MintermInfo))
    : bool :=
    existsb (fun mi => issubset (covered_by (snd mi)) mintermidxs) infos.

Definition absorb_old (mintermidxs : natset) (mi : Z * MintermInfo)
    : Z * MintermInfo :=
    if issubset (covered_by (snd mi)) mintermidxs then mi
    else if issubset mintermidxs (covered_by (snd mi))
         then (fst mi, mkInfo (covered_by (snd mi)) true)
         else mi.

Definition record_minterm (pis : list prime) (infos : list (Z * MintermInfo))
    (mintermidx : Z) : list (Z * MintermInfo) :=
    let mintermidxs := covering pis mintermidx in
    map (absorb_old mintermidxs) infos
    ++ [(mintermidx, mkInfo mintermidxs (absorb_new mintermidxs infos))].

Definition minterminfos (pis : list prime) : list (Z * MintermInfo) :=
    fold_left (record_minterm pis) (set_iter (all_mintermidxs pis)) [].

Definition compute_product_of_sums (pis : list prime)
    : list (list natset) :=
    flat_map (fun mi =>
                if absorbed (snd mi) then []
                else [map (fun idx => [idx]) (set_iter (covered_by (snd mi)))])
             (minterminfos pis).

  (** The [for i2, term2 in enumerate(simplified)] scan with its [else]. *)
Fixpoint simplify_place (term : natset) (simplified : list natset)
    : list natset :=
    match simplified with
    | [] => [term]
    | term2 :: rest =>
        if issubset term term2 then term :: rest
        else if issubset term2 term then term2 :: rest
        else term2 :: simplify_place term rest
    end.

Definition simplify (sumterm : list natset) : list natset :=
    fold_left (fun simplified term => simplify_place term simplified)
              sumterm [].

Definition multiply (sumterm sum2 : list natset) : list natset :=
    flat_map (fun summand1 =>
                map (fun summand2 => natset_union summand1 summand2) sum2)
             sumterm.

Definition convert_pos_to_sop (product_of_sums : list (list natset))
    : list natset :=
    match product_of_sums with
    | [] => []
    | sumterm :: rest =>
        fold_left (fun sumterm sum2 => simplify (multiply sumterm sum2))
                  rest sumterm
    end.

Definition pi_at (pis : list prime) (i : nat) : prime :=
    nth i pis (0%N, 0%N, []).

Definition literals (result : list (N * N)) : nat :=
    fold_right (fun product acc => bit_count (snd product) + acc) 0 result.

Definition is_always_true (pis : list prime) (sum_of_products : list natset)
    : bool :=
    match sum_of_products with
    | [p] =>
        match set_iter p with
        | [i] => N.eqb (pi_mask (pi_at pis i)) 0
        | _ => false
        end
    | _ => false
    end.

Definition compute_simplest_results (pis : list prime)
    (sum_of_products : list natset) : simplest :=
    match sum_of_products with
    | [] => AlwaysFalse
    | _ =>
        if is_always_true pis sum_of_products then AlwaysTrue
        else
          let minlen := list_min (map (@List.length nat) sum_of_products) in
          let results :=
            map (fun p => map (fun i => (pi_impl (pi_at pis i),
                                         pi_mask (pi_at pis i)))
                              (set_iter p))
                (filter (fun p => Nat.eqb (List.length p) minlen)
                        sum_of_products) in
          if Nat.ltb 1 (List.length results) then
            let minlits := list_min (map literals results) in
            Covers (filter (fun r => Nat.eqb (literals r) minlits) results)
          else Covers results
    end.

Definition simplest_results (pis : list prime) : simplest :=
    compute_simplest_results pis
      (convert_pos_to_sop (compute_product_of_sums pis)).

Definition simplify_minterms (numvars : nat)
    (minterms dontcareterms : list N) : option simplest :=
    match compute_prime_implicants numvars minterms dontcareterms with
    | Some pis => Some (simplest_results pis)
    | None => None
    end.
End Petrick.

End BoolExpr.

(** ** Python strings and number formatting *)

Module PyStr.
Open Scope string_scope.

Definition nl : string := String (ascii_of_N 10) EmptyString.
Definition crlf : string := String (ascii_of_N 13) nl.

(** ['0'..'9'] and ['a'..'f']. *)
Definition digit_char (d : N) : ascii :=
  ascii_of_N (if (d <? 10)%N then 48 + d else 87 + d).

Fixpoint digits (base : N) (fuel : nat) (n : N) (acc : string) : string :=
  match fuel with
  | O => acc
  | S fuel' =>
      let acc' := String (digit_char (n mod base)) acc in
      if (n / base =? 0)%N then acc' else digits base fuel' (n / base) acc'
  end.

(** [str(n)], ["%d" % n] and ["%x" % n] for a non-negative [n]. *)
Definition format_d (n : N) : string :=
  digits 10 (S (N.to_nat (N.log2 n))) n "".

Definition format_x (n : N) : string :=
  digits 16 (S (N.to_nat (N.log2 n))) n "".

Fixpoint zeros (k : nat) : string :=
  match k with O => "" | S k' => String "0" (zeros k') end.

(** The [04] of ["%04d"] and ["%04x"]: pad with zeros to at least [w]. *)
Definition zfill (w : nat) (s : string) : string :=
  zeros (w - String.length s) ++ s.

Definition format_04d (n : N) : string := zfill 4 (format_d n).
Definition format_04x (n : N) : string := zfill 4 (format_x n).

(** [sep.join(l)] *)
Fixpoint join (sep : string) (l : list string) : string :=
  match l with
  | [] => ""
  | [s] => s
  | s :: l' => s ++ sep ++ join sep l'
  end.

(** [s.split(sep)] for a one-character separator. *)
Fixpoint split (sep : ascii) (s : string) : list string :=
  match s with
  | EmptyString => [EmptyString]
  | String c s' =>
      if Ascii.eqb c sep then EmptyString :: split sep s'
      else match split sep s' with
           | h :: t => String c h :: t
           | [] => [String c EmptyString]
           end
  end.

(** [s[a:b]] *)
Definition slice (a b : nat) (s : string) : string := substring a (b - a) s.

(** [s[::-1]] *)
Fixpoint reverse (s : string) : string :=
  match s with
  | EmptyString => EmptyString
  | String c s' => reverse s' ++ String c EmptyString
  end.

(** [s[i] = c] on a [bytearray]. *)
Fixpoint set_char (i : nat) (c : ascii) (s : string) : string :=
  match s, i with
  | EmptyString, _ => EmptyString
  | String _ s', O => String c s'
  | String c' s', S i' => String c' (set_char i' c s')
  end.

(** [sum(data)] of a [bytes] object. *)
Fixpoint byte_sum (s : string) : N :=
  match s with
  | EmptyString => 0
  | String c s' => N_of_ascii c + byte_sum s'
  end.

End PyStr.

(** [range(n)] *)
Definition range (n : N) : list N := map N.of_nat (seq 0 (N.to_nat n)).

(** [l[k] = v] on a list. *)
Fixpoint set_at {A} (k : nat) (v : A) (l : list A) : list A :=
  match l, k with
  | [], _ => []
  | _ :: l', O => v :: l'
  | x :: l', S k' => x :: set_at k' v l'
  end.

(** ** pete.py *)

Module Pete.
Import PyStr.
Open Scope string_scope.

Inductive PeteError :=
| WrongNumberOfPinNames
| UnexpectedDumpLength.

(** The text of the [RuntimeError]. *)
Definition pete_message (e : PeteError) : string :=
  match e with
  | WrongNumberOfPinNames =>
      "Wrong number of pin names (no names for GND and VCC!)"
  | UnexpectedDumpLength => "File with 262144 bytes expected"
  end.

(** [list(range(1,10)) + list(range(11,20))] *)
Definition pal_pins : list N := map N.of_nat (seq 1 9 ++ seq 11 9).

(** The pin names of the run, from the [-p] option when given. *)
Definition get_pin_names (pinnames : option string)
  : PeteError + list (N * string) :=
  match pinnames with
  | None => inr (map (fun k => (k, "pin" ++ format_d k)) pal_pins)
  | Some s =>
      let userpinnames := split "," s in
      if Nat.eqb (List.length userpinnames) 18
      then inr (combine pal_pins userpinnames)
      else inl WrongNumberOfPinNames
  end.

(** *** The output files *)

(** The files written by the run: path and the text written so far. *)
Definition files := list (string * string).

Fixpoint content (path : string) (fs : files) : option string :=
  match fs with
  | [] => None
  | (p, c) :: fs' => if String.eqb p path then Some c else content path fs'
  end.

(** [open("wt")] creates the file, or truncates it. *)
Definition open_wt (path : string) (fs : files) : files :=
  (path, "") :: filter (fun pc => negb (String.eqb (fst pc) path)) fs.

(** [f.write(text)] *)
Definition write (path text : string) (fs : files) : files :=
  map (fun pc => if String.eqb (fst pc) path
                 then (fst pc, snd pc ++ text) else pc) fs.

Definition truthtable_path (stem : string) : string :=
  stem ++ "_pete_truthtable.txt".

Definition equations_path (stem : string) : string :=
  stem ++ "_pete_equations.pld".

Definition equations_header (stem : string) : string :=
  "Name " ++ stem ++ ";" ++ nl ++
  "Device G16V8MA;" ++ nl ++
  "Partno ;" ++ nl ++
  "Revision ;" ++ nl ++
  "Date ;" ++ nl ++
  "Designer ;" ++ nl ++
  "Company ;" ++ nl ++
  "Assembly ;" ++ nl ++
  "Location ;" ++ nl.

Definition pin_line (number_name : N * string) : string :=
  "PIN " ++ format_d (fst number_name) ++ "=" ++ snd number_name ++ ";" ++ nl.

(** The start of the program, up to the length check of the dump: the
    pin names, the two output files, the header of the equations file.
    The result is the files as the run leaves them and either the error
    raised or the pin names the analysis goes on with. *)
Definition pete_start (pinnames : option string) (stem : string)
    (dumpdata : list Byte.byte) (fs : files)
  : files * (PeteError + list (N * string)) :=
  match get_pin_names pinnames with
  | inl e => (fs, inl e)
  | inr pin_names =>
      let fs := open_wt (truthtable_path stem) fs in
      let fs := open_wt (equations_path stem) fs in
      let fs := write (equations_path stem) (equations_header stem) fs in
      let fs := fold_left (fun fs number_name =>
                             write (equations_path stem)
                                   (pin_line number_name) fs)
                          pin_names fs in
      if N.eqb (N.of_nat (List.length dumpdata)) 262144
      then (fs, inr pin_names)
      else (fs, inl UnexpectedDumpLength)
  end.

(** *** The dependency discovery loop *)

Open Scope N_scope.

Definition epromaddrbitpos_to_palpinnum (epromaddrbitpos : N) : N :=
  if epromaddrbitpos <=? 8 then epromaddrbitpos + 1 else epromaddrbitpos + 2.

Definition palpinnum_to_epromaddrbitpos (palpinnum : N) : N :=
  if palpinnum <=? 9 then palpinnum - 1 else palpinnum - 2.

Definition epromdatabitpos_to_palpinnum (epromdatabitpos : N) : N :=
  epromdatabitpos + 12.

Definition gen_bitmask (numbits : N) : N := N.shiftl 1 numbits - 1.

(** [dumpdata[addr]]; every address the loop reads is below [2^18], the
    length of the dump once the length check has passed. *)
Definition dump_at (dumpdata : list Byte.byte) (addr : N) : N :=
  Byte.to_N (nth (N.to_nat addr) dumpdata Byte.x00).

Record maps := {
  depends_map : list N;
  oe_depends_map : list N;
  seen_low_output : list N;
  seen_high_output : list N
}.

Definition initial_maps : maps :=
  {| depends_map := repeat 0 8; oe_depends_map := repeat 0 8;
     seen_low_output := repeat 0 8; seen_high_output := repeat 0 8 |}.

(** [l[k] |= bit] *)
Definition or_at (k : N) (bit : N) (l : list N) : list N :=
  set_at (N.to_nat k) (N.lor (nth (N.to_nat k) l 0) bit) l.

Definition seen (data outputpinbit outputpinbitpos : N) (st : maps) : maps :=
  if N.land data outputpinbit =? 0
  then {| depends_map := depends_map st;
          oe_depends_map := oe_depends_map st;
          seen_low_output :=
            set_at (N.to_nat outputpinbitpos) 1 (seen_low_output st);
          seen_high_output := seen_high_output st |}
  else {| depends_map := depends_map st;
          oe_depends_map := oe_depends_map st;
          seen_low_output := seen_low_output st;
          seen_high_output :=
            set_at (N.to_nat outputpinbitpos) 1 (seen_high_output st) |}.

(** The body of [for outputpinbitpos in range(0, 8)]; [addr & ~bit] on
    non-negative integers is [N.ldiff]. *)
Definition probe_output (dumpdata : list Byte.byte) (bitpos addr : N)
    (st : maps) (outputpinbitpos : N) : maps :=
  let bit := N.shiftl 1 bitpos in
  let data0 := dump_at dumpdata addr in
  let data1 := dump_at dumpdata (N.lor addr bit) in
  let outputpinnum := epromdatabitpos_to_palpinnum outputpinbitpos in
  let outputpinbit := N.shiftl 1 outputpinbitpos in
  let inputpinnum := epromaddrbitpos_to_palpinnum bitpos in
  if inputpinnum =? outputpinnum then st else
  let highzprobedatabit := outputpinbit in
  let highzprobeaddrbitpos := palpinnum_to_epromaddrbitpos outputpinnum in
  let highzprobeaddrbit := N.shiftl 1 highzprobeaddrbitpos in
  let highz_on_bitclear :=
    negb (N.land (dump_at dumpdata (N.ldiff addr highzprobeaddrbit))
                 highzprobedatabit
          =? N.land (dump_at dumpdata (N.lor addr highzprobeaddrbit))
                    highzprobedatabit) in
  let highz_on_bitset :=
    negb (N.land (dump_at dumpdata
                    (N.ldiff (N.lor addr bit) highzprobeaddrbit))
                 highzprobedatabit
          =? N.land (dump_at dumpdata
                       (N.lor (N.lor addr bit) highzprobeaddrbit))
                    highzprobedatabit) in
  let st :=
    if negb (Bool.eqb highz_on_bitclear highz_on_bitset)
    then {| depends_map := depends_map st;
            oe_depends_map := or_at outputpinbitpos bit (oe_depends_map st);
            seen_low_output := seen_low_output st;
            seen_high_output := seen_high_output st |}
    else st in
  let st :=
    if negb (N.land data0 outputpinbit =? N.land data1 outputpinbit)
       && negb highz_on_bitclear && negb highz_on_bitset
    then {| depends_map := or_at outputpinbitpos bit (depends_map st);
            oe_depends_map := oe_depends_map st;
            seen_low_output := seen_low_output st;
            seen_high_output := seen_high_output st |}
    else st in
  let st :=
    if negb highz_on_bitclear
    then seen data0 outputpinbit outputpinbitpos st else st in
  if negb highz_on_bitset
  then seen data1 outputpinbit outputpinbitpos st else st.

(** The address with the 18th bit inserted, clear, at [bitpos]. *)
Definition insert_bit (i bitpos : N) : N :=
  let mask_left := N.shiftl (gen_bitmask (17 - bitpos)) bitpos in
  let mask_right := gen_bitmask bitpos in
  N.lor (N.shiftl (N.land i mask_left) 1) (N.land i mask_right).

(** The body of [for bitpos in range(18)]. *)
Definition probe_bit (dumpdata : list Byte.byte) (i : N) (st : maps)
    (bitpos : N) : maps :=
  fold_left (probe_output dumpdata bitpos (insert_bit i bitpos))
            (range 8) st.

(** The body of [for i in range(2 ** 17)]. *)
Definition probe_address (dumpdata : list Byte.byte) (st : maps) (i : N)
  : maps :=
  fold_left (probe_bit dumpdata i) (range 18) st.

Definition discover_dependencies (dumpdata : list Byte.byte) : maps :=
  fold_left (probe_address dumpdata) (range (2 ^ 17)) initial_maps.

End Pete.

(** ** simplegalasm.py *)

Module GalAsm.
Import PyStr.
Open Scope string_scope.
Open Scope nat_scope.

(** *** Tokens *)

Inductive Token :=
| TokenKeywordPin (linenumber : N)
| TokenIdentifier (linenumber : N) (name : string)
| TokenNumber (linenumber : N) (number : N)
| TokenOr (linenumber : N)
| TokenAnd (linenumber : N)
| TokenNot (linenumber : N)
| TokenEquals (linenumber : N)
| TokenDot (linenumber : N)
| TokenEndCmd (linenumber : N).

Definition linenumber (t : Token) : N :=
  match t with
  | TokenKeywordPin l | TokenIdentifier l _ | TokenNumber l _ | TokenOr l
  | TokenAnd l | TokenNot l | TokenEquals l | TokenDot l | TokenEndCmd l => l
  end.

Definition toktype (t : Token) : string :=
  match t with
  | TokenKeywordPin _ => "KeywordPin"
  | TokenIdentifier _ _ => "Identifier"
  | TokenNumber _ _ => "Number"
  | TokenOr _ => "Or"
  | TokenAnd _ => "And"
  | TokenNot _ => "Not"
  | TokenEquals _ => "Equals"
  | TokenDot _ => "Dot"
  | TokenEndCmd _ => "EndCmd"
  end.

Definition is_identifier (t : Token) : bool :=
  match t with TokenIdentifier _ _ => true | _ => false end.

Definition is_equals (t : Token) : bool :=
  match t with TokenEquals _ => true | _ => false end.

Definition is_dot (t : Token) : bool :=
  match t with TokenDot _ => true | _ => false end.

Definition is_endcmd (t : Token) : bool :=
  match t with TokenEndCmd _ => true | _ => false end.

(** *** Dictionaries with integer and string keys *)

Inductive key :=
| KInt (n : N)
| KStr (s : string).

Definition key_eqb (a b : key) : bool :=
  match a, b with
  | KInt n, KInt m => N.eqb n m
  | KStr s, KStr t => String.eqb s t
  | _, _ => false
  end.

Definition dict (V : Type) := list (key * V).

Fixpoint dget {V} (k : key) (d : dict V) : option V :=
  match d with
  | [] => None
  | (k', v) :: d' => if key_eqb k' k then Some v else dget k d'
  end.

(** [k in d] *)
Definition dmem {V} (k : key) (d : dict V) : bool :=
  match dget k d with Some _ => true | None => false end.

(** [d[k] = v] *)
Fixpoint dset {V} (k : key) (v : V) (d : dict V) : dict V :=
  match d with
  | [] => [(k, v)]
  | (k', v') :: d' =>
      if key_eqb k' k then (k', v) :: d' else (k', v') :: dset k v d'
  end.

(** *** Errors *)

(** The places of the [RuntimeError]s. *)
Inductive Error :=
| InvalidNumber (line number : N)
| Expected (what : string) (line : N) (got : string)
| PinNotFollowedByNumber (line : N)
| NumberNotFollowedByEquals (line : N)
| EqualsNotFollowedByIdentifier (line : N)
| UnexpectedTokenAfterIdentifier (line : N)
| DuplicatePinNumber (number line : N)
| DuplicatePinName (name : string) (line : N)
| InvalidSubIdentifier (name : string) (line : N)
| InvalidSyntax (line : N)
| NonNegatedEquation (outputpinname : string)
| TooManyProducts (outputpinname : string)
| UndefinedPins (outputpinname : string) (product : list string)
| NegatedOEEquation (outputpinname : string)
| TooManyOEProducts (outputpinname : string)
| InvalidPinNumber (pinnumber : N).

(** The text of the [RuntimeError]. *)
Definition message (e : Error) : string :=
  match e with
  | InvalidNumber line number =>
      "Invalid syntax in line " ++ format_d line ++ " (expected 0/1, got "
      ++ format_d number ++ ")"
  | Expected what line got =>
      "Invalid syntax in line " ++ format_d line ++ " (expected " ++ what
      ++ ", got " ++ got ++ ")"
  | PinNotFollowedByNumber line =>
      "Keyword 'PIN' not followed by a number in line " ++ format_d line
  | NumberNotFollowedByEquals line =>
      "Pin number not followed by equals in line " ++ format_d line
  | EqualsNotFollowedByIdentifier line =>
      "Equals not followed by identifier in line " ++ format_d line
  | UnexpectedTokenAfterIdentifier line =>
      "Unexpected token after identifier in line " ++ format_d line
  | DuplicatePinNumber number line =>
      "Duplicate pin number " ++ format_d number ++ " in line "
      ++ format_d line
  | DuplicatePinName name line =>
      "Duplicate pin name '" ++ name ++ "' in line " ++ format_d line
  | InvalidSubIdentifier name line =>
      "Invalid sub-identifier '" ++ name ++ "' in line " ++ format_d line
  | InvalidSyntax line => "Invalid syntax in line " ++ format_d line
  | NonNegatedEquation outputpinname =>
      "Non-negated equations unsupported (" ++ outputpinname ++ ")"
  | TooManyProducts outputpinname =>
      "More than 7 products are not supported (" ++ outputpinname ++ ")"
  | UndefinedPins outputpinname product =>
      "Equation for " ++ outputpinname ++ " contains undefined pin(s): "
      ++ join ", " product
  | NegatedOEEquation outputpinname =>
      "Negated OE equations unsupported (" ++ outputpinname ++ ")"
  | TooManyOEProducts outputpinname =>
      "More than 1 OE product is not supported (" ++ outputpinname ++ ")"
  | InvalidPinNumber pinnumber =>
      "Got invalid pin number (" ++ format_d pinnumber ++ ")"
  end.

Inductive exn :=
| RuntimeError (e : Error)
| IndexError
| KeyError (k : key)
| ValueError
| StopIteration.

(** What a call does: return, raise, or use up the fuel of the model's
    loops. *)
Inductive result (A : Type) :=
| Ok (a : A)
| Raise (e : exn)
| OutOfFuel.

Arguments Raise {A} e.
Arguments OutOfFuel {A}.

Definition bind {A B} (r : result A) (k : A -> result B) : result B :=
  match r with
  | Ok a => k a
  | Raise e => Raise e
  | OutOfFuel => OutOfFuel
  end.

Notation "x <- e ;; k" := (bind e (fun x => k))
  (at level 61, e at next level, right associativity).
Notation "' p <- e ;; k" := (bind e (fun p => k))
  (at level 61, p pattern, e at next level, right associativity).

Definition error {A} (e : Error) : result A := Raise (RuntimeError e).

Fixpoint foldM {A B} (f : A -> B -> result A) (l : list B) (a : A)
  : result A :=
  match l with
  | [] => Ok a
  | b :: l' => a' <- f a b ;; foldM f l' a'
  end.

(** [tokens[i]] *)
Definition tok (tokens : list Token) (i : nat) : result Token :=
  match nth_error tokens i with
  | Some t => Ok t
  | None => Raise IndexError
  end.

(** [d[k]] *)
Definition getitem {V} (k : key) (d : dict V) : result V :=
  match dget k d with
  | Some v => Ok v
  | None => Raise (KeyError k)
  end.

(** *** The assembler *)

Inductive SumOfProducts :=
| SopInt (v : N)
| SopList (products : list (list string)).

Record Equation := {
  negated : bool;
  sum_of_products : SumOfProducts
}.

Record Assembler := {
  _pinname_by_pinnumber : dict string;
  _pinnumber_by_pinname : dict N;
  _equations : dict Equation;
  _oe_equations : dict Equation;
  _pin_fusemap : dict (list N);
  _pin_oe_fusemap : dict (list N)
}.

Definition new_assembler : Assembler :=
  {| _pinname_by_pinnumber := []; _pinnumber_by_pinname := [];
     _equations := []; _oe_equations := [];
     _pin_fusemap := []; _pin_oe_fusemap := [] |}.

(** The [while True] loop of [_get_equation]; a product is a [set]. *)
Fixpoint get_products (fuel : nat) (tokens : list Token) (i : nat)
    (sum_of_products : list (list string)) (cur_product : list string)
  : result (nat * list (list string)) :=
  match fuel with
  | O => OutOfFuel
  | S fuel' =>
      t <- tok tokens i ;;
      ' (idneg, i) <-
        match t with
        | TokenNot _ => Ok (true, i + 1)
        | TokenIdentifier _ _ => Ok (false, i)
        | _ => error (Expected "Not/TokenIdentifier" (linenumber t)
                               (toktype t))
        end ;;
      t <- tok tokens i ;;
      match t with
      | TokenIdentifier _ name =>
          let i := i + 1 in
          let cur_product :=
            set_add string_dec (if idneg : bool then "!" ++ name else name)
                    cur_product in
          t <- tok tokens i ;;
          match t with
          | TokenAnd _ =>
              get_products fuel' tokens (i + 1) sum_of_products cur_product
          | TokenOr _ =>
              get_products fuel' tokens (i + 1)
                           (sum_of_products ++ [cur_product])%list []
          | TokenEndCmd _ => Ok (i, (sum_of_products ++ [cur_product])%list)
          | _ => error (Expected "And/Or/EndCmd" (linenumber t) (toktype t))
          end
      | _ => error (Expected "TokenIdentifier" (linenumber t) (toktype t))
      end
  end.

Definition _get_equation (tokens : list Token) (i : nat)
  : result (nat * SumOfProducts) :=
  t <- tok tokens i ;;
  match t with
  | TokenNumber line number =>
      sum_of_products <-
        (if N.eqb number 0 then Ok (SopInt 0)
         else if N.eqb number 1 then Ok (SopInt 1)
         else error (InvalidNumber line number)) ;;
      let i := i + 1 in
      t <- tok tokens i ;;
      if is_endcmd t then Ok (i, sum_of_products)
      else error (Expected "EndCmd" (linenumber t) (toktype t))
  | _ =>
      ' (i, products) <- get_products (List.length tokens) tokens i [] [] ;;
      Ok (i, SopList products)
  end.

(** [number in self._pinname_by_pinnumber], then
    [number in self._pinnumber_by_pinname]: the second test looks the
    number up among the names. *)
Definition declare_pin (self : Assembler) (number line1 : N)
    (name : string) (line3 : N) : result Assembler :=
  if dmem (KInt number) (_pinname_by_pinnumber self)
  then error (DuplicatePinNumber number line1)
  else if dmem (KInt number) (_pinnumber_by_pinname self)
  then error (DuplicatePinName name line3)
  else Ok {| _pinname_by_pinnumber :=
               dset (KInt number) name (_pinname_by_pinnumber self);
             _pinnumber_by_pinname :=
               dset (KStr name) number (_pinnumber_by_pinname self);
             _equations := _equations self;
             _oe_equations := _oe_equations self;
             _pin_fusemap := _pin_fusemap self;
             _pin_oe_fusemap := _pin_oe_fusemap self |}.

Definition set_equation (self : Assembler) (name : string) (eq : Equation)
  : Assembler :=
  {| _pinname_by_pinnumber := _pinname_by_pinnumber self;
     _pinnumber_by_pinname := _pinnumber_by_pinname self;
     _equations := dset (KStr name) eq (_equations self);
     _oe_equations := _oe_equations self;
     _pin_fusemap := _pin_fusemap self;
     _pin_oe_fusemap := _pin_oe_fusemap self |}.

Definition set_oe_equation (self : Assembler) (name : string)
    (eq : Equation) : Assembler :=
  {| _pinname_by_pinnumber := _pinname_by_pinnumber self;
     _pinnumber_by_pinname := _pinnumber_by_pinname self;
     _equations := _equations self;
     _oe_equations := dset (KStr name) eq (_oe_equations self);
     _pin_fusemap := _pin_fusemap self;
     _pin_oe_fusemap := _pin_oe_fusemap self |}.

(** One round of [while i < len(tokens)]: a statement and its
    [TokenEndCmd]. *)
Definition statement (tokens : list Token) (i : nat) (self : Assembler)
  : result (nat * Assembler) :=
  t <- tok tokens i ;;
  ' (eqneg, i) <-
    match t with
    | TokenNot _ =>
        t1 <- tok tokens (i + 1) ;;
        if is_identifier t1 then Ok (true, i + 1) else Ok (false, i)
    | _ => Ok (false, i)
    end ;;
  t <- tok tokens i ;;
  match t with
  | TokenKeywordPin line =>
      t1 <- tok tokens (i + 1) ;;
      match t1 with
      | TokenNumber line1 number =>
          t2 <- tok tokens (i + 2) ;;
          if negb (is_equals t2) then error (NumberNotFollowedByEquals line1)
          else
            t3 <- tok tokens (i + 3) ;;
            match t3 with
            | TokenIdentifier line3 name =>
                t4 <- tok tokens (i + 4) ;;
                if negb (is_endcmd t4)
                then error (UnexpectedTokenAfterIdentifier (linenumber t4))
                else
                  self <- declare_pin self number line1 name line3 ;;
                  Ok (i + 4 + 1, self)
            | _ => error (EqualsNotFollowedByIdentifier (linenumber t3))
            end
      | _ => error (PinNotFollowedByNumber line)
      end
  | TokenIdentifier line name =>
      t1 <- tok tokens (i + 1) ;;
      if is_equals t1 then
        ' (i, sum_of_products) <- _get_equation tokens (i + 2) ;;
        Ok (i + 1,
            set_equation self name
              {| negated := eqneg; sum_of_products := sum_of_products |})
      else if is_dot t1 then
        t2 <- tok tokens (i + 2) ;;
        match t2 with
        | TokenIdentifier _ sub =>
            t3 <- tok tokens (i + 3) ;;
            if is_equals t3 then
              if negb (String.eqb sub "OE" || String.eqb sub "oe")
              then error (InvalidSubIdentifier sub line)
              else
                ' (i, sum_of_products) <- _get_equation tokens (i + 4) ;;
                Ok (i + 1,
                    set_oe_equation self name
                      {| negated := eqneg;
                         sum_of_products := sum_of_products |})
            else error (InvalidSyntax line)
        | _ => error (InvalidSyntax line)
        end
      else error (InvalidSyntax line)
  | TokenEndCmd _ => Ok (i + 1, self)
  | _ => error (InvalidSyntax (linenumber t))
  end.

(** [while i < len(tokens)] *)
Fixpoint statements (fuel : nat) (tokens : list Token) (i : nat)
    (self : Assembler) : result Assembler :=
  if List.length tokens <=? i then Ok self
  else match fuel with
       | O => OutOfFuel
       | S fuel' =>
           ' (i, self) <- statement tokens i self ;;
           statements fuel' tokens i self
       end.

(** [range(19, 11, -1)] *)
Definition output_pins : list N := [19; 18; 17; 16; 15; 14; 13; 12]%N.

Definition input_pins : list N :=
  [2; 1; 3; 18; 4; 17; 5; 16; 6; 15; 7; 14; 8; 13; 9; 11]%N.

(** [fusemap[0:32] = 32 * (1, )] *)
Definition set_first_row (fusemap : list N) : list N :=
  (repeat 1%N 32 ++ skipn 32 fusemap)%list.

(** The body of [for inputidx, inputpinnum in enumerate((2, 1, ...))],
    with the fuses of the product starting at [base]. *)
Definition place_input (self : Assembler) (base : nat)
    (st : list string * list N) (input : nat * N)
  : result (list string * list N) :=
  let '(product, fusemap) := st in
  let '(inputidx, inputpinnum) := input in
  inputpinname <- getitem (KInt inputpinnum) (_pinname_by_pinnumber self) ;;
  let fuseidx := base + 2 * inputidx in
  let '(product, fusemap) :=
    if set_mem string_dec inputpinname product
    then (set_remove string_dec inputpinname product, fusemap)
    else (product, set_at fuseidx 1%N fusemap) in
  let '(product, fusemap) :=
    if set_mem string_dec ("!" ++ inputpinname) product
    then (set_remove string_dec ("!" ++ inputpinname) product, fusemap)
    else (product, set_at (fuseidx + 1) 1%N fusemap) in
  Ok (product, fusemap).

(** The input loop and the check that follows it. *)
Definition place_product (self : Assembler) (outputpinname : string)
    (base : nat) (_product : list string) (fusemap : list N)
  : result (list N) :=
  ' (product, fusemap) <-
    foldM (place_input self base) (enumerate input_pins)
          (_product, fusemap) ;;
  if negb (List.length product =? 0)
  then error (UndefinedPins outputpinname product)
  else Ok fusemap.

(** [for _product in eq.sum_of_products] *)
Fixpoint place_products (self : Assembler) (outputpinname : string)
    (productidx : nat) (products : list (list string))
    (pin_fusemap : list N) : result (list N) :=
  match products with
  | [] => Ok pin_fusemap
  | _product :: rest =>
      if 6 <? productidx then error (TooManyProducts outputpinname)
      else
        pin_fusemap <-
          place_product self outputpinname (32 * productidx) _product
                        pin_fusemap ;;
        place_products self outputpinname (productidx + 1) rest pin_fusemap
  end.

(** The [if outputpinname in self._equations] block. *)
Definition place_equation (self : Assembler) (outputpinname : string)
    (fusemaps : list N * list N) : result (list N * list N) :=
  let '(pin_fusemap, pin_oe_fusemap) := fusemaps in
  match dget (KStr outputpinname) (_equations self) with
  | Some eq =>
      let pin_oe_fusemap :=
        if negb (dmem (KStr outputpinname) (_oe_equations self))
        then set_first_row pin_oe_fusemap else pin_oe_fusemap in
      if negb (negated eq) then error (NonNegatedEquation outputpinname)
      else
        match sum_of_products eq with
        | SopInt v =>
            Ok (if negb (N.eqb v 0) then set_first_row pin_fusemap
                else pin_fusemap, pin_oe_fusemap)
        | SopList products =>
            pin_fusemap <-
              place_products self outputpinname 0 products pin_fusemap ;;
            Ok (pin_fusemap, pin_oe_fusemap)
        end
  | None => Ok (pin_fusemap, pin_oe_fusemap)
  end.

(** The [if outputpinname in self._oe_equations] block. *)
Definition place_oe_equation (self : Assembler) (outputpinname : string)
    (pin_oe_fusemap : list N) : result (list N) :=
  match dget (KStr outputpinname) (_oe_equations self) with
  | Some eq =>
      if negated eq then error (NegatedOEEquation outputpinname)
      else
        match sum_of_products eq with
        | SopInt v =>
            Ok (if negb (N.eqb v 0) then set_first_row pin_oe_fusemap
                else pin_oe_fusemap)
        | SopList products =>
            if 1 <? List.length products
            then error (TooManyOEProducts outputpinname)
            else
              match products with
              | [] => Raise IndexError
              | _product :: _ =>
                  place_product self outputpinname 0 _product pin_oe_fusemap
              end
        end
  | None => Ok pin_oe_fusemap
  end.

(** The body of [for outputidx, outputpinnum in enumerate(range(19, 11, -1))]. *)
Definition assemble_pin (self : Assembler) (outputpinnum : N)
  : result Assembler :=
  outputpinname <- getitem (KInt outputpinnum) (_pinname_by_pinnumber self) ;;
  let pin_fusemap := repeat 0%N (7 * 32) in
  let pin_oe_fusemap := repeat 0%N 32 in
  ' (pin_fusemap, pin_oe_fusemap) <-
    place_equation self outputpinname (pin_fusemap, pin_oe_fusemap) ;;
  pin_oe_fusemap <- place_oe_equation self outputpinname pin_oe_fusemap ;;
  Ok {| _pinname_by_pinnumber := _pinname_by_pinnumber self;
        _pinnumber_by_pinname := _pinnumber_by_pinname self;
        _equations := _equations self;
        _oe_equations := _oe_equations self;
        _pin_fusemap := dset (KInt outputpinnum) pin_fusemap
                             (_pin_fusemap self);
        _pin_oe_fusemap := dset (KInt outputpinnum) pin_oe_fusemap
                                (_pin_oe_fusemap self) |}.

(** The statements of the token stream, into a fresh assembler. *)
Definition parse (tokens : list Token) : result Assembler :=
  statements (List.length tokens) tokens 0 new_assembler.

Definition assemble (tokens : list Token) : result Assembler :=
  self <- parse tokens ;;
  foldM assemble_pin output_pins self.

(** *** The JEDEC writer *)

(** [bytearray(2194 * b'0')] *)
Definition new_fusemap : string := zeros 2194.

Definition _pinnumber_to_index (pinnumber : N) : result nat :=
  if ((19 <? pinnumber) || (pinnumber <? 12))%N
  then error (InvalidPinNumber pinnumber)
  else Ok (N.to_nat (19 - pinnumber)).

(** [ord('1') if status else ord('0')] *)
Definition fuse_char (status : N) : ascii :=
  if N.eqb status 0 then "0"%char else "1"%char.

(** [s = iter(statuses)], then [count] times
    [fusemap[offset + i] = ... next(s) ...]. *)
Fixpoint set_fuses (count : nat) (offset : nat) (statuses : list N)
    (fusemap : string) : result string :=
  match count with
  | O => Ok fusemap
  | S count' =>
      match statuses with
      | [] => Raise StopIteration
      | status :: rest =>
          set_fuses count' (offset + 1) rest
                    (set_char offset (fuse_char status) fusemap)
      end
  end.

Definition set_pin_oe_term (fusemap : string) (pinnumber : N)
    (statuses : list N) : result string :=
  index <- _pinnumber_to_index pinnumber ;;
  set_fuses 32 (index * 256) statuses fusemap.

Definition set_pin_terms (fusemap : string) (pinnumber : N)
    (statuses : list N) : result string :=
  index <- _pinnumber_to_index pinnumber ;;
  set_fuses 224 (index * 256 + 32) statuses fusemap.

Definition set_output_polarity (fusemap : string) (pinnumber status : N)
  : result string :=
  index <- _pinnumber_to_index pinnumber ;;
  Ok (set_char (2048 + index) (fuse_char status) fusemap).

Definition set_signature (fusemap : string) (statuses : list N)
  : result string :=
  set_fuses 64 2056 statuses fusemap.

Definition set_ac1_bit (fusemap : string) (pinnumber status : N)
  : result string :=
  index <- _pinnumber_to_index pinnumber ;;
  Ok (set_char (2120 + index) (fuse_char status) fusemap).

Definition set_product_term_disable_bits (fusemap : string) (pinnumber : N)
    (statuses : list N) : result string :=
  pinindex <- _pinnumber_to_index pinnumber ;;
  set_fuses 8 (2128 + 8 * pinindex) statuses fusemap.

Definition set_syn (fusemap : string) (status : N) : string :=
  set_char 2192 (fuse_char status) fusemap.

Definition set_ac0 (fusemap : string) (status : N) : string :=
  set_char 2193 (fuse_char status) fusemap.

(** [int(s, 2)] for a string of binary digits. *)
Fixpoint int2_from (acc : N) (s : string) : result N :=
  match s with
  | EmptyString => Ok acc
  | String c s' =>
      if Ascii.eqb c "0" then int2_from (2 * acc) s'
      else if Ascii.eqb c "1" then int2_from (2 * acc + 1) s'
      else Raise ValueError
  end.

Definition int2 (s : string) : result N :=
  match s with
  | EmptyString => Raise ValueError
  | _ => int2_from 0 s
  end.

(** The [*L] line of the fuses [offset .. offset + len - 1], left out
    when they are all ['0']. *)
Definition fuse_line (fusemap : string) (offset len : nat) : string :=
  let line := slice offset (offset + len) fusemap in
  if negb (String.eqb line (zeros len))
  then "*L" ++ format_04d (N.of_nat offset) ++ " " ++ line ++ crlf
  else "".

(** [range(start, stop, step)] for a positive step. *)
Definition range_step (start stop step : nat) : list nat :=
  map (fun k => start + k * step) (seq 0 ((stop - start + step - 1) / step)).

(** The sum of the fuse bytes, eight fuses to a byte, lowest fuse first. *)
Definition fuse_checksum (fusemap : string) : result N :=
  foldM (fun fusecsum i =>
           b <- int2 (reverse (slice i (i + 8) fusemap)) ;;
           Ok (fusecsum + b)%N)
        (range_step 0 (String.length fusemap) 8) 0%N.

Definition STX : string := String (ascii_of_N 2) EmptyString.
Definition ETX : string := String (ascii_of_N 3) EmptyString.

(** The file up to and including the [*QF] and [*L] lines. *)
Definition jed_fuses (fusemap : string) : string :=
  STX ++ "Device: GAL16V8" ++ crlf ++ "*F0" ++ crlf ++ "*G0" ++ crlf
  ++ "*QF" ++ format_d (N.of_nat (String.length fusemap)) ++ crlf
  ++ String.concat "" (map (fun offset => fuse_line fusemap offset 32)
                    (range_step 0 2048 32))
  ++ fuse_line fusemap 2048 8
  ++ fuse_line fusemap 2056 64
  ++ fuse_line fusemap 2120 8
  ++ fuse_line fusemap 2128 64
  ++ fuse_line fusemap 2192 1
  ++ fuse_line fusemap 2193 1.

(** The framed part of the file, [STX] to [ETX]. *)
Definition jed_frame (fusemap : string) : result string :=
  fusecsum <- fuse_checksum fusemap ;;
  Ok (jed_fuses fusemap ++ "*C" ++ format_04x fusecsum ++ crlf
      ++ "*" ++ crlf ++ ETX).

Definition get_file (fusemap : string) : result string :=
  data <- jed_frame fusemap ;;
  let csum := N.land (byte_sum data) 65535 in
  Ok (data ++ format_04x csum).

(** *** The program *)

(** The body of [for pinnumber in range(19, 11, -1)] at the end of the
    file. *)
Definition write_pin (assembler : Assembler) (fusemap : string)
    (pinnumber : N) : result string :=
  pin_oe_fusemap <- getitem (KInt pinnumber) (_pin_oe_fusemap assembler) ;;
  pin_fusemap <- getitem (KInt pinnumber) (_pin_fusemap assembler) ;;
  fusemap <- set_pin_oe_term fusemap pinnumber pin_oe_fusemap ;;
  fusemap <- set_pin_terms fusemap pinnumber pin_fusemap ;;
  fusemap <- set_output_polarity fusemap pinnumber 0 ;;
  fusemap <- set_ac1_bit fusemap pinnumber 1 ;;
  fusemap <- set_product_term_disable_bits fusemap pinnumber
               [1; 1; 1; 1; 1; 1; 1; 1]%N ;;
  Ok (set_ac0 (set_syn fusemap 1) 1).

(** [jedwriter] after the loop over the pins. *)
Definition fill_fusemap (assembler : Assembler) : result string :=
  foldM (write_pin assembler) output_pins new_fusemap.

(** From the tokens of the lexer to the contents of the [.jed] file. *)
Definition simplegalasm (tokens : list Token) : result string :=
  assembler <- assemble tokens ;;
  fusemap <- fill_fusemap assembler ;;
  get_file fusemap.

End GalAsm.

(** ** pete.py: the helpers of the analysis *)

Module PeteHelpers.
Import PyStr Pete.
Open Scope N_scope.

(** The only one of the four pin conversions whose result can be
    negative. *)
Definition palpinnum_to_epromdatabitpos (palpinnum : Z) : Z :=
  (palpinnum - 12)%Z.

(** The [while bit <= mask] loop of [iterate_mask], which collects the
    set bits of [mask], lowest first; [None] when the fuel runs out. *)
Fixpoint mask_bits (fuel : nat) (mask bit : N) (bits : list N)
  : option (list N) :=
  match fuel with
  | O => None
  | S fuel' =>
      if bit <=? mask
      then mask_bits fuel' mask (N.shiftl bit 1)
                     (if negb (N.land mask bit =? 0)
                      then (bits ++ [bit])%list else bits)
      else Some bits
  end.

(** The body of [for n in range(2 ** len(bits))]: the value yielded for
    [n]. *)
Definition scatter (bits : list N) (n : N) : N :=
  fst (fold_left (fun (st : N * N) bit =>
                    let '(r, srcmask) := st in
                    (if negb (N.land n srcmask =? 0) then N.lor r bit else r,
                     N.shiftl srcmask 1))
                 bits (0, 1)).

(** The values [iterate_mask(mask)] yields, in order. *)
Definition iterate_mask (mask : N) : option (list N) :=
  if mask <? 1 then Some []
  else
    match mask_bits (S (N.to_nat (N.size mask))) mask 1 [] with
    | Some bits =>
        Some (map (scatter bits) (range (2 ^ N.of_nat (List.length bits))))
    | None => None
    end.

(** The [while bitnum < bitcount] loop of [get_set_bits]. *)
Fixpoint get_set_bits_from (rounds : nat) (bitnum bit bits : N) : list N :=
  match rounds with
  | O => []
  | S rounds' =>
      (if negb (N.land bits bit =? 0) then [bitnum] else [])
      ++ get_set_bits_from rounds' (bitnum + 1) (N.shiftl bit 1) bits
  end.

Definition get_set_bits (bitcount : nat) (bits : N) : list N :=
  get_set_bits_from bitcount 0 1 bits.

End PeteHelpers.

(** ** pete.py: the level analysis of an output pin *)

Module PeteAnalysis.
Import PyStr Pete PeteHelpers BoolExpr.
Open Scope string_scope.
Open Scope N_scope.
Open Scope list_scope.

(** What can end the analysis of a pin early: [pin_names[pinnum]] for a
    missing key, the [RuntimeError] of the analysis, and a generator of
    the model out of fuel. *)
Inductive fault :=
| KeyError (pinnum : N)
| NoDrivenCombination (outputpinname : string)
| OutOfFuel.

(** The text of the [RuntimeError]. *)
Definition fault_message (outputpinname : string) : string :=
  ("Could not find input combination which does not lead to high-z for pin "
   ++ outputpinname)%string.

Definition outcome (A : Type) : Type := (fault + A)%type.

Definition bind {A B} (r : outcome A) (k : A -> outcome B) : outcome B :=
  match r with
  | inl e => inl e
  | inr a => k a
  end.

Fixpoint foldM {A B} (f : A -> B -> outcome A) (l : list B) (a : A)
  : outcome A :=
  match l with
  | [] => inr a
  | b :: l' => bind (f a b) (foldM f l')
  end.

(** [pin_names[pinnum]] *)
Definition pin_name_of (pin_names : list (N * string)) (pinnum : N)
  : outcome string :=
  match find (fun e => fst e =? pinnum) pin_names with
  | Some e => inr (snd e)
  | None => inl (KeyError pinnum)
  end.

(** [for epromaddr in iterate_mask(mask)] *)
Definition iterate (mask : N) : outcome (list N) :=
  match iterate_mask mask with
  | Some values => inr values
  | None => inl OutOfFuel
  end.

(** The body of [for inputpinbitpos in range(0, 18)], which collects the
    names and the address bits of the pins the output depends on. *)
Definition depends_on_input (pin_names : list (N * string))
    (depends_on highzprobeaddrbit : N) (acc : list string * list N)
    (inputpinbitpos : N) : outcome (list string * list N) :=
  let '(depends_on_pinnames, depends_on_bits) := acc in
  let inputpinbit := N.shiftl 1 inputpinbitpos in
  let inputpinnum := epromaddrbitpos_to_palpinnum inputpinbitpos in
  bind (pin_name_of pin_names inputpinnum) (fun inputpinname =>
  if negb (N.land depends_on inputpinbit =? 0)
  then if negb (inputpinbit =? highzprobeaddrbit)
       then inr (depends_on_pinnames ++ [inputpinname],
                 depends_on_bits ++ [inputpinbit])
       else inr acc
  else inr acc).

(** The body of [for pinidx in range(numpins)]: the condition of the
    pin in the truth table line, and its bit of the minterm. *)
Definition condition (notstr : string) (depends_on_pinnames : list string)
    (depends_on_bits : list N) (epromaddr : N) (st : list string * N)
    (pinidx : nat) : list string * N :=
  let '(conditions, minterm) := st in
  if N.land epromaddr (nth pinidx depends_on_bits 0) =? 0
  then (conditions ++ [(notstr ++ nth pinidx depends_on_pinnames "")%string],
        minterm)
  else (conditions ++ [(" " ++ nth pinidx depends_on_pinnames "")%string],
        N.lor minterm (N.shiftl 1 (N.of_nat pinidx))).

Definition combination (notstr : string) (depends_on_pinnames : list string)
    (depends_on_bits : list N) (epromaddr : N) : list string * N :=
  fold_left (condition notstr depends_on_pinnames depends_on_bits epromaddr)
            (seq 0 (List.length depends_on_bits)) ([], 0).

(** Toggling the high-Z probe bit does not change the data bit of the
    pin. *)
Definition driven_at (dumpdata : list Byte.byte)
    (outputpinbit highzprobeaddrbit epromaddr2 : N) : bool :=
  N.land (dump_at dumpdata epromaddr2) outputpinbit
  =? N.land (dump_at dumpdata (N.lxor epromaddr2 highzprobeaddrbit))
            outputpinbit.

(** The first loop over [iterate_mask(otherinputbitsmask)]: the data at
    the first address at which the pin is driven, [None] when there is
    none. *)
Definition find_data (dumpdata : list Byte.byte)
    (outputpinbit highzprobeaddrbit epromaddr : N) (others : list N)
  : option N :=
  match find (fun otherepromaddrbits =>
                driven_at dumpdata outputpinbit highzprobeaddrbit
                          (N.lor epromaddr otherepromaddrbits)) others with
  | Some otherepromaddrbits =>
      Some (dump_at dumpdata (N.lor epromaddr otherepromaddrbits))
  | None => None
  end.

(** The second loop: some address has A17..A10 equal to D7..D0. *)
Definition is_input_relevant (dumpdata : list Byte.byte) (epromaddr : N)
    (others : list N) : bool :=
  existsb (fun otherepromaddrbits =>
             let epromaddr2 := N.lor epromaddr otherepromaddrbits in
             N.shiftr (N.land epromaddr2 261120) 10
             =? dump_at dumpdata epromaddr2) others.

Record tables := {
  dontcareconditionslist : list (list string);
  negconditionslist : list (list string);
  posconditionslist : list (list string);
  dontcareterms : list N;
  negminterms : list N;
  posminterms : list N
}.

Definition empty_tables : tables :=
  {| dontcareconditionslist := []; negconditionslist := [];
     posconditionslist := []; dontcareterms := []; negminterms := [];
     posminterms := [] |}.

(** The body of [for epromaddr in iterate_mask(depends_on)]. *)
Definition classify (notstr : string) (dumpdata : list Byte.byte)
    (outputpinname : string) (depends_on outputpinbit highzprobeaddrbit : N)
    (depends_on_pinnames : list string) (depends_on_bits : list N)
    (t : tables) (epromaddr : N) : outcome tables :=
  let '(conditions, minterm) :=
    combination notstr depends_on_pinnames depends_on_bits epromaddr in
  let otherinputbitsmask := N.lxor (2 ^ 18 - 1) depends_on in
  bind (iterate otherinputbitsmask) (fun others =>
  match find_data dumpdata outputpinbit highzprobeaddrbit epromaddr others with
  | None => inl (NoDrivenCombination outputpinname)
  | Some data =>
      if negb (is_input_relevant dumpdata epromaddr others)
      then inr {| dontcareconditionslist :=
                    dontcareconditionslist t ++ [conditions];
                  negconditionslist := negconditionslist t;
                  posconditionslist := posconditionslist t;
                  dontcareterms := dontcareterms t ++ [minterm];
                  negminterms := negminterms t;
                  posminterms := posminterms t |}
      else if N.land data outputpinbit =? 0
      then inr {| dontcareconditionslist := dontcareconditionslist t;
                  negconditionslist := negconditionslist t ++ [conditions];
                  posconditionslist := posconditionslist t;
                  dontcareterms := dontcareterms t;
                  negminterms := negminterms t ++ [minterm];
                  posminterms := posminterms t |}
      else inr {| dontcareconditionslist := dontcareconditionslist t;
                  negconditionslist := negconditionslist t;
                  posconditionslist := posconditionslist t ++ [conditions];
                  dontcareterms := dontcareterms t;
                  negminterms := negminterms t;
                  posminterms := posminterms t ++ [minterm] |}
  end).

(** The analysis of the level of an output pin whose [depends_on] is not
    0, up to the three lists of minterms: the names of the pins it
    depends on and the lists. *)
Definition level_analysis (pin_names : list (N * string)) (notstr : string)
    (dumpdata : list Byte.byte) (outputpinbitpos depends_on : N)
  : outcome (list string * tables) :=
  let outputpinnum := epromdatabitpos_to_palpinnum outputpinbitpos in
  bind (pin_name_of pin_names outputpinnum) (fun outputpinname =>
  let highzprobeaddrbitpos := palpinnum_to_epromaddrbitpos outputpinnum in
  let highzprobeaddrbit := N.shiftl 1 highzprobeaddrbitpos in
  bind (foldM (depends_on_input pin_names depends_on highzprobeaddrbit)
              (range 18) ([], []))
       (fun '(depends_on_pinnames, depends_on_bits) =>
  let outputpinbit := N.shiftl 1 outputpinbitpos in
  bind (iterate depends_on) (fun addrs =>
  bind (foldM (classify notstr dumpdata outputpinname depends_on outputpinbit
                        highzprobeaddrbit depends_on_pinnames depends_on_bits)
              addrs empty_tables)
       (fun t => inr (depends_on_pinnames, t))))).

(** [negresults = boolexprsimplifier.simplify_minterms(...)] *)
Definition level_equation (set_iter : forall A : Type, list A -> list A)
    (pin_names : list (N * string)) (notstr : string)
    (dumpdata : list Byte.byte) (outputpinbitpos depends_on : N)
  : outcome (list string * simplest) :=
  bind (level_analysis pin_names notstr dumpdata outputpinbitpos depends_on)
       (fun '(depends_on_pinnames, t) =>
  match simplify_minterms set_iter (List.length depends_on_pinnames)
                          (negminterms t) (dontcareterms t) with
  | Some negresults => inr (depends_on_pinnames, negresults)
  | None => inl OutOfFuel
  end).

End PeteAnalysis.

(** ** Generic facts: loops, dictionaries, bit sets *)

Module Facts.

Lemma iterate_nat_add {S R} (step : S -> S + R) a b s :
  iterate_nat step (a + b) s =
  match iterate_nat step a s with
  | inl s' => iterate_nat step b s'
  | inr r => inr r
  end.
Proof.
  revert s; induction a as [|a IH]; intros s; simpl; auto.
  destruct (step s); auto.
Qed.

Lemma iterate_pos_nat {S R} (step : S -> S + R) p s :
  iterate_pos step p s = iterate_nat step (Pos.to_nat p) s.
Proof.
  revert s; induction p as [p IH|p IH|]; intros s.
  - rewrite Pos2Nat.inj_xI. simpl iterate_pos.
    replace (Datatypes.S (2 * Pos.to_nat p)) with (1 + (Pos.to_nat p + Pos.to_nat p)) by lia.
    rewrite iterate_nat_add. simpl. destruct (step s) as [s1|r]; auto.
    rewrite iterate_nat_add, IH. destruct (iterate_nat step (Pos.to_nat p) s1); auto.
  - rewrite Pos2Nat.inj_xO. simpl iterate_pos.
    replace (2 * Pos.to_nat p) with (Pos.to_nat p + Pos.to_nat p) by lia.
    rewrite iterate_nat_add, IH. destruct (iterate_nat step (Pos.to_nat p) s); auto.
  - simpl. destruct (step s); auto.
Qed.

(** A loop whose steps decrease a measure and keep an invariant ends within
    the budget given by the measure. *)
Lemma iterate_nat_terminates {S R} (step : S -> S + R) (I : S -> Prop)
  (mu : S -> nat) :
  (forall s s', I s -> step s = inl s' -> I s' /\ mu s' < mu s) ->
  forall n s, I s -> mu s < n ->
  exists r, iterate_nat step n s = inr r.
Proof.
  intros Hstep n; induction n as [|n IH]; intros s Hs Hn; [lia|].
  simpl. destruct (step s) as [s'|r] eqn:E; [|eauto].
  destruct (Hstep _ _ Hs E) as [Hs' Hlt]. apply IH; auto. lia.
Qed.

(** Invariant rule for the result of a budgeted loop. *)
Lemma iterate_nat_invariant {S R} (step : S -> S + R) (I : S -> Prop)
  (Q : R -> Prop) :
  (forall s s', I s -> step s = inl s' -> I s') ->
  (forall s r, I s -> step s = inr r -> Q r) ->
  forall n s r, I s -> iterate_nat step n s = inr r -> Q r.
Proof.
  intros Hstep Hend n; induction n as [|n IH]; intros s r Hs; simpl; [discriminate|].
  destruct (step s) as [s'|r'] eqn:E.
  - apply IH. eauto.
  - intros [= <-]. eauto.
Qed.

(** *** Dictionaries *)

Section DictFacts.
Variable V : Type.
  Implicit Types (d : PyDict.t V) (k : N) (v : V).

Lemma get_In_keys k d : PyDict.get k d <> None <-> In k (PyDict.keys d).
  Proof.
    induction d as [|[k' v'] d IH]; simpl.
    - split; [congruence|tauto].
    - destruct (N.eqb_spec k' k) as [->|Hne].
      + split; [auto|congruence].
      + rewrite IH. split; [auto|]. intros [H|H]; [congruence|auto].
  Qed.

Lemma mem_In_keys k d : PyDict.mem k d = true <-> In k (PyDict.keys d).
  Proof.
    rewrite <- get_In_keys. unfold PyDict.mem.
    destruct (PyDict.get k d); split; congruence.
  Qed.

Lemma mem_get k d : PyDict.mem k d = true <-> exists v, PyDict.get k d = Some v.
  Proof.
    unfold PyDict.mem. destruct (PyDict.get k d); split; eauto; try congruence.
    intros [? ?]; congruence.
  Qed.

Lemma get_set_same k v d : PyDict.get k (PyDict.set k v d) = Some v.
  Proof.
    induction d as [|[k' v'] d IH]; simpl.
    - now rewrite N.eqb_refl.
    - destruct (N.eqb_spec k' k) as [->|Hne]; simpl.
      + now rewrite N.eqb_refl.
      + destruct (N.eqb_spec k' k); [congruence|auto].
  Qed.

Lemma get_set_other k k2 v d :
    k2 <> k -> PyDict.get k2 (PyDict.set k v d) = PyDict.get k2 d.
  Proof.
    intros Hne. induction d as [|[k' v'] d IH]; simpl.
    - destruct (N.eqb_spec k k2); [congruence|auto].
    - destruct (N.eqb_spec k' k) as [->|Hne']; simpl.
      + destruct (N.eqb_spec k k2); [congruence|auto].
      + destruct (N.eqb_spec k' k2); auto.
  Qed.

Lemma keys_set k v d :
    PyDict.keys (PyDict.set k v d) =
    if PyDict.mem k d then PyDict.keys d else PyDict.keys d ++ [k].
  Proof.
    unfold PyDict.mem. induction d as [|[k' v'] d IH]; simpl; auto.
    destruct (N.eqb_spec k' k) as [->|Hne]; simpl; auto.
    rewrite IH. destruct (PyDict.get k d); auto.
  Qed.

Lemma keys_update k f d : PyDict.keys (PyDict.update k f d) = PyDict.keys d.
  Proof.
    induction d as [|[k' v'] d IH]; simpl; auto.
    destruct (N.eqb_spec k' k); simpl; congruence.
  Qed.

Lemma get_update_same k f d :
    PyDict.get k (PyDict.update k f d) = option_map f (PyDict.get k d).
  Proof.
    induction d as [|[k' v'] d IH]; simpl; auto.
    destruct (N.eqb_spec k' k) as [->|Hne]; simpl.
    - now rewrite N.eqb_refl.
    - destruct (N.eqb_spec k' k); [congruence|auto].
  Qed.

Lemma get_update_other k k2 f d :
    k2 <> k -> PyDict.get k2 (PyDict.update k f d) = PyDict.get k2 d.
  Proof.
    intros Hne. induction d as [|[k' v'] d IH]; simpl; auto.
    destruct (N.eqb_spec k' k) as [->|Hne']; simpl.
    - destruct (N.eqb_spec k k2); [congruence|auto].
    - destruct (N.eqb_spec k' k2); auto.
  Qed.

Lemma mem_set k x v d :
    PyDict.mem x (PyDict.set k v d) = (N.eqb k x || PyDict.mem x d).
  Proof.
    unfold PyDict.mem. destruct (N.eqb_spec k x) as [->|Hne]; simpl.
    - now rewrite get_set_same.
    - rewrite get_set_other by congruence. reflexivity.
  Qed.

Lemma NoDup_keys_set k v d :
    NoDup (PyDict.keys d) -> NoDup (PyDict.keys (PyDict.set k v d)).
  Proof.
    intros H. rewrite keys_set. destruct (PyDict.mem k d) eqn:E; auto.
    apply NoDup_app; auto.
    - constructor; [simpl; tauto|constructor].
    - intros x Hx [<-|[]]. apply mem_In_keys in Hx. congruence.
  Qed.

Lemma get_Some_In k v d : PyDict.get k d = Some v -> In (k, v) d.
  Proof.
    induction d as [|[k' v'] d IH]; simpl; [discriminate|].
    destruct (N.eqb_spec k' k) as [->|Hne]; [intros [= ->]; auto|auto].
  Qed.

Lemma In_get_NoDup k v d :
    NoDup (PyDict.keys d) -> In (k, v) d -> PyDict.get k d = Some v.
  Proof.
    induction d as [|[k' v'] d IH]; simpl; [tauto|].
    intros Hnd [[= -> ->]|Hin].
    - now rewrite N.eqb_refl.
    - inversion Hnd; subst. destruct (N.eqb_spec k' k) as [->|Hne]; auto.
      exfalso. apply H1. change k with (fst (k, v)). now apply in_map.
  Qed.
End DictFacts.

(** *** Bit sets held in [N] *)

Open Scope N_scope.

Definition pow2 (j : nat) : N := 2 ^ N.of_nat j.
Definition subm (a b : N) : Prop := N.land a b = a.
Definition full (n : nat) : N := N.ones (N.of_nat n).

Lemma pow2_bits j i : N.testbit (pow2 j) i = N.eqb (N.of_nat j) i.
Proof. unfold pow2. apply N.pow2_bits_eqb. Qed.

Lemma full_bits n i : N.testbit (full n) i = (i <? N.of_nat n).
Proof.
  unfold full. destruct (N.ltb_spec i (N.of_nat n)).
  - now apply N.ones_spec_low.
  - now apply N.ones_spec_high.
Qed.

Ltac bsolve :=
  simpl in *; try reflexivity; try discriminate; try congruence;
  repeat match goal with
         | H : ?a = ?a -> _ |- _ => specialize (H eq_refl)
         end;
  try discriminate; try congruence; auto.

Ltac bcases :=
  repeat match goal with
         | |- context [N.testbit ?a ?i] => destruct (N.testbit a i)
         | H : context [N.testbit ?a ?i] |- _ => destruct (N.testbit a i)
         end; bsolve.

Ltac bit_rewrite :=
  repeat rewrite ?N.land_spec, ?N.lxor_spec, ?N.lor_spec, ?N.ldiff_spec,
    ?pow2_bits, ?full_bits.

Ltac bitwise i := apply N.bits_inj; intro i; bit_rewrite.

Ltac at_bit H i :=
  apply (f_equal (fun z => N.testbit z i)) in H;
  repeat rewrite ?N.land_spec, ?N.lxor_spec, ?N.lor_spec, ?N.ldiff_spec,
    ?pow2_bits, ?full_bits in H.

Lemma subm_bits a b :
  subm a b <-> forall i, N.testbit a i = true -> N.testbit b i = true.
Proof.
  unfold subm; split.
  - intros H i Hi. at_bit H i. bcases.
  - intros H. bitwise i. specialize (H i). bcases.
Qed.

Lemma subm_refl a : subm a a.
Proof. apply N.land_diag. Qed.

Lemma subm_trans a b c : subm a b -> subm b c -> subm a c.
Proof. rewrite !subm_bits. auto. Qed.

Lemma subm_land_r a b : subm (N.land a b) b.
Proof. unfold subm. rewrite <- N.land_assoc, N.land_diag. reflexivity. Qed.

Lemma subm_full_lt x n : subm x (full n) <-> x < 2 ^ N.of_nat n.
Proof.
  unfold subm, full. rewrite N.land_ones. split; intros H.
  - rewrite <- H. apply N.mod_lt. apply N.pow_nonzero. discriminate.
  - now apply N.mod_small.
Qed.

Lemma shiftl_1_full n : N.shiftl 1 (N.of_nat n) - 1 = full n.
Proof.
  unfold full. rewrite N.shiftl_1_l, N.ones_equiv, N.sub_1_r. reflexivity.
Qed.

Lemma bit_values_from n j :
  bit_values n (pow2 j) = map pow2 (seq j n).
Proof.
  revert j; induction n as [|n IH]; intros j; simpl; auto.
  f_equal. rewrite <- IH. f_equal. unfold pow2.
  rewrite N.shiftl_mul_pow2, Nat2N.inj_succ, N.pow_succ_r', N.pow_1_r. lia.
Qed.

Lemma bit_values_spec n : bit_values n 1 = map pow2 (seq 0 n).
Proof. apply (bit_values_from n 0). Qed.

Lemma land_pow2_test M j :
  negb (N.land M (pow2 j) =? 0) = N.testbit M (N.of_nat j).
Proof.
  destruct (N.testbit M (N.of_nat j)) eqn:E.
  - apply negb_true_iff, N.eqb_neq. intros H. at_bit H (N.of_nat j).
    rewrite E, N.eqb_refl, N.bits_0 in H. discriminate.
  - apply negb_false_iff, N.eqb_eq. bitwise i.
    rewrite N.bits_0. destruct (N.eqb_spec (N.of_nat j) i) as [<-|]; bcases.
Qed.

(** Combining the cubes [p] and [p xor 2^j] of mask [M] gives the cube of
    mask [M xor 2^j] holding exactly the points of both. *)
Lemma merge_points M p j x :
  N.testbit M (N.of_nat j) = true -> subm p M ->
  (N.land x (N.lxor M (pow2 j)) = N.land p (N.lxor M (pow2 j))
   <-> N.land x M = p \/ N.land x M = N.lxor p (pow2 j)).
Proof.
  intros Hj Hp. rewrite subm_bits in Hp. split.
  - intros H.
    destruct (N.testbit x (N.of_nat j)) eqn:Ex, (N.testbit p (N.of_nat j)) eqn:Ep;
      [left|right|right|left]; bitwise i; at_bit H i; specialize (Hp i);
      destruct (N.eqb_spec (N.of_nat j) i) as [<-|Hi]; bcases.
  - intros [H|H]; bitwise i; at_bit H i; specialize (Hp i);
      destruct (N.eqb_spec (N.of_nat j) i) as [<-|Hi]; bcases.
Qed.

Lemma subm_lxor_pow2 M p j :
  N.testbit M (N.of_nat j) = true -> subm p M -> subm (N.lxor p (pow2 j)) M.
Proof.
  rewrite !subm_bits. intros Hj Hp i. bit_rewrite. specialize (Hp i).
  destruct (N.eqb_spec (N.of_nat j) i) as [<-|Hi]; bcases.
Qed.

Lemma subm_clear_bit M j n : subm M (full n) -> subm (N.lxor M (pow2 j)) (full n) \/ N.testbit M (N.of_nat j) = false.
Proof.
  intros H. destruct (N.testbit M (N.of_nat j)) eqn:E; auto. left.
  rewrite subm_bits in *. intros i. bit_rewrite. specialize (H i). rewrite full_bits in H.
  destruct (N.eqb_spec (N.of_nat j) i) as [<-|Hi]; bcases.
Qed.

Lemma testbit_full_lt M j n :
  subm M (full n) -> N.testbit M (N.of_nat j) = true -> (j < n)%nat.
Proof.
  rewrite subm_bits. intros H Hj. apply H in Hj. rewrite full_bits in Hj.
  apply N.ltb_lt in Hj. lia.
Qed.

Lemma lxor_pow2_twice M j : N.lxor (N.lxor M (pow2 j)) (pow2 j) = M.
Proof. rewrite N.lxor_assoc, N.lxor_nilpotent, N.lxor_0_r. reflexivity. Qed.

Lemma lxor_pow2_neq M j : N.lxor M (pow2 j) <> M.
Proof.
  intros H. at_bit H (N.of_nat j). rewrite N.eqb_refl in H. bcases.
Qed.

Lemma lxor_pow2_inj M j j' : N.lxor M (pow2 j) = N.lxor M (pow2 j') -> j = j'.
Proof.
  intros H. at_bit H (N.of_nat j). rewrite N.eqb_refl in H.
  destruct (N.eqb_spec (N.of_nat j') (N.of_nat j)) as [E|E]; [lia|bcases].
Qed.

(** *** [bit_count] *)

Lemma bit_count_double x : bit_count (N.double x) = bit_count x.
Proof. destruct x; reflexivity. Qed.

Lemma bit_count_succ_double x : bit_count (N.succ_double x) = S (bit_count x).
Proof. destruct x; reflexivity. Qed.

Lemma N_binary_cases x : x = N.double (N.div2 x) \/ x = N.succ_double (N.div2 x).
Proof. destruct x as [|[p|p|]]; simpl; auto. Qed.

Lemma bit_count_flip M j :
  N.testbit M (N.of_nat j) = true ->
  bit_count M = S (bit_count (N.lxor M (pow2 j))).
Proof.
  revert M; induction j as [|j IH]; intros M Hj.
  - destruct M as [|[p|p|]]; simpl in *; try discriminate; reflexivity.
  - assert (E: pow2 (Datatypes.S j) = N.double (pow2 j)).
    { unfold pow2. rewrite Nat2N.inj_succ, N.pow_succ_r'. symmetry. apply N.double_spec. }
    rewrite E. rewrite Nat2N.inj_succ in Hj.
    destruct (N_binary_cases M) as [HM|HM];
      generalize dependent (N.div2 M); intros h HM; subst M.
    + rewrite N.double_spec, N.testbit_even_succ in Hj by lia.
      rewrite bit_count_double.
      replace (N.lxor (N.double h) (N.double (pow2 j)))
        with (N.double (N.lxor h (pow2 j))).
      * rewrite bit_count_double. now apply IH.
      * destruct h, (pow2 j); reflexivity.
    + rewrite N.succ_double_spec, N.testbit_odd_succ in Hj by lia.
      rewrite bit_count_succ_double.
      replace (N.lxor (N.succ_double h) (N.double (pow2 j)))
        with (N.succ_double (N.lxor h (pow2 j))).
      * rewrite bit_count_succ_double. f_equal. now apply IH.
      * destruct h, (pow2 j); reflexivity.
Qed.

End Facts.

(** ** Quine-McCluskey: what processing one table does *)

Module QmFacts.
Import Facts BoolExpr.
Open Scope N_scope.

(** Entries of the pending tables. *)
Definition TrueAt (pend : pending_tables) (M p : N) (a : Attrs) : Prop :=
  exists t, PyDict.get M pend = Some t /\
            PyDict.get p (true_implicants t) = Some a.

Definition DcAt (pend : pending_tables) (M p : N) : Prop :=
  exists t, PyDict.get M pend = Some t /\
            PyDict.mem p (dontcare_implicants t) = true.

Lemma keys_pending_at M f pend :
  PyDict.keys (pending_at M f pend) =
  if PyDict.mem M pend then PyDict.keys pend else PyDict.keys pend ++ [M].
Proof.
  unfold pending_at, PyDict.mem.
  destruct (PyDict.get M pend) eqn:E; rewrite keys_set; unfold PyDict.mem; now rewrite E.
Qed.

Lemma get_pending_at_same M f pend :
  PyDict.get M (pending_at M f pend) =
  Some (f match PyDict.get M pend with Some t => t | None => empty_table end).
Proof.
  unfold pending_at. destruct (PyDict.get M pend); apply get_set_same.
Qed.

Lemma get_pending_at_other M M2 f pend :
  M2 <> M -> PyDict.get M2 (pending_at M f pend) = PyDict.get M2 pend.
Proof.
  intros H. unfold pending_at. destruct (PyDict.get M pend); now apply get_set_other.
Qed.

Lemma TrueAt_add_true M' p' cov pend M p a :
  TrueAt (pending_at M' (add_true_implicant p' cov) pend) M p a <->
  (M = M' /\ p = p' /\ a = mkAttrs cov false) \/
  (~ (M = M' /\ p = p') /\ TrueAt pend M p a).
Proof.
  unfold TrueAt. destruct (N.eq_dec M M') as [->|HM].
  - rewrite get_pending_at_same. destruct (N.eq_dec p p') as [->|Hp].
    + split.
      * intros (t & [= <-] & Ht). simpl in Ht. rewrite get_set_same in Ht.
        left. intuition congruence.
      * intros [(_ & _ & ->)|(Hn & _)]; [|tauto].
        eexists; split; [reflexivity|]. simpl. apply get_set_same.
    + split.
      * intros (t & [= <-] & Ht). simpl in Ht. rewrite get_set_other in Ht by auto.
        right. split; [tauto|]. destruct (PyDict.get M' pend) eqn:E.
        -- eauto.
        -- simpl in Ht. discriminate.
      * intros [(_ & ? & _)|(_ & t & Ht & Hp')]; [congruence|].
        eexists; split; [reflexivity|]. simpl. rewrite get_set_other by auto.
        now rewrite Ht.
  - rewrite get_pending_at_other by auto. split.
    + intros H. right. tauto.
    + intros [(? & _)|(_ & H)]; [congruence|auto].
Qed.

Lemma DcAt_add_true M' p' cov pend M p :
  DcAt (pending_at M' (add_true_implicant p' cov) pend) M p <-> DcAt pend M p.
Proof.
  unfold DcAt. destruct (N.eq_dec M M') as [->|HM].
  - rewrite get_pending_at_same. split.
    + intros (t & [= <-] & Ht). simpl in Ht.
      destruct (PyDict.get M' pend) eqn:E; [eauto|discriminate].
    + intros (t & Ht & Hp). rewrite Ht. eexists; split; [reflexivity|]. auto.
  - rewrite get_pending_at_other by auto. tauto.
Qed.

Lemma TrueAt_add_dontcare M' p' pend M p a :
  TrueAt (pending_at M' (add_dontcare_implicant p') pend) M p a <->
  TrueAt pend M p a.
Proof.
  unfold TrueAt. destruct (N.eq_dec M M') as [->|HM].
  - rewrite get_pending_at_same. split.
    + intros (t & [= <-] & Ht). simpl in Ht.
      destruct (PyDict.get M' pend) eqn:E; [eauto|discriminate].
    + intros (t & Ht & Hp). rewrite Ht. eexists; split; [reflexivity|]. auto.
  - rewrite get_pending_at_other by auto. tauto.
Qed.

Lemma DcAt_add_dontcare M' p' pend M p :
  DcAt (pending_at M' (add_dontcare_implicant p') pend) M p <->
  (M = M' /\ p = p') \/ DcAt pend M p.
Proof.
  unfold DcAt. destruct (N.eq_dec M M') as [->|HM].
  - rewrite get_pending_at_same. split.
    + intros (t & [= <-] & Ht). simpl in Ht.
      destruct (N.eq_dec p p') as [->|Hp]; [auto|right].
      unfold PyDict.mem in *. rewrite get_set_other in Ht by auto.
      destruct (PyDict.get M' pend) eqn:E; [eauto|discriminate].
    + intros H. eexists; split; [reflexivity|]. simpl. unfold PyDict.mem.
      destruct (N.eq_dec p p') as [->|Hp].
      * now rewrite get_set_same.
      * rewrite get_set_other by auto.
        destruct H as [[_ ?]|(t & Ht & Hm)]; [congruence|]. now rewrite Ht.
  - rewrite get_pending_at_other by auto. split; [auto|].
    intros [[? _]|H]; [congruence|auto].
Qed.

Lemma TrueAt_key pend M p a : TrueAt pend M p a -> In M (PyDict.keys pend).
Proof. intros (t & Ht & _). apply get_In_keys. congruence. Qed.

Lemma DcAt_key pend M p : DcAt pend M p -> In M (PyDict.keys pend).
Proof. intros (t & Ht & _). apply get_In_keys. congruence. Qed.

(** *** Generic fold rules *)

Lemma fold_left_inv {A S} (f : S -> A -> S) (P : S -> Prop) l :
  (forall st x, In x l -> P st -> P (f st x)) ->
  forall init, P init -> P (fold_left f l init).
Proof.
  induction l as [|x l IH]; simpl; intros Hf init Hinit; auto.
Qed.

(** Something established by the step for [x] and kept by every step
    holds after the loop. *)
Lemma fold_left_live {A S} (f : S -> A -> S) (I : S -> Prop) (Q : S -> Prop) l x :
  In x l ->
  (forall st y, In y l -> I st -> I (f st y)) ->
  (forall st, I st -> Q (f st x)) ->
  (forall st y, In y l -> I st -> Q st -> Q (f st y)) ->
  forall init, I init -> Q (fold_left f l init).
Proof.
  intros Hx HI Hest Hkeep.
  assert (Hall: forall l', incl l' l -> forall init, I init -> Q init -> Q (fold_left f l' init)).
  { induction l' as [|y l' IH]; simpl; intros Hincl init Hi Hq; auto.
    apply IH.
    - intros z Hz; apply Hincl; now right.
    - apply HI; auto. apply Hincl; now left.
    - apply Hkeep; auto. apply Hincl; now left. }
  assert (Hgen: forall l', incl l' l -> In x l' -> forall init, I init -> Q (fold_left f l' init)).
  { induction l' as [|y l' IH]; simpl; intros Hincl Hin init Hi; [tauto|].
    assert (Hy: In y l) by (apply Hincl; now left).
    assert (Hl': incl l' l) by (intros z Hz; apply Hincl; now right).
    destruct Hin as [->|Hin].
    - apply Hall; auto.
    - apply IH; auto. }
  apply Hgen; auto. apply incl_refl.
Qed.

(** Rule with the processed prefix exposed. *)
Lemma fold_left_prefix {A S} (f : S -> A -> S) (P : list A -> S -> Prop) l :
  (forall done x rest st, l = done ++ x :: rest -> P done st ->
                          P (done ++ [x]) (f st x)) ->
  forall init, P [] init -> P l (fold_left f l init).
Proof.
  intros Hf.
  assert (H: forall rest done st, l = done ++ rest -> P done st ->
                                  P l (fold_left f rest st)).
  { induction rest as [|x rest IH]; simpl; intros done st Hl Hp.
    - rewrite app_nil_r in Hl. now subst.
    - apply (IH (done ++ [x])).
      + rewrite <- app_assoc. exact Hl.
      + eapply Hf; eauto. }
  intros init Hinit. apply (H l [] init); auto.
Qed.

Lemma fold_left_map {A B S} (f : S -> B -> S) (g : A -> B) l init :
  fold_left f (map g l) init = fold_left (fun st x => f st (g x)) l init.
Proof. revert init; induction l as [|x l IH]; simpl; auto. Qed.

End QmFacts.

Module QmTable.
Import Facts BoolExpr QmFacts.
Open Scope N_scope.

Definition flag (p : N) (t : ImplicantTable) : bool :=
  was_combined (attrs_of p t).

Definition cov_of (p : N) (t : ImplicantTable) : zset :=
  covered_minterms (attrs_of p t).

Definition inT (t : ImplicantTable) (p : N) : bool :=
  PyDict.mem p (true_implicants t).

Definition inD (t : ImplicantTable) (p : N) : bool :=
  PyDict.mem p (dontcare_implicants t).

(** Marking only sets flags: keys, covered sets and don't-cares stay. *)
Definition same_table (t t' : ImplicantTable) : Prop :=
  PyDict.keys (true_implicants t') = PyDict.keys (true_implicants t) /\
  dontcare_implicants t' = dontcare_implicants t /\
  forall p, cov_of p t' = cov_of p t.

Lemma same_table_refl t : same_table t t.
Proof. repeat split. Qed.

Lemma same_table_trans t1 t2 t3 :
  same_table t1 t2 -> same_table t2 t3 -> same_table t1 t3.
Proof.
  intros (A1 & B1 & C1) (A2 & B2 & C2). repeat split; try congruence;
    intros p; rewrite C2; apply C1.
Qed.

Lemma same_table_inT t t' p : same_table t t' -> inT t' p = inT t p.
Proof.
  intros (A & _ & _). unfold inT.
  destruct (PyDict.mem p (true_implicants t)) eqn:E.
  - apply mem_In_keys. rewrite A. now apply mem_In_keys.
  - destruct (PyDict.mem p (true_implicants t')) eqn:E'; auto.
    apply mem_In_keys in E'. rewrite A in E'. apply mem_In_keys in E'. congruence.
Qed.

Lemma same_table_inD t t' p : same_table t t' -> inD t' p = inD t p.
Proof. intros (_ & B & _). unfold inD. now rewrite B. Qed.

Lemma attrs_of_mark p q t :
  attrs_of q (mark_true p t) =
  if N.eqb p q && inT t p then mark_as_combined (attrs_of q t) else attrs_of q t.
Proof.
  unfold attrs_of, mark_true, inT, PyDict.mem; simpl.
  destruct (N.eqb_spec p q) as [->|Hne]; simpl.
  - rewrite get_update_same. destruct (PyDict.get q (true_implicants t)); reflexivity.
  - rewrite get_update_other by congruence. reflexivity.
Qed.

Lemma flag_mark p q t :
  flag q (mark_true p t) = flag q t || (N.eqb p q && inT t p).
Proof.
  unfold flag. rewrite attrs_of_mark.
  destruct (N.eqb p q && inT t p); simpl.
  - now rewrite orb_true_r.
  - now rewrite orb_false_r.
Qed.

Lemma same_table_mark p t : same_table t (mark_true p t).
Proof.
  repeat split.
  - simpl. apply keys_update.
  - intros q. unfold cov_of. rewrite attrs_of_mark.
    destruct (N.eqb p q && inT t p); reflexivity.
Qed.

Lemma land_clear_flip p M j :
  N.testbit M (N.of_nat j) = true ->
  N.land (N.lxor p (pow2 j)) (N.lxor M (pow2 j)) = N.land p (N.lxor M (pow2 j)).
Proof.
  intros Hj. bitwise i. destruct (N.eqb_spec (N.of_nat j) i) as [<-|Hi]; bcases.
Qed.

Section OneTable.
Variables (n : nat) (M : N) (tbl : ImplicantTable).
Variables (pend0 : pending_tables) (primes0 : list prime).

Hypothesis flags0 : forall p, flag p tbl = false.

Let T := PyDict.keys (true_implicants tbl).
Let D := PyDict.keys (dontcare_implicants tbl).

Definition nb (p : N) (j : nat) : N := N.lxor p (pow2 j).
Definition down (j : nat) : N := N.lxor M (pow2 j).

  (** [p] can be combined along some mask bit. *)
Definition comb (p : N) : Prop :=
    exists j, (j < n)%nat /\ N.testbit M (N.of_nat j) = true /\
              (inT tbl (nb p j) = true \/ inD tbl (nb p j) = true).

Definition NewT (M' p' : N) (a : Attrs) : Prop :=
    exists p j, In p T /\ (j < n)%nat /\ N.testbit M (N.of_nat j) = true /\
      M' = down j /\ p' = N.land p (down j) /\ was_combined a = false /\
      ((inT tbl (nb p j) = true /\
        covered_minterms a = zset_union (cov_of p tbl) (cov_of (nb p j) tbl)) \/
       (inT tbl (nb p j) = false /\ inD tbl (nb p j) = true /\
        covered_minterms a = cov_of p tbl)).

Definition NewD (M' p' : N) : Prop :=
    exists p j, In p D /\ (j < n)%nat /\ N.testbit M (N.of_nat j) = true /\
      inD tbl (nb p j) = true /\ M' = down j /\ p' = N.land p (down j).

Definition new_keys (news : list N) : Prop :=
    forall M', In M' news ->
      exists j, (j < n)%nat /\ N.testbit M (N.of_nat j) = true /\ M' = down j.

  (** What holds throughout the processing of the table. *)
Record TInv (st : qm_state) : Prop := {
    ti_same : same_table tbl (impltbl st);
    ti_flag : forall q, flag q (impltbl st) = true -> In q T /\ comb q;
    ti_flag_pend : forall q, flag q (impltbl st) = true ->
      exists j a, (j < n)%nat /\ N.testbit M (N.of_nat j) = true /\
                  TrueAt (pending st) (down j) (N.land q (down j)) a;
    ti_true : forall M' p' a, TrueAt (pending st) M' p' a ->
      TrueAt pend0 M' p' a \/ NewT M' p' a;
    ti_dc : forall M' p', DcAt (pending st) M' p' ->
      DcAt pend0 M' p' \/ NewD M' p';
    ti_keep_true : forall M' p' a, TrueAt pend0 M' p' a ->
      exists a', TrueAt (pending st) M' p' a';
    ti_keep_dc : forall M' p', DcAt pend0 M' p' -> DcAt (pending st) M' p';
    ti_keys : exists news, PyDict.keys (pending st) = PyDict.keys pend0 ++ news /\
                           new_keys news;
    ti_nodup : NoDup (PyDict.keys pend0) -> NoDup (PyDict.keys (pending st));
    ti_primes : exists L, primes st = primes0 ++ L /\
      forall x, In x L -> pi_mask x = M /\ In (pi_impl x) T /\
                          pi_covered x = cov_of (pi_impl x) tbl /\
                          ~ comb (pi_impl x)
  }.

Lemma TInv_init : TInv (mkQm tbl pend0 primes0).
  Proof.
    constructor; simpl; auto.
    - apply same_table_refl.
    - intros q Hq. rewrite flags0 in Hq. discriminate.
    - intros q Hq. rewrite flags0 in Hq. discriminate.
    - eauto.
    - exists []. rewrite app_nil_r. split; auto. intros ? [].
    - exists []. rewrite app_nil_r. split; auto. intros ? [].
  Qed.

Lemma inT_In p : inT tbl p = true <-> In p T.
  Proof. apply mem_In_keys. Qed.

Lemma inD_In p : inD tbl p = true <-> In p D.
  Proof. apply mem_In_keys. Qed.

Lemma keys_step st M' f :
    (exists j, (j < n)%nat /\ N.testbit M (N.of_nat j) = true /\ M' = down j) ->
    (exists news, PyDict.keys (pending st) = PyDict.keys pend0 ++ news /\
                  new_keys news) ->
    exists news, PyDict.keys (pending_at M' f (pending st)) =
                 PyDict.keys pend0 ++ news /\ new_keys news.
  Proof.
    intros HM' (news & Hk & Hn). rewrite keys_pending_at.
    destruct (PyDict.mem M' (pending st)).
    - eauto.
    - exists (news ++ [M']). rewrite Hk, app_assoc. split; auto.
      intros x Hx. apply in_app_or in Hx. destruct Hx as [Hx|[<-|[]]]; auto.
  Qed.

Lemma nodup_step (pend : pending_tables) M' f :
    NoDup (PyDict.keys pend) -> NoDup (PyDict.keys (pending_at M' f pend)).
  Proof.
    intros H. unfold pending_at.
    destruct (PyDict.get M' pend); now apply NoDup_keys_set.
  Qed.

  (** One pass of the bit loop for a true implicant. *)
Lemma combine_true_bit_inv st p j :
    In p T -> (j < n)%nat -> TInv st ->
    TInv (combine_true_bit M p st (pow2 j)).
  Proof.
    intros Hp Hj I. unfold combine_true_bit. rewrite land_pow2_test.
    destruct (N.testbit M (N.of_nat j)) eqn:Ej; auto.
    pose proof (ti_same I) as Hsame.
    fold (inT (impltbl st) (N.lxor p (pow2 j))).
    fold (inD (impltbl st) (N.lxor p (pow2 j))).
    rewrite (same_table_inT _ Hsame), (same_table_inD _ Hsame).
    fold (nb p j). fold (down j).
    assert (HpT: inT (impltbl st) p = true)
      by (rewrite (same_table_inT _ Hsame); now apply inT_In).
    destruct (inT tbl (nb p j)) eqn:Et; [|destruct (inD tbl (nb p j)) eqn:Ed; auto].
    - (* both are true implicants *)
      constructor; simpl.
      + eapply same_table_trans; [exact Hsame|].
        eapply same_table_trans; apply same_table_mark.
      + intros q. rewrite !flag_mark. intros Hq.
        apply orb_true_iff in Hq. destruct Hq as [Hq|Hq].
        * apply orb_true_iff in Hq. destruct Hq as [Hq|Hq].
          -- now apply (ti_flag I).
          -- apply andb_true_iff in Hq. destruct Hq as [Hq _].
             apply N.eqb_eq in Hq. subst q. split; auto.
             exists j. auto.
        * apply andb_true_iff in Hq. destruct Hq as [Hq _].
          apply N.eqb_eq in Hq. subst q. split; [now apply inT_In|].
          exists j. repeat split; auto. left. unfold nb.
          rewrite lxor_pow2_twice. now apply inT_In.
      + intros q. rewrite !flag_mark. intros Hq.
        assert (Hnew: forall c, TrueAt (pending_at (down j)
                   (add_true_implicant (N.land p (down j)) c) (pending st))
                   (down j) (N.land p (down j)) (mkAttrs c false)).
        { intros c. apply TrueAt_add_true. left. auto. }
        apply orb_true_iff in Hq. destruct Hq as [Hq|Hq].
        * apply orb_true_iff in Hq. destruct Hq as [Hq|Hq].
          -- destruct (ti_flag_pend I _ Hq) as (j' & a & Hj' & Hb & Ha).
             destruct (N.eq_dec (down j') (down j)) as [E1|E1];
               [destruct (N.eq_dec (N.land q (down j')) (N.land p (down j))) as [E2|E2]|].
             ++ exists j', (mkAttrs (zset_union (covered_minterms (attrs_of p (impltbl st)))
                  (covered_minterms (attrs_of (nb p j) (impltbl st)))) false).
                repeat split; auto. rewrite E2, E1. apply Hnew.
             ++ exists j', a. repeat split; auto. apply TrueAt_add_true. right. tauto.
             ++ exists j', a. repeat split; auto. apply TrueAt_add_true. right. tauto.
          -- apply andb_true_iff in Hq. destruct Hq as [Hq _].
             apply N.eqb_eq in Hq. subst q. do 2 eexists. repeat split; eauto.
        * apply andb_true_iff in Hq. destruct Hq as [Hq _].
          apply N.eqb_eq in Hq. subst q. do 2 eexists. repeat split; eauto.
          unfold nb, down. rewrite land_clear_flip by auto. apply Hnew.
      + intros M' p' a Ha. apply TrueAt_add_true in Ha.
        destruct Ha as [(-> & -> & ->)|(_ & Ha)]; [|now apply (ti_true I)].
        right. exists p, j. repeat split; auto. left. split; auto. simpl.
        destruct Hsame as (_ & _ & Hc). fold (cov_of p (impltbl st)).
        fold (cov_of (nb p j) (impltbl st)). now rewrite !Hc.
      + intros M' p' Hd. apply DcAt_add_true in Hd. now apply (ti_dc I).
      + intros M' p' a Ha. destruct (ti_keep_true I Ha) as (a' & Ha').
        destruct (N.eq_dec M' (down j)) as [E1|E1];
          [destruct (N.eq_dec p' (N.land p (down j))) as [E2|E2]|].
        * eexists. apply TrueAt_add_true. left. eauto.
        * exists a'. apply TrueAt_add_true. right. tauto.
        * exists a'. apply TrueAt_add_true. right. tauto.
      + intros M' p' Hd. apply DcAt_add_true. now apply (ti_keep_dc I).
      + apply keys_step; [eauto|apply (ti_keys I)].
      + intros H. apply nodup_step. now apply (ti_nodup I).
      + apply (ti_primes I).
    - (* the neighbour is a don't-care *)
      constructor; simpl.
      + eapply same_table_trans; [exact Hsame|]. apply same_table_mark.
      + intros q. rewrite !flag_mark. intros Hq.
        apply orb_true_iff in Hq. destruct Hq as [Hq|Hq].
        * now apply (ti_flag I).
        * apply andb_true_iff in Hq. destruct Hq as [Hq _].
          apply N.eqb_eq in Hq. subst q. split; auto. exists j. auto.
      + intros q. rewrite !flag_mark. intros Hq.
        assert (Hnew: forall c, TrueAt (pending_at (down j)
                   (add_true_implicant (N.land p (down j)) c) (pending st))
                   (down j) (N.land p (down j)) (mkAttrs c false)).
        { intros c. apply TrueAt_add_true. left. auto. }
        apply orb_true_iff in Hq. destruct Hq as [Hq|Hq].
        * destruct (ti_flag_pend I _ Hq) as (j' & a & Hj' & Hb & Ha).
          destruct (N.eq_dec (down j') (down j)) as [E1|E1];
            [destruct (N.eq_dec (N.land q (down j')) (N.land p (down j))) as [E2|E2]|].
          -- exists j', (mkAttrs (covered_minterms (attrs_of p (impltbl st))) false).
             repeat split; auto. rewrite E2, E1. apply Hnew.
          -- exists j', a. repeat split; auto. apply TrueAt_add_true. right. tauto.
          -- exists j', a. repeat split; auto. apply TrueAt_add_true. right. tauto.
        * apply andb_true_iff in Hq. destruct Hq as [Hq _].
          apply N.eqb_eq in Hq. subst q. do 2 eexists. repeat split; eauto.
      + intros M' p' a Ha. apply TrueAt_add_true in Ha.
        destruct Ha as [(-> & -> & ->)|(_ & Ha)]; [|now apply (ti_true I)].
        right. exists p, j. repeat split; auto. right. repeat split; auto. simpl.
        destruct Hsame as (_ & _ & Hc). fold (cov_of p (impltbl st)). now rewrite !Hc.
      + intros M' p' Hd. apply DcAt_add_true in Hd. now apply (ti_dc I).
      + intros M' p' a Ha. destruct (ti_keep_true I Ha) as (a' & Ha').
        destruct (N.eq_dec M' (down j)) as [E1|E1];
          [destruct (N.eq_dec p' (N.land p (down j))) as [E2|E2]|].
        * eexists. apply TrueAt_add_true. left. eauto.
        * exists a'. apply TrueAt_add_true. right. tauto.
        * exists a'. apply TrueAt_add_true. right. tauto.
      + intros M' p' Hd. apply DcAt_add_true. now apply (ti_keep_dc I).
      + apply keys_step; [eauto|apply (ti_keys I)].
      + intros H. apply nodup_step. now apply (ti_nodup I).
      + apply (ti_primes I).
  Qed.


  (** Flags, entries and primes only grow. *)
Definition mono (st st' : qm_state) : Prop :=
    (forall q, flag q (impltbl st) = true -> flag q (impltbl st') = true) /\
    (forall M' p' a, TrueAt (pending st) M' p' a ->
                     exists a', TrueAt (pending st') M' p' a') /\
    (forall M' p', DcAt (pending st) M' p' -> DcAt (pending st') M' p') /\
    (forall x, In x (primes st) -> In x (primes st')).

Lemma mono_refl st : mono st st.
  Proof. repeat split; eauto. Qed.

Lemma mono_trans st1 st2 st3 : mono st1 st2 -> mono st2 st3 -> mono st1 st3.
  Proof.
    intros (A1 & B1 & C1 & D1) (A2 & B2 & C2 & D2). repeat split; auto.
    intros M' p' a Ha. destruct (B1 _ _ _ Ha) as (a' & Ha'). eauto.
  Qed.

Lemma TrueAt_add_true_keep pend M' p' cov M1 p1 a :
    TrueAt pend M1 p1 a ->
    exists a', TrueAt (pending_at M' (add_true_implicant p' cov) pend) M1 p1 a'.
  Proof.
    intros Ha.
    destruct (N.eq_dec M1 M') as [E1|E1];
      [destruct (N.eq_dec p1 p') as [E2|E2]|].
    - eexists. apply TrueAt_add_true. left. eauto.
    - exists a. apply TrueAt_add_true. right. tauto.
    - exists a. apply TrueAt_add_true. right. tauto.
  Qed.

Lemma combine_true_bit_mono st p b : mono st (combine_true_bit M p st b).
  Proof.
    unfold combine_true_bit.
    destruct (negb (N.land M b =? 0)); [|apply mono_refl].
    destruct (PyDict.mem (N.lxor p b) (true_implicants (impltbl st)));
      [|destruct (PyDict.mem (N.lxor p b) (dontcare_implicants (impltbl st)));
        [|apply mono_refl]].
    - repeat split; simpl; auto.
      + intros q Hq. rewrite !flag_mark, Hq. reflexivity.
      + intros; eapply TrueAt_add_true_keep; eauto.
      + intros. now apply DcAt_add_true.
    - repeat split; simpl; auto.
      + intros q Hq. rewrite !flag_mark, Hq. reflexivity.
      + intros; eapply TrueAt_add_true_keep; eauto.
      + intros. now apply DcAt_add_true.
  Qed.

Lemma fold_mono {A} (f : qm_state -> A -> qm_state) l :
    (forall st x, mono st (f st x)) ->
    forall st, mono st (fold_left f l st).
  Proof.
    intros Hf. induction l as [|x l IH]; simpl; intros st.
    - apply mono_refl.
    - eapply mono_trans; [apply Hf|apply IH].
  Qed.

Lemma bits_true_mono st p bs :
    mono st (fold_left (combine_true_bit M p) bs st).
  Proof. apply fold_mono. intros; apply combine_true_bit_mono. Qed.

Lemma process_true_mono st p : mono st (process_true n M st p).
  Proof.
    unfold process_true.
    set (st1 := fold_left (combine_true_bit M p) (bit_values n 1) st).
    assert (H1: mono st st1) by apply bits_true_mono.
    destruct (negb (was_combined (attrs_of p (impltbl st1)))); auto.
    eapply mono_trans; [exact H1|].
    repeat split; simpl; eauto. intros x Hx. apply in_or_app. now left.
  Qed.

Lemma combine_dontcare_bit_mono st p b : mono st (combine_dontcare_bit M p st b).
  Proof.
    unfold combine_dontcare_bit.
    destruct (negb (N.land M b =? 0)); [|apply mono_refl].
    destruct (PyDict.mem p (dontcare_implicants (impltbl st)) &&
              PyDict.mem (N.lxor p b) (dontcare_implicants (impltbl st)));
      [|apply mono_refl].
    repeat split; simpl; auto.
    - intros M' p' a Ha. exists a. now apply TrueAt_add_dontcare.
    - intros. apply DcAt_add_dontcare. now right.
  Qed.

Lemma process_dontcare_mono st p : mono st (process_dontcare n M st p).
  Proof. apply fold_mono. intros; apply combine_dontcare_bit_mono. Qed.

Lemma primes_bits_true st p bs :
    primes (fold_left (combine_true_bit M p) bs st) = primes st.
  Proof.
    revert st; induction bs as [|b bs IH]; intros st; simpl; auto.
    rewrite IH. unfold combine_true_bit.
    destruct (negb (N.land M b =? 0)); auto.
    destruct (PyDict.mem (N.lxor p b) (true_implicants (impltbl st))); auto.
    destruct (PyDict.mem (N.lxor p b) (dontcare_implicants (impltbl st))); auto.
  Qed.

Lemma bits_true_inv st p :
    In p T -> TInv st ->
    TInv (fold_left (combine_true_bit M p) (bit_values n 1) st).
  Proof.
    intros Hp. rewrite bit_values_spec. rewrite fold_left_map.
    apply fold_left_inv. intros st' j Hj I.
    apply in_seq in Hj. apply combine_true_bit_inv; auto. lia.
  Qed.

  (** After the bit loop of [p], every possible combination of [p] has
      marked it and left the combined cube in the pending tables. *)
Definition combined_at (p : N) (j : nat) (st : qm_state) : Prop :=
    flag p (impltbl st) = true /\
    exists a, TrueAt (pending st) (down j) (N.land p (down j)) a.

Lemma combined_at_mono p j st st' :
    mono st st' -> combined_at p j st -> combined_at p j st'.
  Proof.
    intros (A & B & _) (Hf & a & Ha). split; auto.
    destruct (B _ _ _ Ha) as (a' & Ha'). eauto.
  Qed.

Lemma combine_true_bit_live st p j :
    In p T -> TInv st ->
    N.testbit M (N.of_nat j) = true ->
    inT tbl (nb p j) = true \/ inD tbl (nb p j) = true ->
    combined_at p j (combine_true_bit M p st (pow2 j)).
  Proof.
    intros Hp I Ej Hnb. unfold combine_true_bit. rewrite land_pow2_test, Ej.
    pose proof (ti_same I) as Hsame.
    fold (inT (impltbl st) (N.lxor p (pow2 j))).
    fold (inD (impltbl st) (N.lxor p (pow2 j))).
    rewrite (same_table_inT _ Hsame), (same_table_inD _ Hsame).
    fold (nb p j). fold (down j).
    assert (HpT: inT (impltbl st) p = true)
      by (rewrite (same_table_inT _ Hsame); now apply inT_In).
    destruct (inT tbl (nb p j)) eqn:Et.
    - split; simpl.
      + rewrite !flag_mark, HpT, N.eqb_refl. simpl.
        rewrite orb_true_r. reflexivity.
      + eexists. apply TrueAt_add_true. left. eauto.
    - destruct Hnb as [?|Hd]; [discriminate|]. rewrite Hd. split; simpl.
      + rewrite !flag_mark, HpT, N.eqb_refl. simpl.
        rewrite orb_true_r. reflexivity.
      + eexists. apply TrueAt_add_true. left. eauto.
  Qed.

Lemma bits_true_live st p j :
    In p T -> TInv st -> (j < n)%nat ->
    N.testbit M (N.of_nat j) = true ->
    inT tbl (nb p j) = true \/ inD tbl (nb p j) = true ->
    combined_at p j (fold_left (combine_true_bit M p) (bit_values n 1) st).
  Proof.
    intros Hp I Hj Ej Hnb. rewrite bit_values_spec, fold_left_map.
    apply fold_left_live with (I := TInv) (x := j); auto.
    - apply in_seq. lia.
    - intros st' y Hy I'. apply in_seq in Hy.
      apply combine_true_bit_inv; auto. lia.
    - intros st' I'. now apply combine_true_bit_live.
    - intros st' y _ _. apply combined_at_mono. apply combine_true_bit_mono.
  Qed.

Lemma process_true_inv st p :
    In p T -> TInv st -> TInv (process_true n M st p).
  Proof.
    intros Hp I. unfold process_true.
    set (st1 := fold_left (combine_true_bit M p) (bit_values n 1) st).
    assert (I1: TInv st1) by now apply bits_true_inv.
    destruct (was_combined (attrs_of p (impltbl st1))) eqn:Ef; simpl; auto.
    destruct I1 as [a b c d e f g h i k].
    constructor; simpl; auto.
    destruct k as (L & HL & HLp).
    exists (L ++ [(p, M, covered_minterms (attrs_of p (impltbl st1)))]).
    rewrite HL, app_assoc. split; auto.
    intros x Hx. apply in_app_or in Hx. destruct Hx as [Hx|[<-|[]]]; auto.
    unfold pi_mask, pi_impl, pi_covered; simpl. repeat split; auto.
    - destruct a as (_ & _ & Hc). apply Hc.
    - intros (j & Hj & Ej & Hnb).
      destruct (@bits_true_live st p j Hp I Hj Ej Hnb) as (Hfl & _).
      fold st1 in Hfl. unfold flag in Hfl. congruence.
  Qed.

  (** Each true implicant ends either as a prime or inside a combined
      cube of a pending table. *)
Definition settled (p : N) (st : qm_state) : Prop :=
    In (p, M, cov_of p tbl) (primes st) \/
    exists j a, (j < n)%nat /\ N.testbit M (N.of_nat j) = true /\
                TrueAt (pending st) (down j) (N.land p (down j)) a.

Lemma settled_mono p st st' : mono st st' -> settled p st -> settled p st'.
  Proof.
    intros (_ & B & _ & D0) [H|(j & a & Hj & Ej & Ha)].
    - left. auto.
    - right. destruct (B _ _ _ Ha) as (a' & Ha'). eauto 6.
  Qed.

Lemma process_true_settled st p :
    In p T -> TInv st -> settled p (process_true n M st p).
  Proof.
    intros Hp I. unfold process_true.
    set (st1 := fold_left (combine_true_bit M p) (bit_values n 1) st).
    assert (I1: TInv st1) by now apply bits_true_inv.
    destruct (was_combined (attrs_of p (impltbl st1))) eqn:Ef; simpl.
    - right. apply (ti_flag_pend I1). exact Ef.
    - left. simpl. apply in_or_app. right. left.
      destruct (ti_same I1) as (_ & _ & Hc). unfold cov_of in Hc.
      now rewrite Hc.
  Qed.

Lemma process_true_live st p j :
    In p T -> TInv st -> (j < n)%nat ->
    N.testbit M (N.of_nat j) = true ->
    inT tbl (nb p j) = true \/ inD tbl (nb p j) = true ->
    combined_at p j (process_true n M st p).
  Proof.
    intros Hp I Hj Ej Hnb.
    pose proof (@bits_true_live st p j Hp I Hj Ej Hnb) as H.
    unfold process_true.
    set (st1 := fold_left (combine_true_bit M p) (bit_values n 1) st) in *.
    destruct (negb (was_combined (attrs_of p (impltbl st1)))); auto.
  Qed.


Lemma primes_process_true st p :
    primes (process_true n M st p) = primes st \/
    exists c, primes (process_true n M st p) = primes st ++ [(p, M, c)].
  Proof.
    unfold process_true.
    destruct (negb (was_combined (attrs_of p
      (impltbl (fold_left (combine_true_bit M p) (bit_values n 1) st))))); simpl.
    - right. rewrite primes_bits_true. eauto.
    - left. apply primes_bits_true.
  Qed.

Definition true_phase (st : qm_state) : qm_state :=
    fold_left (process_true n M) T st.

Lemma true_phase_inv st : TInv st -> TInv (true_phase st).
  Proof.
    apply fold_left_inv. intros st' p Hp I. now apply process_true_inv.
  Qed.

Lemma true_phase_mono st : mono st (true_phase st).
  Proof. apply fold_mono. intros; apply process_true_mono. Qed.

Lemma true_phase_settled st p :
    In p T -> TInv st -> settled p (true_phase st).
  Proof.
    intros Hp I. unfold true_phase.
    apply fold_left_live with (I := TInv) (x := p); auto.
    - intros st' y Hy I'. now apply process_true_inv.
    - intros st' I'. now apply process_true_settled.
    - intros st' y _ _. apply settled_mono. apply process_true_mono.
  Qed.

Lemma true_phase_live st p j :
    In p T -> TInv st -> (j < n)%nat ->
    N.testbit M (N.of_nat j) = true ->
    inT tbl (nb p j) = true \/ inD tbl (nb p j) = true ->
    combined_at p j (true_phase st).
  Proof.
    intros Hp I Hj Ej Hnb. unfold true_phase.
    apply fold_left_live with (I := TInv) (x := p); auto.
    - intros st' y Hy I'. now apply process_true_inv.
    - intros st' I'. now apply process_true_live.
    - intros st' y _ _. apply combined_at_mono. apply process_true_mono.
  Qed.

Lemma true_phase_nodup st :
    NoDup T ->
    exists L, primes (true_phase st) = primes st ++ L /\ NoDup (map pi_impl L).
  Proof.
    intros HT.
    cut (exists L, primes (true_phase st) = primes st ++ L /\
                   NoDup (map pi_impl L) /\ incl (map pi_impl L) T).
    { intros (L & ? & ? & _). eauto. }
    unfold true_phase.
    apply (fold_left_prefix (process_true n M)
             (fun done s => exists L, primes s = primes st ++ L /\
                NoDup (map pi_impl L) /\ incl (map pi_impl L) done)).
    - intros done x rest s HTeq (L & HL & Hnd & Hin).
      destruct (primes_process_true s x) as [E|(c & E)]; rewrite E, HL.
      + exists L. repeat split; auto. apply incl_appl. exact Hin.
      + exists (L ++ [(x, M, c)]). rewrite app_assoc. repeat split; auto.
        * rewrite map_app. simpl. unfold pi_impl at 2. simpl.
          apply NoDup_app; auto.
          -- constructor; [simpl; tauto|constructor].
          -- intros y Hy [<-|[]]. apply Hin in Hy.
             fold T in HTeq. rewrite HTeq in HT.
             apply NoDup_remove_2 in HT. apply HT.
             apply in_or_app. now left.
        * rewrite map_app. simpl. unfold pi_impl at 2. simpl.
          apply incl_app; [apply incl_appl; exact Hin|].
          apply incl_appr. apply incl_refl.
    - exists []. rewrite app_nil_r. repeat split; [constructor|]. intros ? [].
  Qed.

  (** *** The don't-care phase *)

Lemma combine_dontcare_bit_inv st p j :
    In p D -> (j < n)%nat -> TInv st ->
    TInv (combine_dontcare_bit M p st (pow2 j)).
  Proof.
    intros Hp Hj I. unfold combine_dontcare_bit. rewrite land_pow2_test.
    destruct (N.testbit M (N.of_nat j)) eqn:Ej; auto.
    pose proof (ti_same I) as Hsame.
    fold (inD (impltbl st) p). fold (inD (impltbl st) (N.lxor p (pow2 j))).
    rewrite !(same_table_inD _ Hsame).
    fold (nb p j). fold (down j).
    destruct (inD tbl p && inD tbl (nb p j)) eqn:Ed; auto.
    apply andb_true_iff in Ed. destruct Ed as [_ Ed].
    destruct I as [a b c d e f g h i k].
    constructor; simpl; auto.
    - intros q Hq. destruct (c q Hq) as (j' & a' & Hj' & Ej' & Ha').
      exists j', a'. repeat split; auto. now apply TrueAt_add_dontcare.
    - intros M' p' a' Ha'. apply TrueAt_add_dontcare in Ha'. auto.
    - intros M' p' Hd. apply DcAt_add_dontcare in Hd.
      destruct Hd as [[-> ->]|Hd]; auto.
      right. exists p, j. repeat split; auto.
    - intros M' p' a' Ha'. destruct (f _ _ _ Ha') as (a2 & Ha2).
      exists a2. now apply TrueAt_add_dontcare.
    - intros M' p' Hd. apply DcAt_add_dontcare. right. auto.
    - apply keys_step; eauto.
    - intros H. apply nodup_step. auto.
  Qed.

Lemma combine_dontcare_bit_live st p j :
    In p D -> TInv st ->
    N.testbit M (N.of_nat j) = true -> inD tbl (nb p j) = true ->
    DcAt (pending (combine_dontcare_bit M p st (pow2 j)))
         (down j) (N.land p (down j)).
  Proof.
    intros Hp I Ej Hnb. unfold combine_dontcare_bit. rewrite land_pow2_test, Ej.
    pose proof (ti_same I) as Hsame.
    fold (inD (impltbl st) p). fold (inD (impltbl st) (N.lxor p (pow2 j))).
    rewrite !(same_table_inD _ Hsame). fold (nb p j). rewrite Hnb.
    apply inD_In in Hp. rewrite Hp. simpl.
    apply DcAt_add_dontcare. left. auto.
  Qed.

Definition dc_phase (st : qm_state) : qm_state :=
    fold_left (process_dontcare n M) D st.

Lemma process_dontcare_inv st p :
    In p D -> TInv st -> TInv (process_dontcare n M st p).
  Proof.
    intros Hp. unfold process_dontcare. rewrite bit_values_spec, fold_left_map.
    apply fold_left_inv. intros st' j Hj I.
    apply in_seq in Hj. apply combine_dontcare_bit_inv; auto. lia.
  Qed.

Lemma dc_phase_inv st : TInv st -> TInv (dc_phase st).
  Proof.
    apply fold_left_inv. intros st' p Hp I. now apply process_dontcare_inv.
  Qed.

Lemma dc_phase_mono st : mono st (dc_phase st).
  Proof. apply fold_mono. intros; apply process_dontcare_mono. Qed.

Lemma primes_dc_phase st : primes (dc_phase st) = primes st.
  Proof.
    unfold dc_phase. generalize D. intros l. revert st.
    induction l as [|p l IH]; intros st; simpl; auto.
    rewrite IH. unfold process_dontcare. generalize (bit_values n 1). intros bs.
    revert st. induction bs as [|b bs IHb]; intros st; simpl; auto.
    rewrite IHb. unfold combine_dontcare_bit.
    destruct (negb (N.land M b =? 0)); auto.
    destruct (PyDict.mem p (dontcare_implicants (impltbl st)) &&
              PyDict.mem (N.lxor p b) (dontcare_implicants (impltbl st))); auto.
  Qed.

Lemma dc_phase_live st p j :
    In p D -> TInv st -> (j < n)%nat ->
    N.testbit M (N.of_nat j) = true -> inD tbl (nb p j) = true ->
    DcAt (pending (dc_phase st)) (down j) (N.land p (down j)).
  Proof.
    intros Hp I Hj Ej Hnb. unfold dc_phase.
    apply fold_left_live with (I := TInv) (x := p); auto.
    - intros st' y Hy I'. now apply process_dontcare_inv.
    - intros st' I'. unfold process_dontcare.
      rewrite bit_values_spec, fold_left_map.
      apply fold_left_live with (I := TInv) (x := j); auto.
      + apply in_seq. lia.
      + intros s y Hy Is. apply in_seq in Hy.
        apply combine_dontcare_bit_inv; auto. lia.
      + intros s Is. now apply combine_dontcare_bit_live.
      + intros s y _ _ Hd.
        destruct (combine_dontcare_bit_mono s p (pow2 y)) as (_ & _ & C & _). auto.
    - intros s y _ _ Hd.
      destruct (process_dontcare_mono s y) as (_ & _ & C & _). auto.
  Qed.

  (** *** The whole table *)

Definition after : qm_state := process_table n M tbl pend0 primes0.

Lemma after_eq : after = dc_phase (true_phase (mkQm tbl pend0 primes0)).
  Proof. reflexivity. Qed.

Lemma after_inv : TInv after.
  Proof. rewrite after_eq. apply dc_phase_inv, true_phase_inv, TInv_init. Qed.

Lemma after_settled p : In p T -> settled p after.
  Proof.
    intros Hp. rewrite after_eq. eapply settled_mono; [apply dc_phase_mono|].
    apply true_phase_settled; auto. apply TInv_init.
  Qed.

Lemma after_true_complete p j :
    In p T -> (j < n)%nat -> N.testbit M (N.of_nat j) = true ->
    inT tbl (nb p j) = true \/ inD tbl (nb p j) = true ->
    exists a, TrueAt (pending after) (down j) (N.land p (down j)) a.
  Proof.
    intros Hp Hj Ej Hnb. rewrite after_eq.
    assert (H: combined_at p j (dc_phase (true_phase (mkQm tbl pend0 primes0)))).
    { eapply combined_at_mono; [apply dc_phase_mono|].
      apply true_phase_live; auto. apply TInv_init. }
    apply H.
  Qed.

Lemma after_dc_complete p j :
    In p D -> (j < n)%nat -> N.testbit M (N.of_nat j) = true ->
    inD tbl (nb p j) = true ->
    DcAt (pending after) (down j) (N.land p (down j)).
  Proof.
    intros Hp Hj Ej Hnb. rewrite after_eq.
    apply dc_phase_live; auto. apply true_phase_inv, TInv_init.
  Qed.

Lemma after_primes_nodup :
    NoDup T ->
    exists L, primes after = primes0 ++ L /\ NoDup (map pi_impl L) /\
      forall x, In x L -> pi_mask x = M /\ In (pi_impl x) T /\
                          pi_covered x = cov_of (pi_impl x) tbl /\
                          ~ comb (pi_impl x).
  Proof.
    intros HT. rewrite after_eq, primes_dc_phase.
    destruct (true_phase_nodup (mkQm tbl pend0 primes0) HT) as (L & HL & Hnd).
    exists L. repeat split; auto; simpl in HL;
      destruct (ti_primes (true_phase_inv TInv_init)) as (L' & HL' & Hx);
      rewrite HL in HL'; apply app_inv_head in HL'; subst L';
      apply Hx; auto.
  Qed.

End OneTable.

(** The dictionaries inside the pending tables never hold a key twice. *)
Definition tables_nodup (pend : pending_tables) : Prop :=
  forall M t, PyDict.get M pend = Some t ->
    NoDup (PyDict.keys (true_implicants t)) /\
    NoDup (PyDict.keys (dontcare_implicants t)).

Lemma tables_nodup_pending_at M' f pend :
  (forall t, NoDup (PyDict.keys (true_implicants t)) /\
             NoDup (PyDict.keys (dontcare_implicants t)) ->
             NoDup (PyDict.keys (true_implicants (f t))) /\
             NoDup (PyDict.keys (dontcare_implicants (f t)))) ->
  tables_nodup pend -> tables_nodup (pending_at M' f pend).
Proof.
  intros Hf H M t. destruct (N.eq_dec M M') as [->|HM].
  - rewrite get_pending_at_same. intros [= <-]. apply Hf.
    destruct (PyDict.get M' pend) eqn:E; [eauto|].
    simpl. split; constructor.
  - rewrite get_pending_at_other by auto. apply H.
Qed.

Lemma add_true_nodup p c t :
  NoDup (PyDict.keys (true_implicants t)) /\
  NoDup (PyDict.keys (dontcare_implicants t)) ->
  NoDup (PyDict.keys (true_implicants (add_true_implicant p c t))) /\
  NoDup (PyDict.keys (dontcare_implicants (add_true_implicant p c t))).
Proof. intros [A B]. split; simpl; auto. now apply NoDup_keys_set. Qed.

Lemma add_dontcare_nodup p t :
  NoDup (PyDict.keys (true_implicants t)) /\
  NoDup (PyDict.keys (dontcare_implicants t)) ->
  NoDup (PyDict.keys (true_implicants (add_dontcare_implicant p t))) /\
  NoDup (PyDict.keys (dontcare_implicants (add_dontcare_implicant p t))).
Proof. intros [A B]. split; simpl; auto. now apply NoDup_keys_set. Qed.

Lemma process_table_tables_nodup n M tbl pend0 primes0 :
  tables_nodup pend0 ->
  tables_nodup (pending (process_table n M tbl pend0 primes0)).
Proof.
  intros H0. unfold process_table.
  apply fold_left_inv with (P := fun st => tables_nodup (pending st)).
  { intros st p _ Hst. unfold process_dontcare.
    apply fold_left_inv with (P := fun st => tables_nodup (pending st)); auto.
    intros s b _ Hs. unfold combine_dontcare_bit.
    destruct (negb (N.land M b =? 0)); auto.
    destruct (PyDict.mem p (dontcare_implicants (impltbl s)) &&
              PyDict.mem (N.lxor p b) (dontcare_implicants (impltbl s))); auto.
    simpl. apply tables_nodup_pending_at; auto. apply add_dontcare_nodup. }
  apply fold_left_inv with (P := fun st => tables_nodup (pending st)); auto.
  intros st p _ Hst. unfold process_true.
  set (st1 := fold_left (combine_true_bit M p) (bit_values n 1) st).
  assert (H1: tables_nodup (pending st1)).
  { apply fold_left_inv with (P := fun st => tables_nodup (pending st)); auto.
    intros s b _ Hs. unfold combine_true_bit.
    destruct (negb (N.land M b =? 0)); auto.
    destruct (PyDict.mem (N.lxor p b) (true_implicants (impltbl s))).
    - simpl. apply tables_nodup_pending_at; auto. apply add_true_nodup.
    - destruct (PyDict.mem (N.lxor p b) (dontcare_implicants (impltbl s))); auto.
      simpl. apply tables_nodup_pending_at; auto. apply add_true_nodup. }
  destruct (negb (was_combined (attrs_of p (impltbl st1)))); auto.
Qed.

End QmTable.

(** ** Cubes of a Boolean function *)

Module Cubes.
Import Facts BoolExpr.
Open Scope N_scope.

Lemma bit_count_le_full n M : subm M (full n) -> (bit_count M <= n)%nat.
Proof.
  revert M; induction n as [|n IH]; intros M HM.
  - unfold subm, full in HM. simpl in HM. rewrite N.land_0_r in HM. now subst.
  - assert (Hh: subm (N.div2 M) (full n)).
    { rewrite subm_bits in *. intros i Hi. rewrite N.div2_spec in Hi.
      rewrite N.shiftr_spec' in Hi. apply HM in Hi. rewrite full_bits in *.
      apply N.ltb_lt in Hi. apply N.ltb_lt. lia. }
    apply IH in Hh.
    destruct (N_binary_cases M) as [E|E]; rewrite E.
    + rewrite bit_count_double. lia.
    + rewrite bit_count_succ_double. lia.
Qed.

Lemma bit_count_full n : bit_count (full n) = n.
Proof.
  induction n as [|n IH]; [reflexivity|].
  replace (full (S n)) with (N.succ_double (full n)).
  - rewrite bit_count_succ_double. now rewrite IH.
  - unfold full. rewrite N.succ_double_spec, !N.ones_equiv, Nat2N.inj_succ,
      N.pow_succ_r'.
    assert (0 < 2 ^ N.of_nat n) by (apply N.neq_0_lt_0, N.pow_nonzero; discriminate).
    lia.
Qed.

Lemma lor_pow2_flip M j :
  N.testbit M (N.of_nat j) = false -> N.lxor (N.lor M (pow2 j)) (pow2 j) = M.
Proof.
  intros Hj. bitwise i. destruct (N.eqb_spec (N.of_nat j) i) as [<-|Hi]; bcases.
Qed.

Lemma lor_pow2_bit M j : N.testbit (N.lor M (pow2 j)) (N.of_nat j) = true.
Proof. bit_rewrite. rewrite N.eqb_refl. apply orb_true_r. Qed.

Lemma subm_lor_pow2 M j n :
  subm M (full n) -> (j < n)%nat -> subm (N.lor M (pow2 j)) (full n).
Proof.
  rewrite !subm_bits. intros H Hj i. bit_rewrite. specialize (H i).
  rewrite full_bits in H. intros Hi. apply orb_true_iff in Hi.
  destruct Hi as [Hi|Hi]; auto. apply N.eqb_eq in Hi. subst i.
  apply N.ltb_lt. lia.
Qed.

Lemma bit_count_set M j :
  N.testbit M (N.of_nat j) = false ->
  bit_count (N.lor M (pow2 j)) = S (bit_count M).
Proof.
  intros Hj. rewrite (bit_count_flip (N.lor M (pow2 j)) j) by apply lor_pow2_bit.
  now rewrite lor_pow2_flip.
Qed.

(** A proper submask of [full n] leaves a bit clear. *)
Lemma clear_bit_exists n M :
  subm M (full n) -> (bit_count M < n)%nat ->
  exists j, (j < n)%nat /\ N.testbit M (N.of_nat j) = false.
Proof.
  intros HM Hlt.
  destruct (existsb (fun j => negb (N.testbit M (N.of_nat j))) (seq 0 n)) eqn:E.
  - apply existsb_exists in E. destruct E as (j & Hj & Hb).
    apply in_seq in Hj. apply negb_true_iff in Hb. exists j. split; [lia|auto].
  - exfalso. assert (HF: M = full n).
    { bitwise i. destruct (N.ltb_spec i (N.of_nat n)) as [Hi|Hi].
      - destruct (N.testbit M i) eqn:Ei; auto. exfalso.
        assert (Ht: existsb (fun j => negb (N.testbit M (N.of_nat j))) (seq 0 n) = true).
        { apply existsb_exists. exists (N.to_nat i). split.
          - apply in_seq. lia.
          - rewrite N2Nat.id, Ei. reflexivity. }
        congruence.
      - rewrite subm_bits in HM. destruct (N.testbit M i) eqn:Ei; auto.
        apply HM in Ei. rewrite full_bits in Ei. apply N.ltb_lt in Ei. lia. }
    rewrite HF, bit_count_full in Hlt. lia.
Qed.

Lemma full_level_unique n M :
  subm M (full n) -> (n <= bit_count M)%nat -> M = full n.
Proof.
  intros HM Hle. bitwise i. destruct (N.ltb_spec i (N.of_nat n)) as [Hi|Hi].
  - destruct (N.testbit M i) eqn:Ei; auto. exfalso.
    assert (Hj: N.testbit M (N.of_nat (N.to_nat i)) = false) by now rewrite N2Nat.id.
    pose proof (bit_count_set M (N.to_nat i) Hj) as Hc.
    assert (Hs: subm (N.lor M (pow2 (N.to_nat i))) (full n))
      by (apply subm_lor_pow2; auto; lia).
    apply bit_count_le_full in Hs. lia.
  - rewrite subm_bits in HM. destruct (N.testbit M i) eqn:Ei; auto.
    apply HM in Ei. rewrite full_bits in Ei. apply N.ltb_lt in Ei. lia.
Qed.

(** Inclusion of cubes: every point of [(p, M)] is a point of [(p', M')]. *)
Definition sub_cube (p M p' M' : N) : Prop := subm M' M /\ N.land p M' = p'.

Lemma sub_cube_refl p M : subm p M -> sub_cube p M p M.
Proof. intros H. split; [apply subm_refl|exact H]. Qed.

Lemma sub_cube_trans p1 M1 p2 M2 p3 M3 :
  sub_cube p1 M1 p2 M2 -> sub_cube p2 M2 p3 M3 -> sub_cube p1 M1 p3 M3.
Proof.
  intros [A1 B1] [A2 B2]. split; [eapply subm_trans; eauto|].
  rewrite <- B2, <- B1. unfold subm in A2.
  rewrite <- N.land_assoc. rewrite (N.land_comm M2 M3), A2. reflexivity.
Qed.

Lemma sub_cube_point p M p' M' x :
  sub_cube p M p' M' -> N.land x M = p -> N.land x M' = p'.
Proof.
  intros [A B] Hx. rewrite <- B, <- Hx. unfold subm in A.
  rewrite <- N.land_assoc, (N.land_comm M M'), A. reflexivity.
Qed.

Lemma sub_cube_down p M j :
  N.testbit M (N.of_nat j) = true ->
  sub_cube p M (N.land p (N.lxor M (pow2 j))) (N.lxor M (pow2 j)).
Proof.
  intros Hj. split; auto. apply subm_bits. intros i. bit_rewrite.
  destruct (N.eqb_spec (N.of_nat j) i) as [<-|Hi]; bcases.
Qed.

Lemma subm_down M j : subm (N.lxor M (pow2 j)) M \/ N.testbit M (N.of_nat j) = false.
Proof.
  destruct (N.testbit M (N.of_nat j)) eqn:E; auto. left.
  apply subm_bits. intros i. bit_rewrite.
  destruct (N.eqb_spec (N.of_nat j) i) as [<-|Hi]; bcases.
Qed.

Lemma subm_down_full M j n :
  N.testbit M (N.of_nat j) = true -> subm M (full n) ->
  subm (N.lxor M (pow2 j)) (full n).
Proof.
  intros Hj HM. destruct (subm_down M j) as [H|H]; [|congruence].
  eapply subm_trans; eauto.
Qed.

Lemma land_down_id p M j :
  N.testbit M (N.of_nat j) = true -> subm p (N.lxor M (pow2 j)) ->
  subm p M /\ N.land p (N.lxor M (pow2 j)) = p /\
  N.testbit p (N.of_nat j) = false.
Proof.
  intros Hj Hp. repeat split; auto.
  - destruct (subm_down M j) as [H|H]; [|congruence]. eapply subm_trans; eauto.
  - rewrite subm_bits in Hp. destruct (N.testbit p (N.of_nat j)) eqn:E; auto.
    apply Hp in E. revert E. bit_rewrite. rewrite N.eqb_refl, Hj. discriminate.
Qed.

Section Function.
Variables (n : nat) (ms dcs : list N).

Definition allowed (x : N) : Prop := In x ms \/ In x dcs.

Definition cube_wf (p M : N) : Prop := subm p M /\ subm M (full n).

Definition cube_allowed (p M : N) : Prop :=
    forall x, subm x (full n) -> N.land x M = p -> allowed x.

Definition has_minterm (p M : N) : Prop :=
    exists x, In x ms /\ N.land x M = p.

  (** An implicant holding a minterm. *)
Definition true_valid (p M : N) : Prop :=
    cube_wf p M /\ cube_allowed p M /\ has_minterm p M.

  (** A cube made of listed don't-care terms only. *)
Definition dc_valid (p M : N) : Prop :=
    cube_wf p M /\ forall x, subm x (full n) -> N.land x M = p -> In x dcs.

Lemma has_minterm_dec p M : {has_minterm p M} + {~ has_minterm p M}.
  Proof.
    destruct (existsb (fun x => N.eqb (N.land x M) p) ms) eqn:E.
    - left. apply existsb_exists in E. destruct E as (x & Hx & Hb).
      apply N.eqb_eq in Hb. exists x; auto.
    - right. intros (x & Hx & Hb).
      assert (existsb (fun x => N.eqb (N.land x M) p) ms = true).
      { apply existsb_exists. exists x. split; auto. now apply N.eqb_eq. }
      congruence.
  Qed.

Lemma allowed_cube_valid p M :
    cube_wf p M -> cube_allowed p M -> true_valid p M \/ dc_valid p M.
  Proof.
    intros Hwf Hall. destruct (has_minterm_dec p M) as [H|H].
    - left. unfold true_valid. auto.
    - right. split; auto. intros x Hx Hc.
      destruct (Hall x Hx Hc) as [Hm|Hd]; auto.
      exfalso. apply H. exists x; auto.
  Qed.

Lemma dc_valid_allowed p M : dc_valid p M -> cube_allowed p M.
  Proof. intros [_ H] x Hx Hc. right. auto. Qed.

Lemma true_valid_allowed p M : true_valid p M -> cube_allowed p M.
  Proof. intros (_ & H & _). exact H. Qed.

Lemma cube_wf_nb p M j :
    N.testbit M (N.of_nat j) = true -> cube_wf p M ->
    cube_wf (N.lxor p (pow2 j)) M.
  Proof. intros Hj [A B]. split; auto. now apply subm_lxor_pow2. Qed.

Lemma cube_wf_down p M j :
    N.testbit M (N.of_nat j) = true -> cube_wf p M ->
    cube_wf (N.land p (N.lxor M (pow2 j))) (N.lxor M (pow2 j)).
  Proof.
    intros Hj [A B]. split; [apply subm_land_r|now apply subm_down_full].
  Qed.

  (** Two cubes that differ in bit [j] combine into an implicant. *)
Lemma merge_allowed p M j :
    N.testbit M (N.of_nat j) = true -> subm p M ->
    cube_allowed p M -> cube_allowed (N.lxor p (pow2 j)) M ->
    cube_allowed (N.land p (N.lxor M (pow2 j))) (N.lxor M (pow2 j)).
  Proof.
    intros Hj Hp H1 H2 x Hx Hc. apply merge_points in Hc; auto.
    destruct Hc; auto.
  Qed.

Lemma merge_true_valid p M j :
    N.testbit M (N.of_nat j) = true ->
    true_valid p M -> cube_allowed (N.lxor p (pow2 j)) M ->
    true_valid (N.land p (N.lxor M (pow2 j))) (N.lxor M (pow2 j)).
  Proof.
    intros Hj (Hwf & Hall & x & Hx & Hc) H2. repeat split.
    - apply subm_land_r.
    - apply subm_down_full; auto. apply Hwf.
    - apply merge_allowed; auto. apply Hwf.
    - exists x. split; auto. apply merge_points; auto. apply Hwf.
  Qed.

Lemma merge_dc_valid p M j :
    N.testbit M (N.of_nat j) = true ->
    dc_valid p M -> dc_valid (N.lxor p (pow2 j)) M ->
    dc_valid (N.land p (N.lxor M (pow2 j))) (N.lxor M (pow2 j)).
  Proof.
    intros Hj (Hwf & H1) (_ & H2). split.
    - now apply cube_wf_down.
    - intros x Hx Hc. apply merge_points in Hc; auto; [|apply Hwf].
      destruct Hc; auto.
  Qed.

  (** The halves of an implicant along a bit it does not mention. *)
Lemma half_allowed p M j q :
    N.testbit M (N.of_nat j) = true -> subm p (N.lxor M (pow2 j)) ->
    cube_allowed p (N.lxor M (pow2 j)) ->
    q = p \/ q = N.lxor p (pow2 j) ->
    cube_allowed q M.
  Proof.
    intros Hj Hp Hall Hq x Hx Hc. apply Hall; auto.
    destruct (@land_down_id p M j Hj Hp) as (HpM & Hid & _).
    rewrite <- Hid. apply merge_points; auto.
    destruct Hq as [->| ->]; auto.
  Qed.

Lemma half_wf p M j q :
    N.testbit M (N.of_nat j) = true -> subm M (full n) ->
    subm p (N.lxor M (pow2 j)) ->
    q = p \/ q = N.lxor p (pow2 j) -> cube_wf q M.
  Proof.
    intros Hj HM Hp Hq. destruct (@land_down_id p M j Hj Hp) as (HpM & _ & _).
    destruct Hq as [->| ->]; split; auto. now apply subm_lxor_pow2.
  Qed.

Lemma half_dc_valid p M j q :
    N.testbit M (N.of_nat j) = true -> subm M (full n) ->
    dc_valid p (N.lxor M (pow2 j)) ->
    q = p \/ q = N.lxor p (pow2 j) -> dc_valid q M.
  Proof.
    intros Hj HM ([Hp _] & Hd) Hq. split; [eapply half_wf; eauto|].
    intros x Hx Hc. apply Hd; auto.
    destruct (@land_down_id p M j Hj Hp) as (HpM & Hid & _).
    rewrite <- Hid. apply merge_points; auto.
    destruct Hq as [->| ->]; auto.
  Qed.

Lemma half_has_minterm p M j :
    N.testbit M (N.of_nat j) = true -> subm p (N.lxor M (pow2 j)) ->
    has_minterm p (N.lxor M (pow2 j)) ->
    has_minterm p M \/ has_minterm (N.lxor p (pow2 j)) M.
  Proof.
    intros Hj Hp (x & Hx & Hc).
    destruct (@land_down_id p M j Hj Hp) as (HpM & Hid & _).
    rewrite <- Hid in Hc. apply merge_points in Hc; auto.
    destruct Hc; [left|right]; exists x; auto.
  Qed.

End Function.
End Cubes.

(** ** Quine-McCluskey: the run *)

Module QmRun.
Import Facts BoolExpr QmFacts QmTable Cubes.
Open Scope N_scope.

(** The index recorded for a minterm by [set_implicants]: its last
    position in the list. *)
Fixpoint last_idx (i : nat) (x : N) (l : list N) : option nat :=
  match l with
  | [] => None
  | y :: l' =>
      match last_idx (S i) x l' with
      | Some k => Some k
      | None => if N.eqb y x then Some i else None
      end
  end.

Lemma last_idx_In i x l : last_idx i x l <> None <-> In x l.
Proof.
  revert i; induction l as [|y l IH]; intros i; simpl.
  - split; [congruence|tauto].
  - specialize (IH (S i)). destruct (last_idx (S i) x l).
    + split; [intros _; right; apply IH; congruence|congruence].
    + destruct (N.eqb_spec y x) as [->|Hne].
      * split; [auto|congruence].
      * split; [congruence|]. intros [H|H]; [congruence|]. apply IH in H. congruence.
Qed.

Lemma last_idx_nth i x l k :
  last_idx i x l = Some k ->
  (i <= k)%nat /\ nth_error l (k - i) = Some x.
Proof.
  revert i; induction l as [|y l IH]; intros i; simpl; [discriminate|].
  destruct (last_idx (S i) x l) eqn:E.
  - intros [= ->]. apply IH in E. destruct E as [Hle Hn]. split; [lia|].
    replace (k - i)%nat with (S (k - S i)) by lia. exact Hn.
  - destruct (N.eqb_spec y x) as [->|Hne]; [|discriminate].
    intros [= ->]. split; auto. now rewrite Nat.sub_diag.
Qed.

Lemma init_true_get l i d x :
  PyDict.get x
    (fold_left (fun d ix => PyDict.set (snd ix)
                  (mkAttrs [Z.of_nat (fst ix)] false) d)
               (combine (seq i (List.length l)) l) d) =
  match last_idx i x l with
  | Some k => Some (mkAttrs [Z.of_nat k] false)
  | None => PyDict.get x d
  end.
Proof.
  revert i d; induction l as [|y l IH]; intros i d; simpl; auto.
  rewrite IH. destruct (last_idx (S i) x l); auto.
  destruct (N.eqb_spec y x) as [->|Hne].
  - apply get_set_same.
  - apply get_set_other. congruence.
Qed.

Lemma fold_set_nodup {A V} (f : A -> N) (g : A -> V) l d :
  NoDup (PyDict.keys d) ->
  NoDup (PyDict.keys (fold_left (fun d a => PyDict.set (f a) (g a) d) l d)).
Proof.
  revert d; induction l as [|a l IH]; intros d Hd; simpl; auto.
  apply IH. now apply NoDup_keys_set.
Qed.

Lemma fold_set_mem {A V} (f : A -> N) (g : A -> V) l d x :
  PyDict.mem x (fold_left (fun d a => PyDict.set (f a) (g a) d) l d) = true <->
  In x (map f l) \/ PyDict.mem x d = true.
Proof.
  revert d; induction l as [|a l IH]; intros d; simpl.
  - tauto.
  - rewrite IH, mem_set. destruct (N.eqb_spec (f a) x) as [->|Hne]; simpl.
    + tauto.
    + split; intros [H|H]; auto. destruct H; [congruence|auto].
Qed.

Section Run.
Variables (n : nat) (ms dcs : list N).

Definition minterm_index (x : N) : Z :=
    match last_idx 0 x ms with
    | Some k => Z.of_nat k
    | None => (-1)%Z
    end.

Lemma minterm_index_inj x y :
    In x ms -> In y ms -> minterm_index x = minterm_index y -> x = y.
  Proof.
    unfold minterm_index. intros Hx Hy.
    apply last_idx_In with (i := 0%nat) in Hx, Hy.
    destruct (last_idx 0 x ms) as [k|] eqn:Ex; [|congruence].
    destruct (last_idx 0 y ms) as [k'|] eqn:Ey; [|congruence].
    intros H. apply Nat2Z.inj in H. subst k'.
    apply last_idx_nth in Ex, Ey. destruct Ex as [_ Ex], Ey as [_ Ey].
    congruence.
  Qed.

  (** The covered set of a cube: the indexes of the minterms in it. *)
Definition cov_spec (p M : N) (cov : zset) : Prop :=
    forall i, In i cov <->
              exists x, In x ms /\ N.land x M = p /\ minterm_index x = i.

Definition present_true (pend : pending_tables) (p M : N) : Prop :=
    exists a, TrueAt pend M p a.

Definition resolved (pend : pending_tables) (found : list prime) (p M : N)
    : Prop :=
    (exists x, In x found /\ sub_cube p M (pi_impl x) (pi_mask x)) \/
    (exists M' p' a, TrueAt pend M' p' a /\ sub_cube p M p' M').

  (** No neighbour along a mask bit is an implicant. *)
Definition maximal (p M : N) : Prop :=
    forall j, (j < n)%nat -> N.testbit M (N.of_nat j) = true ->
              ~ cube_allowed n ms dcs (N.lxor p (pow2 j)) M.

Definition prime_ok (x : prime) : Prop :=
    true_valid n ms dcs (pi_impl x) (pi_mask x) /\
    cov_spec (pi_impl x) (pi_mask x) (pi_covered x) /\
    maximal (pi_impl x) (pi_mask x).

Record Inv (k : nat) (pend : pending_tables) (found : list prime) : Prop := {
    inv_k : (k <= n)%nat;
    inv_nodup : NoDup (PyDict.keys pend);
    inv_levels : exists Q1 Q2, PyDict.keys pend = Q1 ++ Q2 /\
      (forall M, In M Q1 -> bit_count M = k) /\
      (forall M, In M Q2 -> S (bit_count M) = k);
    inv_sub : forall M, In M (PyDict.keys pend) -> subm M (full n);
    inv_tables : tables_nodup pend;
    inv_true : forall M p a, TrueAt pend M p a ->
      was_combined a = false /\ true_valid n ms dcs p M /\
      cov_spec p M (covered_minterms a);
    inv_dc : forall M p, DcAt pend M p -> dc_valid n dcs p M;
    inv_full_k : forall p M, bit_count M = k -> In M (PyDict.keys pend) ->
      (true_valid n ms dcs p M -> present_true pend p M) /\
      (dc_valid n dcs p M -> DcAt pend M p);
    inv_full_next : forall p M1 j, bit_count M1 = k ->
      N.testbit M1 (N.of_nat j) = true -> subm M1 (full n) ->
      In M1 (PyDict.keys pend) \/
      ((true_valid n ms dcs p (down M1 j) -> present_true pend p (down M1 j)) /\
       (dc_valid n dcs p (down M1 j) -> DcAt pend (down M1 j) p));
    inv_primes : forall x, In x found -> prime_ok x;
    inv_primes_nodup : NoDup (map fst found);
    inv_primes_done : forall x, In x found ->
      ~ In (pi_mask x) (PyDict.keys pend) /\ (k <= bit_count (pi_mask x))%nat;
    inv_resolved : forall p M, true_valid n ms dcs p M ->
      (k <= bit_count M)%nat -> resolved pend found p M
  }.

Hypothesis ms_range : forall x, In x ms -> subm x (full n).
Hypothesis dcs_range : forall x, In x dcs -> subm x (full n).

Let init := set_implicants ms dcs.

Lemma init_true_get_spec x :
    PyDict.get x (true_implicants init) =
    match last_idx 0 x ms with
    | Some k => Some (mkAttrs [Z.of_nat k] false)
    | None => None
    end.
  Proof. unfold init, set_implicants, enumerate; simpl. apply init_true_get. Qed.

Lemma init_dc_mem x :
    PyDict.mem x (dontcare_implicants init) = true <-> In x dcs.
  Proof.
    unfold init, set_implicants; simpl.
    rewrite (fold_set_mem (fun a => a) (fun _ => mkAttrs [(-1)%Z] false)).
    rewrite map_id. unfold PyDict.mem; simpl. intuition congruence.
  Qed.

Lemma point_cube x p : subm x (full n) -> N.land x (full n) = p -> x = p.
  Proof. unfold subm. congruence. Qed.

Lemma TrueAt_single M t M' p a :
    TrueAt [(M, t)] M' p a <->
    M' = M /\ PyDict.get p (true_implicants t) = Some a.
  Proof.
    unfold TrueAt; simpl. split.
    - intros (t' & Ht & Hp). destruct (N.eqb_spec M M'); [|discriminate].
      injection Ht as <-. auto.
    - intros [-> Hp]. exists t. rewrite N.eqb_refl. auto.
  Qed.

Lemma DcAt_single M t M' p :
    DcAt [(M, t)] M' p <->
    M' = M /\ PyDict.mem p (dontcare_implicants t) = true.
  Proof.
    unfold DcAt; simpl. split.
    - intros (t' & Ht & Hp). destruct (N.eqb_spec M M'); [|discriminate].
      injection Ht as <-. auto.
    - intros [-> Hp]. exists t. rewrite N.eqb_refl. auto.
  Qed.

Lemma true_valid_point p :
    true_valid n ms dcs p (full n) <-> In p ms.
  Proof.
    split.
    - intros ([Hp _] & _ & x & Hx & Hc).
      apply point_cube in Hc; [congruence|auto].
    - intros Hp. repeat split; auto.
      + apply subm_refl.
      + intros x Hx Hc. apply point_cube in Hc; auto. subst. now left.
      + exists p. split; auto. now apply ms_range.
  Qed.

Lemma dc_valid_point p : dc_valid n dcs p (full n) <-> In p dcs.
  Proof.
    split.
    - intros ([Hp _] & H). apply H; auto.
    - intros Hp. repeat split; auto.
      + apply subm_refl.
      + intros x Hx Hc. apply point_cube in Hc; auto. now subst.
  Qed.

Lemma Inv_init : Inv n [(full n, init)] [].
  Proof.
    constructor; simpl; auto.
    - constructor; [simpl; tauto|constructor].
    - exists [full n], []. repeat split; auto.
      + intros M [<-|[]]. apply bit_count_full.
      + intros M [].
    - intros M [<-|[]]. apply subm_refl.
    - intros M t; simpl. destruct (N.eqb_spec (full n) M); [|discriminate].
      intros [= <-]. unfold init, set_implicants; simpl. split.
      + apply (fold_set_nodup (fun ix : nat * N => snd ix)
                 (fun ix => mkAttrs [Z.of_nat (fst ix)] false)). constructor.
      + apply (fold_set_nodup (fun a : N => a)
                 (fun _ => mkAttrs [(-1)%Z] false)). constructor.
    - intros M p a Ha. apply TrueAt_single in Ha. destruct Ha as [-> Ha].
      rewrite init_true_get_spec in Ha.
      destruct (last_idx 0 p ms) as [k|] eqn:E; [|discriminate].
      injection Ha as <-. simpl.
      assert (Hp: In p ms) by (apply (last_idx_In 0); congruence).
      split; auto. split; [now apply true_valid_point|].
      intros i. simpl. split.
      + intros [<-|[]]. exists p. repeat split; auto.
        * now apply ms_range.
        * unfold minterm_index. now rewrite E.
      + intros (x & Hx & Hc & Hi). left.
        apply point_cube in Hc; auto. subst x.
        unfold minterm_index in Hi. now rewrite E in Hi.
    - intros M p Hd. apply DcAt_single in Hd. destruct Hd as [-> Hd].
      apply dc_valid_point. now apply init_dc_mem.
    - intros p M _ [<-|[]]. split.
      + intros Hv. apply true_valid_point in Hv.
        apply (last_idx_In 0) in Hv.
        destruct (last_idx 0 p ms) as [k|] eqn:E; [|congruence].
        eexists. apply TrueAt_single. split; auto.
        rewrite init_true_get_spec, E. reflexivity.
      + intros Hv. apply dc_valid_point in Hv. apply DcAt_single.
        split; auto. now apply init_dc_mem.
    - intros p M1 j Hl _ HM1. left. left. symmetry.
      apply full_level_unique; auto. lia.
    - intros x [].
    - constructor.
    - intros x [].
    - intros p M Hv Hl. right.
      assert (M = full n).
      { apply full_level_unique; auto. apply Hv. }
      subst M. pose proof Hv as Hv'. apply true_valid_point in Hv.
      apply (last_idx_In 0) in Hv.
      destruct (last_idx 0 p ms) as [k|] eqn:E; [|congruence].
      exists (full n), p. eexists. split.
      + apply TrueAt_single. split; auto. rewrite init_true_get_spec, E. reflexivity.
      + apply sub_cube_refl. apply Hv'.
  Qed.


  (** *** Moving to the next level *)

Lemma valid_half_true p M1 j :
    N.testbit M1 (N.of_nat j) = true -> subm M1 (full n) ->
    true_valid n ms dcs p (down M1 j) ->
    exists q, (q = p \/ q = nb p j) /\ true_valid n ms dcs q M1.
  Proof.
    intros Hj HM1 ([Hp _] & Hall & Hm).
    destruct (@half_has_minterm ms p M1 j Hj Hp Hm) as [H|H].
    - exists p. split; auto. repeat split; auto.
      + apply (@land_down_id p M1 j Hj Hp).
      + eapply half_allowed; eauto.
    - exists (nb p j). split; auto. split; [|split]; auto.
      + eapply half_wf; eauto.
      + eapply half_allowed; eauto.
  Qed.

Lemma shift_present k pend found p M :
    Inv (S k) pend found ->
    (forall M', In M' (PyDict.keys pend) -> bit_count M' <> S k) ->
    bit_count M = k -> subm M (full n) ->
    (true_valid n ms dcs p M -> present_true pend p M) /\
    (dc_valid n dcs p M -> DcAt pend M p).
  Proof.
    intros I Hno Hl HM.
    assert (Hk: (bit_count M < n)%nat) by (pose proof (inv_k I); lia).
    destruct (clear_bit_exists HM Hk) as (j & Hj & Hb).
    destruct (inv_full_next I p (M1 := N.lor M (pow2 j)) j) as [H|H].
    - rewrite bit_count_set; auto.
    - apply lor_pow2_bit.
    - now apply subm_lor_pow2.
    - apply Hno in H. rewrite bit_count_set in H; auto. lia.
    - unfold down in H. rewrite lor_pow2_flip in H; auto.
  Qed.

Lemma Inv_shift k pend found :
    Inv (S k) pend found ->
    (forall M, In M (PyDict.keys pend) -> bit_count M <> S k) ->
    Inv k pend found.
  Proof.
    intros I Hno.
    assert (Hlev: forall M, In M (PyDict.keys pend) -> bit_count M = k).
    { intros M HM. destruct (inv_levels I) as (Q1 & Q2 & HQ & H1 & H2).
      rewrite HQ in HM. apply in_app_or in HM. destruct HM as [HM|HM].
      - exfalso. apply (Hno M); [rewrite HQ; apply in_or_app; auto|auto].
      - apply H2 in HM. lia. }
    constructor.
    - pose proof (inv_k I). lia.
    - apply (inv_nodup I).
    - exists (PyDict.keys pend), []. rewrite app_nil_r. repeat split; auto.
      intros M [].
    - apply (inv_sub I).
    - apply (inv_tables I).
    - apply (inv_true I).
    - apply (inv_dc I).
    - intros p M Hl HM. apply (@shift_present k pend found p M I Hno Hl). now apply (inv_sub I).
    - intros p M1 j Hl Hj HM1.
      destruct (in_dec N.eq_dec M1 (PyDict.keys pend)) as [Hin|Hin]; [now left|].
      right.
      assert (Hd: subm (down M1 j) (full n)) by now apply subm_down_full.
      split; intros Hv; exfalso; apply Hin.
      + destruct (@valid_half_true p M1 j Hj HM1 Hv) as (q & _ & Hq).
        destruct (@shift_present k pend found q M1 I Hno Hl HM1) as [H _].
        destruct (H Hq) as (a & Ha). eapply TrueAt_key; eauto.
      + assert (Hq: dc_valid n dcs p M1) by (eapply half_dc_valid; eauto).
        destruct (@shift_present k pend found p M1 I Hno Hl HM1) as [_ H].
        eapply DcAt_key; eauto.
    - apply (inv_primes I).
    - apply (inv_primes_nodup I).
    - intros x Hx. destruct (inv_primes_done I x Hx). split; auto. lia.
    - intros p M Hv Hl.
      destruct (Nat.eq_dec (bit_count M) k) as [E|E].
      + right. destruct (@shift_present k pend found p M I Hno E) as [H _]; [apply Hv|].
        destruct (H Hv) as (a & Ha). exists M, p, a. split; auto.
        apply sub_cube_refl. apply Hv.
      + apply (inv_resolved I); auto. lia.
  Qed.


  (** *** Processing the first pending table *)

Lemma TrueAt_cons M0 tbl rest M p a :
    TrueAt ((M0, tbl) :: rest) M p a <->
    (M = M0 /\ PyDict.get p (true_implicants tbl) = Some a) \/
    (M <> M0 /\ TrueAt rest M p a).
  Proof.
    unfold TrueAt; simpl. destruct (N.eqb_spec M0 M) as [->|Hne].
    - split.
      + intros (t & [= <-] & Hp). auto.
      + intros [[_ Hp]|[Hn _]]; [eauto|congruence].
    - split.
      + intros H. right. split; [congruence|auto].
      + intros [[E _]|[_ H]]; [congruence|auto].
  Qed.

Lemma DcAt_cons M0 tbl rest M p :
    DcAt ((M0, tbl) :: rest) M p <->
    (M = M0 /\ PyDict.mem p (dontcare_implicants tbl) = true) \/
    (M <> M0 /\ DcAt rest M p).
  Proof.
    unfold DcAt; simpl. destruct (N.eqb_spec M0 M) as [->|Hne].
    - split.
      + intros (t & [= <-] & Hp). auto.
      + intros [[_ Hp]|[Hn _]]; [eauto|congruence].
    - split.
      + intros H. right. split; [congruence|auto].
      + intros [[E _]|[_ H]]; [congruence|auto].
  Qed.

Section Step.
Variables (k : nat) (M0 : N) (tbl : ImplicantTable).
Variables (rest : pending_tables) (found : list prime).
Hypothesis I : Inv k ((M0, tbl) :: rest) found.
Hypothesis Hlevel : bit_count M0 = k.

Let pend := (M0, tbl) :: rest.
Let st := after n M0 tbl rest found.

Lemma step_flags0 : forall p, flag p tbl = false.
    Proof.
      intros p. unfold flag, attrs_of.
      destruct (PyDict.get p (true_implicants tbl)) as [a|] eqn:E; auto.
      apply (inv_true I (M := M0) (p := p)). apply TrueAt_cons. auto.
    Qed.

Lemma step_M0_rest : ~ In M0 (PyDict.keys rest).
    Proof. pose proof (inv_nodup I) as H. simpl in H. now inversion H. Qed.

Lemma step_M0_full : subm M0 (full n).
    Proof. apply (inv_sub I). simpl. auto. Qed.

Lemma step_rest_true M p a : TrueAt rest M p a -> TrueAt pend M p a.
    Proof.
      intros H. apply TrueAt_cons. right. split; auto.
      intros ->. apply step_M0_rest. eapply TrueAt_key; eauto.
    Qed.

Lemma step_rest_dc M p : DcAt rest M p -> DcAt pend M p.
    Proof.
      intros H. apply DcAt_cons. right. split; auto.
      intros ->. apply step_M0_rest. eapply DcAt_key; eauto.
    Qed.

Lemma step_T_valid p :
      inT tbl p = true ->
      true_valid n ms dcs p M0 /\ cov_spec p M0 (cov_of p tbl).
    Proof.
      intros H. apply mem_get in H. destruct H as (a & Ha).
      assert (Ht: TrueAt pend M0 p a) by (apply TrueAt_cons; auto).
      destruct (inv_true I Ht) as (_ & Hv & Hc). split; auto.
      unfold cov_of, attrs_of. now rewrite Ha.
    Qed.

Lemma step_D_valid p : inD tbl p = true -> dc_valid n dcs p M0.
    Proof.
      intros H. apply (inv_dc I). apply DcAt_cons. auto.
    Qed.

Lemma step_T_complete p : true_valid n ms dcs p M0 -> inT tbl p = true.
    Proof.
      intros Hv.
      destruct (inv_full_k I p M0 Hlevel (or_introl eq_refl)) as [H _].
      destruct (H Hv) as (a & Ha). apply TrueAt_cons in Ha.
      destruct Ha as [[_ Ha]|[? _]]; [|congruence].
      apply mem_get. eauto.
    Qed.

Lemma step_D_complete p : dc_valid n dcs p M0 -> inD tbl p = true.
    Proof.
      intros Hv.
      destruct (inv_full_k I p M0 Hlevel (or_introl eq_refl)) as [_ H].
      apply H in Hv. apply DcAt_cons in Hv.
      destruct Hv as [[_ Ha]|[? _]]; [auto|congruence].
    Qed.

Lemma step_allowed_in p :
      cube_wf n p M0 -> cube_allowed n ms dcs p M0 ->
      inT tbl p = true \/ inD tbl p = true.
    Proof.
      intros Hwf Hall. destruct (allowed_cube_valid Hwf Hall) as [H|H].
      - left. now apply step_T_complete.
      - right. now apply step_D_complete.
    Qed.

Lemma step_no_minterm p :
      inT tbl p = false -> inD tbl p = true ->
      forall x, In x ms -> N.land x M0 <> p.
    Proof.
      intros Hf Hd x Hx Hc. apply step_D_valid in Hd.
      assert (true_valid n ms dcs p M0).
      { destruct Hd as [Hwf Hd]. split; [|split]; auto.
        - intros y Hy Hyc. right. auto.
        - exists x. auto. }
      apply step_T_complete in H. congruence.
    Qed.

Lemma step_newT_valid M' p' a :
      NewT n M0 tbl M' p' a ->
      was_combined a = false /\ true_valid n ms dcs p' M' /\
      cov_spec p' M' (covered_minterms a).
    Proof.
      intros (p & j & Hp & Hj & Ej & -> & -> & Hf & Hcase).
      apply inT_In in Hp. destruct (step_T_valid p Hp) as (Hv & Hc).
      split; auto. destruct Hcase as [(Hn & Hcov)|(Hn & Hd & Hcov)].
      - destruct (step_T_valid _ Hn) as (Hv2 & Hc2). split.
        + apply merge_true_valid; auto. now apply true_valid_allowed.
        + intros i. rewrite Hcov. unfold zset_union. rewrite set_union_iff.
          rewrite (Hc i), (Hc2 i). unfold down. split.
          * intros [(x & Hx & Hxc & Hi)|(x & Hx & Hxc & Hi)];
              exists x; repeat split; auto; apply merge_points; auto;
              apply Hv.
          * intros (x & Hx & Hxc & Hi).
            apply merge_points in Hxc; auto; [|apply Hv].
            destruct Hxc; [left|right]; exists x; auto.
      - split.
        + apply merge_true_valid; auto. apply dc_valid_allowed.
          now apply step_D_valid.
        + intros i. rewrite Hcov, (Hc i). unfold down. split.
          * intros (x & Hx & Hxc & Hi). exists x. repeat split; auto.
            apply merge_points; auto. apply Hv.
          * intros (x & Hx & Hxc & Hi).
            apply merge_points in Hxc; auto; [|apply Hv].
            destruct Hxc as [Hxc|Hxc]; [exists x; auto|].
            exfalso. eapply step_no_minterm; eauto.
    Qed.

Lemma step_newD_valid M' p' : NewD n M0 tbl M' p' -> dc_valid n dcs p' M'.
    Proof.
      intros (p & j & Hp & Hj & Ej & Hn & -> & ->).
      apply inD_In in Hp. apply merge_dc_valid; auto; now apply step_D_valid.
    Qed.

Lemma step_news M' :
      (exists j, (j < n)%nat /\ N.testbit M0 (N.of_nat j) = true /\
                 M' = down M0 j) ->
      S (bit_count M') = k /\ subm M' (full n) /\ M' <> M0.
    Proof.
      intros (j & Hj & Ej & ->). unfold down. repeat split.
      - rewrite <- Hlevel. symmetry. now apply bit_count_flip.
      - apply subm_down_full; auto. apply step_M0_full.
      - apply lxor_pow2_neq.
    Qed.

Lemma step_keys :
      exists news, PyDict.keys (pending st) = PyDict.keys rest ++ news /\
        forall M', In M' news ->
          S (bit_count M') = k /\ subm M' (full n) /\ M' <> M0.
    Proof.
      destruct (ti_keys (@after_inv n M0 tbl rest found step_flags0))
        as (news & Hk & Hn).
      exists news. split; auto. intros M' HM'. apply step_news. now apply Hn.
    Qed.

Lemma step_levels_rest :
      exists Q1 Q2, PyDict.keys rest = Q1 ++ Q2 /\
        (forall M, In M Q1 -> bit_count M = k) /\
        (forall M, In M Q2 -> S (bit_count M) = k).
    Proof.
      destruct (inv_levels I) as (Q1 & Q2 & HQ & H1 & H2). simpl in HQ.
      destruct Q1 as [|M Q1]; simpl in HQ.
      - exfalso. assert (In M0 Q2) by (rewrite <- HQ; now left).
        apply H2 in H. lia.
      - injection HQ as -> HQ. exists Q1, Q2. repeat split; auto.
        intros M' HM. apply H1. now right.
    Qed.

Lemma step_key_level_k M :
      In M (PyDict.keys (pending st)) -> bit_count M = k ->
      In M (PyDict.keys rest) /\ M <> M0.
    Proof.
      intros HM Hl. destruct step_keys as (news & Hk & Hn).
      rewrite Hk in HM. apply in_app_or in HM. destruct HM as [HM|HM].
      - split; auto. intros ->. now apply step_M0_rest.
      - apply Hn in HM. lia.
    Qed.


Lemma step_valid_nb p j :
      N.testbit M0 (N.of_nat j) = true ->
      cube_wf n p M0 -> cube_allowed n ms dcs (nb p j) M0 ->
      inT tbl (nb p j) = true \/ inD tbl (nb p j) = true.
    Proof.
      intros Ej Hwf Hall. apply step_allowed_in; auto.
      now apply cube_wf_nb.
    Qed.

Lemma nb_nb p j : nb (nb p j) j = p.
    Proof. apply lxor_pow2_twice. Qed.

    (** Every implicant one level below the popped table is in the
        pending tables afterwards. *)
Lemma step_next_true p j :
      N.testbit M0 (N.of_nat j) = true ->
      true_valid n ms dcs p (down M0 j) ->
      present_true (pending st) p (down M0 j).
    Proof.
      intros Ej Hv.
      assert (Hj: (j < n)%nat) by (eapply testbit_full_lt; eauto; apply step_M0_full).
      destruct Hv as ([Hp HM] & Hall & Hm).
      destruct (@land_down_id p M0 j Ej Hp) as (HpM & Hid & _).
      assert (Hwf: cube_wf n p M0) by (split; auto; apply step_M0_full).
      assert (H1: cube_allowed n ms dcs p M0) by (eapply half_allowed; eauto).
      assert (H2: cube_allowed n ms dcs (nb p j) M0)
        by (eapply half_allowed; eauto).
      destruct (@half_has_minterm ms p M0 j Ej Hp Hm) as [Hh|Hh].
      - assert (Hin: inT tbl p = true)
          by (apply step_T_complete; split; [|split]; auto).
        destruct (@after_true_complete n M0 tbl rest found step_flags0 p j)
          as (a & Ha); auto.
        + now apply inT_In.
        + now apply step_valid_nb.
        + exists a. unfold down in *. now rewrite Hid in Ha.
      - assert (Hwf2: cube_wf n (nb p j) M0) by now apply cube_wf_nb.
        assert (Hin: inT tbl (nb p j) = true)
          by (apply step_T_complete; split; [|split]; auto).
        destruct (@after_true_complete n M0 tbl rest found step_flags0 (nb p j) j)
          as (a & Ha); auto.
        + now apply inT_In.
        + rewrite nb_nb. now apply step_allowed_in.
        + exists a. unfold down, nb in *.
          rewrite land_clear_flip in Ha by auto. now rewrite Hid in Ha.
    Qed.

Lemma step_next_dc p j :
      N.testbit M0 (N.of_nat j) = true ->
      dc_valid n dcs p (down M0 j) ->
      DcAt (pending st) (down M0 j) p.
    Proof.
      intros Ej Hv.
      assert (Hj: (j < n)%nat) by (eapply testbit_full_lt; eauto; apply step_M0_full).
      pose proof Hv as ([Hp HM] & _).
      destruct (@land_down_id p M0 j Ej Hp) as (HpM & Hid & _).
      assert (H1: dc_valid n dcs p M0)
        by (eapply half_dc_valid; eauto; apply step_M0_full).
      assert (H2: dc_valid n dcs (nb p j) M0)
        by (eapply half_dc_valid; eauto; apply step_M0_full).
      apply step_D_complete in H1, H2.
      pose proof (@after_dc_complete n M0 tbl rest found step_flags0 p j) as H.
      unfold down in *. rewrite Hid in H. apply H; auto. now apply inD_In.
    Qed.

Lemma Inv_step : Inv k (pending st) (primes st).
    Proof.
      pose proof (@after_inv n M0 tbl rest found step_flags0) as TI.
      fold st in TI.
      destruct step_keys as (news & Hkeys & Hnews).
      assert (HT: NoDup (PyDict.keys (true_implicants tbl))).
      { apply (inv_tables I M0 (t := tbl)). simpl. now rewrite N.eqb_refl. }
      destruct (@after_primes_nodup n M0 tbl rest found step_flags0 HT)
        as (L & HL & HLnd & HLx).
      fold st in HL.
      assert (Hnd_rest: NoDup (PyDict.keys rest)).
      { pose proof (inv_nodup I) as H. simpl in H. now inversion H. }
      constructor.
      - apply (inv_k I).
      - now apply (ti_nodup TI).
      - destruct step_levels_rest as (Q1 & Q2 & HQ & H1 & H2).
        exists Q1, (Q2 ++ news). rewrite Hkeys, HQ, app_assoc.
        repeat split; auto. intros M HM. apply in_app_or in HM.
        destruct HM as [HM|HM]; auto. now apply Hnews.
      - intros M HM. rewrite Hkeys in HM. apply in_app_or in HM.
        destruct HM as [HM|HM].
        + apply (inv_sub I). simpl. auto.
        + now apply Hnews.
      - apply process_table_tables_nodup. intros M t Ht.
        apply (inv_tables I M (t := t)). simpl.
        destruct (N.eqb_spec M0 M) as [E|]; auto.
        exfalso. apply step_M0_rest. rewrite E. apply get_In_keys. congruence.
      - intros M p a Ha. destruct (ti_true TI Ha) as [H|H].
        + apply (inv_true I (M := M) (p := p)). now apply step_rest_true.
        + now apply step_newT_valid.
      - intros M p Hd. destruct (ti_dc TI Hd) as [H|H].
        + apply (inv_dc I). now apply step_rest_dc.
        + now apply step_newD_valid.
      - intros p M Hl HM. destruct (step_key_level_k M HM Hl) as [Hr Hne].
        destruct (inv_full_k I p M Hl (or_intror Hr)) as [A B]. split.
        + intros Hv. destruct (A Hv) as (a & Ha). apply TrueAt_cons in Ha.
          destruct Ha as [[? _]|[_ Ha]]; [congruence|].
          apply (ti_keep_true TI Ha).
        + intros Hv. apply B in Hv. apply DcAt_cons in Hv.
          destruct Hv as [[? _]|[_ Hv]]; [congruence|].
          apply (ti_keep_dc TI Hv).
      - intros p M1 j Hl Ej HM1.
        destruct (N.eq_dec M1 M0) as [->|Hne].
        + right. split; [now apply step_next_true|now apply step_next_dc].
        + assert (Hdn: down M1 j <> M0).
          { intros E. pose proof (bit_count_flip M1 j Ej) as Hc.
            unfold down in E. rewrite E in Hc. lia. }
          destruct (inv_full_next I p j Hl Ej HM1) as [H|[A B]].
          * left. rewrite Hkeys. apply in_or_app. left.
            simpl in H. destruct H; [congruence|auto].
          * right. split.
            -- intros Hv. destruct (A Hv) as (a & Ha). apply TrueAt_cons in Ha.
               destruct Ha as [[? _]|[_ Ha]]; [congruence|].
               apply (ti_keep_true TI Ha).
            -- intros Hv. apply B in Hv. apply DcAt_cons in Hv.
               destruct Hv as [[? _]|[_ Hv]]; [congruence|].
               apply (ti_keep_dc TI Hv).
      - intros x Hx. rewrite HL in Hx. apply in_app_or in Hx.
        destruct Hx as [Hx|Hx]; [now apply (inv_primes I)|].
        destruct (HLx x Hx) as (Hm & Hin & Hcov & Hnc).
        apply inT_In in Hin. destruct (step_T_valid _ Hin) as (Hv & Hc).
        unfold prime_ok. rewrite Hm, Hcov. split; [|split]; auto.
        intros j Hj Ej Hall. apply Hnc. exists j. repeat split; auto.
        apply step_valid_nb; auto. apply Hv.
      - rewrite HL, map_app. apply NoDup_app.
        + apply (inv_primes_nodup I).
        + apply (NoDup_map_inv fst). rewrite map_map. exact HLnd.
        + intros c Hc1 Hc2. apply in_map_iff in Hc1, Hc2.
          destruct Hc1 as (x & Ex & Hx), Hc2 as (y & Ey & Hy).
          destruct (inv_primes_done I x Hx) as [Hno _].
          destruct (HLx y Hy) as (Hm & _). apply Hno. simpl. left.
          unfold pi_mask in *. rewrite Ex, <- Ey. auto.
      - intros x Hx. rewrite HL in Hx. apply in_app_or in Hx.
        destruct Hx as [Hx|Hx].
        + destruct (inv_primes_done I x Hx) as [Hno Hle]. split; auto.
          rewrite Hkeys. intros Hin. apply in_app_or in Hin.
          destruct Hin as [Hin|Hin].
          * apply Hno. simpl. auto.
          * apply Hnews in Hin. lia.
        + destruct (HLx x Hx) as (Hm & _). rewrite Hm. split; [|lia].
          rewrite Hkeys. intros Hin. apply in_app_or in Hin.
          destruct Hin as [Hin|Hin].
          * now apply step_M0_rest.
          * apply Hnews in Hin. tauto.
      - intros p M Hv Hl.
        destruct (inv_resolved I Hv Hl) as [(x & Hx & Hs)|(M' & p' & a & Ha & Hs)].
        + left. exists x. split; auto. rewrite HL. apply in_or_app. auto.
        + apply TrueAt_cons in Ha. destruct Ha as [[-> Ha]|[_ Ha]].
          * assert (Hin: In p' (PyDict.keys (true_implicants tbl))).
            { apply get_In_keys. congruence. }
            destruct (@after_settled n M0 tbl rest found step_flags0 p' Hin)
              as [Hp|(j & a' & Hj & Ej & Ha')].
            -- left. eexists. split; [exact Hp|]. exact Hs.
            -- right. do 3 eexists. split; [exact Ha'|].
               eapply sub_cube_trans; [exact Hs|]. now apply sub_cube_down.
          * destruct (ti_keep_true TI Ha) as (a' & Ha').
            right. eauto.
    Qed.

End Step.

End Run.
End QmRun.

(** ** Quine-McCluskey: termination and the computed primes *)

Module QmResult.
Import Facts BoolExpr QmFacts QmTable Cubes QmRun.
Open Scope N_scope.

Section Termination.
Variable n : nat.

Definition weight (M : N) : nat := (S n ^ bit_count M)%nat.

Definition mu (s : pending_tables * list prime) : nat :=
    list_sum (map weight (PyDict.keys (fst s))).

Definition TermInv (s : pending_tables * list prime) : Prop :=
    NoDup (PyDict.keys (fst s)) /\
    forall M p a, TrueAt (fst s) M p a -> was_combined a = false.

Lemma list_sum_const (f : N -> nat) w l :
    (forall x, In x l -> f x = w) ->
    list_sum (map f l) = (List.length l * w)%nat.
  Proof.
    induction l as [|x l IH]; intros H; simpl; auto.
    rewrite H, IH; auto; simpl; auto. intros; apply H; now right.
  Qed.

Lemma news_weight M0 news :
    NoDup news -> new_keys n M0 news ->
    (list_sum (map weight news) < weight M0)%nat.
  Proof.
    intros Hnd Hnew. destruct news as [|M1 news'].
    { simpl. unfold weight. apply Nat.neq_0_lt_0, Nat.pow_nonzero. lia. }
    remember (M1 :: news') as news eqn:E.
    assert (HM1: In M1 news) by (subst; now left).
    clear E news'.
    set (w := (S n ^ (bit_count M0 - 1))%nat).
    assert (Hw: forall M', In M' news -> weight M' = w /\
                           (1 <= bit_count M0)%nat).
    { intros M' HM'. destruct (Hnew M' HM') as (j & Hj & Ej & ->).
      pose proof (bit_count_flip M0 j Ej) as Hc. unfold down, weight, w.
      rewrite Hc. split; [f_equal|]; lia. }
    rewrite (@list_sum_const weight w news); [|intros x Hx; now apply Hw].
    assert (Hlen: (List.length news <= n)%nat).
    { replace n with (List.length (map (down M0) (seq 0 n)))
        by (now rewrite length_map, length_seq).
      apply NoDup_incl_length; auto. intros M' HM'.
      destruct (Hnew M' HM') as (j & Hj & Ej & ->).
      apply in_map. apply in_seq. lia. }
    assert (H1: (1 <= bit_count M0)%nat).
    { now apply (Hw M1). }
    unfold weight. replace (bit_count M0) with (S (bit_count M0 - 1)) by lia.
    rewrite Nat.pow_succ_r'. fold w.
    assert (0 < w)%nat by (apply Nat.neq_0_lt_0, Nat.pow_nonzero; lia).
    nia.
  Qed.

Lemma qm_step_decreases s s' :
    TermInv s -> qm_step n s = inl s' -> TermInv s' /\ (mu s' < mu s)%nat.
  Proof.
    destruct s as [pend found]. unfold qm_step; simpl.
    destruct pend as [|[M0 tbl] rest]; [discriminate|].
    intros [Hnd Hfl] [= <-]. simpl in Hnd.
    assert (Hf0: forall p, flag p tbl = false).
    { intros p. unfold flag, attrs_of.
      destruct (PyDict.get p (true_implicants tbl)) as [a|] eqn:E; auto.
      apply (Hfl M0 p). simpl. exists tbl. simpl. now rewrite N.eqb_refl. }
    pose proof (@after_inv n M0 tbl rest found Hf0) as TI.
    unfold after in TI.
    assert (Hr: NoDup (PyDict.keys rest)) by now inversion Hnd.
    assert (Hm: ~ In M0 (PyDict.keys rest)) by now inversion Hnd.
    split; [split|]; simpl.
    - now apply (ti_nodup TI).
    - intros M p a Ha. destruct (ti_true TI Ha) as [H|H].
      + apply (Hfl M p). simpl. destruct H as (t & Ht & Hp).
        exists t. simpl. destruct (N.eqb_spec M0 M) as [E|]; auto.
        exfalso. apply Hm. rewrite E. apply get_In_keys. congruence.
      + destruct H as (? & ? & _ & _ & _ & _ & _ & H & _). exact H.
    - unfold mu; simpl. destruct (ti_keys TI) as (news & Hk & Hn).
      rewrite Hk, map_app, list_sum_app.
      assert (NoDup news).
      { pose proof (ti_nodup TI Hr) as H. rewrite Hk in H.
        eapply NoDup_app_remove_l; eauto. }
      pose proof (news_weight H Hn). lia.
  Qed.

Lemma qm_terminates ms dcs :
    exists found, compute_prime_implicants n ms dcs = Some found.
  Proof.
    unfold compute_prime_implicants. rewrite iterate_pos_nat.
    rewrite shiftl_1_full. remember (full n) as m eqn:Em.
    set (s0 := (pending_at m (fun _ => set_implicants ms dcs) [], @nil prime)).
    destruct (@iterate_nat_terminates _ _ (qm_step n) TermInv mu
                qm_step_decreases (Pos.to_nat (qm_budget n)) s0) as (r & Hr).
    - split; simpl.
      + constructor; [simpl; tauto|constructor].
      + intros M p a (t & Ht & Hp). simpl in Ht.
        destruct (N.eqb_spec m M); [|discriminate].
        injection Ht as <-. unfold set_implicants, enumerate in Hp.
        cbn [true_implicants] in Hp.
        rewrite (QmRun.init_true_get ms 0 [] p) in Hp.
        destruct (last_idx 0 p ms); simpl in Hp; [|discriminate].
        now injection Hp as <-.
    - unfold mu, s0; simpl. subst m. unfold weight.
      rewrite bit_count_full. unfold qm_budget.
      rewrite Pos2Nat.inj_succ, Pos2Nat.inj_pow, SuccNat2Pos.id_succ.
      rewrite Nat.pow_succ_r'.
      assert (0 < S n ^ n)%nat by (apply Nat.neq_0_lt_0, Nat.pow_nonzero; lia).
      nia.
    - rewrite Hr. eauto.
  Qed.
End Termination.

Section Result.
Variables (n : nat) (ms dcs : list N).
Hypothesis ms_range : forall x, In x ms -> subm x (full n).
Hypothesis dcs_range : forall x, In x dcs -> subm x (full n).

  (** What the list of primes satisfies: every entry is a maximal
      implicant with its covered minterm indexes, no cube appears twice,
      and every implicant holding a minterm lies inside an entry. *)
Definition qm_result_ok (found : list prime) : Prop :=
    (forall x, In x found -> prime_ok n ms dcs x) /\
    NoDup (map fst found) /\
    (forall p M, true_valid n ms dcs p M ->
       exists x, In x found /\ sub_cube p M (pi_impl x) (pi_mask x)).

Lemma Inv_empty_zero k found :
    Inv n ms dcs k [] found -> Inv n ms dcs 0 [] found.
  Proof.
    induction k as [|k IH]; auto. intros I. apply IH.
    apply Inv_shift; auto.
  Qed.

Lemma qm_step_inv s s' :
    (exists k, Inv n ms dcs k (fst s) (snd s)) -> qm_step n s = inl s' ->
    exists k, Inv n ms dcs k (fst s') (snd s').
  Proof.
    destruct s as [pend found]. unfold qm_step; simpl.
    destruct pend as [|[M0 tbl] rest]; [discriminate|].
    intros (k & I) [= <-]. simpl.
    destruct (Nat.eq_dec (bit_count M0) k) as [E|E].
    - exists k. apply (Inv_step I E).
    - destruct (inv_levels I) as (Q1 & Q2 & HQ & H1 & H2). simpl in HQ.
      destruct Q1 as [|M Q1]; simpl in HQ.
      + destruct k as [|k].
        { assert (In M0 Q2) by (rewrite <- HQ; now left).
          apply H2 in H. lia. }
        assert (E': bit_count M0 = k).
        { assert (In M0 Q2) by (rewrite <- HQ; now left).
          apply H2 in H. lia. }
        exists k. apply (@Inv_step n ms dcs k); auto.
        apply Inv_shift; auto. intros M HM.
        assert (HM': In M Q2) by (rewrite <- HQ; exact HM).
        apply H2 in HM'. lia.
      + injection HQ as <- _. exfalso. apply E. apply H1. now left.
  Qed.

Lemma qm_correct :
    exists found, compute_prime_implicants n ms dcs = Some found /\
                  qm_result_ok found.
  Proof.
    destruct (qm_terminates n ms dcs) as (found & Hf). exists found.
    split; auto. unfold compute_prime_implicants in Hf.
    destruct (iterate_pos (qm_step n) (qm_budget n) _) as [|r] eqn:E;
      [discriminate|].
    injection Hf as ->. rewrite iterate_pos_nat in E.
    revert E. apply iterate_nat_invariant
      with (I := fun s => exists k, Inv n ms dcs k (fst s) (snd s)).
    - apply qm_step_inv.
    - intros [pend fnd] r (k & I). unfold qm_step; simpl.
      destruct pend as [|[M0 tbl] rest]; [|discriminate].
      intros [= <-]. simpl in I. apply Inv_empty_zero in I.
      split; [apply (inv_primes I)|]. split; [apply (inv_primes_nodup I)|].
      intros p M Hv.
      destruct (inv_resolved I Hv) as [H|(M' & p' & a & (t & Ht & _) & _)];
        [lia|auto|discriminate].
    - exists n. rewrite shiftl_1_full. apply Inv_init; auto.
  Qed.

End Result.
End QmResult.

(** ** Petrick's method on an arbitrary list of prime implicants *)

Module PetrickFacts.
Import Facts BoolExpr QmFacts.
Open Scope nat_scope.

Lemma natset_mem_In x a : natset_mem x a = true <-> In x a.
Proof.
  unfold natset_mem. split.
  - apply set_mem_correct1.
  - apply set_mem_correct2.
Qed.

Lemma zset_mem_In x a : zset_mem x a = true <-> In x a.
Proof.
  unfold zset_mem. split.
  - apply set_mem_correct1.
  - apply set_mem_correct2.
Qed.

Lemma issubset_incl a b : issubset a b = true <-> incl a b.
Proof.
  unfold issubset. rewrite forallb_forall. unfold incl.
  split; intros H x Hx; apply natset_mem_In; auto.
Qed.

Lemma natset_union_In x a b : In x (natset_union a b) <-> In x a \/ In x b.
Proof. apply set_union_iff. Qed.

Lemma natset_union_nodup a b :
  NoDup a -> NoDup b -> NoDup (natset_union a b).
Proof. apply set_union_nodup. Qed.

Lemma all_mintermidxs_In pis i :
  In i (all_mintermidxs pis) <-> exists x, In x pis /\ In i (pi_covered x).
Proof.
  unfold all_mintermidxs.
  assert (H: forall l acc, In i (fold_left zset_union (map pi_covered l) acc) <->
                           In i acc \/ exists x, In x l /\ In i (pi_covered x)).
  { induction l as [|y l IH]; intros acc; simpl.
    - split; [auto|]. intros [H|(x & [] & _)]; auto.
    - rewrite IH. unfold zset_union. rewrite set_union_iff. split.
      + intros [[H|H]|(x & Hx & Hi)]; eauto.
      + intros [H|(x & [<-|Hx] & Hi)]; eauto. }
  rewrite H. simpl. split; [intros [[]|H']; auto|auto].
Qed.

Lemma covering_fold_In m l i s idx :
  In idx (fold_left (fun s ip => if zset_mem m (pi_covered (snd ip))
                                 then set_add Nat.eq_dec (fst ip) s else s)
            (combine (seq i (List.length l)) l) s) <->
  In idx s \/ exists x, i <= idx /\ nth_error l (idx - i) = Some x /\
                        In m (pi_covered x).
Proof.
  revert i s; induction l as [|y l IH]; intros i s; simpl.
  - split; [auto|]. intros [H|(x & _ & Hn & _)]; auto.
    destruct (idx - i); discriminate.
  - rewrite IH. destruct (zset_mem m (pi_covered y)) eqn:E.
    + rewrite set_add_iff. apply zset_mem_In in E. split.
      * intros [[->|H]|(x & Hle & Hn & Hm)]; auto.
        -- right. exists y. rewrite Nat.sub_diag. auto.
        -- right. exists x. split; [lia|]. split; auto.
           replace (idx - i) with (S (idx - S i)) by lia. exact Hn.
      * intros [H|(x & Hle & Hn & Hm)]; auto.
        destruct (Nat.eq_dec idx i) as [->|Hne]; auto.
        right. exists x. split; [lia|]. split; auto.
        replace (idx - i) with (S (idx - S i)) in Hn by lia. exact Hn.
    + split.
      * intros [H|(x & Hle & Hn & Hm)]; auto.
        right. exists x. split; [lia|]. split; auto.
        replace (idx - i) with (S (idx - S i)) by lia. exact Hn.
      * intros [H|(x & Hle & Hn & Hm)]; auto.
        destruct (Nat.eq_dec idx i) as [->|Hne].
        -- rewrite Nat.sub_diag in Hn. simpl in Hn. injection Hn as ->.
           apply zset_mem_In in Hm. congruence.
        -- right. exists x. split; [lia|]. split; auto.
           replace (idx - i) with (S (idx - S i)) in Hn by lia. exact Hn.
Qed.

Lemma covering_In pis m idx :
  In idx (covering pis m) <->
  exists x, nth_error pis idx = Some x /\ In m (pi_covered x).
Proof.
  unfold covering, enumerate. rewrite covering_fold_In. simpl.
  rewrite Nat.sub_0_r. split.
  - intros [[]|(x & _ & H)]. eauto.
  - intros (x & H). right. exists x. split; [lia|auto].
Qed.

Lemma covering_nodup pis m : NoDup (covering pis m).
Proof.
  unfold covering. apply fold_left_inv; [|constructor].
  intros s ip _ Hs. destruct (zset_mem m (pi_covered (snd ip))); auto.
  now apply set_add_nodup.
Qed.

Lemma pi_at_nth pis i x : nth_error pis i = Some x -> pi_at pis i = x.
Proof. intros H. unfold pi_at. now apply nth_error_nth. Qed.

(** *** The absorption scan *)

Section Scan.
Variable pis : list prime.

Definition infos_ok (infos : list (Z * MintermInfo)) : Prop :=
    (forall mi, In mi infos -> covered_by (snd mi) = covering pis (fst mi)) /\
    (forall mi, In mi infos ->
       exists mi', In mi' infos /\ absorbed (snd mi') = false /\
                   incl (covered_by (snd mi')) (covered_by (snd mi))).

Lemma absorb_old_fst s mi : fst (absorb_old s mi) = fst mi.
  Proof.
    unfold absorb_old. destruct (issubset (covered_by (snd mi)) s); auto.
    destruct (issubset s (covered_by (snd mi))); auto.
  Qed.

Lemma absorb_old_cb s mi :
    covered_by (snd (absorb_old s mi)) = covered_by (snd mi).
  Proof.
    unfold absorb_old. destruct (issubset (covered_by (snd mi)) s); auto.
    destruct (issubset s (covered_by (snd mi))); auto.
  Qed.

Lemma absorb_old_flag s mi :
    absorbed (snd mi) = false ->
    absorbed (snd (absorb_old s mi)) = false \/
    (~ incl (covered_by (snd mi)) s /\ incl s (covered_by (snd mi))).
  Proof.
    intros H. unfold absorb_old.
    destruct (issubset (covered_by (snd mi)) s) eqn:E1; auto.
    destruct (issubset s (covered_by (snd mi))) eqn:E2; auto.
    right. split.
    - intros Hi. apply issubset_incl in Hi. congruence.
    - now apply issubset_incl.
  Qed.

Lemma absorb_old_keep s mi :
    absorbed (snd mi) = false -> incl (covered_by (snd mi)) s ->
    absorbed (snd (absorb_old s mi)) = false.
  Proof.
    intros H Hi. unfold absorb_old. apply issubset_incl in Hi. now rewrite Hi.
  Qed.

Lemma record_minterm_ok infos m :
    infos_ok infos -> infos_ok (record_minterm pis infos m).
  Proof.
    intros [Hcb Hw]. unfold record_minterm.
    set (s := covering pis m).
    assert (Hnew: absorb_new s infos = true ->
                  exists w, In w infos /\ absorbed (snd w) = false /\
                            incl (covered_by (snd w)) s).
    { intros H. apply existsb_exists in H. destruct H as (mi & Hmi & Hs).
      apply issubset_incl in Hs. destruct (Hw mi Hmi) as (w & Hin & Hf & Hi).
      exists w. repeat split; auto. eapply incl_tran; eauto. }
    assert (Hsmall: forall c, incl s c ->
              exists mi', In mi' (map (absorb_old s) infos ++
                            [(m, mkInfo s (absorb_new s infos))]) /\
                          absorbed (snd mi') = false /\
                          incl (covered_by (snd mi')) c).
    { intros c Hc. destruct (absorb_new s infos) eqn:E.
      - destruct (Hnew eq_refl) as (w & Hin & Hf & Hi).
        exists (absorb_old s w). split; [|split].
        + apply in_or_app. left. now apply in_map.
        + now apply absorb_old_keep.
        + rewrite absorb_old_cb. eapply incl_tran; eauto.
      - exists (m, mkInfo s false). split; [|split]; auto.
        apply in_or_app. right. now left. }
    split.
    - intros mi Hmi. apply in_app_or in Hmi. destruct Hmi as [Hmi|[<-|[]]].
      + apply in_map_iff in Hmi. destruct Hmi as (mi0 & <- & Hin).
        rewrite absorb_old_cb, absorb_old_fst. auto.
      + reflexivity.
    - intros mi Hmi. apply in_app_or in Hmi. destruct Hmi as [Hmi|[<-|[]]].
      + apply in_map_iff in Hmi. destruct Hmi as (mi0 & <- & Hin).
        rewrite absorb_old_cb.
        destruct (Hw mi0 Hin) as (w & Hwin & Hf & Hi).
        destruct (absorb_old_flag s w Hf) as [Hk|[_ Hsw]].
        * exists (absorb_old s w). split; [|split]; auto.
          -- apply in_or_app. left. now apply in_map.
          -- now rewrite absorb_old_cb.
        * apply Hsmall. eapply incl_tran; eauto.
      + simpl. apply Hsmall. apply incl_refl.
  Qed.

Lemma record_minterm_keys infos m :
    map fst (record_minterm pis infos m) = map fst infos ++ [m].
  Proof.
    unfold record_minterm. rewrite map_app, map_map. simpl. f_equal.
    apply map_ext. intros; apply absorb_old_fst.
  Qed.

Lemma fold_record_ok l :
    infos_ok (fold_left (record_minterm pis) l []) /\
    map fst (fold_left (record_minterm pis) l []) = l.
  Proof.
    apply (fold_left_prefix (record_minterm pis)
             (fun done infos => infos_ok infos /\ map fst infos = done)).
    - intros done x rest infos _ [Hok Hk]. split.
      + now apply record_minterm_ok.
      + rewrite record_minterm_keys. now rewrite Hk.
    - split; [split; intros ? []|reflexivity].
  Qed.
End Scan.

(** *** Absorbing supersets *)

Lemma simplify_place_In term L t :
  In t (simplify_place term L) -> t = term \/ In t L.
Proof.
  induction L as [|term2 rest IH]; simpl.
  - intros [<-|[]]; auto.
  - destruct (issubset term term2).
    + intros [<-|H]; auto.
    + destruct (issubset term2 term).
      * intros [<-|H]; auto.
      * intros [<-|H]; auto. apply IH in H. tauto.
Qed.

Lemma simplify_place_keep term L t :
  t = term \/ In t L ->
  exists t', In t' (simplify_place term L) /\ incl t' t.
Proof.
  induction L as [|term2 rest IH]; simpl.
  - intros [->|[]]. exists term. split; [now left|apply incl_refl].
  - destruct (issubset term term2) eqn:E1;
      [|destruct (issubset term2 term) eqn:E2].
    + apply issubset_incl in E1. intros [->|[<-|H]].
      * exists term. split; [now left|apply incl_refl].
      * exists term. split; [now left|auto].
      * exists t. split; [now right|apply incl_refl].
    + apply issubset_incl in E2. intros [->|[<-|H]].
      * exists term2. split; [now left|auto].
      * exists term2. split; [now left|apply incl_refl].
      * exists t. split; [now right|apply incl_refl].
    + intros [->|[<-|H]].
      * destruct IH as (t' & Ht' & Hi); auto. exists t'. split; auto. now right.
      * exists term2. split; [now left|apply incl_refl].
      * destruct IH as (t' & Ht' & Hi); auto. exists t'. split; auto. now right.
Qed.

Lemma simplify_fold_In L acc t :
  In t (fold_left (fun simplified term => simplify_place term simplified) L acc) ->
  In t acc \/ In t L.
Proof.
  revert acc; induction L as [|term L IH]; intros acc; simpl; auto.
  intros H. apply IH in H. destruct H as [H|H]; auto.
  apply simplify_place_In in H. destruct H as [->|H]; auto.
Qed.

Lemma simplify_fold_keep L acc t :
  In t acc \/ In t L ->
  exists t', In t' (fold_left (fun simplified term => simplify_place term simplified)
                              L acc) /\ incl t' t.
Proof.
  revert acc t; induction L as [|term L IH]; intros acc t; simpl.
  - intros [H|[]]. exists t. split; [auto|apply incl_refl].
  - intros H.
    assert (H1: exists t1, (In t1 (simplify_place term acc) \/ In t1 L) /\
                           incl t1 t).
    { destruct H as [H|[<-|H]].
      - destruct (@simplify_place_keep term acc t) as (t1 & H1 & Hi); auto.
        exists t1. auto.
      - destruct (@simplify_place_keep term acc term) as (t1 & H1 & Hi); auto.
        exists t1. auto.
      - exists t. split; [auto|apply incl_refl]. }
    destruct H1 as (t1 & H1 & Hi1).
    destruct (IH _ _ H1) as (t' & Ht' & Hi'). exists t'. split; auto.
    eapply incl_tran; eauto.
Qed.

Lemma simplify_In L t : In t (simplify L) -> In t L.
Proof.
  intros H. apply simplify_fold_In in H. destruct H as [[]|H]; auto.
Qed.

Lemma simplify_keep L t :
  In t L -> exists t', In t' (simplify L) /\ incl t' t.
Proof. intros H. apply simplify_fold_keep. auto. Qed.

Lemma multiply_In A B t :
  In t (multiply A B) <->
  exists a b, In a A /\ In b B /\ t = natset_union a b.
Proof.
  unfold multiply. rewrite in_flat_map. split.
  - intros (a & Ha & Ht). apply in_map_iff in Ht.
    destruct Ht as (b & <- & Hb). eauto.
  - intros (a & b & Ha & Hb & ->). exists a. split; auto.
    apply in_map_iff. eauto.
Qed.

(** *** Multiplying out *)

(** [t] selects a summand of [sum]. *)
Definition hits (t : natset) (sum : list natset) : Prop :=
  exists s, In s sum /\ incl s t.

Lemma hits_mono t t' sum : incl t t' -> hits t sum -> hits t' sum.
Proof.
  intros Hi (s & Hs & Hst). exists s. split; auto. eapply incl_tran; eauto.
Qed.

Definition sop_sound (sums : list (list natset)) (L : list natset) : Prop :=
  forall t, In t L ->
    (forall sum, In sum sums -> hits t sum) /\ NoDup t /\
    (forall i, In i t -> exists sum s, In sum sums /\ In s sum /\ In i s).

Definition sop_complete (sums : list (list natset)) (L : list natset) : Prop :=
  forall H, (forall sum, In sum sums -> hits H sum) ->
            exists t, In t L /\ incl t H.

Lemma convert_spec sum0 rest :
  (forall sum s, In sum (sum0 :: rest) -> In s sum -> NoDup s) ->
  sop_sound (sum0 :: rest) (convert_pos_to_sop (sum0 :: rest)) /\
  sop_complete (sum0 :: rest) (convert_pos_to_sop (sum0 :: rest)).
Proof.
  intros Hnd. simpl.
  apply (fold_left_prefix
           (fun sumterm sum2 => simplify (multiply sumterm sum2))
           (fun done L => sop_sound (sum0 :: done) L /\
                          sop_complete (sum0 :: done) L)).
  - intros done sum2 rest' L Hrest [Hs Hc].
    assert (Hin2: In sum2 (sum0 :: rest)).
    { rewrite Hrest. right. apply in_or_app. right. now left. }
    split.
    + intros t Ht. apply simplify_In in Ht. apply multiply_In in Ht.
      destruct Ht as (a & b & Ha & Hb & ->).
      destruct (Hs a Ha) as (Hh & Hn & Hr). split; [|split].
      * intros sum Hsum. change (sum0 :: done ++ [sum2])
          with ((sum0 :: done) ++ [sum2]) in Hsum.
        apply in_app_or in Hsum. destruct Hsum as [Hsum|[<-|[]]].
        -- eapply hits_mono; [|apply Hh; exact Hsum].
           intros x Hx. apply natset_union_In. auto.
        -- exists b. split; auto. intros x Hx. apply natset_union_In. auto.
      * apply natset_union_nodup; auto. eapply Hnd; eauto.
      * intros i Hi. apply natset_union_In in Hi. destruct Hi as [Hi|Hi].
        -- destruct (Hr i Hi) as (sum & s & Hsum & Hs' & His).
           exists sum, s. repeat split; auto.
           change (sum0 :: done ++ [sum2]) with ((sum0 :: done) ++ [sum2]).
           apply in_or_app. auto.
        -- exists sum2, b. repeat split; auto.
           change (sum0 :: done ++ [sum2]) with ((sum0 :: done) ++ [sum2]).
           apply in_or_app. right. now left.
    + intros H HH.
      destruct (Hc H) as (a & Ha & Hia).
      { intros sum Hsum. apply HH.
        change (sum0 :: done ++ [sum2]) with ((sum0 :: done) ++ [sum2]).
        apply in_or_app. auto. }
      destruct (HH sum2) as (b & Hb & Hib).
      { change (sum0 :: done ++ [sum2]) with ((sum0 :: done) ++ [sum2]).
        apply in_or_app. right. now left. }
      destruct (@simplify_keep (multiply L sum2) (natset_union a b))
        as (t' & Ht' & Hi').
      { apply multiply_In. eauto. }
      exists t'. split; auto. eapply incl_tran; [exact Hi'|].
      intros x Hx. apply natset_union_In in Hx. destruct Hx; auto.
  - split.
    + intros t Ht. split; [|split].
      * intros sum [<-|[]]. exists t. split; [auto|apply incl_refl].
      * eapply Hnd; [now left|exact Ht].
      * intros i Hi. exists sum0, t. repeat split; auto. now left.
    + intros H HH. destruct (HH sum0) as (s & Hs & Hi); [now left|]. eauto.
Qed.

(** *** [min] *)

Lemma fold_min_le r x y :
  In y (x :: r) -> fold_left Nat.min r x <= y.
Proof.
  revert x y; induction r as [|z r IH]; intros x y; simpl.
  - intros [<-|[]]. auto.
  - intros [<-|[<-|H]].
    + etransitivity; [apply (IH (Nat.min x z) (Nat.min x z)); now left|].
      apply Nat.le_min_l.
    + etransitivity; [apply (IH (Nat.min x z) (Nat.min x z)); now left|].
      apply Nat.le_min_r.
    + apply IH. now right.
Qed.

Lemma fold_min_In r x : In (fold_left Nat.min r x) (x :: r).
Proof.
  revert x; induction r as [|z r IH]; intros x; simpl; auto.
  specialize (IH (Nat.min x z)).
  set (F := fold_left Nat.min r (Nat.min x z)) in *.
  destruct IH as [H|H]; auto.
  destruct (Nat.min_dec x z) as [E|E]; rewrite E in H; auto.
Qed.

Lemma list_min_le l y : In y l -> list_min l <= y.
Proof. destruct l as [|x r]; simpl; [tauto|]. apply fold_min_le. Qed.

Lemma list_min_In l : l <> [] -> In (list_min l) l.
Proof. destruct l as [|x r]; [congruence|]. intros _. apply fold_min_In. Qed.

End PetrickFacts.

(** ** Petrick's method: the sums, the products and the selection *)

Module PetrickRun.
Import Facts BoolExpr QmFacts PetrickFacts.
Open Scope nat_scope.

Definition singletons (l : natset) : list natset := map (fun idx => [idx]) l.

Lemma hits_singletons t l :
  hits t (singletons l) <-> exists idx, In idx l /\ In idx t.
Proof.
  unfold hits, singletons. split.
  - intros (s & Hs & Hi). apply in_map_iff in Hs. destruct Hs as (idx & <- & Hl).
    exists idx. split; auto. apply Hi. now left.
  - intros (idx & Hl & Ht). exists [idx]. split.
    + apply in_map_iff. eauto.
    + intros x [<-|[]]. exact Ht.
Qed.

Section Iteration.
Variable set_iter : forall A : Type, list A -> list A.
Hypothesis set_iter_perm : forall A (l : list A), Permutation (set_iter l) l.

Lemma set_iter_In A (l : list A) x : In x (set_iter l) <-> In x l.
  Proof.
    split; apply Permutation_in; [|apply Permutation_sym]; apply set_iter_perm.
  Qed.

Lemma set_iter_length A (l : list A) : List.length (set_iter l) = List.length l.
  Proof. apply Permutation_length, set_iter_perm. Qed.

Lemma set_iter_nil A : set_iter (@nil A) = [].
  Proof. apply Permutation_nil, Permutation_sym, set_iter_perm. Qed.

Lemma set_iter_single A (a : A) : set_iter [a] = [a].
  Proof. apply Permutation_length_1_inv, Permutation_sym, set_iter_perm. Qed.

Section Primes.
Variable pis : list prime.

Let A := all_mintermidxs pis.
Let pos := compute_product_of_sums set_iter pis.
Let sop := convert_pos_to_sop pos.

Lemma minterminfos_ok :
      infos_ok pis (minterminfos set_iter pis) /\
      map fst (minterminfos set_iter pis) = set_iter A.
    Proof. apply fold_record_ok. Qed.

Lemma pos_In sum :
      In sum pos <->
      exists mi, In mi (minterminfos set_iter pis) /\
                 absorbed (snd mi) = false /\
                 sum = singletons (set_iter (covered_by (snd mi))).
    Proof.
      unfold pos, compute_product_of_sums. rewrite in_flat_map. split.
      - intros (mi & Hmi & Hs). destruct (absorbed (snd mi)) eqn:E.
        + destruct Hs.
        + destruct Hs as [<-|[]]. exists mi. auto.
      - intros (mi & Hmi & Hf & ->). exists mi. split; auto. rewrite Hf.
        now left.
    Qed.

Lemma pos_sound sum :
      In sum pos ->
      exists m, In m A /\ sum = singletons (set_iter (covering pis m)).
    Proof.
      intros H. apply pos_In in H. destruct H as (mi & Hmi & _ & ->).
      destruct minterminfos_ok as [[Hcb _] Hk]. exists (fst mi). split.
      - apply (set_iter_In A). rewrite <- Hk. now apply in_map.
      - now rewrite Hcb.
    Qed.

Lemma pos_complete m :
      In m A ->
      exists m', In m' A /\
                 In (singletons (set_iter (covering pis m'))) pos /\
                 incl (covering pis m') (covering pis m).
    Proof.
      intros Hm. destruct minterminfos_ok as [[Hcb Hw] Hk].
      apply (set_iter_In A) in Hm. rewrite <- Hk in Hm.
      apply in_map_iff in Hm. destruct Hm as (mi & <- & Hmi).
      destruct (Hw mi Hmi) as (w & Hwin & Hf & Hi).
      exists (fst w). split; [|split].
      - apply (set_iter_In A). rewrite <- Hk. now apply in_map.
      - apply pos_In. exists w. repeat split; auto. now rewrite Hcb.
      - rewrite <- !Hcb; auto.
    Qed.

Lemma pos_nodup sum s : In sum pos -> In s sum -> NoDup s.
    Proof.
      intros Hsum Hs. apply pos_sound in Hsum. destruct Hsum as (m & _ & ->).
      apply in_map_iff in Hs. destruct Hs as (idx & <- & _).
      constructor; [simpl; tauto|constructor].
    Qed.

Lemma pos_nonempty : A <> [] -> pos <> [].
    Proof.
      intros HA. destruct A as [|m A'] eqn:E; [congruence|].
      destruct (pos_complete m) as (m' & _ & Hin & _).
      - fold A. rewrite E. now left.
      - intros Hp. fold pos in Hin. rewrite Hp in Hin. destruct Hin.
    Qed.

    (** [H] holds, for every covered minterm index, a prime covering it. *)
Definition selects (H : natset) : Prop :=
      forall m, In m A -> exists idx, In idx H /\ In idx (covering pis m).

Lemma selects_hits H : selects H <-> forall sum, In sum pos -> hits H sum.
    Proof.
      split.
      - intros Hs sum Hsum. apply pos_sound in Hsum.
        destruct Hsum as (m & Hm & ->). apply hits_singletons.
        destruct (Hs m Hm) as (idx & Hi & Hc). exists idx. split; auto.
        now apply set_iter_In.
      - intros Hh m Hm. destruct (pos_complete m Hm) as (m' & _ & Hin & Hi).
        apply Hh in Hin. apply hits_singletons in Hin.
        destruct Hin as (idx & Hc & Ht). exists idx. split; auto.
        apply Hi. apply (proj1 (set_iter_In _ _) Hc).
    Qed.

Lemma sop_spec :
      A <> [] ->
      sop <> [] /\
      (forall t, In t sop ->
         selects t /\ NoDup t /\
         forall i, In i t -> exists x, nth_error pis i = Some x) /\
      (forall H, selects H -> exists t, In t sop /\ incl t H).
    Proof.
      intros HA. pose proof (pos_nonempty HA) as Hpos.
      unfold sop. destruct pos as [|sum0 rest] eqn:E; [congruence|].
      destruct (@convert_spec sum0 rest) as [Hs Hc].
      { intros sum s Hsum Hin. eapply pos_nodup; eauto.
        fold pos. rewrite E. exact Hsum. }
      assert (Hsel: forall t, (forall sum, In sum (sum0 :: rest) -> hits t sum) <->
                              selects t).
      { intros t. rewrite selects_hits. fold pos. rewrite E. tauto. }
      assert (Hall: selects (seq 0 (List.length pis))).
      { intros m Hm. apply all_mintermidxs_In in Hm.
        destruct Hm as (x & Hx & Hi).
        apply In_nth_error in Hx. destruct Hx as (idx & Hidx).
        exists idx. split.
        - apply in_seq. split; [lia|]. simpl. apply nth_error_Some. congruence.
        - apply covering_In. eauto. }
      split; [|split].
      - destruct (Hc (seq 0 (List.length pis))) as (t & Ht & _);
          [now apply Hsel|].
        intros Hn. assert (Hf: In t []) by (rewrite <- Hn; exact Ht).
        destruct Hf.
      - intros t Ht. destruct (Hs t Ht) as (Hh & Hn & Hr). split; [|split]; auto.
        + now apply Hsel.
        + intros i Hi. destruct (Hr i Hi) as (sum & s & Hsum & Hin & His).
          assert (Hp: In sum pos) by (fold pos; rewrite E; exact Hsum).
          apply pos_sound in Hp. destruct Hp as (m & _ & ->).
          apply in_map_iff in Hin. destruct Hin as (idx & <- & Hidx).
          destruct His as [<-|[]]. apply (proj1 (set_iter_In _ _)) in Hidx.
          apply covering_In in Hidx. destruct Hidx as (x & Hx & _). eauto.
      - intros H HH. apply Hc. now apply Hsel.
    Qed.

Lemma sop_empty : A = [] -> sop = [].
    Proof.
      intros HA. unfold sop, pos, compute_product_of_sums, minterminfos.
      fold A. rewrite HA, set_iter_nil. reflexivity.
    Qed.

    (** *** The selection of the simplest results *)

Definition cubes_of (t : natset) : list (N * N) :=
      map (fun i => (pi_impl (pi_at pis i), pi_mask (pi_at pis i)))
          (set_iter t).

Lemma cubes_of_length t : List.length (cubes_of t) = List.length t.
    Proof. unfold cubes_of. now rewrite length_map, set_iter_length. Qed.

    (** A returned cover comes from a product with the fewest primes and,
        among those, the fewest literals. *)
Lemma simplest_covers sp rs :
      compute_simplest_results set_iter pis sp = Covers rs ->
      forall r, In r rs ->
        exists t, In t sp /\ r = cubes_of t /\
                  (forall t', In t' sp -> List.length t <= List.length t') /\
                  (forall t', In t' sp -> List.length t' = List.length t ->
                              literals r <= literals (cubes_of t')).
    Proof.
      unfold compute_simplest_results.
      destruct sp as [|t0 sp'] eqn:Esp; [discriminate|]. rewrite <- Esp.
      destruct (is_always_true set_iter pis sp); [discriminate|].
      set (minlen := list_min (map (@List.length nat) sp)).
      set (results := map cubes_of
                        (filter (fun p => List.length p =? minlen) sp)).
      assert (Hmin: forall t', In t' sp -> minlen <= List.length t').
      { intros t' Ht'. apply list_min_le. now apply in_map. }
      assert (Hres: forall r, In r results ->
                exists t, In t sp /\ r = cubes_of t /\ List.length t = minlen).
      { intros r Hr. apply in_map_iff in Hr. destruct Hr as (t & <- & Ht).
        apply filter_In in Ht. destruct Ht as [Ht Hl].
        apply Nat.eqb_eq in Hl. eauto. }
      assert (Hin: forall t', In t' sp -> List.length t' = minlen ->
                              In (cubes_of t') results).
      { intros t' Ht' Hl. apply in_map. apply filter_In. split; auto.
        now apply Nat.eqb_eq. }
      change (map (fun p => map (fun i => (pi_impl (pi_at pis i),
                                          pi_mask (pi_at pis i)))
                                (set_iter p))
                  (filter (fun p => List.length p =? minlen) sp))
        with results.
      destruct (1 <? List.length results) eqn:El.
      - intros [= <-] r Hr. apply filter_In in Hr. destruct Hr as [Hr Hl].
        apply Nat.eqb_eq in Hl.
        destruct (Hres r Hr) as (t & Ht & -> & Hlen).
        exists t. repeat split; auto.
        + intros t' Ht'. rewrite Hlen. auto.
        + intros t' Ht' Hl'. rewrite Hl. apply list_min_le.
          apply in_map. apply Hin; auto. congruence.
      - intros [= <-] r Hr. apply Nat.ltb_ge in El.
        destruct (Hres r Hr) as (t & Ht & -> & Hlen).
        exists t. repeat split; auto.
        + intros t' Ht'. rewrite Hlen. auto.
        + intros t' Ht' Hl'.
          assert (Hin': In (cubes_of t') results) by (apply Hin; congruence).
          destruct results as [|r1 [|r2 rest]]; simpl in *; try lia.
          destruct Hr as [<-|[]], Hin' as [<-|[]]. auto.
    Qed.

End Primes.
End Iteration.
End PetrickRun.

(** ** The minimiser: prime implicants and covers of the function *)

Module Minimise.
Import Facts BoolExpr QmFacts Cubes QmRun QmResult PetrickFacts PetrickRun.
Open Scope N_scope.

(** A cube [(pattern, mask)] as an AND of literals, a cover as the OR of
    its cubes. *)
Definition cube_eval (c : N * N) (x : N) : bool :=
  N.eqb (N.land x (snd c)) (fst c).

Definition cover_eval (r : list (N * N)) (x : N) : bool :=
  existsb (fun c => cube_eval c x) r.

Definition in_range (n : nat) (l : list N) : Prop :=
  forall x, In x l -> x < 2 ^ N.of_nat n.

(** [r] is 1 on the minterms and 0 outside minterms and don't-cares. *)
Definition is_cover (n : nat) (ms dcs : list N) (r : list (N * N)) : Prop :=
  (forall x, In x ms -> cover_eval r x = true) /\
  (forall x, x < 2 ^ N.of_nat n -> ~ In x ms -> ~ In x dcs ->
             cover_eval r x = false).

(** Mask [M1] is a strict superset of mask [M2] and the patterns agree on
    [M2]: cube 1 is a strict sub-cube of cube 2. *)
Definition strict_sub_cube (p1 M1 p2 M2 : N) : Prop :=
  N.land M2 M1 = M2 /\ M1 <> M2 /\ N.land p1 M2 = p2.

Lemma in_range_subm n l : in_range n l -> forall x, In x l -> subm x (full n).
Proof. intros H x Hx. apply subm_full_lt. now apply H. Qed.

Lemma mask_diff_bit n M1 M2 :
  subm M1 (full n) -> subm M2 M1 -> M1 <> M2 ->
  exists j, (j < n)%nat /\ N.testbit M1 (N.of_nat j) = true /\
            N.testbit M2 (N.of_nat j) = false.
Proof.
  intros H1 H2 Hne.
  destruct (existsb (fun j => N.testbit M1 (N.of_nat j) &&
                              negb (N.testbit M2 (N.of_nat j))) (seq 0 n)) eqn:E.
  - apply existsb_exists in E. destruct E as (j & Hj & Hb).
    apply in_seq in Hj. apply andb_true_iff in Hb. destruct Hb as [Ha Hb].
    apply negb_true_iff in Hb. exists j. repeat split; auto. lia.
  - exfalso. apply Hne. rewrite subm_bits in H1, H2. bitwise i.
    destruct (N.testbit M1 i) eqn:E1.
    + destruct (N.testbit M2 i) eqn:E2; auto. exfalso.
      pose proof (H1 i E1) as Hi. rewrite full_bits in Hi. apply N.ltb_lt in Hi.
      assert (Ht: existsb (fun j => N.testbit M1 (N.of_nat j) &&
                   negb (N.testbit M2 (N.of_nat j))) (seq 0 n) = true).
      { apply existsb_exists. exists (N.to_nat i). split.
        - apply in_seq. lia.
        - rewrite N2Nat.id, E1, E2. reflexivity. }
      congruence.
    + destruct (N.testbit M2 i) eqn:E2; auto. apply H2 in E2. congruence.
Qed.

Section Primes.
Variables (n : nat) (ms dcs : list N) (pis : list prime).
Hypothesis ms_range : in_range n ms.
Hypothesis dcs_range : in_range n dcs.
Hypothesis pis_ok : qm_result_ok n ms dcs pis.

Lemma prime_sound x p :
    In x pis -> p < 2 ^ N.of_nat n ->
    N.land p (pi_mask x) = pi_impl x -> In p ms \/ In p dcs.
  Proof.
    intros Hx Hp Hc. destruct pis_ok as (Hok & _).
    destruct (Hok x Hx) as ((_ & Hall & _) & _).
    apply (Hall p); auto. now apply subm_full_lt.
  Qed.

Lemma prime_not_strict_sub x y :
    In x pis -> In y pis ->
    ~ strict_sub_cube (pi_impl x) (pi_mask x) (pi_impl y) (pi_mask y).
  Proof.
    intros Hx Hy (Hs & Hne & Hp). destruct pis_ok as (Hok & _).
    destruct (Hok x Hx) as (((Hpx & HMx) & _ & _) & _ & Hmax).
    destruct (Hok y Hy) as ((_ & Hall & _) & _).
    destruct (@mask_diff_bit n (pi_mask x) (pi_mask y) HMx Hs Hne)
      as (j & Hj & E1 & E2).
    apply (Hmax j Hj E1). intros z Hz Hc. apply (Hall z Hz).
    rewrite <- Hp. rewrite <- Hs at 1.
    rewrite (N.land_comm (pi_mask y)), N.land_assoc, Hc.
    bitwise i. destruct (N.eqb_spec (N.of_nat j) i) as [<-|Hi]; bcases.
  Qed.

  (** Every minterm lies in some prime, which records its index. *)
Lemma minterm_in_prime x :
    In x ms ->
    exists y, In y pis /\ N.land x (pi_mask y) = pi_impl y /\
              In (minterm_index ms x) (pi_covered y).
  Proof.
    intros Hx. destruct pis_ok as (Hok & _ & Hin).
    assert (Hxr: subm x (full n)) by apply (@in_range_subm n ms ms_range x Hx).
    destruct (Hin x (full n)) as (y & Hy & Hs).
    { apply true_valid_point; auto. apply (@in_range_subm n ms ms_range). }
    exists y. split; auto.
    assert (Hc: N.land x (pi_mask y) = pi_impl y).
    { eapply sub_cube_point; eauto. }
    split; auto. destruct (Hok y Hy) as (_ & Hcov & _).
    apply Hcov. exists x. auto.
  Qed.

Lemma covered_index_minterm y x :
    In y pis -> In x ms -> In (minterm_index ms x) (pi_covered y) ->
    N.land x (pi_mask y) = pi_impl y.
  Proof.
    intros Hy Hx Hi. destruct pis_ok as (Hok & _).
    destruct (Hok y Hy) as (_ & Hcov & _).
    apply Hcov in Hi. destruct Hi as (x' & Hx' & Hc & He).
    apply minterm_index_inj in He; auto. congruence.
  Qed.

Lemma index_is_minterm y m :
    In y pis -> In m (pi_covered y) ->
    exists x, In x ms /\ minterm_index ms x = m.
  Proof.
    intros Hy Hi. destruct pis_ok as (Hok & _).
    destruct (Hok y Hy) as (_ & Hcov & _).
    apply Hcov in Hi. destruct Hi as (x & Hx & _ & He). eauto.
  Qed.

Section Selection.
Variable set_iter : forall A : Type, list A -> list A.
Hypothesis set_iter_perm :
      forall A (l : list A), Permutation (set_iter l) l.

Lemma cubes_of_eval t x :
      cover_eval (cubes_of set_iter pis t) x = true <->
      exists i, In i t /\
                N.land x (pi_mask (pi_at pis i)) = pi_impl (pi_at pis i).
    Proof.
      unfold cover_eval, cubes_of. rewrite existsb_exists. split.
      - intros (c & Hc & He). apply in_map_iff in Hc.
        destruct Hc as (i & <- & Hi). exists i. split.
        + apply (proj1 (@set_iter_In set_iter set_iter_perm _ _ _) Hi).
        + apply N.eqb_eq. exact He.
      - intros (i & Hi & He). eexists. split.
        + apply in_map_iff. exists i. split; [reflexivity|].
          apply (proj2 (@set_iter_In set_iter set_iter_perm _ _ _) Hi).
        + apply N.eqb_eq. exact He.
    Qed.

    (** A selection of primes covering every recorded index is a cover of
        the function. *)
Lemma selection_is_cover t :
      selects pis t ->
      (forall i, In i t -> exists y, nth_error pis i = Some y) ->
      is_cover n ms dcs (cubes_of set_iter pis t).
    Proof.
      intros Hsel Hr. split.
      - intros x Hx. apply cubes_of_eval.
        destruct (minterm_in_prime x Hx) as (y & Hy & _ & Hi).
        destruct (Hsel (minterm_index ms x)) as (idx & Hidx & Hc).
        { apply all_mintermidxs_In. eauto. }
        apply covering_In in Hc. destruct Hc as (z & Hz & Hm).
        exists idx. split; auto. rewrite (pi_at_nth _ _ Hz).
        apply covered_index_minterm; auto. eapply nth_error_In; eauto.
      - intros x Hx Hnm Hnd.
        destruct (cover_eval (cubes_of set_iter pis t) x) eqn:E; auto.
        exfalso. apply cubes_of_eval in E. destruct E as (i & Hi & Hc).
        destruct (Hr i Hi) as (y & Hy). rewrite (pi_at_nth _ _ Hy) in Hc.
        destruct (@prime_sound y x) as [H|H]; auto.
        eapply nth_error_In; eauto.
    Qed.

Lemma covers_are_covers rs r :
      simplest_results set_iter pis = Covers rs -> In r rs ->
      exists t, r = cubes_of set_iter pis t /\ selects pis t /\ NoDup t /\
                (forall i, In i t -> exists y, nth_error pis i = Some y) /\
                In t (convert_pos_to_sop (compute_product_of_sums set_iter pis)).
    Proof.
      unfold simplest_results. intros Hres Hr.
      destruct (@simplest_covers set_iter pis _ _ Hres r Hr)
        as (t & Ht & -> & _).
      destruct (list_eq_dec Z.eq_dec (all_mintermidxs pis) []) as [E|E].
      - rewrite (@sop_empty set_iter set_iter_perm pis E) in Ht. destruct Ht.
      - destruct (@sop_spec set_iter set_iter_perm pis E) as (_ & Hs & _).
        destruct (Hs t Ht) as (A & B & C). exists t. auto.
    Qed.
End Selection.
End Primes.

Section Claims.
Variable set_iter : forall A : Type, list A -> list A.
Hypothesis set_iter_perm : forall A (l : list A), Permutation (set_iter l) l.

Lemma run_spec n ms dcs :
    in_range n ms -> in_range n dcs ->
    exists pis, compute_prime_implicants n ms dcs = Some pis /\
                qm_result_ok n ms dcs pis /\
                simplify_minterms set_iter n ms dcs =
                Some (simplest_results set_iter pis).
  Proof.
    intros Hm Hd.
    destruct (@qm_correct n ms dcs) as (pis & Hc & Hok).
    - now apply in_range_subm.
    - now apply in_range_subm.
    - exists pis. repeat split; try apply Hok; auto.
      unfold simplify_minterms. now rewrite Hc.
  Qed.
End Claims.
End Minimise.

(** ** Constant functions *)

Module Constants.
Import Facts BoolExpr QmFacts QmTable Cubes QmRun QmResult.
Import PetrickFacts PetrickRun Minimise.
Open Scope N_scope.

(** *** No minterms *)

Definition no_true (s : pending_tables * list prime) : Prop :=
  snd s = [] /\ NoDup (PyDict.keys (fst s)) /\
  forall M p a, ~ TrueAt (fst s) M p a.

Lemma no_true_step n s s' :
  no_true s -> qm_step n s = inl s' -> no_true s'.
Proof.
  destruct s as [pend found]. unfold qm_step, no_true; simpl.
  destruct pend as [|[M0 tbl] rest]; [discriminate|].
  intros (-> & Hnd & Hno) [= <-]. simpl in *.
  assert (HT: forall p, ~ In p (PyDict.keys (true_implicants tbl))).
  { intros p Hp. apply get_In_keys in Hp.
    destruct (PyDict.get p (true_implicants tbl)) as [a|] eqn:E; [|congruence].
    apply (Hno M0 p a). exists tbl. simpl. now rewrite N.eqb_refl. }
  assert (Hf0: forall p, flag p tbl = false).
  { intros p. unfold flag, attrs_of.
    destruct (PyDict.get p (true_implicants tbl)) as [a|] eqn:E; auto.
    exfalso. apply (HT p). apply get_In_keys. congruence. }
  pose proof (@after_inv n M0 tbl rest [] Hf0) as TI. unfold after in TI.
  assert (Hr: NoDup (PyDict.keys rest)) by now inversion Hnd.
  assert (Hm: ~ In M0 (PyDict.keys rest)) by now inversion Hnd.
  split; [|split].
  - destruct (ti_primes TI) as (L & HL & HLx). simpl in HL. rewrite HL.
    destruct L as [|x L]; auto. exfalso.
    destruct (HLx x (or_introl eq_refl)) as (_ & Hin & _). now apply HT in Hin.
  - now apply (ti_nodup TI).
  - intros M p a Ha. destruct (ti_true TI Ha) as [H|H].
    + apply (Hno M p a). destruct H as (t & Ht & Hp). exists t. simpl.
      destruct (N.eqb_spec M0 M) as [E|]; auto.
      exfalso. apply Hm. rewrite E. apply get_In_keys. congruence.
    + destruct H as (q & j & Hq & _). now apply HT in Hq.
Qed.

Lemma no_minterms_no_primes n dcs :
  compute_prime_implicants n [] dcs = Some [].
Proof.
  destruct (qm_terminates n [] dcs) as (found & Hf). rewrite Hf. f_equal.
  unfold compute_prime_implicants in Hf.
  destruct (iterate_pos (qm_step n) (qm_budget n) _) as [|r] eqn:E;
    [discriminate|].
  injection Hf as ->. rewrite iterate_pos_nat in E.
  eapply (@iterate_nat_invariant _ _ (qm_step n) no_true (fun r => r = []));
    [ | | |exact E].
  - apply no_true_step.
  - intros [pend fnd] r [Hs _]. unfold qm_step; simpl in *.
    destruct pend as [|[M0 tbl] rest]; [|discriminate]. congruence.
  - split; [|split]; auto.
    + constructor; [simpl; tauto|constructor].
    + intros M p a (t & Ht & Hp). unfold pending_at in Ht.
      cbn [PyDict.get PyDict.set fst] in Ht.
      destruct (N.eqb (N.shiftl 1 (N.of_nat n) - 1) M); [|discriminate].
      injection Ht as <-. discriminate.
Qed.

(** *** Multiplying out sums that all select the first prime *)

Lemma convert_all_first (pos : list (list natset)) :
  pos <> [] -> (forall sum, In sum pos -> sum = [[0%nat]]) ->
  convert_pos_to_sop pos = [[0%nat]].
Proof.
  destruct pos as [|sum0 rest]; [congruence|]. intros _ H. simpl.
  rewrite (H sum0) by now left.
  assert (Hr: forall sum, In sum rest -> sum = [[0%nat]])
    by (intros; apply H; now right).
  clear H. induction rest as [|s rest IH]; simpl; auto.
  rewrite (Hr s) by now left. apply IH. intros; apply Hr; now right.
Qed.

Section Claims.
Variable set_iter : forall A : Type, list A -> list A.
Hypothesis set_iter_perm : forall A (l : list A), Permutation (set_iter l) l.

Lemma no_minterms_false n dcs :
    simplify_minterms set_iter n [] dcs = Some AlwaysFalse.
  Proof.
    unfold simplify_minterms. rewrite no_minterms_no_primes.
    unfold simplest_results, compute_product_of_sums, minterminfos.
    simpl. rewrite (@set_iter_nil set_iter set_iter_perm). reflexivity.
  Qed.

Lemma single_universal_true cov :
    cov <> [] ->
    simplest_results set_iter [(0, 0, cov)] = AlwaysTrue.
  Proof.
    intros Hcov. set (pis := [(0, 0, cov)] : list prime).
    assert (HA: all_mintermidxs pis <> []).
    { destruct cov as [|m cov']; [congruence|]. intros E.
      assert (In m (all_mintermidxs pis)).
      { apply all_mintermidxs_In. exists (0, 0, m :: cov'). split.
        - now left.
        - now left. }
      rewrite E in H. destruct H. }
    assert (Hcv: forall m, In m (all_mintermidxs pis) -> covering pis m = [0%nat]).
    { intros m Hm. apply all_mintermidxs_In in Hm.
      destruct Hm as (x & [<-|[]] & Hi). apply zset_mem_In in Hi.
      unfold covering, enumerate. cbn [List.length seq combine fold_left snd fst pis].
      now rewrite Hi. }
    assert (Hsop: convert_pos_to_sop (compute_product_of_sums set_iter pis)
                  = [[0%nat]]).
    { apply convert_all_first.
      - now apply (@pos_nonempty set_iter set_iter_perm).
      - intros sum Hsum.
        apply (@pos_sound set_iter set_iter_perm) in Hsum.
        destruct Hsum as (m & Hm & ->). rewrite (Hcv m Hm).
        rewrite (@set_iter_single set_iter set_iter_perm). reflexivity. }
    unfold simplest_results. rewrite Hsop. unfold compute_simplest_results.
    unfold is_always_true.
    rewrite (@set_iter_single set_iter set_iter_perm). reflexivity.
  Qed.

Lemma full_coverage_primes n ms dcs pis :
    in_range n ms -> in_range n dcs ->
    (forall x, x < 2 ^ N.of_nat n -> In x ms \/ In x dcs) ->
    ms <> [] -> qm_result_ok n ms dcs pis ->
    exists cov, pis = [(0, 0, cov)] /\ cov <> [].
  Proof.
    intros Hm Hd Hall Hne Hok.
    assert (Hz: forall y, In y pis -> fst y = (0, 0)).
    { intros y Hy. destruct Hok as (Hp & _).
      destruct (Hp y Hy) as (((Hpy & HMy) & _ & _) & _ & Hmax).
      assert (HM: pi_mask y = 0).
      { destruct (N.eq_dec (pi_mask y) 0) as [E|E]; auto. exfalso.
        destruct (@mask_diff_bit n (pi_mask y) 0 HMy) as (j & Hj & E1 & _); auto.
        { apply N.land_0_l. }
        apply (Hmax j Hj E1). intros z Hz _. apply Hall.
        now apply subm_full_lt. }
      unfold pi_mask, pi_impl in *. destruct y as [[p M] c]; simpl in *.
      subst M. unfold subm in Hpy. rewrite N.land_0_r in Hpy. now subst p. }
    destruct ms as [|x0 ms'] eqn:Ems; [congruence|]. rewrite <- Ems in *.
    assert (Hx0: In x0 ms) by (rewrite Ems; now left).
    destruct (@minterm_in_prime n ms dcs pis Hm Hok x0 Hx0) as (y & Hy & _ & Hi).
    destruct Hok as (_ & Hnd & _).
    destruct pis as [|y1 [|y2 pis']].
    - destruct Hy.
    - destruct Hy as [->|[]]. pose proof (Hz y (or_introl eq_refl)) as E.
      destruct y as [[p M] c]; simpl in E. injection E as -> ->.
      exists c. split; auto. intros Ec. unfold pi_covered in Hi; simpl in Hi.
      rewrite Ec in Hi. destruct Hi.
    - exfalso. simpl in Hnd. inversion Hnd as [|? ? Hnot _]; subst.
      apply Hnot. left.
      rewrite (Hz y1) by now left. rewrite (Hz y2); auto. right. now left.
  Qed.

End Claims.
End Constants.

(** ** Minimality of the returned covers *)

Module Minimal.
Import Facts BoolExpr QmFacts Cubes QmRun QmResult.
Import PetrickFacts PetrickRun Minimise.
Open Scope N_scope.

Lemma bit_count_mono_full n a b :
  subm b (full n) -> subm a b -> (bit_count a <= bit_count b)%nat.
Proof.
  revert a b; induction n as [|n IH]; intros a b Hb Ha.
  - unfold subm, full in Hb. simpl in Hb. rewrite N.land_0_r in Hb. subst b.
    unfold subm in Ha. rewrite N.land_0_r in Ha. subst a. auto.
  - assert (Hb2: subm (N.div2 b) (full n)).
    { rewrite subm_bits in *. intros i Hi. rewrite N.div2_spec in Hi.
      rewrite N.shiftr_spec' in Hi. apply Hb in Hi. rewrite full_bits in *.
      apply N.ltb_lt in Hi. apply N.ltb_lt. lia. }
    assert (Ha2: subm (N.div2 a) (N.div2 b)).
    { rewrite subm_bits in *. intros i Hi. rewrite N.div2_spec in *.
      rewrite N.shiftr_spec' in *. now apply Ha. }
    pose proof (IH _ _ Hb2 Ha2) as Hle.
    assert (H0: N.testbit a 0 = true -> N.testbit b 0 = true)
      by (rewrite subm_bits in Ha; apply Ha).
    clear -Hle H0.
    destruct a as [|[pa|pa|]], b as [|[pb|pb|]]; simpl in *;
      try lia; try (specialize (H0 eq_refl); discriminate).
Qed.

Lemma bit_count_mono a b : subm a b -> (bit_count a <= bit_count b)%nat.
Proof.
  apply (@bit_count_mono_full (N.to_nat (N.size b))).
  apply subm_full_lt. rewrite N2Nat.id. apply N.size_gt.
Qed.

Lemma list_sum_perm l l' : Permutation l l' -> list_sum l = list_sum l'.
Proof. induction 1; simpl; lia. Qed.

Lemma literals_sum r :
  literals r = list_sum (map (fun c => bit_count (snd c)) r).
Proof. induction r as [|c r IH]; simpl; auto. Qed.

Section Primes.
Variables (n : nat) (ms dcs : list N) (pis : list prime).
Hypothesis ms_range : in_range n ms.
Hypothesis dcs_range : in_range n dcs.
Hypothesis pis_ok : qm_result_ok n ms dcs pis.

Definition idx_literals (H : list nat) : nat :=
    list_sum (map (fun i => bit_count (pi_mask (pi_at pis i))) H).

  (** A cube of some cover that holds a minterm lies, as far as inputs
      below [2^n] go, inside a prime with no more literals. *)
Lemma cube_in_prime c x0 :
    (forall z, z < 2 ^ N.of_nat n -> cube_eval c z = true ->
               In z ms \/ In z dcs) ->
    In x0 ms -> cube_eval c x0 = true ->
    exists i y, nth_error pis i = Some y /\
      (bit_count (pi_mask y) <= bit_count (snd c))%nat /\
      forall x, x < 2 ^ N.of_nat n -> cube_eval c x = true ->
                N.land x (pi_mask y) = pi_impl y.
  Proof.
    destruct c as [pc mc]. unfold cube_eval; simpl. intros Hall Hx0 Hc0.
    apply N.eqb_eq in Hc0.
    assert (Hr0: subm x0 (full n)) by apply (@in_range_subm n ms ms_range x0 Hx0).
    assert (Hpt: forall z, subm z (full n) ->
              N.land z (N.land mc (full n)) = N.land z mc).
    { intros z Hz. rewrite (N.land_comm mc), N.land_assoc.
      unfold subm in Hz. now rewrite Hz. }
    assert (Hv: true_valid n ms dcs pc (N.land mc (full n))).
    { split; [split|split].
      - rewrite <- Hc0. apply subm_bits. intros i. bit_rewrite.
        rewrite subm_bits in Hr0. specialize (Hr0 i). rewrite full_bits in Hr0.
        bcases.
      - apply subm_land_r.
      - intros z Hz Hcz. rewrite Hpt in Hcz by auto. apply Hall.
        + now apply subm_full_lt.
        + now apply N.eqb_eq.
      - exists x0. split; auto. now rewrite Hpt. }
    destruct pis_ok as (_ & _ & Hin).
    destruct (Hin _ _ Hv) as (y & Hy & Hs).
    apply In_nth_error in Hy. destruct Hy as (i & Hi).
    exists i, y. split; auto. split.
    - etransitivity; [apply bit_count_mono; apply Hs|].
      apply bit_count_mono. apply subm_bits. intros k. bit_rewrite. bcases.
    - intros x Hx Hcx. apply N.eqb_eq in Hcx.
      eapply sub_cube_point; eauto. rewrite Hpt; auto.
      now apply subm_full_lt.
  Qed.

Lemma cover_indices cv :
    (forall c z, In c cv -> z < 2 ^ N.of_nat n -> cube_eval c z = true ->
                 In z ms \/ In z dcs) ->
    exists H : list nat,
      (List.length H <= List.length cv)%nat /\
      (forall i, In i H -> exists y, nth_error pis i = Some y) /\
      (forall x, In x ms -> cover_eval cv x = true ->
         exists i, In i H /\
                   N.land x (pi_mask (pi_at pis i)) = pi_impl (pi_at pis i)) /\
      (idx_literals H <= literals cv)%nat.
  Proof.
    induction cv as [|c cv IH]; intros Hall.
    - exists []. simpl. repeat split; auto.
      + intros i [].
      + intros x _ Hf. discriminate.
    - destruct IH as (H & Hlen & Hrg & Hcov & Hlit).
      { intros c' z Hc'. apply Hall. now right. }
      destruct (existsb (fun x => cube_eval c x) ms) eqn:E.
      + apply existsb_exists in E. destruct E as (x0 & Hx0 & Hc0).
        destruct (@cube_in_prime c x0) as (i & y & Hi & Hbc & Hpts); auto.
        { intros z Hz Hcz. apply (Hall c z); auto. now left. }
        exists (i :: H). simpl. repeat split.
        * lia.
        * intros k [<-|Hk]; eauto.
        * intros x Hx Hev. apply orb_true_iff in Hev. destruct Hev as [Hev|Hev].
          -- exists i. split; auto. rewrite (pi_at_nth _ _ Hi).
             apply Hpts; auto.
          -- destruct (Hcov x Hx Hev) as (k & Hk & Hck). eauto.
        * unfold idx_literals in *. simpl. rewrite (pi_at_nth _ _ Hi). lia.
      + exists H. simpl. repeat split; auto.
        * intros x Hx Hev. apply orb_true_iff in Hev. destruct Hev as [Hev|Hev].
          -- assert (existsb (fun x => cube_eval c x) ms = true)
               by (apply existsb_exists; eauto).
             congruence.
          -- auto.
        * lia.
  Qed.

Lemma cover_selects cv :
    is_cover n ms dcs cv ->
    exists H : list nat,
      (List.length H <= List.length cv)%nat /\ selects pis H /\
      (idx_literals H <= literals cv)%nat.
  Proof.
    intros [Hon Hoff].
    destruct (@cover_indices cv) as (H & Hlen & Hrg & Hcov & Hlit).
    { intros c z Hc Hz Hev.
      destruct (in_dec N.eq_dec z ms) as [Hm|Hm]; auto.
      destruct (in_dec N.eq_dec z dcs) as [Hd|Hd]; auto.
      exfalso. pose proof (Hoff z Hz Hm Hd) as Hf.
      assert (cover_eval cv z = true)
        by (apply existsb_exists; eauto).
      congruence. }
    exists H. repeat split; auto.
    intros m Hm. apply all_mintermidxs_In in Hm. destruct Hm as (y0 & Hy0 & Hi0).
    destruct (@index_is_minterm n ms dcs pis pis_ok y0 m Hy0 Hi0) as (x & Hx & <-).
    destruct (Hcov x Hx (Hon x Hx)) as (i & Hi & Hc).
    exists i. split; auto. destruct (Hrg i Hi) as (y & Hy).
    apply covering_In. exists y. split; auto.
    rewrite (pi_at_nth _ _ Hy) in Hc.
    destruct pis_ok as (Hok & _).
    destruct (Hok y (nth_error_In _ _ Hy)) as (_ & Hcv & _).
    apply Hcv. exists x. auto.
  Qed.

Section Selection.
Variable set_iter : forall A : Type, list A -> list A.
Hypothesis set_iter_perm :
      forall A (l : list A), Permutation (set_iter l) l.

Lemma literals_cubes_of t :
      literals (cubes_of set_iter pis t) = idx_literals t.
    Proof.
      rewrite literals_sum. unfold cubes_of, idx_literals. rewrite map_map.
      simpl. apply list_sum_perm. apply Permutation_map. apply set_iter_perm.
    Qed.

    (** The returned covers have the fewest products of all covers, and
        the fewest literals among the covers with that many products. *)
Lemma returned_minimal rs r cv :
      simplest_results set_iter pis = Covers rs -> In r rs ->
      is_cover n ms dcs cv ->
      (List.length r <= List.length cv)%nat /\
      (List.length cv = List.length r -> (literals r <= literals cv)%nat).
    Proof.
      unfold simplest_results. intros Hres Hr Hcv.
      destruct (@simplest_covers set_iter pis _ _ Hres r Hr)
        as (t & Ht & -> & Hmin & Hlit).
      rewrite (@cubes_of_length set_iter set_iter_perm).
      destruct (list_eq_dec Z.eq_dec (all_mintermidxs pis) []) as [E|E].
      { rewrite (@sop_empty set_iter set_iter_perm pis E) in Ht. destruct Ht. }
      destruct (@sop_spec set_iter set_iter_perm pis E) as (_ & Hs & Hc).
      destruct (cover_selects Hcv) as (H & Hlen & Hsel & HlitH).
      destruct (Hc H Hsel) as (t' & Ht' & Hi').
      destruct (Hs t' Ht') as (_ & Hnd' & _).
      pose proof (NoDup_incl_length Hnd' Hi') as Hl'.
      pose proof (Hmin t' Ht') as Hl. split; [lia|].
      intros Heq.
      assert (Hlt: List.length t' = List.length t) by lia.
      assert (HndH: NoDup H).
      { eapply NoDup_incl_NoDup; [exact Hnd'| |exact Hi']. lia. }
      assert (HiH: incl H t').
      { apply NoDup_length_incl; auto. lia. }
      assert (Hp: Permutation t' H) by (apply NoDup_Permutation; auto; split; auto).
      specialize (Hlit t' Ht' Hlt). rewrite !literals_cubes_of in *.
      unfold idx_literals in *.
      rewrite (list_sum_perm (Permutation_map _ Hp)) in Hlit. lia.
    Qed.
End Selection.
End Primes.
End Minimal.

(** ** boolexprsimplifier.py: the properties of [simplify_minterms] *)

Module MinimiserSpec.
Import Facts BoolExpr QmFacts Cubes QmRun QmResult.
Import PetrickFacts PetrickRun Minimise Constants Minimal.
Open Scope N_scope.

(** A cover from which no product can be dropped. *)
Definition irredundant (n : nat) (ms dcs : list N) (r : list (N * N)) : Prop :=
  is_cover n ms dcs r /\
  forall r1 c r2, r = r1 ++ c :: r2 -> ~ is_cover n ms dcs (r1 ++ r2).

(** Iterating a set in the order of its list. *)
Definition list_order : forall A : Type, list A -> list A := fun _ l => l.

Lemma list_order_perm A (l : list A) : Permutation (list_order l) l.
Proof. apply Permutation_refl. Defined.

(** C2 (QM-soundness): every emitted prime implicant is true only at
    listed minterms and listed don't-care terms, and the computation
    returns. *)
Theorem prime_implicants_sound n ms dcs :
  in_range n ms -> in_range n dcs ->
  exists found, compute_prime_implicants n ms dcs = Some found /\
    forall p M cov x, In (p, M, cov) found -> x < 2 ^ N.of_nat n ->
                      N.land x M = p -> In x ms \/ In x dcs.
Proof.
  intros Hm Hd.
  destruct (@run_spec list_order n ms dcs Hm Hd) as (pis & Hc & Hok & _).
  exists pis. split; auto. intros p M cov x Hin Hx Hl.
  apply (@prime_sound n ms dcs pis Hok (p, M, cov) x); auto.
Qed.

Lemma prime_implicants_sound_witness :
  exists found, compute_prime_implicants 2 [1; 2; 3] [] = Some found /\
    forall p M cov x, In (p, M, cov) found -> x < 2 ^ N.of_nat 2 ->
                      N.land x M = p -> In x [1; 2; 3] \/ In x [].
Proof.
  apply (@prime_implicants_sound 2 [1; 2; 3] []).
  - intros x [<-|[<-|[<-|[]]]]; reflexivity.
  - intros x [].
Defined.

(** C3 (QM-primality): no emitted prime implicant is a strict sub-cube of
    another emitted one. *)
Theorem prime_implicants_no_strict_sub_cube n ms dcs :
  in_range n ms -> in_range n dcs ->
  exists found, compute_prime_implicants n ms dcs = Some found /\
    forall p1 M1 cov1 p2 M2 cov2,
      In (p1, M1, cov1) found -> In (p2, M2, cov2) found ->
      ~ strict_sub_cube p1 M1 p2 M2.
Proof.
  intros Hm Hd.
  destruct (@run_spec list_order n ms dcs Hm Hd) as (pis & Hc & Hok & _).
  exists pis. split; auto. intros p1 M1 cov1 p2 M2 cov2 H1 H2.
  apply (@prime_not_strict_sub n ms dcs pis Hok (p1, M1, cov1) (p2, M2, cov2));
    auto.
Qed.

Lemma prime_implicants_no_strict_sub_cube_witness :
  exists found, compute_prime_implicants 3 [1; 3; 5] [7; 1] = Some found /\
    forall p1 M1 cov1 p2 M2 cov2,
      In (p1, M1, cov1) found -> In (p2, M2, cov2) found ->
      ~ strict_sub_cube p1 M1 p2 M2.
Proof.
  apply (@prime_implicants_no_strict_sub_cube 3 [1; 3; 5] [7; 1]).
  - intros x [<-|[<-|[<-|[]]]]; reflexivity.
  - intros x [<-|[<-|[]]]; reflexivity.
Defined.

Section Iteration.
Variable set_iter : forall A : Type, list A -> list A.
Hypothesis set_iter_perm : forall A (l : list A), Permutation (set_iter l) l.

Lemma covers_cover n ms dcs pis rs r :
    in_range n ms -> in_range n dcs -> qm_result_ok n ms dcs pis ->
    simplest_results set_iter pis = Covers rs -> In r rs ->
    is_cover n ms dcs r.
  Proof.
    intros Hm Hd Hok Hres Hr.
    destruct (@covers_are_covers pis set_iter set_iter_perm rs r Hres Hr)
      as (t & -> & Hsel & _ & Hrg & _).
    apply (@selection_is_cover n ms dcs pis Hm Hok set_iter set_iter_perm);
      auto.
  Qed.

  (** C1 (Petrick-correctness): whenever [simplify_minterms] returns a list
      of covers, every cover is 1 on every listed minterm and 0 on every
      input below [2^n] that is neither a minterm nor a don't-care. *)
Theorem covers_agree_with_function n ms dcs :
    in_range n ms -> in_range n dcs ->
    exists res, simplify_minterms set_iter n ms dcs = Some res /\
      forall rs r, res = Covers rs -> In r rs ->
        (forall x, In x ms -> cover_eval r x = true) /\
        (forall x, x < 2 ^ N.of_nat n -> ~ In x ms -> ~ In x dcs ->
                   cover_eval r x = false).
  Proof.
    intros Hm Hd.
    destruct (@run_spec set_iter n ms dcs Hm Hd) as (pis & _ & Hok & Hs).
    eexists. split; [exact Hs|]. intros rs r Hres Hr.
    apply (@covers_cover n ms dcs pis rs r); auto.
  Qed.

Lemma covers_irredundant n ms dcs pis rs r :
    in_range n ms -> in_range n dcs -> qm_result_ok n ms dcs pis ->
    simplest_results set_iter pis = Covers rs -> In r rs ->
    irredundant n ms dcs r.
  Proof.
    intros Hm Hd Hok Hres Hr. split.
    - eapply covers_cover; eauto.
    - intros r1 c r2 -> Hcv.
      destruct (@returned_minimal n ms dcs pis Hm Hok set_iter set_iter_perm
                  rs _ _ Hres Hr Hcv) as [Hle _].
      rewrite !length_app in Hle. simpl in Hle. lia.
  Qed.

  (** C4 (optimality): the returned covers are irredundant covers, all
      with the same number of products, the least over all irredundant
      covers of the function, and all with the same literal count, the
      least among the irredundant covers with that number of products. *)
Theorem covers_minimal n ms dcs :
    in_range n ms -> in_range n dcs ->
    exists res, simplify_minterms set_iter n ms dcs = Some res /\
      forall rs r, res = Covers rs -> In r rs ->
        irredundant n ms dcs r /\
        (forall cv, irredundant n ms dcs cv ->
                    (List.length r <= List.length cv)%nat) /\
        (forall cv, irredundant n ms dcs cv ->
                    List.length cv = List.length r ->
                    (literals r <= literals cv)%nat) /\
        (forall r', In r' rs -> List.length r' = List.length r /\
                                literals r' = literals r).
  Proof.
    intros Hm Hd.
    destruct (@run_spec set_iter n ms dcs Hm Hd) as (pis & _ & Hok & Hs).
    eexists. split; [exact Hs|]. intros rs r Hres Hr.
    assert (Hmin: forall q cv, In q rs -> is_cover n ms dcs cv ->
              (List.length q <= List.length cv)%nat /\
              (List.length cv = List.length q ->
               (literals q <= literals cv)%nat)).
    { intros q cv Hq Hcv.
      apply (@returned_minimal n ms dcs pis Hm Hok set_iter set_iter_perm
               rs q cv Hres Hq Hcv). }
    assert (Hcov: forall q, In q rs -> is_cover n ms dcs q).
    { intros q Hq. apply (@covers_cover n ms dcs pis rs q); auto. }
    split; [|split; [|split]].
    - apply (@covers_irredundant n ms dcs pis rs r); auto.
    - intros cv [Hcv _]. now apply Hmin.
    - intros cv [Hcv _]. now apply Hmin.
    - intros r' Hr'.
      destruct (Hmin r r' Hr (Hcov r' Hr')) as [L1 E1].
      destruct (Hmin r' r Hr' (Hcov r Hr)) as [L2 E2].
      assert (El: List.length r' = List.length r) by lia.
      split; auto. specialize (E1 El). symmetry in El. specialize (E2 El). lia.
  Qed.

  (** The same bounds hold against every cover, irredundant or not. *)
Lemma covers_minimal_among_all n ms dcs pis rs r cv :
    in_range n ms -> in_range n dcs -> qm_result_ok n ms dcs pis ->
    simplest_results set_iter pis = Covers rs -> In r rs ->
    is_cover n ms dcs cv ->
    (List.length r <= List.length cv)%nat /\
    (List.length cv = List.length r -> (literals r <= literals cv)%nat).
  Proof.
    intros Hm Hd Hok Hres Hr Hcv.
    apply (@returned_minimal n ms dcs pis Hm Hok set_iter set_iter_perm
             rs r cv Hres Hr Hcv).
  Qed.

  (** C5 (constants): when minterms and don't-cares together list every
      input below [2^n] and there is a minterm, the only prime implicant
      is the universal cube and the result is [True]; with no minterm, no
      prime implicant is emitted and the result is [False], whatever the
      don't-care list. *)
Theorem constant_functions n ms dcs dcs' :
    in_range n ms -> in_range n dcs ->
    (forall x, x < 2 ^ N.of_nat n -> In x ms \/ In x dcs) -> ms <> [] ->
    (simplify_minterms set_iter n ms dcs = Some AlwaysTrue /\
     exists cov, compute_prime_implicants n ms dcs = Some [(0, 0, cov)]) /\
    (simplify_minterms set_iter n [] dcs' = Some AlwaysFalse /\
     compute_prime_implicants n [] dcs' = Some []).
  Proof.
    intros Hm Hd Hall Hne. split.
    - destruct (@run_spec set_iter n ms dcs Hm Hd) as (pis & Hc & Hok & Hs).
      destruct (@full_coverage_primes n ms dcs pis Hm Hd Hall Hne Hok)
        as (cov & -> & Hcov).
      rewrite Hs. split; [|eauto]. f_equal.
      apply (@single_universal_true set_iter set_iter_perm cov Hcov).
    - split.
      + apply (@no_minterms_false set_iter set_iter_perm).
      + apply no_minterms_no_primes.
  Qed.
End Iteration.

Lemma covers_agree_with_function_witness :
  exists res, simplify_minterms list_order 2 [1; 2; 3] [] = Some res /\
    forall rs r, res = Covers rs -> In r rs ->
      (forall x, In x [1; 2; 3] -> cover_eval r x = true) /\
      (forall x, x < 2 ^ N.of_nat 2 -> ~ In x [1; 2; 3] -> ~ In x [] ->
                 cover_eval r x = false).
Proof.
  apply (@covers_agree_with_function list_order list_order_perm 2 [1; 2; 3] []).
  - intros x [<-|[<-|[<-|[]]]]; reflexivity.
  - intros x [].
Defined.

Lemma covers_minimal_witness :
  exists res,
    simplify_minterms list_order 4 [4; 8; 10; 11; 12; 15] [9; 14] = Some res /\
    forall rs r, res = Covers rs -> In r rs ->
      irredundant 4 [4; 8; 10; 11; 12; 15] [9; 14] r /\
      (forall cv, irredundant 4 [4; 8; 10; 11; 12; 15] [9; 14] cv ->
                  (List.length r <= List.length cv)%nat) /\
      (forall cv, irredundant 4 [4; 8; 10; 11; 12; 15] [9; 14] cv ->
                  List.length cv = List.length r ->
                  (literals r <= literals cv)%nat) /\
      (forall r', In r' rs -> List.length r' = List.length r /\
                              literals r' = literals r).
Proof.
  apply (@covers_minimal list_order list_order_perm 4
           [4; 8; 10; 11; 12; 15] [9; 14]).
  - intros x [<-|[<-|[<-|[<-|[<-|[<-|[]]]]]]]; reflexivity.
  - intros x [<-|[<-|[]]]; reflexivity.
Defined.

Lemma constant_functions_witness :
  (simplify_minterms list_order 1 [0; 1] [] = Some AlwaysTrue /\
   exists cov, compute_prime_implicants 1 [0; 1] [] = Some [(0, 0, cov)]) /\
  (simplify_minterms list_order 1 [] [0; 1] = Some AlwaysFalse /\
   compute_prime_implicants 1 [] [0; 1] = Some []).
Proof.
  apply (@constant_functions list_order list_order_perm 1 [0; 1] [] [0; 1]).
  - intros x [<-|[<-|[]]]; reflexivity.
  - intros x [].
  - intros x Hx. simpl in Hx.
    assert (Hc: x = 0 \/ x = 1) by lia.
    destruct Hc as [->| ->]; simpl; auto.
  - discriminate.
Defined.

(** The scenarios of the specification, run on the embedding. *)
Example scenario_or :
  simplify_minterms list_order 2 [1; 2; 3] [] = Some (Covers [[(1, 1); (2, 2)]]).
Proof. vm_compute. reflexivity. Qed.

Example scenario_tautology :
  simplify_minterms list_order 1 [0; 1] [] = Some AlwaysTrue.
Proof. vm_compute. reflexivity. Qed.

Example scenario_no_minterm :
  simplify_minterms list_order 2 [] [0; 1; 2; 3] = Some AlwaysFalse.
Proof. vm_compute. reflexivity. Qed.

Example scenario_single_variable :
  simplify_minterms list_order 3 [1; 3; 5; 7] [] = Some (Covers [[(1, 1)]]).
Proof. vm_compute. reflexivity. Qed.

Example scenario_three_products :
  simplify_minterms list_order 3 [0; 1; 2; 5; 6; 7] [] =
  Some (Covers [[(0, 5); (1, 3); (6, 6)]; [(0, 6); (2, 3); (5, 5)]]).
Proof. vm_compute. reflexivity. Qed.

End MinimiserSpec.

(** ** pete.py: what a dump of the wrong length leaves behind *)

Module PeteStart.
Import PyStr Pete.
Open Scope string_scope.

Lemma content_open_same path fs : content path (open_wt path fs) = Some "".
Proof. unfold open_wt. simpl. now rewrite String.eqb_refl. Qed.

Lemma content_filter_other path path' fs :
  path' <> path ->
  content path (filter (fun pc => negb (String.eqb (fst pc) path')) fs)
  = content path fs.
Proof.
  intros Hne. induction fs as [|[p c] fs IH]; simpl; auto.
  destruct (String.eqb_spec p path') as [->|Hp]; simpl.
  - destruct (String.eqb_spec path' path); [congruence|]. exact IH.
  - now rewrite IH.
Qed.

Lemma content_open_other path path' fs :
  path' <> path -> content path (open_wt path' fs) = content path fs.
Proof.
  intros Hne. unfold open_wt. simpl.
  destruct (String.eqb_spec path' path); [congruence|].
  now apply content_filter_other.
Qed.

Lemma content_write_same path text fs :
  content path (write path text fs)
  = option_map (fun c => c ++ text) (content path fs).
Proof.
  induction fs as [|[p c] fs IH]; simpl; auto.
  destruct (String.eqb_spec p path) as [->|Hp]; simpl.
  - now rewrite String.eqb_refl.
  - destruct (String.eqb_spec p path); [congruence|]. exact IH.
Qed.

Lemma content_write_other path path' text fs :
  path' <> path -> content path (write path' text fs) = content path fs.
Proof.
  intros Hne. induction fs as [|[p c] fs IH]; simpl; auto.
  destruct (String.eqb_spec p path') as [->|Hp]; simpl.
  - destruct (String.eqb_spec path' path); [congruence|]. exact IH.
  - now rewrite IH.
Qed.

Lemma append_assoc (a b c : string) : (a ++ b) ++ c = a ++ b ++ c.
Proof. induction a; simpl; congruence. Qed.

Lemma append_empty_r (a : string) : a ++ "" = a.
Proof. induction a; simpl; congruence. Qed.

Lemma append_inj_l (s a b : string) : s ++ a = s ++ b -> a = b.
Proof. induction s; simpl; intros H; auto. injection H. auto. Qed.

Lemma paths_differ stem : truthtable_path stem <> equations_path stem.
Proof.
  unfold truthtable_path, equations_path. intros H.
  apply append_inj_l in H. discriminate.
Qed.

(** The [PIN] lines, one write each. *)
Lemma content_pin_lines path pin_names fs :
  content path (fold_left (fun fs number_name =>
                             write path (pin_line number_name) fs)
                          pin_names fs)
  = option_map (fun c => c ++ String.concat "" (map pin_line pin_names))
               (content path fs).
Proof.
  revert fs. induction pin_names as [|x l IH]; intros fs; simpl.
  - destruct (content path fs); simpl; auto. now rewrite append_empty_r.
  - rewrite IH, content_write_same. destruct (content path fs); simpl; auto.
    f_equal. rewrite append_assoc. f_equal.
    destruct l; simpl; auto. now rewrite append_empty_r.
Qed.

Lemma content_pin_lines_other path path' pin_names fs :
  path' <> path ->
  content path (fold_left (fun fs number_name =>
                             write path' (pin_line number_name) fs)
                          pin_names fs)
  = content path fs.
Proof.
  intros Hne. revert fs. induction pin_names as [|x l IH]; intros fs; simpl.
  - reflexivity.
  - rewrite IH. now apply content_write_other.
Qed.

(** The equations file after the start of the program. *)
Definition equations_start (stem : string) (pin_names : list (N * string))
  : string :=
  equations_header stem ++ String.concat "" (map pin_line pin_names).

Lemma equations_start_nonempty stem pin_names :
  equations_start stem pin_names <> "".
Proof. unfold equations_start, equations_header. simpl. discriminate. Qed.

(** C7, as the code has it. A dump whose length is not 262144 bytes
    stops the program with the error "File with 262144 bytes expected",
    raised after both output files have been created and the header of
    the equations file, the [Name] to [Location] lines and one [PIN]
    line per pin, has been written: the truth table file is left empty,
    the equations file holds that header and nothing else, and no other
    file is touched. *)
Theorem wrong_length_leaves_header pinnames stem dumpdata fs pin_names :
  N.of_nat (List.length dumpdata) <> 262144%N ->
  get_pin_names pinnames = inr pin_names ->
  exists fs',
    pete_start pinnames stem dumpdata fs = (fs', inl UnexpectedDumpLength) /\
    content (truthtable_path stem) fs' = Some "" /\
    content (equations_path stem) fs'
    = Some (equations_start stem pin_names) /\
    forall path, path <> truthtable_path stem ->
                 path <> equations_path stem ->
                 content path fs' = content path fs.
Proof.
  intros Hlen Hpins. unfold pete_start. rewrite Hpins.
  destruct (N.eqb_spec (N.of_nat (List.length dumpdata)) 262144) as [E|_];
    [congruence|].
  eexists. split; [reflexivity|]. pose proof (paths_differ stem) as Hd.
  split; [|split].
  - rewrite content_pin_lines_other by auto.
    rewrite content_write_other by auto.
    rewrite content_open_other by auto. apply content_open_same.
  - rewrite content_pin_lines, content_write_same, content_open_same.
    reflexivity.
  - intros path H1 H2. rewrite content_pin_lines_other by auto.
    rewrite content_write_other by auto.
    now rewrite !content_open_other by auto.
Qed.

Lemma wrong_length_leaves_header_witness :
  exists fs',
    pete_start None "dump" [Byte.x00; Byte.x01] [] =
    (fs', inl UnexpectedDumpLength) /\
    content (truthtable_path "dump") fs' = Some "" /\
    content (equations_path "dump") fs'
    = Some (equations_start "dump"
              (map (fun k => (k, "pin" ++ format_d k)) pal_pins)) /\
    forall path, path <> truthtable_path "dump" ->
                 path <> equations_path "dump" ->
                 content path fs' = content path [].
Proof.
  apply (@wrong_length_leaves_header None "dump" [Byte.x00; Byte.x01] []).
  - vm_compute. discriminate.
  - reflexivity.
Defined.

(** C7 as the specification states it fails: for the empty dump the
    error is raised, and by then the equations file is not empty. *)
Lemma empty_dump_equations_file_written :
  let run := pete_start None "dump" [] [] in
  snd run = inl UnexpectedDumpLength /\
  content (equations_path "dump") (fst run)
  = Some (equations_header "dump" ++ pin_line (1%N, "pin1")
          ++ String.concat "" (map pin_line
               (map (fun k => (k, "pin" ++ format_d k)) (tl pal_pins)))) /\
  content (equations_path "dump") (fst run) <> Some "" /\
  content (equations_path "dump") (fst run) <> None.
Proof.
  cbv zeta. split; [|split; [|split]].
  - vm_compute. reflexivity.
  - vm_compute. reflexivity.
  - vm_compute. discriminate.
  - vm_compute. discriminate.
Qed.

(** With a wrong number of pin names the error comes before any file is
    opened. *)
Lemma wrong_pin_names_touch_nothing pinnames stem dumpdata fs e :
  get_pin_names pinnames = inl e ->
  pete_start pinnames stem dumpdata fs = (fs, inl WrongNumberOfPinNames).
Proof.
  intros H. unfold pete_start. rewrite H. f_equal. f_equal.
  unfold get_pin_names in H. destruct pinnames; [|discriminate].
  destruct (Nat.eqb _ 18); [discriminate|]. now injection H as <-.
Qed.

End PeteStart.

(** ** pete.py: what the dependency maps say about the dump *)

Module PeteDepends.
Import Pete.
Open Scope N_scope.

(** *** Bits *)

Lemma bit_bits b k : N.testbit (N.shiftl 1 b) k = (b =? k).
Proof. rewrite N.shiftl_1_l. apply N.pow2_bits_eqb. Qed.

Lemma gen_bitmask_bits n k : N.testbit (gen_bitmask n) k = (k <? n).
Proof.
  unfold gen_bitmask. rewrite N.sub_1_r. fold (N.ones n).
  destruct (N.ltb_spec k n).
  - now apply N.ones_spec_low.
  - now apply N.ones_spec_high.
Qed.

(** Bit [p] of two data bytes, as the code compares it. *)
Lemma land_bit_eqb x y p :
  (N.land x (N.shiftl 1 p) =? N.land y (N.shiftl 1 p))
  = Bool.eqb (N.testbit x p) (N.testbit y p).
Proof.
  destruct (Bool.eqb (N.testbit x p) (N.testbit y p)) eqn:E.
  - apply Bool.eqb_prop in E. apply N.eqb_eq. apply N.bits_inj. intros k.
    rewrite !N.land_spec, bit_bits.
    destruct (N.eqb_spec p k) as [<-|]; [now rewrite E|].
    now rewrite !andb_false_r.
  - apply N.eqb_neq. intros H.
    apply (f_equal (fun z => N.testbit z p)) in H.
    rewrite !N.land_spec, bit_bits, N.eqb_refl, !andb_true_r in H.
    rewrite H in E. now rewrite Bool.eqb_reflx in E.
Qed.

Lemma testbit_below a n k : a < 2 ^ n -> n <= k -> N.testbit a k = false.
Proof.
  intros Ha Hk. destruct (N.eq_dec a 0) as [->|Hz]; [apply N.bits_0|].
  apply N.bits_above_log2. apply N.log2_lt_pow2 in Ha; lia.
Qed.

Lemma below_testbit a n :
  (forall k, n <= k -> N.testbit a k = false) -> a < 2 ^ n.
Proof.
  intros H. destruct (N.eq_dec a 0) as [->|Hz].
  - apply N.neq_0_lt_0. apply N.pow_nonzero. discriminate.
  - apply N.log2_lt_pow2; [lia|].
    destruct (N.lt_ge_cases (N.log2 a) n) as [Hl|Hl]; auto.
    pose proof (N.bit_log2 a Hz) as Hb. rewrite (H _ Hl) in Hb. discriminate.
Qed.

(** *** The address with a bit inserted *)

Lemma insert_bit_bits i b k :
  b <= 17 ->
  N.testbit (insert_bit i b) k =
  if k <? b then N.testbit i k
  else if k =? b then false
  else if k <=? 17 then N.testbit i (k - 1) else false.
Proof.
  intros Hb. unfold insert_bit. rewrite N.lor_spec, !N.land_spec.
  rewrite gen_bitmask_bits.
  destruct (N.ltb_spec k b) as [Hlt|Hge].
  - rewrite andb_true_r.
    destruct (N.eq_dec k 0) as [->|Hk].
    + rewrite N.shiftl_spec_low by lia. reflexivity.
    + rewrite N.shiftl_spec_high' by lia. rewrite N.land_spec.
      rewrite N.shiftl_spec_low by lia. now rewrite andb_false_r.
  - rewrite andb_false_r, orb_false_r.
    destruct (N.eqb_spec k b) as [->|Hne].
    + destruct (N.eq_dec b 0) as [->|Hk].
      * rewrite N.shiftl_spec_low by lia. reflexivity.
      * rewrite N.shiftl_spec_high' by lia. rewrite N.land_spec.
        rewrite N.shiftl_spec_low by lia. now rewrite andb_false_r.
    + rewrite N.shiftl_spec_high' by lia. rewrite N.land_spec.
      rewrite N.shiftl_spec_high' by lia. rewrite gen_bitmask_bits.
      destruct (N.leb_spec k 17) as [Hle|Hgt].
      * replace (k - 1 - b <? 17 - b) with true; [now rewrite andb_true_r|].
        symmetry. apply N.ltb_lt. lia.
      * replace (k - 1 - b <? 17 - b) with false; [now rewrite andb_false_r|].
        symmetry. apply N.ltb_ge. lia.
Qed.

(** The address without its bit [b]. *)
Definition remove_bit (a b : N) : N :=
  N.lor (N.shiftl (N.shiftr a (b + 1)) b) (N.land a (gen_bitmask b)).

Lemma remove_bit_bits a b k :
  N.testbit (remove_bit a b) k =
  if k <? b then N.testbit a k else N.testbit a (k + 1).
Proof.
  unfold remove_bit. rewrite N.lor_spec, N.land_spec, gen_bitmask_bits.
  destruct (N.ltb_spec k b) as [Hlt|Hge].
  - rewrite N.shiftl_spec_low by lia. now rewrite andb_true_r.
  - rewrite N.shiftl_spec_high' by lia. rewrite N.shiftr_spec'.
    rewrite andb_false_r, orb_false_r. f_equal. lia.
Qed.

Lemma insert_remove a b :
  b <= 17 -> a < 2 ^ 18 -> N.testbit a b = false ->
  insert_bit (remove_bit a b) b = a /\ remove_bit a b < 2 ^ 17.
Proof.
  intros Hb Ha Hbit. split.
  - apply N.bits_inj. intros k. rewrite insert_bit_bits by lia.
    rewrite !remove_bit_bits.
    destruct (N.ltb_spec k b) as [Hlt|Hge]; [reflexivity|].
    destruct (N.eqb_spec k b) as [->|Hne]; [now rewrite Hbit|].
    destruct (N.leb_spec k 17) as [Hle|Hgt].
    + destruct (N.ltb_spec (k - 1) b); [lia|]. f_equal. lia.
    + symmetry. apply (testbit_below (n := 18)); auto. lia.
  - apply below_testbit. intros k Hk. rewrite remove_bit_bits.
    destruct (N.ltb_spec k b); [lia|].
    apply (testbit_below (n := 18)); auto. lia.
Qed.

(** *** One step of the loop *)

(** Whether the body for [outputpinbitpos] records [bitpos] in
    [depends_map], with the conditions as the code writes them. *)
Definition records (dumpdata : list Byte.byte) (bitpos addr : N)
    (outputpinbitpos : N) : bool :=
  let bit := N.shiftl 1 bitpos in
  let outputpinbit := N.shiftl 1 outputpinbitpos in
  let highzprobeaddrbit :=
    N.shiftl 1 (palpinnum_to_epromaddrbitpos
                  (epromdatabitpos_to_palpinnum outputpinbitpos)) in
  negb (epromaddrbitpos_to_palpinnum bitpos
        =? epromdatabitpos_to_palpinnum outputpinbitpos)
  && (negb (N.land (dump_at dumpdata addr) outputpinbit
            =? N.land (dump_at dumpdata (N.lor addr bit)) outputpinbit)
      && negb (negb (N.land (dump_at dumpdata
                               (N.ldiff addr highzprobeaddrbit)) outputpinbit
                     =? N.land (dump_at dumpdata
                                  (N.lor addr highzprobeaddrbit))
                               outputpinbit))
      && negb (negb (N.land (dump_at dumpdata
                               (N.ldiff (N.lor addr bit) highzprobeaddrbit))
                            outputpinbit
                     =? N.land (dump_at dumpdata
                                  (N.lor (N.lor addr bit) highzprobeaddrbit))
                               outputpinbit))).

Lemma depends_seen data outputpinbit outputpinbitpos st :
  depends_map (seen data outputpinbit outputpinbitpos st) = depends_map st.
Proof. unfold seen. destruct (_ =? 0); reflexivity. Qed.

Lemma probe_output_depends dumpdata bitpos addr st p :
  depends_map (probe_output dumpdata bitpos addr st p) =
  if records dumpdata bitpos addr p
  then or_at p (N.shiftl 1 bitpos) (depends_map st)
  else depends_map st.
Proof.
  unfold probe_output, records. cbv zeta.
  destruct (epromaddrbitpos_to_palpinnum bitpos
            =? epromdatabitpos_to_palpinnum p); [reflexivity|].
  cbn [negb andb].
  repeat match goal with
         | |- context [if ?c then _ else _] =>
             match c with
             | context [if _ then _ else _] => fail 1
             | _ => destruct c eqn:?
             end
         end;
    rewrite ?depends_seen; cbn [depends_map]; try reflexivity;
    try discriminate.
Qed.

(** *** The loops *)

Definition depends (st : maps) (p k : N) : Prop :=
  N.testbit (nth (N.to_nat p) (depends_map st) 0) k = true.

Definition sized (st : maps) : Prop := List.length (depends_map st) = 8%nat.

Lemma length_set_at A k (v : A) l : List.length (set_at k v l) = List.length l.
Proof.
  revert k. induction l as [|x l IH]; intros [|k]; simpl; auto.
Qed.

Lemma nth_set_at A k j (v d : A) l :
  nth j (set_at k v l) d =
  if (Nat.eqb j k && Nat.ltb k (List.length l))%bool then v else nth j l d.
Proof.
  revert k j. induction l as [|x l IH]; intros k j.
  - destruct k as [|k], j as [|j]; simpl; rewrite ?andb_false_r; reflexivity.
  - destruct k as [|k], j as [|j]; simpl; auto.
Qed.

Lemma range_In n x : In x (range n) <-> x < n.
Proof.
  unfold range. rewrite in_map_iff. split.
  - intros (k & <- & Hk). apply in_seq in Hk. lia.
  - intros Hx. exists (N.to_nat x). split; [apply N2Nat.id|].
    apply in_seq. lia.
Qed.

Lemma fold_left_reaches A S (f : S -> A -> S) (I Q : S -> Prop)
    (R : A -> Prop) l :
  (forall st x, I st -> I (f st x)) ->
  (forall st x, I st -> (Q (f st x) <-> Q st \/ R x)) ->
  forall init, I init ->
    I (fold_left f l init) /\
    (Q (fold_left f l init) <-> Q init \/ exists x, In x l /\ R x).
Proof.
  intros HI HQ. induction l as [|x l IH]; intros init Hinit; simpl.
  - split; auto. split; auto. intros [H|(x & [] & _)]; auto.
  - destruct (IH (f init x) (HI _ _ Hinit)) as [Hi Hq]. split; auto.
    rewrite Hq, (HQ init x Hinit). split.
    + intros [[H|H]|(y & Hy & Hr)]; eauto.
    + intros [H|(y & [<-|Hy] & Hr)]; eauto.
Qed.

Section Dump.
Variable dumpdata : list Byte.byte.

Lemma probe_output_sized bitpos addr st p :
  sized st -> sized (probe_output dumpdata bitpos addr st p).
Proof.
  unfold sized. rewrite probe_output_depends.
  destruct (records dumpdata bitpos addr p); auto.
  unfold or_at. now rewrite length_set_at.
Qed.

Lemma probe_output_records bitpos addr st p q k :
  sized st -> q < 8 ->
  depends (probe_output dumpdata bitpos addr st p) q k <->
  depends st q k \/
  (p = q /\ k = bitpos /\ records dumpdata bitpos addr p = true).
Proof.
  intros Hs Hq. unfold depends, sized in *. rewrite probe_output_depends.
  destruct (records dumpdata bitpos addr p) eqn:E.
  - unfold or_at. rewrite nth_set_at, Hs.
    destruct (Nat.eqb_spec (N.to_nat q) (N.to_nat p)) as [Hpq|Hpq].
    + apply N2Nat.inj in Hpq. subst q.
      replace (N.to_nat p <? 8)%nat with true
        by (symmetry; apply Nat.ltb_lt; lia).
      cbn [andb]. rewrite N.lor_spec, bit_bits, orb_true_iff, N.eqb_eq.
      split; intros [H|H]; auto.
      right. symmetry. apply H.

    + cbn [andb]. split; auto. intros [H|(-> & _)]; auto.
  - split; auto. intros [H|(_ & _ & H)]; auto. discriminate.
Qed.

Lemma probe_bit_records i st bitpos q k :
  sized st -> q < 8 ->
  sized (probe_bit dumpdata i st bitpos) /\
  (depends (probe_bit dumpdata i st bitpos) q k <->
   depends st q k \/
   (k = bitpos /\ records dumpdata bitpos (insert_bit i bitpos) q = true)).
Proof.
  intros Hs Hq. unfold probe_bit.
  destruct (@fold_left_reaches N maps
              (probe_output dumpdata bitpos (insert_bit i bitpos))
              sized (fun st => depends st q k)
              (fun p => p = q /\ k = bitpos /\
                        records dumpdata bitpos (insert_bit i bitpos) p = true)
              (range 8)) with (init := st) as [Hi Hd]; auto.
  - intros; now apply probe_output_sized.
  - intros; now apply probe_output_records.
  - split; auto. rewrite Hd. split.
    + intros [H|(p & _ & -> & H)]; auto.
    + intros [H|H]; auto. right. exists q. split; auto.
      apply range_In. exact Hq.
Qed.

Lemma probe_address_records st i q k :
  sized st -> q < 8 ->
  sized (probe_address dumpdata st i) /\
  (depends (probe_address dumpdata st i) q k <->
   depends st q k \/
   (k < 18 /\ records dumpdata k (insert_bit i k) q = true)).
Proof.
  intros Hs Hq. unfold probe_address.
  destruct (@fold_left_reaches N maps (probe_bit dumpdata i)
              sized (fun st => depends st q k)
              (fun b => k = b /\
                        records dumpdata b (insert_bit i b) q = true)
              (range 18)) with (init := st) as [Hi Hd]; auto.
  - intros s b Hsz. now apply (probe_bit_records i b k Hsz Hq).
  - intros s b Hsz. now apply (probe_bit_records i b k Hsz Hq).
  - split; auto. rewrite Hd. split.
    + intros [H|(b & Hb & <- & H)]; auto. right. split; auto.
      now apply range_In.
    + intros [H|(Hk & H)]; auto. right. exists k. split; auto.
      now apply range_In.
Qed.

(** The bits of [depends_map] at the end of the loops. *)
Lemma discover_dependencies_records q k :
  q < 8 ->
  depends (discover_dependencies dumpdata) q k <->
  k < 18 /\
  exists i, i < 2 ^ 17 /\ records dumpdata k (insert_bit i k) q = true.
Proof.
  intros Hq. unfold discover_dependencies.
  destruct (@fold_left_reaches N maps (probe_address dumpdata)
              sized (fun st => depends st q k)
              (fun i => k < 18 /\
                        records dumpdata k (insert_bit i k) q = true)
              (range (2 ^ 17))) with (init := initial_maps) as [Hi Hd]; auto.
  - intros s i Hsz. now apply (probe_address_records i k Hsz Hq).
  - intros s i Hsz. now apply (probe_address_records i k Hsz Hq).
  - reflexivity.
  - rewrite Hd. split.
    + intros [H|(i & Hi' & Hk & H)].
      * exfalso. unfold depends, initial_maps in H. cbn [depends_map] in H.
        assert (E: nth (N.to_nat q) (repeat 0 8) 0 = 0).
        { destruct (nth_in_or_default (N.to_nat q) (repeat 0 8) 0) as [Hn|Hn];
            [|exact Hn]. now apply repeat_spec in Hn. }
        rewrite E, N.bits_0 in H. discriminate.
      * split; auto. exists i. split; auto. now apply range_In.
    + intros (Hk & i & Hi' & H). right. exists i. split; [|auto].
      now apply range_In.
Qed.

End Dump.

End PeteDepends.

(** ** pete.py: inputs outside [depends_map] do not move a driven output *)

Module HighZ.
Import Pete PeteDepends.
Open Scope N_scope.

#[local] Unset Implicit Arguments.

(** Pin [p] is driven at address [a]: toggling its probe bit [p + 10]
    leaves bit [p] of the data as it is. *)
Definition driven (dumpdata : list Byte.byte) (p a : N) : Prop :=
  N.testbit (dump_at dumpdata a) p
  = N.testbit (dump_at dumpdata (N.lxor a (N.shiftl 1 (p + 10)))) p.

Lemma ldiff_clear x q : N.testbit x q = false -> N.ldiff x (N.shiftl 1 q) = x.
Proof.
  intros H. apply N.bits_inj. intros k. rewrite N.ldiff_spec, bit_bits.
  destruct (N.eqb_spec q k) as [<-|_]; [now rewrite H|apply andb_true_r].
Qed.

Lemma lor_clear x q :
  N.testbit x q = false -> N.lor x (N.shiftl 1 q) = N.lxor x (N.shiftl 1 q).
Proof.
  intros H. apply N.bits_inj. intros k.
  rewrite N.lor_spec, N.lxor_spec, bit_bits.
  destruct (N.eqb_spec q k) as [<-|_]; [now rewrite H|].
  now rewrite orb_false_r, xorb_false_r.
Qed.

Lemma lor_set x q : N.testbit x q = true -> N.lor x (N.shiftl 1 q) = x.
Proof.
  intros H. apply N.bits_inj. intros k. rewrite N.lor_spec, bit_bits.
  destruct (N.eqb_spec q k) as [<-|_]; [now rewrite H|apply orb_false_r].
Qed.

Lemma ldiff_set x q :
  N.testbit x q = true -> N.ldiff x (N.shiftl 1 q) = N.lxor x (N.shiftl 1 q).
Proof.
  intros H. apply N.bits_inj. intros k.
  rewrite N.ldiff_spec, N.lxor_spec, bit_bits.
  destruct (N.eqb_spec q k) as [<-|_]; [now rewrite H|].
  now rewrite andb_true_r, xorb_false_r.
Qed.

Lemma lxor_bit_twice x q :
  N.lxor (N.lxor x (N.shiftl 1 q)) (N.shiftl 1 q) = x.
Proof.
  rewrite N.lxor_assoc, N.lxor_nilpotent. apply N.lxor_0_r.
Qed.

Lemma lxor_bit_flips x q :
  N.testbit (N.lxor x (N.shiftl 1 q)) q = negb (N.testbit x q).
Proof.
  rewrite N.lxor_spec, bit_bits, N.eqb_refl. apply xorb_true_r.
Qed.

Lemma lxor_bit_below x q n :
  x < 2 ^ n -> q < n -> N.lxor x (N.shiftl 1 q) < 2 ^ n.
Proof.
  intros Hx Hq. apply below_testbit. intros k Hk.
  rewrite N.lxor_spec, bit_bits, (testbit_below Hx Hk).
  destruct (N.eqb_spec q k); [lia|reflexivity].
Qed.

Lemma lor_bit_below x q n :
  x < 2 ^ n -> q < n -> N.lor x (N.shiftl 1 q) < 2 ^ n.
Proof.
  intros Hx Hq. apply below_testbit. intros k Hk.
  rewrite N.lor_spec, bit_bits, (testbit_below Hx Hk).
  destruct (N.eqb_spec q k); [lia|reflexivity].
Qed.

Lemma ldiff_below x y n : x < 2 ^ n -> N.ldiff x y < 2 ^ n.
Proof.
  intros Hx. apply below_testbit. intros k Hk.
  now rewrite N.ldiff_spec, (testbit_below Hx Hk).
Qed.

Lemma insert_bit_below i b : b <= 17 -> insert_bit i b < 2 ^ 18.
Proof.
  intros Hb. apply below_testbit. intros k Hk. rewrite insert_bit_bits by lia.
  destruct (N.ltb_spec k b); [lia|]. destruct (N.eqb_spec k b); auto.
  destruct (N.leb_spec k 17); [lia|reflexivity].
Qed.

(** The six addresses a round of the loop reads lie inside a dump of
    262144 bytes, where [dump_at] is the indexing of the code. *)
Lemma probe_addresses_below i b p :
  b < 18 -> p < 8 ->
  let addr := insert_bit i b in
  let bit := N.shiftl 1 b in
  let highzprobeaddrbit := N.shiftl 1 (p + 10) in
  addr < 2 ^ 18 /\ N.lor addr bit < 2 ^ 18 /\
  N.ldiff addr highzprobeaddrbit < 2 ^ 18 /\
  N.lor addr highzprobeaddrbit < 2 ^ 18 /\
  N.ldiff (N.lor addr bit) highzprobeaddrbit < 2 ^ 18 /\
  N.lor (N.lor addr bit) highzprobeaddrbit < 2 ^ 18.
Proof.
  intros Hb Hp. cbv zeta.
  assert (Ha: insert_bit i b < 2 ^ 18) by (apply insert_bit_below; lia).
  assert (Hq: p + 10 < 18) by lia.
  repeat split; auto using lor_bit_below, ldiff_below.
Qed.

Lemma dump_at_inside dumpdata a :
  N.of_nat (List.length dumpdata) = 262144 -> a < 2 ^ 18 ->
  exists byte, nth_error dumpdata (N.to_nat a) = Some byte /\
               dump_at dumpdata a = Byte.to_N byte.
Proof.
  intros Hlen Ha. change (2 ^ 18) with 262144 in Ha.
  destruct (nth_error dumpdata (N.to_nat a)) as [byte|] eqn:E.
  - exists byte. split; auto. unfold dump_at.
    now rewrite (nth_error_nth _ _ _ E).
  - apply nth_error_None in E. lia.
Qed.

(** The probe comparison of the code, on the address with the probe bit
    cleared and set, says whether the pin is driven. *)
Lemma probe_driven dumpdata p x :
  Bool.eqb (N.testbit (dump_at dumpdata (N.ldiff x (N.shiftl 1 (p + 10)))) p)
           (N.testbit (dump_at dumpdata (N.lor x (N.shiftl 1 (p + 10)))) p)
  = true <-> driven dumpdata p x.
Proof.
  unfold driven. rewrite Bool.eqb_true_iff.
  destruct (N.testbit x (p + 10)) eqn:E.
  - rewrite (lor_set _ _ E), (ldiff_set _ _ E). split; congruence.
  - rewrite (lor_clear _ _ E), (ldiff_clear _ _ E). reflexivity.
Qed.

Lemma skipped_input p b :
  p < 8 -> b < 18 ->
  (epromaddrbitpos_to_palpinnum b =? epromdatabitpos_to_palpinnum p)
  = (b =? p + 10).
Proof.
  intros Hp Hb. unfold epromaddrbitpos_to_palpinnum,
    epromdatabitpos_to_palpinnum.
  destruct (N.leb_spec b 8);
    destruct (N.eqb_spec b (p + 10)); apply N.eqb_neq || apply N.eqb_eq; lia.
Qed.

Lemma probe_position p :
  palpinnum_to_epromaddrbitpos (epromdatabitpos_to_palpinnum p) = p + 10.
Proof.
  unfold palpinnum_to_epromaddrbitpos, epromdatabitpos_to_palpinnum.
  destruct (N.leb_spec (p + 12) 9); lia.
Qed.

(** What [records] tests, for an address with bit [b] clear. *)
Lemma records_spec dumpdata p b a :
  p < 8 -> b < 18 -> N.testbit a b = false ->
  records dumpdata b a p = true <->
  b <> p + 10 /\
  N.testbit (dump_at dumpdata a) p
  <> N.testbit (dump_at dumpdata (N.lxor a (N.shiftl 1 b))) p /\
  driven dumpdata p a /\
  driven dumpdata p (N.lxor a (N.shiftl 1 b)).
Proof.
  intros Hp Hb Ha. unfold records. cbv zeta.
  rewrite skipped_input, probe_position by assumption.
  rewrite !land_bit_eqb, !negb_involutive, (lor_clear _ _ Ha).
  rewrite !andb_true_iff, !negb_true_iff, !probe_driven.
  rewrite N.eqb_neq, Bool.eqb_false_iff. tauto.
Qed.

Section Dump.
Variable dumpdata : list Byte.byte.

Let D (a : N) (p : N) : bool := N.testbit (dump_at dumpdata a) p.

(** The bits of [depends_map[p]]: the inputs, other than the probe of
    the pin, that change the driven output somewhere. *)
Lemma depends_map_spec p b :
  p < 8 ->
  depends (discover_dependencies dumpdata) p b <->
  b < 18 /\ b <> p + 10 /\
  exists a, a < 2 ^ 18 /\ N.testbit a b = false /\
            D a p <> D (N.lxor a (N.shiftl 1 b)) p /\
            driven dumpdata p a /\
            driven dumpdata p (N.lxor a (N.shiftl 1 b)).
Proof.
  intros Hp. rewrite discover_dependencies_records by assumption. split.
  - intros (Hb & i & Hi & Hr).
    assert (Hclear: N.testbit (insert_bit i b) b = false).
    { rewrite insert_bit_bits by lia. rewrite N.ltb_irrefl, N.eqb_refl.
      reflexivity. }
    apply records_spec in Hr; auto. destruct Hr as (Hq & Hd & H0 & H1).
    split; auto. split; auto. exists (insert_bit i b).
    repeat split; auto. apply insert_bit_below. lia.
  - intros (Hb & Hq & a & Ha & Hclear & Hd & H0 & H1). split; auto.
    destruct (@insert_remove a b) as [E Hi]; auto; [lia|].
    exists (remove_bit a b). split; auto. rewrite E.
    apply records_spec; auto.
Qed.

End Dump.

Lemma depends_testbit st p k :
  depends st p k <->
  N.testbit (nth (N.to_nat p) (depends_map st) 0) k = true.
Proof. reflexivity. Qed.

(** C6. For a dump of 262144 bytes, an output pin [p] of 0..7, an
    address bit [b] other than the probe bit [p + 10] of the pin and not
    set in [depends_map[p]], and two addresses [a] and [a XOR (1 << b)]
    at both of which the pin is driven: bit [p] of the dump is the same
    at the two addresses. *)
Theorem unset_bit_leaves_driven_output dumpdata p b a :
  N.of_nat (List.length dumpdata) = 262144 ->
  p < 8 -> b < 18 -> b <> p + 10 -> a < 2 ^ 18 ->
  driven dumpdata p a ->
  driven dumpdata p (N.lxor a (N.shiftl 1 b)) ->
  N.testbit (nth (N.to_nat p)
                 (depends_map (discover_dependencies dumpdata)) 0) b = false ->
  N.testbit (dump_at dumpdata a) p
  = N.testbit (dump_at dumpdata (N.lxor a (N.shiftl 1 b))) p.
Proof.
  intros _ Hp Hb Hq Ha H0 H1 Hunset.
  destruct (bool_dec (N.testbit (dump_at dumpdata a) p)
              (N.testbit (dump_at dumpdata (N.lxor a (N.shiftl 1 b))) p))
    as [E|E]; [exact E|exfalso].
  assert (Hdep: depends (discover_dependencies dumpdata) p b).
  { apply depends_map_spec; auto. split; auto. split; auto.
    destruct (N.testbit a b) eqn:Eb.
    - exists (N.lxor a (N.shiftl 1 b)). rewrite lxor_bit_twice.
      split; [now apply lxor_bit_below|].
      split; [now rewrite lxor_bit_flips, Eb|]. auto.
    - exists a. auto. }
  pose proof (proj1 (depends_testbit _ _ _) Hdep) as Ht.
  rewrite Hunset in Ht. discriminate Ht.
Qed.

(** A dump that is the same byte throughout records no dependency. *)
Lemma constant_dump_records c dumpdata :
  (forall a, dump_at dumpdata a = c) ->
  forall p b, p < 8 ->
    N.testbit (nth (N.to_nat p)
                   (depends_map (discover_dependencies dumpdata)) 0) b = false.
Proof.
  intros Hc p b Hp.
  destruct (N.testbit _ b) eqn:E; [exfalso|reflexivity].
  pose proof (proj2 (depends_testbit _ _ _) E) as Hd'.
  apply (depends_map_spec dumpdata p b Hp) in Hd'.
  destruct Hd' as (_ & _ & a & _ & _ & Hd & _). apply Hd. now rewrite !Hc.
Qed.

Lemma dump_at_repeat n a : dump_at (repeat Byte.x00 n) a = 0.
Proof. unfold dump_at. now rewrite nth_repeat. Qed.

Lemma unset_bit_leaves_driven_output_witness :
  N.testbit (dump_at (repeat Byte.x00 (N.to_nat 262144)) 5) 0
  = N.testbit (dump_at (repeat Byte.x00 (N.to_nat 262144))
                       (N.lxor 5 (N.shiftl 1 3))) 0.
Proof.
  apply (unset_bit_leaves_driven_output
           (repeat Byte.x00 (N.to_nat 262144)) 0 3 5).
  - rewrite repeat_length. apply N2Nat.id.
  - reflexivity.
  - reflexivity.
  - discriminate.
  - reflexivity.
  - unfold driven. now rewrite !dump_at_repeat.
  - unfold driven. now rewrite !dump_at_repeat.
  - apply (constant_dump_records 0); [apply dump_at_repeat|reflexivity].
Defined.

#[local] Set Implicit Arguments.

End HighZ.

(** ** simplegalasm.py: the parser always answers *)

Module GalAsmFacts.
Import PyStr GalAsm.
Open Scope string_scope.
Open Scope nat_scope.

Lemma bind_Ok A B (r : result A) (k : A -> result B) b :
  bind r k = Ok b <-> exists a, r = Ok a /\ k a = Ok b.
Proof.
  destruct r; simpl; split; intros H.
  - eauto.
  - destruct H as (a0 & H1 & H2). injection H1 as <-. exact H2.
  - discriminate.
  - destruct H as (a0 & H1 & _). discriminate.
  - discriminate.
  - destruct H as (a0 & H1 & _). discriminate.
Qed.

Lemma bind_Raise A B (r : result A) (k : A -> result B) e :
  bind r k = Raise e <->
  r = Raise e \/ exists a, r = Ok a /\ k a = Raise e.
Proof.
  destruct r; simpl; split; intros H.
  - right. eauto.
  - destruct H as [H|(a0 & H1 & H2)]; [discriminate|].
    injection H1 as <-. exact H2.
  - left. injection H as <-. reflexivity.
  - destruct H as [H|(a0 & H1 & _)]; [|discriminate].
    injection H as <-. reflexivity.
  - discriminate.
  - destruct H as [H|(a0 & H1 & _)]; discriminate.
Qed.

Lemma tok_Ok tokens i t :
  tok tokens i = Ok t -> nth_error tokens i = Some t /\ i < List.length tokens.
Proof.
  unfold tok. destruct (nth_error tokens i) eqn:E; [|discriminate].
  intros [= <-]. split; auto. apply nth_error_Some. congruence.
Qed.

(** What a call answers when it does not run out of fuel, and where it
    stops when it returns. *)
Definition answers A (lo hi : nat) (r : result (nat * A)) : Prop :=
  match r with
  | Ok (i, _) => lo <= i /\ i < hi
  | Raise _ => True
  | OutOfFuel => False
  end.

Lemma answers_error A lo hi e : answers lo hi (@error (nat * A) e).
Proof. exact I. Qed.

Lemma answers_mono A lo lo' hi (r : result (nat * A)) :
  lo' <= lo -> answers lo hi r -> answers lo' hi r.
Proof. unfold answers. destruct r as [[i ?]| |]; auto. lia. Qed.

Lemma nth_error_Some_lt A (l : list A) i x :
  nth_error l i = Some x -> i < List.length l.
Proof. intros H. apply nth_error_Some. congruence. Qed.

Lemma get_products_answers fuel tokens :
  forall i s c,
    i <= List.length tokens -> List.length tokens < 2 * fuel + i ->
    answers i (List.length tokens) (get_products fuel tokens i s c).
Proof.
  induction fuel as [|fuel IH]; intros i s c Hi Hf; [lia|].
  cbn [get_products]. unfold tok at 1.
  destruct (nth_error tokens i) as [t|] eqn:E; [|exact I].
  pose proof (nth_error_Some_lt _ _ E) as Hlt. cbn [bind].
  assert (Hnext: forall j idneg, i <= j -> j < i + 2 ->
            answers i (List.length tokens)
              (t0 <- tok tokens j ;;
               match t0 with
               | TokenIdentifier _ name =>
                   let i0 := j + 1 in
                   let cur_product :=
                     set_add string_dec
                       (if idneg : bool then "!" ++ name else name) c in
                   t1 <- tok tokens i0 ;;
                   match t1 with
                   | TokenAnd _ =>
                       get_products fuel tokens (i0 + 1) s cur_product
                   | TokenOr _ =>
                       get_products fuel tokens (i0 + 1)
                                    (s ++ [cur_product])%list []
                   | TokenEndCmd _ => Ok (i0, (s ++ [cur_product])%list)
                   | _ => error (Expected "And/Or/EndCmd" (linenumber t1)
                                          (toktype t1))
                   end
               | _ => error (Expected "TokenIdentifier" (linenumber t0)
                                      (toktype t0))
               end)).
  { intros j idneg Hj1 Hj2. unfold tok at 1.
    destruct (nth_error tokens j) as [t0|] eqn:E0; [|exact I].
    pose proof (nth_error_Some_lt _ _ E0) as Hlt0. cbn [bind].
    destruct t0; try exact I. cbv zeta. unfold tok at 1.
    destruct (nth_error tokens (j + 1)) as [t1|] eqn:E1; [|exact I].
    pose proof (nth_error_Some_lt _ _ E1) as Hlt1. cbn [bind].
    destruct t1; try exact I.
    - apply (@answers_mono _ (j + 1 + 1)); [lia|]. apply IH; lia.
    - apply (@answers_mono _ (j + 1 + 1)); [lia|]. apply IH; lia.
    - simpl. lia. }
  destruct t; try exact I; cbn [bind].
  - apply (Hnext i false); lia.
  - apply (Hnext (i + 1) true); lia.
Qed.

Lemma get_equation_answers tokens i :
  answers i (List.length tokens) (_get_equation tokens i).
Proof.
  unfold _get_equation. unfold tok at 1.
  destruct (nth_error tokens i) as [t|] eqn:E; [|exact I].
  pose proof (nth_error_Some_lt _ _ E) as Hlt. cbn [bind].
  assert (Hp: answers i (List.length tokens)
                (' (i0, products) <-
                   get_products (List.length tokens) tokens i [] [] ;;
                 Ok (i0, SopList products))).
  { pose proof (@get_products_answers (List.length tokens) tokens i [] []) as H.
    unfold answers in *.
    destruct (get_products _ tokens i [] []) as [[i' ?]| |]; simpl; auto;
      apply H; lia. }
  destruct t; try exact Hp.
  assert (Hn: forall sop : SumOfProducts,
             answers i (List.length tokens)
               (t0 <- tok tokens (i + 1) ;;
                if is_endcmd t0 then Ok (i + 1, sop)
                else error (Expected "EndCmd" (linenumber t0) (toktype t0)))).
  { intros sop. unfold tok.
    destruct (nth_error tokens (i + 1)) as [t0|] eqn:E0; [|exact I].
    pose proof (nth_error_Some_lt _ _ E0) as Hlt0. cbn [bind].
    destruct (is_endcmd t0); [|exact I]. simpl. lia. }
  destruct (N.eqb number 0); [apply Hn|].
  destruct (N.eqb number 1); [apply Hn|exact I].
Qed.

(** A statement takes at least one token and stops no further than the
    end of the tokens. *)
Definition advances (lo hi : nat) (r : result (nat * Assembler)) : Prop :=
  match r with
  | Ok (i, _) => lo < i /\ i <= hi
  | Raise _ => True
  | OutOfFuel => False
  end.

Lemma declare_pin_cases self number line1 name line3 :
  (exists self', declare_pin self number line1 name line3 = Ok self') \/
  (exists e, declare_pin self number line1 name line3 = Raise e).
Proof.
  unfold declare_pin.
  destruct (dmem _ (_pinname_by_pinnumber self)); [right; eexists; reflexivity|].
  destruct (dmem _ (_pinnumber_by_pinname self)); [right|left];
    eexists; reflexivity.
Qed.

Lemma statement_advances tokens i self :
  advances i (List.length tokens) (statement tokens i self).
Proof.
  unfold statement. unfold tok at 1.
  destruct (nth_error tokens i) as [t|] eqn:E; [|exact I].
  pose proof (nth_error_Some_lt _ _ E) as Hlt. cbn [bind].
  assert (Heq: forall j (f : SumOfProducts -> Assembler), i <= j ->
            advances i (List.length tokens)
              (' (i0, sum_of_products) <- _get_equation tokens j ;;
               Ok (i0 + 1, f sum_of_products))).
  { intros j f Hj. pose proof (get_equation_answers tokens j) as H.
    unfold answers, advances in *.
    destruct (_get_equation tokens j) as [[i' ?]| |]; simpl; auto. lia. }
  assert (Hbody: forall j eqneg, i <= j ->
            advances i (List.length tokens)
              (t0 <- tok tokens j ;;
               match t0 with
               | TokenKeywordPin line =>
                   t1 <- tok tokens (j + 1) ;;
                   match t1 with
                   | TokenNumber line1 number =>
                       t2 <- tok tokens (j + 2) ;;
                       if negb (is_equals t2)
                       then error (NumberNotFollowedByEquals line1)
                       else
                         t3 <- tok tokens (j + 3) ;;
                         match t3 with
                         | TokenIdentifier line3 name =>
                             t4 <- tok tokens (j + 4) ;;
                             if negb (is_endcmd t4)
                             then error (UnexpectedTokenAfterIdentifier
                                           (linenumber t4))
                             else
                               self0 <- declare_pin self number line1 name
                                                    line3 ;;
                               Ok (j + 4 + 1, self0)
                         | _ => error (EqualsNotFollowedByIdentifier
                                         (linenumber t3))
                         end
                   | _ => error (PinNotFollowedByNumber line)
                   end
               | TokenIdentifier line name =>
                   t1 <- tok tokens (j + 1) ;;
                   if is_equals t1 then
                     ' (i0, sum_of_products) <- _get_equation tokens (j + 2) ;;
                     Ok (i0 + 1,
                         set_equation self name
                           {| negated := eqneg;
                              sum_of_products := sum_of_products |})
                   else if is_dot t1 then
                     t2 <- tok tokens (j + 2) ;;
                     match t2 with
                     | TokenIdentifier _ sub =>
                         t3 <- tok tokens (j + 3) ;;
                         if is_equals t3 then
                           if negb (String.eqb sub "OE" || String.eqb sub "oe")
                           then error (InvalidSubIdentifier sub line)
                           else
                             ' (i0, sum_of_products) <-
                               _get_equation tokens (j + 4) ;;
                             Ok (i0 + 1,
                                 set_oe_equation self name
                                   {| negated := eqneg;
                                      sum_of_products := sum_of_products |})
                         else error (InvalidSyntax line)
                     | _ => error (InvalidSyntax line)
                     end
                   else error (InvalidSyntax line)
               | TokenEndCmd _ => Ok (j + 1, self)
               | _ => error (InvalidSyntax (linenumber t0))
               end)).
  { intros j eqneg Hj. unfold tok at 1.
    destruct (nth_error tokens j) as [t0|] eqn:E0; [|exact I].
    pose proof (nth_error_Some_lt _ _ E0) as Hlt0. cbn [bind].
    destruct t0; try exact I.
    - unfold tok at 1.
      destruct (nth_error tokens (j + 1)) as [t1|] eqn:E1; [|exact I].
      cbn [bind]. destruct t1; try exact I. unfold tok at 1.
      destruct (nth_error tokens (j + 2)) as [t2|] eqn:E2; [|exact I].
      cbn [bind]. destruct (negb (is_equals t2)); [exact I|]. unfold tok at 1.
      destruct (nth_error tokens (j + 3)) as [t3|] eqn:E3; [|exact I].
      cbn [bind]. destruct t3; try exact I. unfold tok at 1.
      destruct (nth_error tokens (j + 4)) as [t4|] eqn:E4; [|exact I].
      pose proof (nth_error_Some_lt _ _ E4) as Hlt4.
      cbn [bind]. destruct (negb (is_endcmd t4)); [exact I|].
      match goal with
      | |- context [declare_pin ?a ?b ?c ?d ?e] =>
          destruct (declare_pin_cases a b c d e) as [(s' & ->)|(e' & ->)]
      end; simpl; auto. lia.
    - unfold tok at 1.
      destruct (nth_error tokens (j + 1)) as [t1|] eqn:E1; [|exact I].
      cbn [bind]. destruct (is_equals t1).
      { apply (Heq (j + 2) (fun sop => set_equation self name
                 {| negated := eqneg; sum_of_products := sop |})). lia. }
      destruct (is_dot t1); [|exact I]. unfold tok at 1.
      destruct (nth_error tokens (j + 2)) as [t2|] eqn:E2; [|exact I].
      cbn [bind]. destruct t2; try exact I. unfold tok at 1.
      destruct (nth_error tokens (j + 3)) as [t3|] eqn:E3; [|exact I].
      cbn [bind]. destruct (is_equals t3); [|exact I].
      destruct (negb _); [exact I|].
      apply (Heq (j + 4) (fun sop => set_oe_equation self name
               {| negated := eqneg; sum_of_products := sop |})). lia.
    - simpl. lia. }
  destruct t; cbn [bind]; try (apply (Hbody i false); lia).
  unfold tok at 1.
  destruct (nth_error tokens (i + 1)) as [t1|] eqn:E1; [|exact I].
  cbn [bind]. destruct (is_identifier t1); cbn [bind].
  - apply (Hbody (i + 1) true). lia.
  - apply (Hbody i false). lia.
Qed.

(** Fuel for as many rounds as there are tokens left is enough, and more
    fuel changes nothing. *)
Lemma statements_fuel fuel tokens :
  forall fuel' i self,
    List.length tokens <= fuel + i -> List.length tokens <= fuel' + i ->
    statements fuel tokens i self = statements fuel' tokens i self /\
    statements fuel tokens i self <> OutOfFuel.
Proof.
  induction fuel as [|fuel IH]; intros fuel' i self H1 H2.
  - assert (Hle: (List.length tokens <=? i) = true) by (apply Nat.leb_le; lia).
    destruct fuel'; simpl; rewrite Hle; split; auto; discriminate.
  - simpl. destruct (List.length tokens <=? i) eqn:Hle.
    + destruct fuel'; simpl; rewrite Hle; split; auto; discriminate.
    + apply Nat.leb_gt in Hle. destruct fuel' as [|fuel']; [lia|]. simpl.
      assert (Hg: (List.length tokens <=? i) = false) by (apply Nat.leb_gt; lia).
      rewrite Hg. pose proof (statement_advances tokens i self) as Ha.
      unfold advances in Ha.
      destruct (statement tokens i self) as [[i' self']| |]; simpl;
        [|split; [auto|discriminate]|destruct Ha].
      apply IH; lia.
Qed.

Lemma parse_total tokens : parse tokens <> OutOfFuel.
Proof.
  unfold parse.
  apply (@statements_fuel (List.length tokens) tokens (List.length tokens));
    lia.
Qed.

Lemma foldM_no_fuel A B (f : A -> B -> result A) l :
  (forall a b, f a b <> OutOfFuel) -> forall a, foldM f l a <> OutOfFuel.
Proof.
  intros Hf. induction l as [|b l IH]; intros a; simpl; [discriminate|].
  specialize (Hf a b). destruct (f a b); simpl; auto; try discriminate.
Qed.

End GalAsmFacts.

(** ** simplegalasm.py: the errors of the parser and PIN statements *)

Module GalAsmPins.
Import PyStr GalAsm GalAsmFacts.
Open Scope string_scope.
Open Scope nat_scope.

(** *** Dictionaries *)

Lemma key_eqb_eq a b : key_eqb a b = true <-> a = b.
Proof.
  destruct a as [n|s], b as [m|t]; simpl; split; try discriminate.
  - intros H. apply N.eqb_eq in H. congruence.
  - intros [= ->]. apply N.eqb_refl.
  - intros H. apply String.eqb_eq in H. congruence.
  - intros [= ->]. apply String.eqb_refl.
Qed.

Lemma key_eqb_refl a : key_eqb a a = true.
Proof. now apply key_eqb_eq. Qed.

Lemma key_eqb_neq a b : a <> b -> key_eqb a b = false.
Proof.
  intros H. destruct (key_eqb a b) eqn:E; auto. apply key_eqb_eq in E.
  contradiction.
Qed.

Lemma dget_dset_same V k (v : V) d : dget k (dset k v d) = Some v.
Proof.
  induction d as [|[k' v'] d IH]; simpl.
  - now rewrite key_eqb_refl.
  - destruct (key_eqb k' k) eqn:E; simpl; rewrite E; auto.
Qed.

Lemma dget_dset_other V k k' (v : V) d :
  k <> k' -> dget k (dset k' v d) = dget k d.
Proof.
  intros Hne. induction d as [|[k0 v0] d IH]; simpl.
  - rewrite key_eqb_neq; auto.
  - destruct (key_eqb k0 k') eqn:E; simpl.
    + apply key_eqb_eq in E. subst k0. rewrite key_eqb_neq; auto.
    + now rewrite IH.
Qed.

(** *** The errors of [_get_equation] *)

Definition syntax_error (e : Error) : Prop :=
  match e with
  | InvalidNumber _ _ | Expected _ _ _ => True
  | _ => False
  end.

Definition raises (P : Error -> Prop) A (r : result A) : Prop :=
  match r with
  | Raise (RuntimeError e) => P e
  | _ => True
  end.

Lemma raises_bind (P : Error -> Prop) A B (r : result A) (k : A -> result B) :
  raises P r -> (forall a, r = Ok a -> raises P (k a)) -> raises P (bind r k).
Proof. destruct r; simpl; auto. Qed.

Lemma raises_tok P tokens i : raises P (tok tokens i).
Proof. unfold tok. destruct (nth_error tokens i); exact I. Qed.

Lemma raises_getitem P V k (d : dict V) : raises P (getitem k d).
Proof. unfold getitem. destruct (dget k d); exact I. Qed.

Lemma raises_impl (P Q : Error -> Prop) A (r : result A) :
  (forall e, P e -> Q e) -> raises P r -> raises Q r.
Proof. intros H. destruct r as [|[]|]; simpl; auto. Qed.

Lemma get_products_errors fuel tokens :
  forall i s c, raises syntax_error (get_products fuel tokens i s c).
Proof.
  induction fuel as [|fuel IH]; intros i s c; [exact I|].
  cbn [get_products].
  apply raises_bind; [apply raises_tok|]. intros t _.
  apply raises_bind; [destruct t; exact I|]. intros [idneg j] _.
  apply raises_bind; [apply raises_tok|]. intros t0 _.
  destruct t0; try exact I. cbv zeta.
  apply raises_bind; [apply raises_tok|]. intros t1 _.
  destruct t1; try exact I; apply IH.
Qed.

Lemma get_equation_errors tokens i :
  raises syntax_error (_get_equation tokens i).
Proof.
  unfold _get_equation.
  apply raises_bind; [apply raises_tok|]. intros t _.
  assert (Hp: raises syntax_error
                (' (i0, products) <-
                   get_products (List.length tokens) tokens i [] [] ;;
                 Ok (i0, SopList products))).
  { apply raises_bind; [apply get_products_errors|]. intros [? ?] _. exact I. }
  destruct t; try exact Hp.
  apply raises_bind.
  - destruct (N.eqb number 0); [exact I|]. destruct (N.eqb number 1); exact I.
  - intros sop _. cbv zeta. apply raises_bind; [apply raises_tok|].
    intros t0 _. destruct (is_endcmd t0); exact I.
Qed.

(** *** The duplicate pin name error is never raised *)

(** The names dictionary has no integer key. *)
Definition names_by_str (self : Assembler) : Prop :=
  forall n, dget (KInt n) (_pinnumber_by_pinname self) = None.

Definition not_duplicate_name (e : Error) : Prop :=
  match e with
  | DuplicatePinName _ _ => False
  | _ => True
  end.

Lemma syntax_error_not_duplicate e : syntax_error e -> not_duplicate_name e.
Proof. destruct e; simpl; auto. Qed.

Lemma declare_pin_errors self number line1 name line3 :
  names_by_str self ->
  raises not_duplicate_name (declare_pin self number line1 name line3).
Proof.
  intros Hs. unfold declare_pin.
  destruct (dmem _ (_pinname_by_pinnumber self)); [exact I|].
  unfold dmem. rewrite Hs. exact I.
Qed.

Lemma declare_pin_names self number line1 name line3 self' :
  names_by_str self ->
  declare_pin self number line1 name line3 = Ok self' ->
  names_by_str self'.
Proof.
  intros Hs. unfold declare_pin.
  destruct (dmem _ (_pinname_by_pinnumber self)); [discriminate|].
  destruct (dmem _ (_pinnumber_by_pinname self)); [discriminate|].
  intros [= <-] n. simpl. rewrite dget_dset_other by discriminate. apply Hs.
Qed.

(** What a statement may raise, and what it keeps. *)
Definition keeps (self : Assembler) (r : result (nat * Assembler)) : Prop :=
  raises not_duplicate_name r /\
  forall i self', r = Ok (i, self') -> names_by_str self'.

Lemma keeps_stop self (e : exn) :
  match e with
  | RuntimeError e' => not_duplicate_name e'
  | _ => True
  end -> keeps self (Raise e).
Proof. intros He. split; [exact He|]. intros i self' H. discriminate H. Qed.

Ltac read_token :=
  unfold tok at 1;
  match goal with
  | |- context [nth_error ?l ?j] => destruct (nth_error l j)
  end; cbn [bind]; [|now apply keeps_stop].

Lemma statement_keeps tokens i self :
  names_by_str self -> keeps self (statement tokens i self).
Proof.
  intros Hs. unfold statement. read_token.
  assert (Heq: forall j (f : SumOfProducts -> Assembler),
            (forall sop, names_by_str (f sop)) ->
            keeps self
              (' (i0, sum_of_products) <- _get_equation tokens j ;;
               Ok (i0 + 1, f sum_of_products))).
  { intros j f Hf. pose proof (get_equation_errors tokens j) as H.
    destruct (_get_equation tokens j) as [[i' sop]|e|]; simpl in *.
    - split; [exact I|]. intros i0 self' [= _ <-]. apply Hf.
    - apply keeps_stop. destruct e; auto using syntax_error_not_duplicate.
    - split; [exact I|]. intros i0 self' H0. discriminate H0. }
  assert (Hbody: forall j eqneg,
            keeps self
              (t0 <- tok tokens j ;;
               match t0 with
               | TokenKeywordPin line =>
                   t1 <- tok tokens (j + 1) ;;
                   match t1 with
                   | TokenNumber line1 number =>
                       t2 <- tok tokens (j + 2) ;;
                       if negb (is_equals t2)
                       then error (NumberNotFollowedByEquals line1)
                       else
                         t3 <- tok tokens (j + 3) ;;
                         match t3 with
                         | TokenIdentifier line3 name =>
                             t4 <- tok tokens (j + 4) ;;
                             if negb (is_endcmd t4)
                             then error (UnexpectedTokenAfterIdentifier
                                           (linenumber t4))
                             else
                               self0 <- declare_pin self number line1 name
                                                    line3 ;;
                               Ok (j + 4 + 1, self0)
                         | _ => error (EqualsNotFollowedByIdentifier
                                         (linenumber t3))
                         end
                   | _ => error (PinNotFollowedByNumber line)
                   end
               | TokenIdentifier line name =>
                   t1 <- tok tokens (j + 1) ;;
                   if is_equals t1 then
                     ' (i0, sum_of_products) <- _get_equation tokens (j + 2) ;;
                     Ok (i0 + 1,
                         set_equation self name
                           {| negated := eqneg;
                              sum_of_products := sum_of_products |})
                   else if is_dot t1 then
                     t2 <- tok tokens (j + 2) ;;
                     match t2 with
                     | TokenIdentifier _ sub =>
                         t3 <- tok tokens (j + 3) ;;
                         if is_equals t3 then
                           if negb (String.eqb sub "OE" || String.eqb sub "oe")
                           then error (InvalidSubIdentifier sub line)
                           else
                             ' (i0, sum_of_products) <-
                               _get_equation tokens (j + 4) ;;
                             Ok (i0 + 1,
                                 set_oe_equation self name
                                   {| negated := eqneg;
                                      sum_of_products := sum_of_products |})
                         else error (InvalidSyntax line)
                     | _ => error (InvalidSyntax line)
                     end
                   else error (InvalidSyntax line)
               | TokenEndCmd _ => Ok (j + 1, self)
               | _ => error (InvalidSyntax (linenumber t0))
               end)).
  { intros j eqneg. read_token.
    destruct t0; try (now apply keeps_stop).
    - read_token. destruct t0; try (now apply keeps_stop).
      read_token. destruct (negb (is_equals t0)); [now apply keeps_stop|].
      read_token. destruct t1; try (now apply keeps_stop).
      read_token. destruct (negb (is_endcmd t1)); [now apply keeps_stop|].
      match goal with
      | |- context [declare_pin ?a ?b ?c ?d ?e] =>
          pose proof (@declare_pin_errors a b c d e Hs) as He;
          pose proof (@declare_pin_names a b c d e) as Hn;
          destruct (declare_pin a b c d e) as [s'|e'|]
      end; simpl in *.
      + split; [exact I|]. intros i0 self' [= _ <-]. now apply Hn.
      + now apply keeps_stop.
      + split; [exact I|]. intros i0 self' H0. discriminate H0.
    - read_token. destruct (is_equals t0).
      { apply (Heq (j + 2) (fun sop => set_equation self name
                 {| negated := eqneg; sum_of_products := sop |})).
        intros sop n. apply Hs. }
      destruct (is_dot t0); [|now apply keeps_stop].
      read_token. destruct t1; try (now apply keeps_stop).
      read_token. destruct (is_equals t1); [|now apply keeps_stop].
      destruct (negb _); [now apply keeps_stop|].
      apply (Heq (j + 4) (fun sop => set_oe_equation self name
               {| negated := eqneg; sum_of_products := sop |})).
      intros sop n. apply Hs.
    - split; [exact I|]. intros i0 self' [= _ <-]. exact Hs. }
  destruct t; cbn [bind]; try apply (Hbody i false).
  read_token. destruct (is_identifier t); cbn [bind]; apply Hbody.
Qed.

Lemma statements_keep fuel tokens :
  forall i self,
    names_by_str self ->
    raises not_duplicate_name (statements fuel tokens i self) /\
    forall self', statements fuel tokens i self = Ok self' ->
                  names_by_str self'.
Proof.
  induction fuel as [|fuel IH]; intros i self Hs; simpl.
  - destruct (List.length tokens <=? i); split; try exact I; try discriminate.
    now intros self' [= <-].
  - destruct (List.length tokens <=? i).
    { split; [exact I|]. now intros self' [= <-]. }
    destruct (statement_keeps tokens i Hs) as [Hr Hk].
    destruct (statement tokens i self) as [[i' s']| |]; simpl in *.
    + apply IH. now apply (Hk i').
    + split; [exact Hr|discriminate].
    + split; [exact I|discriminate].
Qed.

Lemma parse_keeps tokens :
  raises not_duplicate_name (parse tokens) /\
  forall self, parse tokens = Ok self -> names_by_str self.
Proof. apply statements_keep. intros n. reflexivity. Qed.

(** *** The errors of the second phase *)

Definition equation_error (outputpinname : string) (e : Error) : Prop :=
  e = NonNegatedEquation outputpinname \/
  e = TooManyProducts outputpinname \/
  (exists product, e = UndefinedPins outputpinname product) \/
  e = NegatedOEEquation outputpinname \/
  e = TooManyOEProducts outputpinname.

Lemma raises_foldM P A B (f : A -> B -> result A) l :
  (forall a b, raises P (f a b)) -> forall a, raises P (foldM f l a).
Proof.
  intros Hf. induction l as [|b l IH]; intros a; simpl; [exact I|].
  apply raises_bind; auto.
Qed.

Lemma place_input_errors P self base st input :
  raises P (place_input self base st input).
Proof.
  unfold place_input. destruct st as [product fusemap].
  destruct input as [inputidx inputpinnum].
  apply raises_bind; [apply raises_getitem|]. intros nm _.
  destruct (set_mem _ nm product);
    match goal with
    | |- context [set_mem ?d ?x ?s] => destruct (set_mem d x s)
    end; exact I.
Qed.

Lemma place_product_errors self nm base product fusemap :
  raises (equation_error nm) (place_product self nm base product fusemap).
Proof.
  unfold place_product. apply raises_bind.
  - apply raises_foldM. intros. apply place_input_errors.
  - intros [p f] _. destruct (negb _); simpl; auto.
    right. right. left. eauto.
Qed.

Lemma place_products_errors self nm products :
  forall productidx fusemap,
    raises (equation_error nm)
           (place_products self nm productidx products fusemap).
Proof.
  induction products as [|p rest IH]; intros productidx fusemap; simpl;
    [exact I|].
  destruct (6 <? productidx); [simpl; unfold equation_error; auto|].
  apply raises_bind; [apply place_product_errors|]. intros f _. apply IH.
Qed.

Lemma place_equation_errors self nm fusemaps :
  raises (equation_error nm) (place_equation self nm fusemaps).
Proof.
  unfold place_equation. destruct fusemaps as [f1 f2].
  destruct (dget _ (_equations self)) as [eq|]; [|exact I].
  destruct (negb (negated eq)); [simpl; unfold equation_error; auto|].
  destruct (sum_of_products eq); [exact I|].
  apply raises_bind; [apply place_products_errors|]. intros; exact I.
Qed.

Lemma place_oe_equation_errors self nm fusemap :
  raises (equation_error nm) (place_oe_equation self nm fusemap).
Proof.
  unfold place_oe_equation.
  destruct (dget _ (_oe_equations self)) as [eq|]; [|exact I].
  destruct (negated eq); [simpl; unfold equation_error; auto|].
  destruct (sum_of_products eq) as [v|products]; [exact I|].
  destruct (1 <? List.length products);
    [simpl; unfold equation_error; auto 6|].
  destruct products; [exact I|]. apply place_product_errors.
Qed.

Lemma equation_error_not_duplicate nm e :
  equation_error nm e -> not_duplicate_name e.
Proof.
  intros [->|[->|[(p & ->)|[->| ->]]]]; exact I.
Qed.

Lemma assemble_pin_errors self outputpinnum :
  raises not_duplicate_name (assemble_pin self outputpinnum).
Proof.
  unfold assemble_pin.
  apply raises_bind; [apply raises_getitem|]. intros nm _. cbv zeta.
  apply raises_bind.
  { eapply raises_impl; [apply (@equation_error_not_duplicate nm)|].
    apply place_equation_errors. }
  intros [f1 f2] _. apply raises_bind; [|intros; exact I].
  eapply raises_impl; [apply (@equation_error_not_duplicate nm)|].
  apply place_oe_equation_errors.
Qed.

Lemma assemble_errors tokens : raises not_duplicate_name (assemble tokens).
Proof.
  unfold assemble. apply raises_bind; [apply parse_keeps|].
  intros self _. apply raises_foldM. intros. apply assemble_pin_errors.
Qed.

End GalAsmPins.

(** ** simplegalasm.py: PIN statements with repeated numbers and names *)

Module PinStatements.
Import PyStr GalAsm GalAsmFacts GalAsmPins.
Open Scope string_scope.
Open Scope nat_scope.
Open Scope list_scope.

(** A PIN statement as the lexer hands it over: its line, the pin number
    and the pin name. *)
Definition declaration := (N * N * string)%type.

Definition line_of (d : declaration) : N := fst (fst d).
Definition number_of (d : declaration) : N := snd (fst d).
Definition name_of (d : declaration) : string := snd d.

Definition pin_statement (d : declaration) : list Token :=
  [TokenKeywordPin (line_of d); TokenNumber (line_of d) (number_of d);
   TokenEquals (line_of d); TokenIdentifier (line_of d) (name_of d);
   TokenEndCmd (line_of d)].

Definition declarations (decls : list declaration) : list Token :=
  concat (map pin_statement decls).

Definition declare_all (decls : list declaration) (self : Assembler)
  : result Assembler :=
  foldM (fun self d =>
           declare_pin self (number_of d) (line_of d) (name_of d) (line_of d))
        decls self.

(** The number a name stands for after the declarations: the one of the
    last declaration with that name. *)
Definition resolve (name : string) (decls : list declaration)
    (before : option N) : option N :=
  fold_left (fun acc d =>
               if String.eqb (name_of d) name then Some (number_of d) else acc)
            decls before.

Lemma tok_app pre l k : tok (pre ++ l) (List.length pre + k) = tok l k.
Proof.
  unfold tok. rewrite nth_error_app2 by lia.
  now replace (List.length pre + k - List.length pre) with k by lia.
Qed.

Lemma statement_pin_at tokens i self l0 l1 number l2 l3 name l4 :
  tok tokens i = Ok (TokenKeywordPin l0) ->
  tok tokens (i + 1) = Ok (TokenNumber l1 number) ->
  tok tokens (i + 2) = Ok (TokenEquals l2) ->
  tok tokens (i + 3) = Ok (TokenIdentifier l3 name) ->
  tok tokens (i + 4) = Ok (TokenEndCmd l4) ->
  statement tokens i self =
  bind (declare_pin self number l1 name l3)
       (fun self' => Ok (i + 4 + 1, self')).
Proof.
  intros H0 H1 H2 H3 H4. unfold statement. rewrite H0. cbn [bind].
  rewrite H0. cbn [bind]. rewrite H1. cbn [bind]. rewrite H2. cbn [bind].
  cbn [is_equals negb]. rewrite H3. cbn [bind]. rewrite H4. reflexivity.
Qed.

Lemma statement_pin pre d post self :
  statement (pre ++ pin_statement d ++ post) (List.length pre) self =
  bind (declare_pin self (number_of d) (line_of d) (name_of d) (line_of d))
       (fun self' => Ok (List.length pre + 4 + 1, self')).
Proof.
  apply statement_pin_at with (l0 := line_of d) (l2 := line_of d)
                              (l4 := line_of d).
  - rewrite <- (Nat.add_0_r (List.length pre)). now rewrite tok_app.
  - now rewrite tok_app.
  - now rewrite tok_app.
  - now rewrite tok_app.
  - now rewrite tok_app.
Qed.

Lemma length_declarations decls :
  List.length (declarations decls) = 5 * List.length decls.
Proof.
  induction decls as [|d decls IH]; simpl; auto.
  unfold declarations in IH. rewrite IH. lia.
Qed.

(** The rounds of the loop over a block of PIN statements. *)
Lemma statements_declarations decls :
  forall pre rest self fuel,
    statements (List.length decls + fuel)
               (pre ++ declarations decls ++ rest) (List.length pre) self =
    bind (declare_all decls self)
         (fun self' =>
            statements fuel (pre ++ declarations decls ++ rest)
                       (List.length pre + 5 * List.length decls) self').
Proof.
  induction decls as [|d decls IH]; intros pre rest self fuel.
  - simpl. now rewrite Nat.add_0_r.
  - change (declarations (d :: decls))
      with (pin_statement d ++ declarations decls).
    rewrite <- (app_assoc (pin_statement d)).
    cbn [List.length Nat.add statements].
    assert (Hlt: (List.length (pre ++ pin_statement d ++
                               declarations decls ++ rest)
                  <=? List.length pre) = false).
    { apply Nat.leb_gt. rewrite !length_app. simpl. lia. }
    rewrite Hlt, statement_pin. unfold declare_all. cbn [foldM].
    destruct (declare_pin self (number_of d) (line_of d) (name_of d)
                          (line_of d)) as [self1| |]; cbn [bind]; auto.
    specialize (IH (pre ++ pin_statement d) rest self1 fuel).
    rewrite <- app_assoc in IH. rewrite length_app in IH.
    change (List.length (pin_statement d)) with 5 in IH.
    replace (List.length pre + 4 + 1) with (List.length pre + 5) by lia.
    rewrite IH. unfold declare_all.
    destruct (foldM _ decls self1); cbn [bind]; auto.
    f_equal. lia.
Qed.

(** What a block of PIN statements with different numbers leaves in the
    two dictionaries. *)
Lemma declare_all_spec decls :
  forall self,
    names_by_str self ->
    NoDup (map number_of decls) ->
    (forall d, In d decls ->
               dget (KInt (number_of d)) (_pinname_by_pinnumber self) = None) ->
    exists self',
      declare_all decls self = Ok self' /\
      names_by_str self' /\
      (forall d, In d decls ->
         dget (KInt (number_of d)) (_pinname_by_pinnumber self')
         = Some (name_of d)) /\
      (forall n, ~ In n (map number_of decls) ->
         dget (KInt n) (_pinname_by_pinnumber self')
         = dget (KInt n) (_pinname_by_pinnumber self)) /\
      (forall name,
         dget (KStr name) (_pinnumber_by_pinname self')
         = resolve name decls
             (dget (KStr name) (_pinnumber_by_pinname self))) /\
      _equations self' = _equations self /\
      _oe_equations self' = _oe_equations self.
Proof.
  induction decls as [|d decls IH]; intros self Hs Hnd Hfree.
  - exists self. simpl. repeat split; auto. intros d [].
  - inversion Hnd as [|? ? Hnot Hnd']; subst.
    set (self1 :=
           {| _pinname_by_pinnumber :=
                dset (KInt (number_of d)) (name_of d)
                     (_pinname_by_pinnumber self);
              _pinnumber_by_pinname :=
                dset (KStr (name_of d)) (number_of d)
                     (_pinnumber_by_pinname self);
              _equations := _equations self;
              _oe_equations := _oe_equations self;
              _pin_fusemap := _pin_fusemap self;
              _pin_oe_fusemap := _pin_oe_fusemap self |}).
    assert (E: declare_pin self (number_of d) (line_of d) (name_of d)
                           (line_of d) = Ok self1).
    { unfold declare_pin, dmem.
      rewrite (Hfree d (or_introl eq_refl)), Hs. reflexivity. }
    destruct (IH self1) as (self' & Hd & Hs' & Hnum & Hother & Hname & He & Ho);
      auto.
    + intros n. unfold self1. simpl.
      rewrite dget_dset_other by discriminate. apply Hs.
    + intros d' Hd'. unfold self1. simpl. rewrite dget_dset_other.
      * apply Hfree. now right.
      * intros [= E']. apply Hnot. rewrite <- E'. now apply in_map.
    + exists self'. split.
      { unfold declare_all. cbn [foldM]. rewrite E. exact Hd. }
      split; [exact Hs'|].
      split; [|split; [|split; [|split]]].
      * intros d' [<-|Hd']; [|now apply Hnum].
        rewrite Hother by exact Hnot. unfold self1. simpl.
        apply dget_dset_same.
      * intros n Hn. simpl in Hn. rewrite Hother by tauto.
        unfold self1. simpl. apply dget_dset_other. intros [= E'].
        apply Hn. left. congruence.
      * intros name. rewrite Hname. unfold self1, resolve. simpl.
        destruct (String.eqb_spec (name_of d) name) as [->|Hne].
        -- now rewrite dget_dset_same.
        -- rewrite dget_dset_other; auto. congruence.
      * rewrite He. reflexivity.
      * rewrite Ho. reflexivity.
Qed.

Lemma resolve_last name before d after acc :
  name_of d = name ->
  (forall d', In d' after -> name_of d' <> name) ->
  resolve name (before ++ d :: after) acc = Some (number_of d).
Proof.
  intros Hd Hafter. unfold resolve. rewrite fold_left_app. simpl.
  rewrite Hd, String.eqb_refl.
  generalize (number_of d). induction after as [|d' after IH]; intros n; simpl.
  - reflexivity.
  - destruct (String.eqb_spec (name_of d') name) as [E|_].
    + exfalso. apply (Hafter d'); auto. now left.
    + apply IH. intros; apply Hafter. now right.
Qed.

(** The parser on a stream that starts with PIN statements of different
    numbers: they are all accepted, and the loop goes on with the rest. *)
Lemma parse_declarations decls rest :
  NoDup (map number_of decls) ->
  exists self,
    declare_all decls new_assembler = Ok self /\
    parse (declarations decls ++ rest) =
    statements (List.length rest) (declarations decls ++ rest)
               (5 * List.length decls) self /\
    (forall d, In d decls ->
       dget (KInt (number_of d)) (_pinname_by_pinnumber self)
       = Some (name_of d)) /\
    (forall name,
       dget (KStr name) (_pinnumber_by_pinname self)
       = resolve name decls None).
Proof.
  intros Hnd.
  destruct (@declare_all_spec decls new_assembler)
    as (self & Hd & _ & Hnum & _ & Hname & _); auto.
  { intros n. reflexivity. }
  exists self. split; [exact Hd|]. split; [|split; [exact Hnum|exact Hname]].
  unfold parse. rewrite length_app, length_declarations.
  replace (5 * List.length decls + List.length rest)
    with (List.length decls + (4 * List.length decls + List.length rest))
    by lia.
  pose proof (@statements_declarations decls [] rest new_assembler
                (4 * List.length decls + List.length rest)) as H.
  cbn [app List.length Nat.add] in H. rewrite H, Hd. cbn [bind].
  apply statements_fuel; rewrite length_app, length_declarations; lia.
Qed.

Lemma parse_duplicate_number before d rest :
  NoDup (map number_of before) ->
  In (number_of d) (map number_of before) ->
  parse (declarations before ++ pin_statement d ++ rest) =
  Raise (RuntimeError (DuplicatePinNumber (number_of d) (line_of d))).
Proof.
  intros Hnd Hin.
  destruct (@parse_declarations before (pin_statement d ++ rest) Hnd)
    as (self & _ & Hp & Hnum & _).
  rewrite Hp. apply in_map_iff in Hin. destruct Hin as (d0 & E & Hd0).
  rewrite length_app. cbn [List.length pin_statement Nat.add statements].
  assert (Hlt: (List.length (declarations before ++ pin_statement d ++ rest)
                <=? 5 * List.length before) = false).
  { apply Nat.leb_gt. rewrite !length_app, length_declarations. simpl. lia. }
  rewrite Hlt. rewrite <- (length_declarations before), statement_pin.
  unfold declare_pin, dmem. rewrite <- E, (Hnum d0 Hd0). reflexivity.
Qed.

(** A PIN statement anywhere in the stream, in a state whose names
    dictionary has no integer key, as every state of the loop has. *)
Lemma pin_statement_anywhere pre d post self :
  names_by_str self ->
  (dmem (KInt (number_of d)) (_pinname_by_pinnumber self) = true /\
   statement (pre ++ pin_statement d ++ post) (List.length pre) self
   = Raise (RuntimeError (DuplicatePinNumber (number_of d) (line_of d)))) \/
  (dmem (KInt (number_of d)) (_pinname_by_pinnumber self) = false /\
   exists self',
     statement (pre ++ pin_statement d ++ post) (List.length pre) self
     = Ok (List.length pre + 5, self') /\
     names_by_str self' /\
     dget (KStr (name_of d)) (_pinnumber_by_pinname self')
     = Some (number_of d) /\
     dget (KInt (number_of d)) (_pinname_by_pinnumber self')
     = Some (name_of d)).
Proof.
  intros Hs. rewrite statement_pin.
  pose proof (@declare_pin_names self (number_of d) (line_of d) (name_of d)
                (line_of d)) as Hkeep.
  unfold declare_pin in *.
  destruct (dmem (KInt (number_of d)) (_pinname_by_pinnumber self)).
  - left. split; reflexivity.
  - right. split; [reflexivity|]. unfold dmem in *. rewrite Hs in *.
    cbn [bind]. eexists. split; [f_equal; f_equal; lia|].
    split; [now apply Hkeep|]. simpl. now rewrite !dget_dset_same.
Qed.

(** C10, as the code has it. The duplicate pin name error is never
    raised, whatever the tokens. A stream that starts with PIN statements
    of pairwise different numbers has them all accepted, whatever their
    names: parsing goes on with the rest of the stream, every declared
    number has its name, and a name given to several pins stands for the
    number of the last statement that declares it. A PIN statement whose
    number one of the statements before it declares raises the duplicate
    pin number error. Wherever a PIN statement stands in the stream, it
    is refused with that error when its number is declared already and
    accepted otherwise, whatever its name, and its name then stands for
    its number. *)
Theorem pin_numbers_checked_names_not :
  (forall tokens name line,
     assemble tokens <> Raise (RuntimeError (DuplicatePinName name line))) /\
  (forall decls rest,
     NoDup (map number_of decls) ->
     exists self,
       declare_all decls new_assembler = Ok self /\
       parse (declarations decls ++ rest) =
       statements (List.length rest) (declarations decls ++ rest)
                  (5 * List.length decls) self /\
       (forall d, In d decls ->
          dget (KInt (number_of d)) (_pinname_by_pinnumber self)
          = Some (name_of d)) /\
       (forall before d after,
          decls = (before ++ d :: after)%list ->
          (forall d', In d' after -> name_of d' <> name_of d) ->
          dget (KStr (name_of d)) (_pinnumber_by_pinname self)
          = Some (number_of d))) /\
  (forall before d rest,
     NoDup (map number_of before) ->
     In (number_of d) (map number_of before) ->
     parse (declarations before ++ pin_statement d ++ rest) =
     Raise (RuntimeError (DuplicatePinNumber (number_of d) (line_of d)))) /\
  (forall pre d post self,
     names_by_str self ->
     (dmem (KInt (number_of d)) (_pinname_by_pinnumber self) = true /\
      statement (pre ++ pin_statement d ++ post) (List.length pre) self
      = Raise (RuntimeError
                 (DuplicatePinNumber (number_of d) (line_of d)))) \/
     (dmem (KInt (number_of d)) (_pinname_by_pinnumber self) = false /\
      exists self',
        statement (pre ++ pin_statement d ++ post) (List.length pre) self
        = Ok (List.length pre + 5, self') /\
        names_by_str self' /\
        dget (KStr (name_of d)) (_pinnumber_by_pinname self')
        = Some (number_of d) /\
        dget (KInt (number_of d)) (_pinname_by_pinnumber self')
        = Some (name_of d))).
Proof.
  split; [|split; [|split; [|apply pin_statement_anywhere]]].
  - intros tokens name line H. pose proof (assemble_errors tokens) as Hr.
    rewrite H in Hr. exact Hr.
  - intros decls rest Hnd.
    destruct (@parse_declarations decls rest Hnd)
      as (self & Hd & Hp & Hnum & Hname).
    exists self. repeat split; auto.
    intros before d after -> Hafter. rewrite Hname.
    now apply resolve_last.
  - apply parse_duplicate_number.
Qed.

(** Two pins called [a]: the statements are accepted and [a] stands for
    pin 2. *)
Lemma pin_numbers_checked_names_not_witness :
  exists self,
    parse (declarations [(1, 1, "a"); (2, 2, "a")]%N) = Ok self /\
    dget (KStr "a") (_pinnumber_by_pinname self) = Some 2%N /\
    dget (KInt 1) (_pinname_by_pinnumber self) = Some "a" /\
    dget (KInt 2) (_pinname_by_pinnumber self) = Some "a".
Proof.
  destruct (proj1 (proj2 pin_numbers_checked_names_not)
              [(1, 1, "a"); (2, 2, "a")]%N [])
    as (self & Hd & Hp & Hnum & Hname).
  - repeat constructor; simpl; intuition discriminate.
  - exists self. split; [|split; [|split]].
    + rewrite app_nil_r in Hp. rewrite Hp. reflexivity.
    + apply (Hname [(1, 1, "a")]%N (2, 2, "a")%N []); [reflexivity|].
      intros d' [].
    + apply (Hnum (1, 1, "a")%N). now left.
    + apply (Hnum (2, 2, "a")%N). right. now left.
Defined.

(** C10 as it is stated fails: two PIN statements give the name [a] to
    the pins 1 and 2, and [assemble] does not complete, for want of the
    other pins. *)
Lemma two_pins_one_name_not_assembled :
  assemble (declarations [(1, 1, "a"); (2, 2, "a")]%N)
  = Raise (KeyError (KInt 19)).
Proof. vm_compute. reflexivity. Qed.

(** [list(range(1,10)) + list(range(11,20))]: the pins of the device. *)
Definition pin_numbers : list N := map N.of_nat (seq 1 9 ++ seq 11 9).

(** Every pin [k] declared as [pk], on line [k]. *)
Definition plain_pins : list declaration :=
  map (fun k => (k, k, ("p" ++ format_d k)%string)) pin_numbers.

(** The same with [name] for the pins 2 and 3. *)
Definition device_pins (name : string) : list declaration :=
  map (fun k => (k, k, if (k =? 2)%N || (k =? 3)%N then name
                       else ("p" ++ format_d k)%string))
      pin_numbers.

(** With every pin declared, the pins 2 and 3 sharing a name, [assemble]
    completes and the name stands for pin 3. *)
Example shared_name_assembles :
  exists self,
    assemble (declarations (device_pins "a")
              ++ [TokenNot 20; TokenIdentifier 20 "p19"; TokenEquals 20;
                  TokenIdentifier 20 "a"; TokenEndCmd 20])%list
    = Ok self /\
    dget (KStr "a") (_pinnumber_by_pinname self) = Some 3%N /\
    dget (KInt 2) (_pinname_by_pinnumber self) = Some "a" /\
    dget (KInt 3) (_pinname_by_pinnumber self) = Some "a".
Proof.
  match goal with
  | |- exists self, ?r = _ /\ _ =>
      let v := eval vm_compute in r in
      match v with
      | Ok ?s => exists s
      end
  end.
  vm_compute. repeat split; reflexivity.
Qed.

End PinStatements.

(** ** simplegalasm.py: the equations the assembler refuses *)

Module Unsupported.
Import PyStr GalAsm GalAsmFacts GalAsmPins PinStatements.
Open Scope string_scope.
Open Scope nat_scope.
Open Scope list_scope.

(** *** What the parser stores *)

Definition returns A (Q : A -> Prop) (r : result A) : Prop :=
  match r with
  | Ok a => Q a
  | _ => True
  end.

Lemma returns_bind A B (Q : B -> Prop) (r : result A) (k : A -> result B) :
  (forall a, r = Ok a -> returns Q (k a)) -> returns Q (bind r k).
Proof. destruct r; simpl; auto. Qed.

Definition products_nodup (products : list (list string)) : Prop :=
  forall p, In p products -> NoDup p.

Definition equation_nodup (eq : Equation) : Prop :=
  forall products, sum_of_products eq = SopList products ->
                   products <> [] /\ products_nodup products.

Lemma get_products_nodup fuel tokens :
  forall i s c,
    products_nodup s -> NoDup c ->
    returns (fun r => snd r <> [] /\ products_nodup (snd r))
            (get_products fuel tokens i s c).
Proof.
  induction fuel as [|fuel IH]; intros i s c Hs Hc; [exact I|].
  cbn [get_products].
  apply returns_bind. intros t _. apply returns_bind. intros [idneg j] _.
  apply returns_bind. intros t0 _. destruct t0; try exact I. cbv zeta.
  assert (Hc': NoDup (set_add string_dec
                        (if idneg then ("!" ++ name)%string else name) c))
    by now apply set_add_nodup.
  assert (Hs': products_nodup
                 (s ++ [set_add string_dec
                          (if idneg then ("!" ++ name)%string else name) c])).
  { intros p Hp. apply in_app_or in Hp. destruct Hp as [Hp|[<-|[]]]; auto. }
  apply returns_bind. intros t1 _. destruct t1; try exact I.
  - apply IH; auto. constructor.
  - apply IH; auto.
  - split; [|exact Hs']. simpl. intros E. apply app_eq_nil in E.
    destruct E as [_ E]. discriminate E.
Qed.

Lemma get_equation_nodup tokens i :
  returns (fun r => forall products, snd r = SopList products ->
                      products <> [] /\ products_nodup products)
          (_get_equation tokens i).
Proof.
  unfold _get_equation. apply returns_bind. intros t _.
  assert (Hp: returns (fun r => forall products, snd r = SopList products ->
                                 products <> [] /\ products_nodup products)
                (' (i0, products) <-
                   get_products (List.length tokens) tokens i [] [] ;;
                 Ok (i0, SopList products))).
  { pose proof (@get_products_nodup (List.length tokens) tokens i [] []) as H.
    destruct (get_products _ tokens i [] []) as [[i' ps]| |]; simpl in *; auto.
    intros products [= <-]. apply H; [intros p []|constructor]. }
  destruct t; try exact Hp.
  apply returns_bind. intros sop Hsop. cbv zeta.
  apply returns_bind. intros t0 _. destruct (is_endcmd t0); [|exact I].
  simpl. intros products ->.
  destruct (N.eqb number 0); [discriminate|].
  destruct (N.eqb number 1); discriminate.
Qed.

(** The stored equations have duplicate-free products. *)
Definition stored_nodup (self : Assembler) : Prop :=
  (forall name eq, dget (KStr name) (_equations self) = Some eq ->
                   equation_nodup eq) /\
  (forall name eq, dget (KStr name) (_oe_equations self) = Some eq ->
                   equation_nodup eq).

Lemma dget_dset_cases V k k' (v : V) d x :
  dget k (dset k' v d) = Some x -> x = v \/ dget k d = Some x.
Proof.
  destruct (key_eqb k' k) eqn:E.
  - apply key_eqb_eq in E. subst k'. rewrite dget_dset_same.
    intros [= <-]. now left.
  - rewrite dget_dset_other; auto. intros Hk. subst k'.
    now rewrite key_eqb_refl in E.
Qed.

Lemma statement_nodup tokens i self :
  stored_nodup self ->
  returns (fun r => stored_nodup (snd r)) (statement tokens i self).
Proof.
  intros [Hl Ho]. unfold statement.
  apply returns_bind. intros t _. apply returns_bind. intros [eqneg j] _.
  apply returns_bind. intros t0 _. destruct t0; try exact I.
  - apply returns_bind. intros t1 _. destruct t1; try exact I.
    apply returns_bind. intros t2 _. destruct (negb (is_equals t2)); [exact I|].
    apply returns_bind. intros t3 _. destruct t3; try exact I.
    apply returns_bind. intros t4 _. destruct (negb (is_endcmd t4)); [exact I|].
    apply returns_bind. intros self0 Hd. simpl. unfold declare_pin in Hd.
    destruct (dmem _ (_pinname_by_pinnumber self)); [discriminate|].
    destruct (dmem _ (_pinnumber_by_pinname self)); [discriminate|].
    injection Hd as <-. split; assumption.
  - apply returns_bind. intros t1 _. destruct (is_equals t1).
    { pose proof (get_equation_nodup tokens (j + 2)) as H.
      destruct (_get_equation tokens (j + 2)) as [[i0 sop]| |]; simpl in *; auto.
      split; [|exact Ho]. intros nm eq Heq. simpl in Heq.
      apply dget_dset_cases in Heq. destruct Heq as [->|Heq]; eauto. }
    destruct (is_dot t1); [|exact I].
    apply returns_bind. intros t2 _. destruct t2; try exact I.
    apply returns_bind. intros t3 _. destruct (is_equals t3); [|exact I].
    destruct (negb _); [exact I|].
    pose proof (get_equation_nodup tokens (j + 4)) as H.
    destruct (_get_equation tokens (j + 4)) as [[i0 sop]| |]; simpl in *; auto.
    split; [exact Hl|]. intros nm eq Heq. simpl in Heq.
    apply dget_dset_cases in Heq. destruct Heq as [->|Heq]; eauto.
  - simpl. split; assumption.
Qed.

Lemma statements_nodup fuel tokens :
  forall i self,
    stored_nodup self -> returns stored_nodup (statements fuel tokens i self).
Proof.
  induction fuel as [|fuel IH]; intros i self Hs; simpl.
  - destruct (List.length tokens <=? i); [exact Hs|exact I].
  - destruct (List.length tokens <=? i); [exact Hs|].
    pose proof (statement_nodup tokens i Hs) as H.
    destruct (statement tokens i self) as [[i' s']| |]; simpl in *; auto.
Qed.

Lemma parse_nodup tokens self : parse tokens = Ok self -> stored_nodup self.
Proof.
  intros H. pose proof (@statements_nodup (List.length tokens) tokens 0
                          new_assembler) as Hr.
  unfold parse in H. rewrite H in Hr. apply Hr. split; intros ? ? [=].
Qed.

(** *** The second phase, pin by pin *)

Definition pin_name (self : Assembler) (n : N) (name : string) : Prop :=
  dget (KInt n) (_pinname_by_pinnumber self) = Some name.

(** A literal the AND array has a column for: the name of one of the
    sixteen input pins, or its negation. *)
Definition input_literal_of (self : Assembler) (pins : list N)
    (lit : string) : Prop :=
  exists n name, In n pins /\ pin_name self n name /\
                 (lit = name \/ lit = ("!" ++ name)%string).

Definition input_literal (self : Assembler) (lit : string) : Prop :=
  input_literal_of self input_pins lit.

(** The literals of [product] without a column. *)
Definition left_over (self : Assembler) (product rem : list string)
  : Prop :=
  rem <> [] /\
  forall lit, In lit rem <-> In lit product /\ ~ input_literal self lit.

(** The unsupported level equations of the output pin called [name],
    each with the error that reports it. *)
Inductive level_reported (self : Assembler) (name : string)
  : Error -> Prop :=
| non_negated eq :
    dget (KStr name) (_equations self) = Some eq ->
    negated eq = false ->
    level_reported self name (NonNegatedEquation name)
| too_many_products eq products :
    dget (KStr name) (_equations self) = Some eq ->
    negated eq = true ->
    sum_of_products eq = SopList products ->
    7 < List.length products ->
    level_reported self name (TooManyProducts name)
| undefined_pins eq products product rem :
    dget (KStr name) (_equations self) = Some eq ->
    negated eq = true ->
    sum_of_products eq = SopList products ->
    In product products ->
    left_over self product rem ->
    level_reported self name (UndefinedPins name rem).

(** The same for its OE equation. *)
Inductive oe_reported (self : Assembler) (name : string) : Error -> Prop :=
| negated_oe eq :
    dget (KStr name) (_oe_equations self) = Some eq ->
    negated eq = true ->
    oe_reported self name (NegatedOEEquation name)
| too_many_oe_products eq products :
    dget (KStr name) (_oe_equations self) = Some eq ->
    negated eq = false ->
    sum_of_products eq = SopList products ->
    1 < List.length products ->
    oe_reported self name (TooManyOEProducts name)
| undefined_oe_pins eq product rem :
    dget (KStr name) (_oe_equations self) = Some eq ->
    negated eq = false ->
    sum_of_products eq = SopList [product] ->
    left_over self product rem ->
    oe_reported self name (UndefinedPins name rem).

Definition reported (self : Assembler) (name : string) (err : Error)
  : Prop :=
  level_reported self name err \/ oe_reported self name err.

Section Design.
Variable self : Assembler.
Hypothesis inputs_declared :
  forall n, In n input_pins -> exists name, pin_name self n name.
Hypothesis stored : stored_nodup self.

Lemma place_input_spec base product fusemap inputidx n name :
  pin_name self n name -> NoDup product ->
  exists product' fusemap',
    place_input self base (product, fusemap) (inputidx, n)
    = Ok (product', fusemap') /\
    NoDup product' /\
    forall lit, In lit product' <->
                In lit product /\ lit <> name /\ lit <> ("!" ++ name)%string.
Proof.
  intros Hn Hnd. unfold place_input, getitem. rewrite Hn. cbn [bind].
  set (p1 := if set_mem string_dec name product
             then set_remove string_dec name product else product).
  assert (H1: NoDup p1 /\ forall lit, In lit p1 <-> In lit product /\ lit <> name).
  { unfold p1. destruct (set_mem string_dec name product) eqn:E.
    - split; [now apply set_remove_nodup|]. intros lit.
      now apply set_remove_iff.
    - split; [exact Hnd|]. intros lit. split; [|tauto]. intros Hl.
      split; auto. intros ->. apply set_mem_complete1 in E. contradiction. }
  destruct H1 as [Hnd1 Hin1].
  set (p2 := if set_mem string_dec ("!" ++ name)%string p1
             then set_remove string_dec ("!" ++ name)%string p1 else p1).
  assert (H2: NoDup p2 /\
              forall lit, In lit p2 <->
                          In lit p1 /\ lit <> ("!" ++ name)%string).
  { unfold p2. destruct (set_mem string_dec ("!" ++ name)%string p1) eqn:E.
    - split; [now apply set_remove_nodup|]. intros lit.
      now apply set_remove_iff.
    - split; [exact Hnd1|]. intros lit. split; [|tauto]. intros Hl.
      split; auto. intros ->. apply set_mem_complete1 in E. contradiction. }
  destruct H2 as [Hnd2 Hin2].
  exists p2.
  destruct (set_mem string_dec name product) eqn:E1;
    fold p1; destruct (set_mem string_dec ("!" ++ name)%string p1) eqn:E2;
      fold p2; eexists; (split; [reflexivity|]); (split; [exact Hnd2|]);
        intros lit; rewrite Hin2, Hin1; tauto.
Qed.

Lemma place_inputs_spec base (l : list (nat * N)) :
  (forall x, In x l -> exists name, pin_name self (snd x) name) ->
  forall product fusemap,
    NoDup product ->
    exists product' fusemap',
      foldM (place_input self base) l (product, fusemap)
      = Ok (product', fusemap') /\
      NoDup product' /\
      forall lit, In lit product' <->
                  In lit product /\
                  ~ input_literal_of self (map snd l) lit.
Proof.
  induction l as [|[idx n] l IH]; intros Hl product fusemap Hnd.
  - exists product, fusemap. simpl. split; [reflexivity|]. split; [exact Hnd|].
    intros lit. split; [|tauto]. intros Hlit. split; auto.
    intros (n & nm & [] & _).
  - destruct (Hl (idx, n) (or_introl eq_refl)) as (name & Hn). simpl in Hn.
    destruct (@place_input_spec base product fusemap idx n name Hn Hnd)
      as (p1 & f1 & E1 & Hnd1 & Hin1).
    destruct (IH (fun x Hx => Hl x (or_intror Hx)) p1 f1 Hnd1)
      as (p2 & f2 & E2 & Hnd2 & Hin2).
    exists p2, f2. cbn [foldM]. rewrite E1. cbn [bind].
    split; [exact E2|]. split; [exact Hnd2|]. intros lit.
    rewrite Hin2, Hin1. split.
    + intros ((Hp & H1 & H2) & Hno). split; auto.
      intros (n' & nm' & [<-|Hn'] & Hpn & Hlit).
      * simpl in Hpn. unfold pin_name in *.
        assert (nm' = name) by congruence. subst nm'.
        destruct Hlit; contradiction.
      * apply Hno. exists n', nm'. auto.
    + intros (Hp & Hno). split; [split; [auto|split]|].
      * intros ->. apply Hno. exists n, name. simpl. auto.
      * intros ->. apply Hno. exists n, name. simpl. auto.
      * intros (n' & nm' & Hn' & Hpn & Hlit). apply Hno.
        exists n', nm'. simpl. auto.
Qed.

Lemma place_product_spec name base product fusemap :
  NoDup product ->
  (exists fusemap',
     place_product self name base product fusemap = Ok fusemap' /\
     forall rem, ~ left_over self product rem) \/
  (exists rem,
     place_product self name base product fusemap
     = Raise (RuntimeError (UndefinedPins name rem)) /\
     left_over self product rem).
Proof.
  intros Hnd. unfold place_product.
  destruct (@place_inputs_spec base (enumerate input_pins)) with
    (product := product) (fusemap := fusemap)
    as (p' & f' & E & _ & Hin); auto.
  { intros [idx n] Hx. apply inputs_declared. simpl.
    apply (in_map snd) in Hx. exact Hx. }
  change (map snd (enumerate input_pins)) with input_pins in Hin.
  rewrite E. cbn [bind]. destruct p' as [|lit0 p']; simpl.
  - left. eexists. split; [reflexivity|]. intros rem [Hne Hl].
    destruct rem as [|lit rem]; [congruence|].
    apply (Hin lit). apply Hl. now left.
  - right. eexists. split; [reflexivity|]. split; [discriminate|].
    intros lit. apply Hin.
Qed.

Lemma place_products_spec name products :
  forall productidx fusemap,
    products_nodup products ->
    match place_products self name productidx products fusemap with
    | Ok _ =>
        (products = [] \/ productidx + List.length products <= 7) /\
        forall product rem, In product products ->
                             ~ left_over self product rem
    | Raise (RuntimeError (TooManyProducts name')) =>
        name' = name /\ 7 < productidx + List.length products
    | Raise (RuntimeError (UndefinedPins name' rem)) =>
        name' = name /\
        exists product, In product products /\ left_over self product rem
    | _ => False
    end.
Proof.
  induction products as [|p rest IH]; intros productidx fusemap Hnd.
  - simpl. split; [now left|]. intros ? ? [].
  - cbn [place_products]. destruct (6 <? productidx) eqn:E6.
    { simpl. apply Nat.ltb_lt in E6. split; auto. lia. }
    apply Nat.ltb_ge in E6.
    destruct (@place_product_spec name (32 * productidx) p fusemap)
      as [(f' & E & Hno)|(rem & E & Hl)].
    { apply Hnd. now left. }
    + rewrite E. cbn [bind].
      specialize (IH (productidx + 1) f' (fun q Hq => Hnd q (or_intror Hq))).
      destruct (place_products self name (productidx + 1) rest f')
        as [f''|[[]| | | |]|]; try contradiction.
      * destruct IH as [Hlen Hall]. split.
        -- right. simpl. destruct Hlen as [->|Hlen]; simpl; lia.
        -- intros product rem [<-|Hp]; auto.
      * destruct IH as [-> Hlen]. split; auto. simpl. lia.
      * destruct IH as [-> (q & Hq & Hl)]. split; auto. exists q.
        split; auto. now right.
    + rewrite E. cbn [bind]. split; auto. exists p. split; auto. now left.
Qed.

Lemma place_equation_spec name fusemaps :
  (exists fusemaps', place_equation self name fusemaps = Ok fusemaps' /\
                     forall err, ~ level_reported self name err) \/
  (exists err,
     place_equation self name fusemaps = Raise (RuntimeError err) /\
     level_reported self name err).
Proof.
  unfold place_equation. destruct fusemaps as [f1 f2].
  destruct (dget (KStr name) (_equations self)) as [eq|] eqn:Eeq.
  2:{ left. eexists. split; [reflexivity|].
      intros err Hr. destruct Hr; congruence. }
  destruct (negated eq) eqn:Eneg; cbn [negb].
  2:{ right. eexists. split; [reflexivity|]. eapply non_negated; eauto. }
  destruct (sum_of_products eq) as [v|products] eqn:Esop.
  { left. eexists. split; [reflexivity|].
    intros err Hr. destruct Hr; congruence. }
  destruct (proj1 stored _ _ Eeq _ Esop) as [_ Hnd].
  pose proof (@place_products_spec name products 0 f1 Hnd) as H.
  destruct (place_products self name 0 products f1)
    as [f'|[[]| | | |]|]; cbn [bind]; try contradiction.
  - left. eexists. split; [reflexivity|]. destruct H as [Hlen Hall].
    intros err Hr.
    destruct Hr as [eq' Heq' Hneg'|eq' ps Heq' _ Hsop' Hlen'
                    |eq' ps product rem Heq' _ Hsop' Hin Hl];
      rewrite Heq' in Eeq; injection Eeq as ->.
    + congruence.
    + rewrite Hsop' in Esop. injection Esop as ->.
      destruct Hlen as [->|Hlen]; simpl in *; lia.
    + rewrite Hsop' in Esop. injection Esop as ->.
      apply (Hall product rem Hin Hl).
  - destruct H as [-> Hlen]. right. eexists. split; [reflexivity|].
    eapply too_many_products; eauto.
  - destruct H as [-> (q & Hq & Hl)]. right. eexists.
    split; [reflexivity|]. eapply undefined_pins; eauto.
Qed.

Lemma place_oe_equation_spec name fusemap :
  (exists fusemap', place_oe_equation self name fusemap = Ok fusemap' /\
                    forall err, ~ oe_reported self name err) \/
  (exists err,
     place_oe_equation self name fusemap = Raise (RuntimeError err) /\
     oe_reported self name err).
Proof.
  unfold place_oe_equation.
  destruct (dget (KStr name) (_oe_equations self)) as [eq|] eqn:Eeq.
  2:{ left. eexists. split; [reflexivity|].
      intros err Hr. destruct Hr; congruence. }
  destruct (negated eq) eqn:Eneg.
  { right. eexists. split; [reflexivity|]. eapply negated_oe; eauto. }
  destruct (sum_of_products eq) as [v|products] eqn:Esop.
  { left. eexists. split; [reflexivity|].
    intros err Hr. destruct Hr; congruence. }
  destruct (1 <? List.length products) eqn:E1.
  { apply Nat.ltb_lt in E1. right. eexists. split; [reflexivity|].
    eapply too_many_oe_products; eauto. }
  apply Nat.ltb_ge in E1.
  destruct (proj2 stored _ _ Eeq _ Esop) as [Hne Hnd].
  destruct products as [|product [|q rest]];
    [congruence| |simpl in E1; lia].
  destruct (@place_product_spec name 0 product fusemap)
    as [(f' & E & Hno)|(rem & E & Hl)].
  { apply Hnd. now left. }
  - left. exists f'. split; [exact E|]. intros err Hr.
    destruct Hr as [eq' Heq' Hneg'|eq' ps Heq' _ Hsop' Hlen'
                    |eq' p rem Heq' _ Hsop' Hl];
      rewrite Heq' in Eeq; injection Eeq as ->.
    + congruence.
    + rewrite Hsop' in Esop. injection Esop as ->. simpl in Hlen'. lia.
    + rewrite Hsop' in Esop. injection Esop as ->. apply (Hno rem Hl).
  - right. eexists. split; [exact E|].
    eapply undefined_oe_pins; eauto.
Qed.

End Design.

(** *** The loop over the output pins *)

(** The second phase changes the fuse maps only. *)
Definition same_design (a b : Assembler) : Prop :=
  _pinname_by_pinnumber a = _pinname_by_pinnumber b /\
  _equations a = _equations b /\
  _oe_equations a = _oe_equations b.

Lemma left_over_same a b product rem :
  same_design a b -> left_over a product rem -> left_over b product rem.
Proof.
  intros (E1 & _ & _). unfold left_over, input_literal, input_literal_of,
    pin_name. now rewrite E1.
Qed.

Lemma level_reported_same a b name err :
  same_design a b -> level_reported a name err -> level_reported b name err.
Proof.
  intros Hs Hr. pose proof Hs as (E1 & E2 & E3).
  destruct Hr as [eq Heq Hneg|eq ps Heq Hneg Hsop Hlen
                  |eq ps product rem Heq Hneg Hsop Hin Hl];
    rewrite E2 in Heq.
  - eapply non_negated; eauto.
  - eapply too_many_products; eauto.
  - eapply undefined_pins; eauto using left_over_same.
Qed.

Lemma oe_reported_same a b name err :
  same_design a b -> oe_reported a name err -> oe_reported b name err.
Proof.
  intros Hs Hr. pose proof Hs as (E1 & E2 & E3).
  destruct Hr as [eq Heq Hneg|eq ps Heq Hneg Hsop Hlen
                  |eq product rem Heq Hneg Hsop Hl];
    rewrite E3 in Heq.
  - eapply negated_oe; eauto.
  - eapply too_many_oe_products; eauto.
  - eapply undefined_oe_pins; eauto using left_over_same.
Qed.

Lemma same_design_sym a b : same_design a b -> same_design b a.
Proof. intros (E1 & E2 & E3). repeat split; auto. Qed.

Lemma reported_same a b name err :
  same_design a b -> reported a name err <-> reported b name err.
Proof.
  intros Hs. pose proof (same_design_sym Hs) as Hs'. unfold reported.
  split; (intros [H|H];
          [left; eapply level_reported_same|right; eapply oe_reported_same]);
    eauto.
Qed.

Definition inputs_declared (self : Assembler) : Prop :=
  forall n, In n input_pins -> exists name, pin_name self n name.

Lemma assemble_pin_spec self n name :
  inputs_declared self -> stored_nodup self -> pin_name self n name ->
  (exists self', assemble_pin self n = Ok self' /\ same_design self self' /\
                 forall err, ~ reported self name err) \/
  (exists err, assemble_pin self n = Raise (RuntimeError err) /\
               reported self name err).
Proof.
  intros Hin Hst Hn. unfold assemble_pin, getitem. rewrite Hn. cbn [bind].
  cbv zeta.
  destruct (@place_equation_spec self Hin Hst name
              (repeat 0%N (7 * 32), repeat 0%N 32))
    as [([f1 f2] & E & Hno)|(err & E & Hr)]; rewrite E; cbn [bind].
  2:{ right. exists err. split; [reflexivity|]. now left. }
  destruct (@place_oe_equation_spec self Hin Hst name f2)
    as [(f' & E' & Hno')|(err & E' & Hr)]; rewrite E'; cbn [bind].
  2:{ right. exists err. split; [reflexivity|]. now right. }
  left. eexists. split; [reflexivity|]. split.
  - repeat split.
  - intros err [H|H]; [apply (Hno err H)|apply (Hno' err H)].
Qed.

Lemma outputs_spec self0 l :
  inputs_declared self0 -> stored_nodup self0 ->
  (forall n, In n l -> exists name, pin_name self0 n name) ->
  forall self,
    same_design self0 self ->
    (exists self', foldM assemble_pin l self = Ok self' /\
                   forall n name err, In n l -> pin_name self0 n name ->
                                      ~ reported self0 name err) \/
    (exists n name err,
       In n l /\ pin_name self0 n name /\ reported self0 name err /\
       foldM assemble_pin l self = Raise (RuntimeError err)).
Proof.
  intros Hin Hst. induction l as [|n l IH]; intros Hl self Hs.
  - left. exists self. split; [reflexivity|]. intros ? ? ? [].
  - destruct (Hl n (or_introl eq_refl)) as (name & Hn).
    pose proof Hs as (E1 & E2 & E3).
    assert (Hin': inputs_declared self).
    { intros m Hm. destruct (Hin m Hm) as (nm & Hnm). exists nm.
      unfold pin_name in *. now rewrite <- E1. }
    assert (Hst': stored_nodup self).
    { destruct Hst as [Ha Hb]. split; intros nm eq Heq.
      - apply (Ha nm). now rewrite E2.
      - apply (Hb nm). now rewrite E3. }
    assert (Hn': pin_name self n name).
    { unfold pin_name in *. now rewrite <- E1. }
    cbn [foldM].
    destruct (@assemble_pin_spec self n name Hin' Hst' Hn')
      as [(self1 & E & Hs1 & Hno)|(err & E & Hr)]; rewrite E; cbn [bind].
    + destruct (IH (fun m Hm => Hl m (or_intror Hm)) self1)
        as [(self' & E' & Hno')|(m & nm & err & Hm & Hnm & Hr & E')].
      { destruct Hs1 as (F1 & F2 & F3). repeat split; congruence. }
      * left. exists self'. split; [exact E'|].
        intros m nm err [<-|Hm] Hnm Hr; [|now apply (Hno' m nm err)].
        unfold pin_name in *. assert (nm = name) by congruence. subst nm.
        apply (Hno err). now apply (reported_same name err Hs).
      * right. exists m, nm, err. repeat split; auto. now right.
    + right. exists n, name, err. split; [now left|]. split; [exact Hn|].
      split; [|reflexivity]. now apply (reported_same name err Hs).
Qed.

(** C8, as the code has it. For a token stream the parser accepts, with
    the sixteen input pins 1 to 9, 11 and 13 to 18 and the eight output
    pins 12 to 19 declared, [assemble] raises an error exactly when the
    last level or OE equation stored for the name of an output pin is
    unsupported: a level equation that is not negated, or has more than
    7 products, or has a product with a literal that is not the name of
    an input pin or its negation; an OE equation that is negated, or has
    more than 1 product, or whose product has such a literal. A pin that
    is declared but is not one of the sixteen inputs, as the output pins
    12 and 19 are, counts as undefined. The error names the output pin
    and is the one of its defect. *)
Theorem unsupported_equations_reported tokens self :
  parse tokens = Ok self ->
  (forall n, In n (input_pins ++ output_pins) ->
             exists name, pin_name self n name) ->
  (forall e, assemble tokens = Raise e ->
             exists n name err,
               In n output_pins /\ pin_name self n name /\
               e = RuntimeError err /\ reported self name err) /\
  ((exists n name err,
      In n output_pins /\ pin_name self n name /\ reported self name err) ->
   exists e, assemble tokens = Raise e) /\
  ((forall n name err, In n output_pins -> pin_name self n name ->
                       ~ reported self name err) ->
   exists self', assemble tokens = Ok self' /\ same_design self self').
Proof.
  intros Hp Hpins. unfold assemble. rewrite Hp. cbn [bind].
  assert (Hin: inputs_declared self).
  { intros n Hn. apply Hpins. apply in_or_app. now left. }
  assert (Hout: forall n, In n output_pins -> exists name, pin_name self n name).
  { intros n Hn. apply Hpins. apply in_or_app. now right. }
  pose proof (parse_nodup tokens Hp) as Hst.
  assert (Hsame: same_design self self) by (repeat split).
  assert (Hkeep: forall l s s', same_design self s ->
            foldM assemble_pin l s = Ok s' -> same_design self s').
  { induction l as [|n l IH]; intros s s' Hs; cbn [foldM].
    - now intros [= <-].
    - unfold assemble_pin at 1.
      destruct (getitem _ _) as [nm| |]; cbn [bind]; try discriminate.
      cbv zeta. destruct (place_equation s nm _) as [[f1 f2]| |]; cbn [bind];
        try discriminate.
      destruct (place_oe_equation s nm f2) as [f'| |]; cbn [bind];
        try discriminate.
      apply IH. destruct Hs as (F1 & F2 & F3). repeat split; assumption. }
  destruct (@outputs_spec self output_pins Hin Hst Hout self Hsame)
    as [(self' & E & Hno)|(n & name & err & Hn & Hnm & Hr & E)].
  - split; [|split].
    + intros e He. rewrite E in He. discriminate.
    + intros (n & name & err & Hn & Hnm & Hr). exfalso.
      apply (Hno n name err Hn Hnm Hr).
    + intros _. exists self'. split; [exact E|]. eapply Hkeep; eauto.
  - split; [|split].
    + intros e He. rewrite E in He. injection He as <-.
      exists n, name, err. auto.
    + intros _. eauto.
    + intros Hno. exfalso. apply (Hno n name err Hn Hnm Hr).
Qed.

(** The sixteen inputs and eight outputs declared, each pin [k] as [pk],
    and the equation [!p19 = p12;]. *)
Definition output_as_input : list Token :=
  declarations plain_pins
  ++ [TokenNot 20; TokenIdentifier 20 "p19"; TokenEquals 20;
      TokenIdentifier 20 "p12"; TokenEndCmd 20].

(** C8 as it is stated fails: every pin is declared, the one equation is
    a negated level equation of one product that names the declared pin
    12, there is no OE equation, and [assemble] reports pin 12 as
    undefined. *)
Lemma declared_pin_reported_undefined :
  exists self,
    parse output_as_input = Ok self /\
    _equations self
    = [(KStr "p19", {| negated := true;
                       sum_of_products := SopList [["p12"]] |})] /\
    _oe_equations self = [] /\
    dget (KInt 12) (_pinname_by_pinnumber self) = Some "p12" /\
    dget (KStr "p12") (_pinnumber_by_pinname self) = Some 12%N /\
    assemble output_as_input
    = Raise (RuntimeError (UndefinedPins "p19" ["p12"])).
Proof.
  match goal with
  | |- exists self, ?r = _ /\ _ =>
      let v := eval vm_compute in r in
      match v with
      | Ok ?s => exists s
      end
  end.
  vm_compute. repeat split; reflexivity.
Qed.

Lemma unsupported_equations_reported_witness :
  exists self,
    parse output_as_input = Ok self /\
    (forall e, assemble output_as_input = Raise e ->
               exists n name err,
                 In n output_pins /\ pin_name self n name /\
                 e = RuntimeError err /\ reported self name err).
Proof.
  match goal with
  | |- exists self, ?r = _ /\ _ =>
      let v := eval vm_compute in r in
      match v with
      | Ok ?s => exists s
      end
  end.
  split; [vm_compute; reflexivity|].
  apply (@unsupported_equations_reported output_as_input).
  - vm_compute. reflexivity.
  - intros n Hn. unfold pin_name. simpl in Hn.
    repeat (destruct Hn as [<-|Hn]; [eexists; vm_compute; reflexivity|]).
    destruct Hn.
Defined.

End Unsupported.

(** ** simplegalasm.py: the two checksums of the JEDEC file *)

Module JedChecksums.
Import PyStr GalAsm GalAsmFacts GalAsmPins PinStatements.
Open Scope string_scope.
Open Scope nat_scope.
Open Scope list_scope.

(** [P] holds for the [fuel] numbers from [v] on. *)
Fixpoint all_from (fuel : nat) (v : N) (P : N -> bool) : bool :=
  match fuel with
  | O => true
  | S fuel' => P v && all_from fuel' (N.succ v) P
  end.

Lemma all_from_spec fuel P :
  forall v, all_from fuel v P = true ->
            forall k, (v <= k)%N -> (k < v + N.of_nat fuel)%N -> P k = true.
Proof.
  induction fuel as [|fuel IH]; intros v H k H1 H2; [lia|].
  simpl in H. apply andb_true_iff in H. destruct H as [Hv Hrest].
  destruct (N.eq_dec k v) as [->|Hne]; auto.
  apply (IH (N.succ v)); auto; lia.
Qed.

(** ["%04x"] of a 16-bit number has four digits. *)
Lemma format_04x_length v :
  (v < 65536)%N -> String.length (format_04x v) = 4.
Proof.
  intros Hv.
  assert (H: all_from (N.to_nat 65536) 0
               (fun k => String.length (format_04x k) =? 4) = true)
    by (vm_compute; reflexivity).
  apply Nat.eqb_eq.
  apply (@all_from_spec (N.to_nat 65536) _ 0%N H v); lia.
Qed.

(** The transmission checksum: the sum of the bytes from STX to ETX,
    modulo [2^16], in four hexadecimal digits after the ETX. *)
Lemma transmission_checksum fusemap data :
  get_file fusemap = Ok data ->
  exists frame,
    jed_frame fusemap = Ok frame /\
    data = (frame ++ format_04x (byte_sum frame mod 65536))%string /\
    String.length (format_04x (byte_sum frame mod 65536)) = 4.
Proof.
  unfold get_file. intros H. apply bind_Ok in H.
  destruct H as (frame & Hf & Hd). exists frame. split; [exact Hf|].
  cbv zeta in Hd. injection Hd as <-.
  change 65535%N with (N.ones 16). rewrite N.land_ones.
  change (2 ^ 16)%N with 65536%N. split; [reflexivity|].
  apply format_04x_length. apply N.mod_lt. discriminate.
Qed.

(** The fuse checksum field: ["%04x"] of the sum itself. *)
Lemma fuse_checksum_field fusemap frame :
  jed_frame fusemap = Ok frame ->
  exists fusecsum,
    fuse_checksum fusemap = Ok fusecsum /\
    frame = (jed_fuses fusemap ++ "*C" ++ format_04x fusecsum ++ crlf
             ++ "*" ++ crlf ++ ETX)%string.
Proof.
  unfold jed_frame. intros H. apply bind_Ok in H.
  destruct H as (fusecsum & Hs & Hd). exists fusecsum. split; [exact Hs|].
  now injection Hd as <-.
Qed.

(** The tokens of a file with one statement per line, the first on line
    [line]: before the next line the lexer closes the statement with a
    [TokenEndCmd] of its own, and the last one at the end of the file. *)
Fixpoint lexed_lines (line : N) (statements : list (N -> list Token))
  : list Token :=
  match statements with
  | [] => []
  | [st] => st line ++ [TokenEndCmd (line - 1)]
  | st :: rest => st line ++ TokenEndCmd line :: lexed_lines (line + 1) rest
  end.

(** [!name = p2 # p2 # p2 # p2 # p2 # p2 # p2;] on line [line]. *)
Definition seven_products_statement (name : string) (line : N)
  : list Token :=
  [TokenNot line; TokenIdentifier line name; TokenEquals line]
  ++ concat (repeat [TokenIdentifier line "p2"; TokenOr line] 6)
  ++ [TokenIdentifier line "p2"; TokenEndCmd line].

(** The eighteen statements [PIN k = pk;], then seven products for each
    of the eight outputs. *)
Definition seven_products : list Token :=
  lexed_lines 1
    (map (fun k line => pin_statement (line, k, ("p" ++ format_d k)%string))
         pin_numbers
     ++ map (fun k => seven_products_statement ("p" ++ format_d k)%string)
            [12; 13; 14; 15; 16; 17; 18; 19]%N).

(** C9 fails on the code: for the design with seven products on every
    output the sum of the fuse bytes is 67522, above [2^16 - 1], and the
    field after [*C] has the five digits [107c2] where the 16-bit sum is
    [07c2]. *)
Theorem fuse_checksum_not_truncated :
  exists assembler fusemap,
    assemble seven_products = Ok assembler /\
    fill_fusemap assembler = Ok fusemap /\
    fuse_checksum fusemap = Ok 67522%N /\
    format_04x 67522 = "107c2" /\
    format_04x (67522 mod 65536) = "07c2" /\
    simplegalasm seven_products
    = Ok (jed_fuses fusemap ++ "*C" ++ "107c2" ++ crlf ++ "*" ++ crlf ++ ETX
          ++ "0404")%string.
Proof.
  match goal with
  | |- exists assembler fusemap, ?r = _ /\ _ =>
      let v := eval vm_compute in r in
      match v with
      | Ok ?a =>
          exists a;
          let w := eval vm_compute in (fill_fusemap a) in
          match w with
          | Ok ?f => exists f
          end
      end
  end.
  repeat split; vm_compute; reflexivity.
Qed.

End JedChecksums.

(** ** boolexprsimplifier.py: further properties of the prime implicant
    table and of the returned covers *)

Module MinimiserProperties.
Import Facts BoolExpr QmFacts Cubes QmRun QmResult.
Import PetrickFacts PetrickRun Minimise Constants Minimal MinimiserSpec.
Open Scope N_scope.

(** The cube of an entry of the prime implicant list. *)
Lemma pi_cube (x : prime) : (pi_impl x, pi_mask x) = fst x.
Proof. destruct x as [[p M] cov]. reflexivity. Qed.

(** Distinct valid indexes of a duplicate-free list select distinct
    elements. *)
Lemma map_nth_nodup A B (f : nat -> B) (l : list A) (t : list nat) :
  (forall i j, In i t -> In j t -> f i = f j -> i = j) ->
  NoDup t -> NoDup (map f t).
Proof.
  intros Hinj Hnd. induction Hnd as [|i t Hi Hnd IH]; simpl; constructor.
  - intros Hin. apply in_map_iff in Hin. destruct Hin as (j & Hj & Hjt).
    apply Hi. assert (j = i).
    { apply Hinj; [now right|now left|exact Hj]. }
    now subst j.
  - apply IH. intros a b Ha Hb. apply Hinj; now right.
Qed.

(** With a minterm, some prime implicant records a covered index. *)
Lemma minterm_gives_index n ms dcs pis :
  in_range n ms -> qm_result_ok n ms dcs pis -> ms <> [] ->
  all_mintermidxs pis <> [].
Proof.
  intros Hm Hok Hne E. destruct ms as [|x ms']; [congruence|].
  destruct (@minterm_in_prime n (x :: ms') dcs pis Hm Hok x) as (y & Hy & _ & Hi);
    [now left|].
  assert (H: In (minterm_index (x :: ms') x) (all_mintermidxs pis)).
  { apply all_mintermidxs_In. eauto. }
  rewrite E in H. destruct H.
Qed.

(** X1: the prime implicant computation is complete.  Every cube that is
    an implicant of the function (all its points below [2^n] are listed
    minterms or don't-cares) and holds at least one minterm lies inside
    an emitted prime implicant. *)
Theorem implicants_inside_primes n ms dcs :
  in_range n ms -> in_range n dcs ->
  exists found, compute_prime_implicants n ms dcs = Some found /\
    forall p M,
      N.land p M = p -> M < 2 ^ N.of_nat n ->
      (forall x, x < 2 ^ N.of_nat n -> N.land x M = p ->
                 In x ms \/ In x dcs) ->
      (exists x, In x ms /\ N.land x M = p) ->
      exists p' M' cov, In (p', M', cov) found /\
                        N.land M' M = M' /\ N.land p M' = p'.
Proof.
  intros Hm Hd.
  destruct (@run_spec list_order n ms dcs Hm Hd) as (pis & Hc & Hok & _).
  exists pis. split; auto. intros p M Hp HM Hall Hmin.
  destruct Hok as (_ & _ & Hin).
  destruct (Hin p M) as ([[p' M'] cov] & Hx & Hs & Hl).
  - split; [split|split]; auto.
    + now apply subm_full_lt.
    + intros x Hx Hc'. apply Hall; auto. now apply subm_full_lt.
  - exists p', M', cov. auto.
Qed.

Lemma implicants_inside_primes_witness :
  exists found, compute_prime_implicants 2 [1; 2; 3] [] = Some found /\
    forall p M,
      N.land p M = p -> M < 2 ^ N.of_nat 2 ->
      (forall x, x < 2 ^ N.of_nat 2 -> N.land x M = p ->
                 In x [1; 2; 3] \/ In x []) ->
      (exists x, In x [1; 2; 3] /\ N.land x M = p) ->
      exists p' M' cov, In (p', M', cov) found /\
                        N.land M' M = M' /\ N.land p M' = p'.
Proof.
  apply (@implicants_inside_primes 2 [1; 2; 3] []).
  - intros x [<-|[<-|[<-|[]]]]; reflexivity.
  - intros x [].
Defined.

(** X2: the entries of the prime implicant list.  No cube is listed
    twice, every listed cube holds a minterm, and its third component is
    exactly the set of the indexes, in the minterm list, of the minterms
    it holds (for a minterm listed twice, its last index). *)
Theorem prime_table_exact n ms dcs :
  in_range n ms -> in_range n dcs ->
  exists found, compute_prime_implicants n ms dcs = Some found /\
    NoDup (map fst found) /\
    forall p M cov, In (p, M, cov) found ->
      cov <> [] /\
      forall i, In i cov <->
                exists x, In x ms /\ N.land x M = p /\ minterm_index ms x = i.
Proof.
  intros Hm Hd.
  destruct (@run_spec list_order n ms dcs Hm Hd) as (pis & Hc & Hok & _).
  exists pis. split; auto. destruct Hok as (Hok & Hnd & _). split; auto.
  intros p M cov Hin. destruct (Hok _ Hin) as ((_ & _ & Hmin) & Hcov & _).
  unfold pi_impl, pi_mask, pi_covered in *. simpl in *. split.
  - destruct Hmin as (x & Hx & Hl). intros E.
    assert (H: In (minterm_index ms x) cov) by (apply Hcov; eauto).
    rewrite E in H. destruct H.
  - exact Hcov.
Qed.

Lemma prime_table_exact_witness :
  exists found, compute_prime_implicants 2 [1; 3; 1] [2] = Some found /\
    NoDup (map fst found) /\
    forall p M cov, In (p, M, cov) found ->
      cov <> [] /\
      forall i, In i cov <->
                exists x, In x [1; 3; 1] /\ N.land x M = p /\
                          minterm_index [1; 3; 1] x = i.
Proof.
  apply (@prime_table_exact 2 [1; 3; 1] [2]).
  - intros x [<-|[<-|[<-|[]]]]; reflexivity.
  - intros x [<-|[]]; reflexivity.
Defined.

Section Iteration.
Variable set_iter : forall A : Type, list A -> list A.
Hypothesis set_iter_perm : forall A (l : list A), Permutation (set_iter l) l.

  (** X3: a returned cover is made of emitted prime implicants, each
      used once. *)
Theorem covers_built_from_primes n ms dcs :
    in_range n ms -> in_range n dcs ->
    exists found res,
      compute_prime_implicants n ms dcs = Some found /\
      simplify_minterms set_iter n ms dcs = Some res /\
      forall rs r, res = Covers rs -> In r rs ->
        NoDup r /\
        forall c, In c r -> exists cov, In (fst c, snd c, cov) found.
  Proof.
    intros Hm Hd.
    destruct (@run_spec set_iter n ms dcs Hm Hd) as (pis & Hc & Hok & Hs).
    exists pis. eexists. split; [exact Hc|]. split; [exact Hs|].
    intros rs r Hres Hr.
    destruct (@covers_are_covers pis set_iter set_iter_perm rs r Hres Hr)
      as (t & -> & _ & Hnd & Hrg & _).
    assert (Hti: forall i, In i (set_iter t) -> In i t).
    { intros i. apply (@set_iter_In set_iter set_iter_perm). }
    destruct Hok as (_ & Hnp & _). split.
    - unfold cubes_of. apply (@map_nth_nodup nat _ _ t).
      + intros i j Hi Hj E. rewrite !pi_cube in E.
        destruct (Hrg i (Hti i Hi)) as (y & Hy).
        destruct (Hrg j (Hti j Hj)) as (z & Hz).
        rewrite (pi_at_nth _ _ Hy), (pi_at_nth _ _ Hz) in E.
        apply (proj1 (NoDup_nth_error (map fst pis)) Hnp).
        * rewrite length_map. apply (proj1 (nth_error_Some pis i)).
          rewrite Hy. discriminate.
        * rewrite !nth_error_map.
          etransitivity; [apply (f_equal (option_map fst) Hy)|]. symmetry.
          etransitivity; [apply (f_equal (option_map fst) Hz)|].
          simpl. congruence.
      + apply (Permutation_NoDup (Permutation_sym (set_iter_perm t)) Hnd).
    - intros c Hcin. unfold cubes_of in Hcin. apply in_map_iff in Hcin.
      destruct Hcin as (i & <- & Hi). destruct (Hrg i (Hti i Hi)) as (y & Hy).
      rewrite (pi_at_nth _ _ Hy). destruct y as [[p M] cov]. exists cov.
      simpl. eapply nth_error_In; eauto.
  Qed.

  (** X4: no cover of the function, made of prime implicants or not,
      has fewer products than a returned cover, and none with as many
      products has fewer literals. *)
Theorem covers_beat_every_cover n ms dcs :
    in_range n ms -> in_range n dcs ->
    exists res, simplify_minterms set_iter n ms dcs = Some res /\
      forall rs r cv, res = Covers rs -> In r rs -> is_cover n ms dcs cv ->
        (List.length r <= List.length cv)%nat /\
        (List.length cv = List.length r -> (literals r <= literals cv)%nat).
  Proof.
    intros Hm Hd.
    destruct (@run_spec set_iter n ms dcs Hm Hd) as (pis & _ & Hok & Hs).
    eexists. split; [exact Hs|]. intros rs r cv Hres Hr Hcv.
    apply (@returned_minimal n ms dcs pis Hm Hok set_iter set_iter_perm
             rs r cv Hres Hr Hcv).
  Qed.

  (** The result is [True] only for a prime implicant with an empty
      mask. *)
Lemma always_true_universal pis :
    all_mintermidxs pis <> [] ->
    simplest_results set_iter pis = AlwaysTrue ->
    exists y, In y pis /\ pi_mask y = 0.
  Proof.
    intros HA. unfold simplest_results.
    destruct (@sop_spec set_iter set_iter_perm pis HA) as (_ & Hs & _).
    revert Hs.
    generalize (convert_pos_to_sop (compute_product_of_sums set_iter pis)).
    intros sop Hs. unfold compute_simplest_results.
    destruct sop as [|p sop']; [discriminate|].
    destruct (is_always_true set_iter pis (p :: sop')) eqn:E.
    - intros _. unfold is_always_true in E.
      destruct sop' as [|? ?]; [|discriminate].
      destruct (set_iter p) as [|i [|? ?]] eqn:Ep; try discriminate.
      apply N.eqb_eq in E.
      destruct (Hs p (or_introl eq_refl)) as (_ & _ & Hrg).
      destruct (Hrg i) as (y & Hy).
      { apply (@set_iter_In set_iter set_iter_perm). rewrite Ep. now left. }
      exists y. rewrite (pi_at_nth _ _ Hy) in E. split; auto.
      eapply nth_error_In; eauto.
    - destruct (1 <? _)%nat; discriminate.
  Qed.

  (** A list of covers is never empty. *)
Lemma covers_nonempty pis sp rs :
    compute_simplest_results set_iter pis sp = Covers rs -> rs <> [].
  Proof.
    unfold compute_simplest_results.
    destruct sp as [|t0 sp'] eqn:Esp; [discriminate|]. rewrite <- Esp.
    destruct (is_always_true set_iter pis sp); [discriminate|].
    set (minlen := list_min (map (@List.length nat) sp)).
    match goal with
    | |- context [Nat.ltb 1 (List.length ?r)] => set (results := r)
    end.
    assert (Hres: results <> []).
    { assert (Hin: In minlen (map (@List.length nat) sp)).
      { apply list_min_In. rewrite Esp. discriminate. }
      apply in_map_iff in Hin. destruct Hin as (t & Ht & Hint).
      intros E. apply map_eq_nil in E.
      assert (H: In t (filter (fun p => Nat.eqb (List.length p) minlen) sp)).
      { apply filter_In. split; auto. now apply Nat.eqb_eq. }
      rewrite E in H. destruct H. }
    destruct (1 <? List.length results)%nat.
    - intros [= <-].
      assert (Hin: In (list_min (map literals results)) (map literals results)).
      { apply list_min_In. destruct results; [congruence|discriminate]. }
      apply in_map_iff in Hin. destruct Hin as (r & Hr & Hinr).
      intros E.
      assert (H: In r (filter (fun r => Nat.eqb (literals r)
                                 (list_min (map literals results))) results)).
      { apply filter_In. split; auto. now apply Nat.eqb_eq. }
      rewrite E in H. destruct H.
    - intros [= <-]. exact Hres.
  Qed.

  (** X5: which of its three kinds of result [simplify_minterms] returns.
      [False] exactly when there is no minterm; [True] exactly when
      there is a minterm and every input below [2^n] is a minterm or a
      don't-care; and a list of covers is never empty, nor is any cover
      in it. *)
Theorem outcome_by_function n ms dcs :
    in_range n ms -> in_range n dcs ->
    exists res, simplify_minterms set_iter n ms dcs = Some res /\
      (res = AlwaysFalse <-> ms = []) /\
      (res = AlwaysTrue <->
       ms <> [] /\ forall x, x < 2 ^ N.of_nat n -> In x ms \/ In x dcs) /\
      (forall rs, res = Covers rs ->
                  rs <> [] /\ forall r, In r rs -> r <> []).
  Proof.
    intros Hm Hd.
    destruct (@run_spec set_iter n ms dcs Hm Hd) as (pis & Hc & Hok & Hs).
    eexists. split; [exact Hs|].
    assert (Hnil: ms = [] -> simplest_results set_iter pis = AlwaysFalse).
    { intros ->. rewrite (@no_minterms_false set_iter set_iter_perm) in Hs.
      now injection Hs as <-. }
    assert (Hfalse: simplest_results set_iter pis = AlwaysFalse -> ms = []).
    { intros E. destruct ms as [|x ms'] eqn:Ems; auto. exfalso.
      assert (HA: all_mintermidxs pis <> []).
      { apply (@minterm_gives_index n (x :: ms') dcs); auto. discriminate. }
      destruct (@sop_spec set_iter set_iter_perm pis HA) as (Hne & _).
      unfold simplest_results, compute_simplest_results in E.
      destruct (convert_pos_to_sop _) as [|p sop']; [congruence|].
      destruct (is_always_true _ _ _); [discriminate|].
      destruct (1 <? _)%nat; discriminate. }
    split; [split; auto|]. split; [split|].
    - intros E.
      assert (Hne: ms <> []).
      { intros E0. rewrite (Hnil E0) in E. discriminate. }
      split; auto. intros x Hx.
      destruct (@always_true_universal pis) as (y & Hy & HM); auto.
      { apply (@minterm_gives_index n ms dcs); auto. }
      destruct Hok as (Hok & _).
      destruct (Hok y Hy) as (((Hp & _) & Hall & _) & _).
      apply (Hall x); [now apply subm_full_lt|].
      unfold subm in Hp. rewrite HM in *. rewrite N.land_0_r in *. auto.
    - intros (Hne & Hall).
      destruct (@full_coverage_primes n ms dcs pis Hm Hd Hall Hne Hok)
        as (cov & -> & Hcov).
      apply (@single_universal_true set_iter set_iter_perm cov Hcov).
    - intros rs Hres. split.
      + apply (@covers_nonempty pis _ rs Hres).
      + intros r Hr E. subst r.
        assert (Hcv: is_cover n ms dcs []).
        { apply (@covers_cover set_iter set_iter_perm n ms dcs pis rs []);
            auto. }
        destruct ms as [|x ms'].
        * rewrite Hnil in Hres; [discriminate|reflexivity].
        * destruct Hcv as [Hcv _]. specialize (Hcv x (or_introl eq_refl)).
          discriminate Hcv.
  Qed.
End Iteration.

Lemma covers_built_from_primes_witness :
  exists found res,
    compute_prime_implicants 3 [0; 1; 2; 5; 6; 7] [] = Some found /\
    simplify_minterms list_order 3 [0; 1; 2; 5; 6; 7] [] = Some res /\
    forall rs r, res = Covers rs -> In r rs ->
      NoDup r /\
      forall c, In c r -> exists cov, In (fst c, snd c, cov) found.
Proof.
  apply (@covers_built_from_primes list_order list_order_perm 3
           [0; 1; 2; 5; 6; 7] []).
  - intros x [<-|[<-|[<-|[<-|[<-|[<-|[]]]]]]]; reflexivity.
  - intros x [].
Defined.

Lemma covers_beat_every_cover_witness :
  exists res,
    simplify_minterms list_order 4 [4; 8; 10; 11; 12; 15] [9; 14] = Some res /\
    forall rs r cv, res = Covers rs -> In r rs ->
      is_cover 4 [4; 8; 10; 11; 12; 15] [9; 14] cv ->
      (List.length r <= List.length cv)%nat /\
      (List.length cv = List.length r -> (literals r <= literals cv)%nat).
Proof.
  apply (@covers_beat_every_cover list_order list_order_perm 4
           [4; 8; 10; 11; 12; 15] [9; 14]).
  - intros x [<-|[<-|[<-|[<-|[<-|[<-|[]]]]]]]; reflexivity.
  - intros x [<-|[<-|[]]]; reflexivity.
Defined.

Lemma outcome_by_function_witness :
  exists res, simplify_minterms list_order 2 [1; 2; 3] [] = Some res /\
    (res = AlwaysFalse <-> [1; 2; 3] = []) /\
    (res = AlwaysTrue <->
     [1; 2; 3] <> [] /\
     forall x, x < 2 ^ N.of_nat 2 -> In x [1; 2; 3] \/ In x []) /\
    (forall rs, res = Covers rs -> rs <> [] /\ forall r, In r rs -> r <> []).
Proof.
  apply (@outcome_by_function list_order list_order_perm 2 [1; 2; 3] []).
  - intros x [<-|[<-|[<-|[]]]]; reflexivity.
  - intros x [].
Defined.

End MinimiserProperties.

(** ** pete.py: pin positions, the addresses of the loop and its other
    maps *)

Module PeteMaps.
Import Pete PeteHelpers PeteDepends HighZ.
Open Scope N_scope.

#[local] Unset Implicit Arguments.

(** X6: the conversions between PAL pin numbers and EPROM bit positions
    undo each other.  An address bit position is never mapped to pin 10
    (GND), positions 0..17 are mapped to pins 1..19, and the probe
    address bit of the output pin on data bit [d] is bit [d + 10]. *)
Theorem pin_positions_round_trip :
  (forall b, palpinnum_to_epromaddrbitpos (epromaddrbitpos_to_palpinnum b) = b
             /\ epromaddrbitpos_to_palpinnum b <> 10
             /\ 1 <= epromaddrbitpos_to_palpinnum b) /\
  (forall b, b <= 17 -> epromaddrbitpos_to_palpinnum b <= 19) /\
  (forall p, 1 <= p -> p <> 10 ->
             epromaddrbitpos_to_palpinnum (palpinnum_to_epromaddrbitpos p) = p) /\
  (forall d, palpinnum_to_epromdatabitpos
               (Z.of_N (epromdatabitpos_to_palpinnum d)) = Z.of_N d) /\
  (forall d, palpinnum_to_epromaddrbitpos (epromdatabitpos_to_palpinnum d)
             = d + 10).
Proof.
  unfold palpinnum_to_epromaddrbitpos, epromaddrbitpos_to_palpinnum,
    palpinnum_to_epromdatabitpos, epromdatabitpos_to_palpinnum.
  repeat split.
  - destruct (N.leb_spec b 8).
    + destruct (N.leb_spec (b + 1) 9); lia.
    + destruct (N.leb_spec (b + 2) 9); lia.
  - destruct (N.leb_spec b 8); lia.
  - destruct (N.leb_spec b 8); lia.
  - intros b Hb. destruct (N.leb_spec b 8); lia.
  - intros p H1 H10. destruct (N.leb_spec p 9).
    + destruct (N.leb_spec (p - 1) 8); lia.
    + destruct (N.leb_spec (p - 2) 8); lia.
  - intros d. lia.
  - intros d. destruct (N.leb_spec (d + 12) 9); lia.
Qed.

Lemma remove_insert i b :
  b <= 17 -> i < 2 ^ 17 -> remove_bit (insert_bit i b) b = i.
Proof.
  intros Hb Hi. apply N.bits_inj. intros k. rewrite remove_bit_bits.
  rewrite !insert_bit_bits by assumption.
  destruct (N.ltb_spec k b) as [Hlt|Hge]; [reflexivity|].
  destruct (N.ltb_spec (k + 1) b); [lia|].
  destruct (N.eqb_spec (k + 1) b); [lia|].
  destruct (N.leb_spec (k + 1) 17) as [Hle|Hgt].
  - f_equal. lia.
  - symmetry. apply (@testbit_below i 17 k); auto. lia.
Qed.

(** X7: for every position [b] of the inserted bit, the loop variable
    [i] of [range(2 ** 17)] runs through each address below [2^18] with
    bit [b] clear exactly once. *)
Theorem insert_bit_enumerates b :
  b <= 17 ->
  (forall i, insert_bit i b < 2 ^ 18 /\
             N.testbit (insert_bit i b) b = false) /\
  (forall a, a < 2 ^ 18 -> N.testbit a b = false ->
     exists i, i < 2 ^ 17 /\ insert_bit i b = a /\
               forall j, j < 2 ^ 17 -> insert_bit j b = a -> j = i).
Proof.
  intros Hb. split.
  - intros i. split; [now apply insert_bit_below|].
    rewrite insert_bit_bits by assumption.
    now rewrite N.ltb_irrefl, N.eqb_refl.
  - intros a Ha Hclear.
    destruct (@insert_remove a b Hb Ha Hclear) as [E Hi].
    exists (remove_bit a b). repeat split; auto.
    intros j Hj Hja. rewrite <- Hja. now rewrite remove_insert.
Qed.

Lemma insert_bit_enumerates_witness :
  (forall i, insert_bit i 3 < 2 ^ 18 /\
             N.testbit (insert_bit i 3) 3 = false) /\
  (forall a, a < 2 ^ 18 -> N.testbit a 3 = false ->
     exists i, i < 2 ^ 17 /\ insert_bit i 3 = a /\
               forall j, j < 2 ^ 17 -> insert_bit j 3 = a -> j = i).
Proof.
  apply (insert_bit_enumerates 3). discriminate.
Defined.

(** X8: with a dump of 262144 bytes, each of the six places at which a
    round of the loop indexes the dump exists: no round can fail with
    an [IndexError]. *)
Theorem loop_reads_inside_dump dumpdata i b p :
  N.of_nat (List.length dumpdata) = 262144 -> b < 18 -> p < 8 ->
  let addr := insert_bit i b in
  let bit := N.shiftl 1 b in
  let highzprobeaddrbit :=
    N.shiftl 1 (palpinnum_to_epromaddrbitpos
                  (epromdatabitpos_to_palpinnum p)) in
  Forall (fun a => exists byte,
                     nth_error dumpdata (N.to_nat a) = Some byte /\
                     dump_at dumpdata a = Byte.to_N byte)
         [addr; N.lor addr bit;
          N.ldiff addr highzprobeaddrbit; N.lor addr highzprobeaddrbit;
          N.ldiff (N.lor addr bit) highzprobeaddrbit;
          N.lor (N.lor addr bit) highzprobeaddrbit].
Proof.
  intros Hlen Hb Hp. cbv zeta. rewrite probe_position.
  destruct (probe_addresses_below i b p Hb Hp) as (H1 & H2 & H3 & H4 & H5 & H6).
  cbv zeta in *.
  repeat (constructor; [apply (@dump_at_inside dumpdata _ Hlen); assumption|]).
  constructor.
Qed.

Lemma loop_reads_inside_dump_witness :
  let dumpdata := repeat Byte.x00 (N.to_nat 262144) in
  let addr := insert_bit 70000 9 in
  let bit := N.shiftl 1 9 in
  let highzprobeaddrbit :=
    N.shiftl 1 (palpinnum_to_epromaddrbitpos
                  (epromdatabitpos_to_palpinnum 7)) in
  Forall (fun a => exists byte,
                     nth_error dumpdata (N.to_nat a) = Some byte /\
                     dump_at dumpdata a = Byte.to_N byte)
         [addr; N.lor addr bit;
          N.ldiff addr highzprobeaddrbit; N.lor addr highzprobeaddrbit;
          N.ldiff (N.lor addr bit) highzprobeaddrbit;
          N.lor (N.lor addr bit) highzprobeaddrbit].
Proof.
  apply (loop_reads_inside_dump (repeat Byte.x00 (N.to_nat 262144)) 70000 9 7).
  - rewrite repeat_length. apply N2Nat.id.
  - reflexivity.
  - reflexivity.
Defined.

(** X9: the bits of [depends_map].  Bit [b] of the entry of output pin
    [p] is set exactly when [b] is one of the 18 address bits, is not the
    probe bit [p + 10] of the pin, and there are two addresses below
    [2^18] differing in bit [b] only at both of which the pin is driven
    and at which its level differs. *)
Theorem depends_map_exact dumpdata p b :
  p < 8 ->
  N.testbit (nth (N.to_nat p) (depends_map (discover_dependencies dumpdata)) 0)
            b = true <->
  b < 18 /\ b <> p + 10 /\
  exists a, a < 2 ^ 18 /\ N.testbit a b = false /\
            N.testbit (dump_at dumpdata a) p
            <> N.testbit (dump_at dumpdata (N.lxor a (N.shiftl 1 b))) p /\
            driven dumpdata p a /\
            driven dumpdata p (N.lxor a (N.shiftl 1 b)).
Proof.
  intros Hp. rewrite <- depends_testbit.
  apply (depends_map_spec dumpdata p b Hp).
Qed.

Lemma depends_map_exact_witness :
  N.testbit (nth (N.to_nat 2)
                 (depends_map (discover_dependencies
                                 (repeat Byte.x00 (N.to_nat 262144)))) 0)
            4 = true <->
  4 < 18 /\ 4 <> 2 + 10 /\
  exists a, a < 2 ^ 18 /\ N.testbit a 4 = false /\
            N.testbit (dump_at (repeat Byte.x00 (N.to_nat 262144)) a) 2
            <> N.testbit (dump_at (repeat Byte.x00 (N.to_nat 262144))
                                  (N.lxor a (N.shiftl 1 4))) 2 /\
            driven (repeat Byte.x00 (N.to_nat 262144)) 2 a /\
            driven (repeat Byte.x00 (N.to_nat 262144)) 2
                   (N.lxor a (N.shiftl 1 4)).
Proof.
  apply (depends_map_exact (repeat Byte.x00 (N.to_nat 262144)) 2 4).
  reflexivity.
Defined.

(** *** The loops, for any of the four maps *)

Section Loops.
Variable dumpdata : list Byte.byte.
Variable proj : maps -> list N.
Variable Q : N -> Prop.
Variable ev : N -> N -> N -> Prop.

Hypothesis step : forall b addr st p q,
  List.length (proj st) = 8%nat -> p < 8 -> q < 8 ->
  List.length (proj (probe_output dumpdata b addr st p)) = 8%nat /\
  (Q (nth (N.to_nat q) (proj (probe_output dumpdata b addr st p)) 0) <->
   Q (nth (N.to_nat q) (proj st) 0) \/ (p = q /\ ev b addr p)).

Let sized8 (st : maps) : Prop := List.length (proj st) = 8%nat.
Let holds (q : N) (st : maps) : Prop := Q (nth (N.to_nat q) (proj st) 0).

Lemma fold_left_reaches_in (A S : Type) (f : S -> A -> S) (I P : S -> Prop)
    (R : A -> Prop) (l : list A) :
  (forall st x, In x l -> I st -> I (f st x)) ->
  (forall st x, In x l -> I st -> (P (f st x) <-> P st \/ R x)) ->
  forall init, I init ->
    I (fold_left f l init) /\
    (P (fold_left f l init) <-> P init \/ exists x, In x l /\ R x).
Proof.
  induction l as [|x l IH]; intros HI HP init Hinit; simpl.
  - split; auto. split; auto. intros [H|(x & [] & _)]; auto.
  - destruct (IH (fun st y Hy => HI st y (or_intror Hy))
                 (fun st y Hy => HP st y (or_intror Hy))
                 (f init x) (HI _ _ (or_introl eq_refl) Hinit)) as [Hi Hq].
    split; auto.
    rewrite Hq, (HP init x (or_introl eq_refl) Hinit). split.
    + intros [[H|H]|(y & Hy & Hr)]; eauto.
    + intros [H|(y & [<-|Hy] & Hr)]; eauto.
Qed.

Lemma probe_bit_reach i st b q :
  sized8 st -> q < 8 ->
  sized8 (probe_bit dumpdata i st b) /\
  (holds q (probe_bit dumpdata i st b) <->
   holds q st \/ ev b (insert_bit i b) q).
Proof.
  intros Hs Hq. unfold probe_bit.
  destruct (fold_left_reaches_in N maps
              (probe_output dumpdata b (insert_bit i b))
              sized8 (holds q)
              (fun p => p = q /\ ev b (insert_bit i b) p)
              (range 8)) with (init := st) as [Hi Hd]; auto.
  - intros s p Hin Hsz. apply range_In in Hin.
    apply (step b (insert_bit i b) s p q Hsz Hin Hq).
  - intros s p Hin Hsz. apply range_In in Hin.
    apply (step b (insert_bit i b) s p q Hsz Hin Hq).
  - split; auto. rewrite Hd. split.
    + intros [H|(p & _ & -> & H)]; auto.
    + intros [H|H]; auto. right. exists q. split; auto.
      apply range_In. exact Hq.
Qed.

Lemma probe_address_reach st i q :
  sized8 st -> q < 8 ->
  sized8 (probe_address dumpdata st i) /\
  (holds q (probe_address dumpdata st i) <->
   holds q st \/ exists b, b < 18 /\ ev b (insert_bit i b) q).
Proof.
  intros Hs Hq. unfold probe_address.
  destruct (fold_left_reaches_in N maps (probe_bit dumpdata i)
              sized8 (holds q)
              (fun b => ev b (insert_bit i b) q)
              (range 18)) with (init := st) as [Hi Hd]; auto.
  - intros s b _ Hsz. now apply (probe_bit_reach i s b q Hsz Hq).
  - intros s b _ Hsz. now apply (probe_bit_reach i s b q Hsz Hq).
  - split; auto. rewrite Hd. split.
    + intros [H|(b & Hb & H)]; auto. right. exists b. split; auto.
      now apply range_In.
    + intros [H|(b & Hb & H)]; auto. right. exists b. split; auto.
      now apply range_In.
Qed.

Lemma loops_reach q :
  q < 8 -> List.length (proj initial_maps) = 8%nat ->
  Q (nth (N.to_nat q) (proj (discover_dependencies dumpdata)) 0) <->
  Q (nth (N.to_nat q) (proj initial_maps) 0) \/
  exists b i, b < 18 /\ i < 2 ^ 17 /\ ev b (insert_bit i b) q.
Proof.
  intros Hq Hinit. unfold discover_dependencies.
  destruct (fold_left_reaches_in N maps (probe_address dumpdata)
              sized8 (holds q)
              (fun i => exists b, b < 18 /\ ev b (insert_bit i b) q)
              (range (2 ^ 17))) with (init := initial_maps) as [Hi Hd]; auto.
  - intros s i _ Hsz. now apply (probe_address_reach s i q Hsz Hq).
  - intros s i _ Hsz. now apply (probe_address_reach s i q Hsz Hq).
  - unfold holds in Hd. rewrite Hd. split.
    + intros [H|(i & Hi' & b & Hb & H)]; auto. right. exists b, i.
      repeat split; auto. now apply range_In.
    + intros [H|(b & i & Hb & Hi' & H)]; auto. right. exists i. split.
      * now apply range_In.
      * exists b. auto.
Qed.

End Loops.

(** *** One round, as the code computes it *)

(** [highz_on_bitclear] and [highz_on_bitset]: the probe comparison at
    the address [x]. *)
Definition highz_on (dumpdata : list Byte.byte) (x p : N) : bool :=
  let highzprobeaddrbit :=
    N.shiftl 1 (palpinnum_to_epromaddrbitpos
                  (epromdatabitpos_to_palpinnum p)) in
  negb (N.land (dump_at dumpdata (N.ldiff x highzprobeaddrbit)) (N.shiftl 1 p)
        =? N.land (dump_at dumpdata (N.lor x highzprobeaddrbit))
                  (N.shiftl 1 p)).

Lemma highz_on_driven dumpdata x p :
  highz_on dumpdata x p = false <-> driven dumpdata p x.
Proof.
  unfold highz_on. cbv zeta. rewrite probe_position, land_bit_eqb.
  rewrite negb_false_iff. apply probe_driven.
Qed.

Lemma land_bit_zero x p :
  N.land x (N.shiftl 1 p) = 0 <-> N.testbit x p = false.
Proof.
  split.
  - intros H. apply (f_equal (fun z => N.testbit z p)) in H.
    rewrite N.land_spec, bit_bits, N.eqb_refl, andb_true_r, N.bits_0 in H.
    exact H.
  - intros H. apply N.bits_inj. intros k.
    rewrite N.land_spec, bit_bits, N.bits_0.
    destruct (N.eqb_spec p k) as [<-|_]; [now rewrite H|apply andb_false_r].
Qed.

Lemma nth_default_zero k : nth k (repeat 0 8) 0 = 0.
Proof.
  destruct (nth_in_or_default k (repeat 0 8) 0) as [Hn|Hn]; [|exact Hn].
  now apply repeat_spec in Hn.
Qed.

Lemma oe_seen data outputpinbit outputpinbitpos st :
  oe_depends_map (seen data outputpinbit outputpinbitpos st)
  = oe_depends_map st.
Proof. unfold seen. destruct (_ =? 0); reflexivity. Qed.

(** What a round does to [oe_depends_map]. *)
Lemma probe_output_oe dumpdata bitpos addr st p :
  oe_depends_map (probe_output dumpdata bitpos addr st p) =
  if negb (epromaddrbitpos_to_palpinnum bitpos
           =? epromdatabitpos_to_palpinnum p)
     && negb (Bool.eqb (highz_on dumpdata addr p)
                       (highz_on dumpdata (N.lor addr (N.shiftl 1 bitpos)) p))
  then or_at p (N.shiftl 1 bitpos) (oe_depends_map st)
  else oe_depends_map st.
Proof.
  unfold probe_output, highz_on. cbv zeta.
  destruct (epromaddrbitpos_to_palpinnum bitpos
            =? epromdatabitpos_to_palpinnum p); [reflexivity|].
  cbn [negb andb].
  repeat match goal with
         | |- context [if ?c then _ else _] =>
             match c with
             | context [if _ then _ else _] => fail 1
             | _ => destruct c eqn:?
             end
         end;
    rewrite ?oe_seen; cbn [oe_depends_map]; try reflexivity;
    try discriminate.
Qed.

Lemma oe_step dumpdata k b addr st p q :
  List.length (oe_depends_map st) = 8%nat -> p < 8 -> q < 8 ->
  List.length (oe_depends_map (probe_output dumpdata b addr st p)) = 8%nat /\
  (N.testbit (nth (N.to_nat q)
                  (oe_depends_map (probe_output dumpdata b addr st p)) 0) k
   = true <->
   N.testbit (nth (N.to_nat q) (oe_depends_map st) 0) k = true \/
   (p = q /\ (k = b /\ b <> p + 10 /\
              highz_on dumpdata addr p
              <> highz_on dumpdata (N.lor addr (N.shiftl 1 b)) p))).
Proof.
  intros Hs Hp Hq. rewrite probe_output_oe.
  destruct (epromaddrbitpos_to_palpinnum b =? epromdatabitpos_to_palpinnum p)
    eqn:Eskip.
  - cbn [negb andb]. split; auto. split; auto.
    intros [H|(_ & _ & Hne & _)]; auto. exfalso. apply Hne.
    unfold epromaddrbitpos_to_palpinnum, epromdatabitpos_to_palpinnum in Eskip.
    apply N.eqb_eq in Eskip. destruct (N.leb_spec b 8); lia.
  - cbn [negb andb].
    assert (Hne: b <> p + 10).
    { intros ->. apply N.eqb_neq in Eskip. apply Eskip.
      unfold epromaddrbitpos_to_palpinnum, epromdatabitpos_to_palpinnum.
      destruct (N.leb_spec (p + 10) 8); lia. }
    destruct (Bool.eqb (highz_on dumpdata addr p)
                (highz_on dumpdata (N.lor addr (N.shiftl 1 b)) p)) eqn:E.
    + cbn [negb]. split; auto. split; auto.
      intros [H|(_ & _ & _ & Hd)]; auto. exfalso. apply Hd.
      now apply Bool.eqb_prop.
    + cbn [negb]. apply Bool.eqb_false_iff in E.
      unfold or_at. rewrite length_set_at. split; auto.
      rewrite nth_set_at, Hs.
      destruct (Nat.eqb_spec (N.to_nat q) (N.to_nat p)) as [Hpq|Hpq].
      * apply N2Nat.inj in Hpq. subst q.
        replace (N.to_nat p <? 8)%nat with true
          by (symmetry; apply Nat.ltb_lt; lia).
        cbn [andb]. rewrite N.lor_spec, bit_bits, orb_true_iff, N.eqb_eq.
        split.
        -- intros [H|H]; [now left|]. right. repeat split; auto.
        -- intros [H|(_ & H & _)]; [now left|]. right. auto.
      * cbn [andb]. split; auto. intros [H|(-> & _)]; auto.
Qed.

(** X10: the bits of [oe_depends_map].  Bit [b] of the entry of output
    pin [p] is set exactly when [b] is an address bit other than the
    probe bit of the pin and there are two addresses below [2^18]
    differing in bit [b] only such that the pin is driven at one of them
    and in high-Z state at the other. *)
Theorem oe_depends_map_exact dumpdata p b :
  p < 8 ->
  N.testbit (nth (N.to_nat p)
                 (oe_depends_map (discover_dependencies dumpdata)) 0) b
  = true <->
  b < 18 /\ b <> p + 10 /\
  exists a, a < 2 ^ 18 /\ N.testbit a b = false /\
            ~ (driven dumpdata p a <->
               driven dumpdata p (N.lxor a (N.shiftl 1 b))).
Proof.
  intros Hp.
  rewrite (loops_reach dumpdata oe_depends_map
             (fun v => N.testbit v b = true)
             (fun b' addr q =>
                b = b' /\ b' <> q + 10 /\
                highz_on dumpdata addr q
                <> highz_on dumpdata (N.lor addr (N.shiftl 1 b')) q)
             (oe_step dumpdata b) p Hp eq_refl).
  cbn [initial_maps oe_depends_map]. rewrite nth_default_zero, N.bits_0.
  assert (Hiff: forall x y,
             highz_on dumpdata x p <> highz_on dumpdata y p <->
             ~ (driven dumpdata p x <-> driven dumpdata p y)).
  { intros x y. rewrite <- !highz_on_driven.
    destruct (highz_on dumpdata x p), (highz_on dumpdata y p);
      intuition congruence. }
  split.
  - intros [H|(b' & i & Hb & Hi & <- & Hne & Hd)]; [discriminate|].
    split; auto. split; auto. exists (insert_bit i b).
    assert (Hclear: N.testbit (insert_bit i b) b = false).
    { rewrite insert_bit_bits by lia.
      now rewrite N.ltb_irrefl, N.eqb_refl. }
    split; [apply insert_bit_below; lia|]. split; auto.
    rewrite <- (lor_clear _ _ Hclear). now apply Hiff.
  - intros (Hb & Hne & a & Ha & Hclear & Hd). right.
    destruct (@insert_remove a b) as [E Hi]; auto; [lia|].
    exists b, (remove_bit a b). repeat split; auto.
    rewrite E, (lor_clear _ _ Hclear). now apply Hiff.
Qed.

Lemma oe_depends_map_exact_witness :
  N.testbit (nth (N.to_nat 7)
                 (oe_depends_map (discover_dependencies
                                    (repeat Byte.x00 (N.to_nat 262144)))) 0)
            0 = true <->
  0 < 18 /\ 0 <> 7 + 10 /\
  exists a, a < 2 ^ 18 /\ N.testbit a 0 = false /\
            ~ (driven (repeat Byte.x00 (N.to_nat 262144)) 7 a <->
               driven (repeat Byte.x00 (N.to_nat 262144)) 7
                      (N.lxor a (N.shiftl 1 0))).
Proof.
  apply (oe_depends_map_exact (repeat Byte.x00 (N.to_nat 262144)) 7 0).
  reflexivity.
Defined.

(** *** The levels seen *)

Lemma seen_low_lists data outputpinbit p st :
  seen_low_output (seen data outputpinbit p st)
  = (if N.land data outputpinbit =? 0
     then set_at (N.to_nat p) 1 (seen_low_output st)
     else seen_low_output st) /\
  seen_high_output (seen data outputpinbit p st)
  = (if N.land data outputpinbit =? 0
     then seen_high_output st
     else set_at (N.to_nat p) 1 (seen_high_output st)).
Proof. unfold seen. destruct (_ =? 0); split; reflexivity. Qed.

(** What a round does to the two lists of seen levels. *)
Lemma probe_output_seen dumpdata bitpos addr st p :
  let bit := N.shiftl 1 bitpos in
  let outputpinbit := N.shiftl 1 p in
  let mark (c : bool) (data : N) (st : maps) :=
    if negb c then seen data outputpinbit p st else st in
  let st' :=
    if epromaddrbitpos_to_palpinnum bitpos =? epromdatabitpos_to_palpinnum p
    then st
    else mark (highz_on dumpdata (N.lor addr bit) p)
              (dump_at dumpdata (N.lor addr bit))
              (mark (highz_on dumpdata addr p) (dump_at dumpdata addr) st) in
  seen_low_output (probe_output dumpdata bitpos addr st p)
  = seen_low_output st' /\
  seen_high_output (probe_output dumpdata bitpos addr st p)
  = seen_high_output st'.
Proof.
  unfold probe_output, highz_on. cbv zeta.
  destruct (epromaddrbitpos_to_palpinnum bitpos
            =? epromdatabitpos_to_palpinnum p); [split; reflexivity|].
  repeat match goal with
         | |- context [if ?c then _ else _] =>
             match c with
             | context [if _ then _ else _] => fail 1
             | _ => destruct c eqn:?
             end
         end;
    cbn [negb andb]; unfold seen;
    repeat match goal with
           | |- context [if ?c then _ else _] => destruct c
           end;
    split; reflexivity.
Qed.

Section Seen.
Variable dumpdata : list Byte.byte.
Variable Q : N -> Prop.
Hypothesis Q_one : Q 1.

(** The round sees level [low] (for [low = true]: a low level) on a
    driven pin. *)
Definition sees (low : bool) (b addr p : N) : Prop :=
  b <> p + 10 /\
  ((driven dumpdata p addr /\
    N.testbit (dump_at dumpdata addr) p = negb low) \/
   (driven dumpdata p (N.lor addr (N.shiftl 1 b)) /\
    N.testbit (dump_at dumpdata (N.lor addr (N.shiftl 1 b))) p = negb low)).

Lemma set_at_one (l : list N) p q :
  List.length l = 8%nat -> p < 8 ->
  Q (nth (N.to_nat q) (set_at (N.to_nat p) 1 l) 0) <->
  Q (nth (N.to_nat q) l 0) \/ p = q.
Proof.
  intros Hl Hp. rewrite nth_set_at, Hl.
  destruct (Nat.eqb_spec (N.to_nat q) (N.to_nat p)) as [Hpq|Hpq].
  - apply N2Nat.inj in Hpq. subst q.
    replace (N.to_nat p <? 8)%nat with true
      by (symmetry; apply Nat.ltb_lt; lia).
    cbn [andb]. split; auto.
  - cbn [andb]. split; auto. intros [H|H]; auto. congruence.
Qed.

Lemma skip_iff b p :
  (epromaddrbitpos_to_palpinnum b =? epromdatabitpos_to_palpinnum p) = false
  <-> b <> p + 10.
Proof.
  rewrite N.eqb_neq.
  unfold epromaddrbitpos_to_palpinnum, epromdatabitpos_to_palpinnum.
  destruct (N.leb_spec b 8); lia.
Qed.

Lemma low_step b addr st p q :
  List.length (seen_low_output st) = 8%nat -> p < 8 -> q < 8 ->
  List.length (seen_low_output (probe_output dumpdata b addr st p)) = 8%nat /\
  (Q (nth (N.to_nat q)
          (seen_low_output (probe_output dumpdata b addr st p)) 0) <->
   Q (nth (N.to_nat q) (seen_low_output st) 0) \/
   (p = q /\ sees true b addr p)).
Proof.
  intros Hs Hp Hq.
  destruct (probe_output_seen dumpdata b addr st p) as [-> _]. cbv zeta.
  unfold sees. rewrite <- skip_iff, <- !highz_on_driven, <- !land_bit_zero.
  destruct (epromaddrbitpos_to_palpinnum b =? epromdatabitpos_to_palpinnum p).
  { split; auto. split; auto. intros [H|(_ & H & _)]; auto. discriminate. }
  destruct (highz_on dumpdata addr p);
    destruct (highz_on dumpdata (N.lor addr (N.shiftl 1 b)) p);
    cbn [negb];
    rewrite ?(proj1 (seen_low_lists _ _ _ _));
    repeat match goal with
           | |- context [N.land ?x ?y =? 0] =>
               destruct (N.eqb_spec (N.land x y) 0)
           end;
    rewrite ?length_set_at; (split; [assumption|]);
    rewrite ?set_at_one by (rewrite ?length_set_at; assumption);
    intuition congruence.
Qed.

Lemma high_step b addr st p q :
  List.length (seen_high_output st) = 8%nat -> p < 8 -> q < 8 ->
  List.length (seen_high_output (probe_output dumpdata b addr st p)) = 8%nat /\
  (Q (nth (N.to_nat q)
          (seen_high_output (probe_output dumpdata b addr st p)) 0) <->
   Q (nth (N.to_nat q) (seen_high_output st) 0) \/
   (p = q /\ sees false b addr p)).
Proof.
  intros Hs Hp Hq.
  destruct (probe_output_seen dumpdata b addr st p) as [_ ->]. cbv zeta.
  unfold sees. rewrite <- skip_iff, <- !highz_on_driven.
  cbn [negb]. rewrite <- !not_false_iff_true, <- !land_bit_zero.
  destruct (epromaddrbitpos_to_palpinnum b =? epromdatabitpos_to_palpinnum p).
  { split; auto. split; auto. intros [H|(_ & H & _)]; auto. discriminate. }
  destruct (highz_on dumpdata addr p);
    destruct (highz_on dumpdata (N.lor addr (N.shiftl 1 b)) p);
    cbn [negb];
    rewrite ?(proj2 (seen_low_lists _ _ _ _));
    repeat match goal with
           | |- context [N.land ?x ?y =? 0] =>
               destruct (N.eqb_spec (N.land x y) 0)
           end;
    rewrite ?length_set_at; (split; [assumption|]);
    rewrite ?set_at_one by (rewrite ?length_set_at; assumption);
    intuition congruence.
Qed.

(** Some address below [2^18] is visited by a round that looks at pin
    [p]. *)
Lemma sees_somewhere low p :
  p < 8 ->
  (exists b i, b < 18 /\ i < 2 ^ 17 /\ sees low b (insert_bit i b) p) <->
  exists a, a < 2 ^ 18 /\ driven dumpdata p a /\
            N.testbit (dump_at dumpdata a) p = negb low.
Proof.
  intros Hp. split.
  - intros (b & i & Hb & Hi & _ & [[Hd Hl]|[Hd Hl]]).
    + exists (insert_bit i b). split; auto. apply insert_bit_below. lia.
    + exists (N.lor (insert_bit i b) (N.shiftl 1 b)). split; auto.
      apply lor_bit_below; [apply insert_bit_below; lia|lia].
  - intros (a & Ha & Hd & Hl). exists 0.
    destruct (N.testbit a 0) eqn:E.
    + assert (Hx: N.testbit (N.lxor a (N.shiftl 1 0)) 0 = false)
        by (now rewrite lxor_bit_flips, E).
      assert (Hxa: N.lxor a (N.shiftl 1 0) < 2 ^ 18)
        by (apply lxor_bit_below; [assumption|lia]).
      assert (H17: 0 <= 17) by lia.
      destruct (@insert_remove _ 0 H17 Hxa Hx) as [Ei Hi].
      exists (remove_bit (N.lxor a (N.shiftl 1 0)) 0).
      split; [lia|]. split; auto. split; [lia|]. right.
      rewrite Ei, (lor_clear _ _ Hx), lxor_bit_twice. auto.
    + assert (H17: 0 <= 17) by lia.
      destruct (@insert_remove a 0 H17 Ha E) as [Ei Hi].
      exists (remove_bit a 0). split; [lia|]. split; auto. split; [lia|].
      left. rewrite Ei. auto.
Qed.

Lemma seen_reach (low : bool) p :
  p < 8 -> ~ Q 0 ->
  Q (nth (N.to_nat p)
         ((if low then seen_low_output else seen_high_output)
            (discover_dependencies dumpdata)) 0) <->
  exists a, a < 2 ^ 18 /\ driven dumpdata p a /\
            N.testbit (dump_at dumpdata a) p = negb low.
Proof.
  intros Hp Hzero. rewrite <- (sees_somewhere low p Hp). destruct low.
  - rewrite (loops_reach dumpdata seen_low_output Q (sees true)
               low_step p Hp eq_refl).
    cbn [initial_maps seen_low_output]. rewrite nth_default_zero. tauto.
  - rewrite (loops_reach dumpdata seen_high_output Q (sees false)
               high_step p Hp eq_refl).
    cbn [initial_maps seen_high_output]. rewrite nth_default_zero. tauto.
Qed.

End Seen.

(** X11: the two lists of seen levels.  The entry of output pin [p] in
    [seen_low_output] is 1 when the pin is driven low at some address
    below [2^18] and 0 otherwise; [seen_high_output] is the same for a
    high level.  So both entries are 0 exactly for a pin that is in
    high-Z state at every address. *)
Theorem seen_levels_exact dumpdata p :
  p < 8 ->
  (nth (N.to_nat p) (seen_low_output (discover_dependencies dumpdata)) 0 = 0 \/
   nth (N.to_nat p) (seen_low_output (discover_dependencies dumpdata)) 0 = 1) /\
  (nth (N.to_nat p) (seen_high_output (discover_dependencies dumpdata)) 0 = 0 \/
   nth (N.to_nat p) (seen_high_output (discover_dependencies dumpdata)) 0 = 1) /\
  (nth (N.to_nat p) (seen_low_output (discover_dependencies dumpdata)) 0 = 1
   <-> exists a, a < 2 ^ 18 /\ driven dumpdata p a /\
                 N.testbit (dump_at dumpdata a) p = false) /\
  (nth (N.to_nat p) (seen_high_output (discover_dependencies dumpdata)) 0 = 1
   <-> exists a, a < 2 ^ 18 /\ driven dumpdata p a /\
                 N.testbit (dump_at dumpdata a) p = true).
Proof.
  intros Hp.
  pose proof (seen_reach dumpdata (fun v => v = 1) eq_refl true p Hp
                ltac:(discriminate)) as L1.
  pose proof (seen_reach dumpdata (fun v => v <> 0) ltac:(discriminate)
                true p Hp ltac:(congruence)) as L0.
  pose proof (seen_reach dumpdata (fun v => v = 1) eq_refl false p Hp
                ltac:(discriminate)) as H1.
  pose proof (seen_reach dumpdata (fun v => v <> 0) ltac:(discriminate)
                false p Hp ltac:(congruence)) as H0.
  cbn [negb] in *. cbv beta in *. split; [|split; [|split]]; auto.
  - destruct (N.eq_dec
                (nth (N.to_nat p)
                     (seen_low_output (discover_dependencies dumpdata)) 0) 0)
      as [E|E]; [now left|]. right. apply L1. apply L0. exact E.
  - destruct (N.eq_dec
                (nth (N.to_nat p)
                     (seen_high_output (discover_dependencies dumpdata)) 0) 0)
      as [E|E]; [now left|]. right. apply H1. apply H0. exact E.
Qed.

Lemma seen_levels_exact_witness :
  (nth (N.to_nat 0) (seen_low_output 
          (discover_dependencies (repeat Byte.x00 (N.to_nat 262144)))) 0 = 0 \/
   nth (N.to_nat 0) (seen_low_output 
          (discover_dependencies (repeat Byte.x00 (N.to_nat 262144)))) 0 = 1) /\
  (nth (N.to_nat 0) (seen_high_output 
          (discover_dependencies (repeat Byte.x00 (N.to_nat 262144)))) 0 = 0 \/
   nth (N.to_nat 0) (seen_high_output 
          (discover_dependencies (repeat Byte.x00 (N.to_nat 262144)))) 0 = 1) /\
  (nth (N.to_nat 0) (seen_low_output 
          (discover_dependencies (repeat Byte.x00 (N.to_nat 262144)))) 0 = 1
   <-> exists a, a < 2 ^ 18 /\
                 driven (repeat Byte.x00 (N.to_nat 262144)) 0 a /\
                 N.testbit (dump_at (repeat Byte.x00 (N.to_nat 262144)) a) 0
                 = false) /\
  (nth (N.to_nat 0) (seen_high_output 
          (discover_dependencies (repeat Byte.x00 (N.to_nat 262144)))) 0 = 1
   <-> exists a, a < 2 ^ 18 /\
                 driven (repeat Byte.x00 (N.to_nat 262144)) 0 a /\
                 N.testbit (dump_at (repeat Byte.x00 (N.to_nat 262144)) a) 0
                 = true).
Proof.
  apply (seen_levels_exact (repeat Byte.x00 (N.to_nat 262144)) 0).
  reflexivity.
Defined.

#[local] Set Implicit Arguments.

End PeteMaps.

(** ** pete.py: [iterate_mask] *)

Module IterateMask.
Import Facts Pete PeteHelpers PeteDepends PeteMaps.
Open Scope N_scope.
Open Scope list_scope.

(** The positions [j .. j + d - 1]. *)
Definition positions (j d : nat) : list N := map N.of_nat (seq j d).

(** The positions of the set bits of [mask] among them. *)
Definition set_positions (mask : N) (j d : nat) : list N :=
  filter (N.testbit mask) (positions j d).

Lemma land_bit_nonzero mask j :
  negb (N.land mask (N.shiftl 1 j) =? 0) = N.testbit mask j.
Proof.
  destruct (N.testbit mask j) eqn:E.
  - apply negb_true_iff, N.eqb_neq. intros H.
    apply land_bit_zero in H. congruence.
  - apply negb_false_iff, N.eqb_eq. now apply land_bit_zero.
Qed.

Lemma bit_le_mask mask j :
  0 < mask -> (N.shiftl 1 j <=? mask) = (j <? N.size mask).
Proof.
  intros Hm. rewrite N.shiftl_1_l, N.size_log2 by lia.
  destruct (N.ltb_spec j (N.succ (N.log2 mask))) as [H|H].
  - apply N.leb_le. apply N.log2_le_pow2; lia.
  - apply N.leb_gt. apply N.log2_lt_pow2; lia.
Qed.

(** The [while] loop started at bit [j] with [d] positions to go. *)
Lemma mask_bits_run mask d :
  0 < mask ->
  forall j fuel bits,
    (j + d = N.to_nat (N.size mask))%nat -> (d < fuel)%nat ->
    mask_bits fuel mask (N.shiftl 1 (N.of_nat j)) bits
    = Some (bits ++ map (N.shiftl 1) (set_positions mask j d)).
Proof.
  intros Hm. induction d as [|d IH]; intros j fuel bits Hj Hf.
  - destruct fuel as [|fuel]; [lia|]. cbn [mask_bits].
    rewrite bit_le_mask by assumption.
    destruct (N.ltb_spec (N.of_nat j) (N.size mask)); [lia|].
    now rewrite app_nil_r.
  - destruct fuel as [|fuel]; [lia|]. cbn [mask_bits].
    rewrite bit_le_mask by assumption.
    destruct (N.ltb_spec (N.of_nat j) (N.size mask)); [|lia].
    rewrite N.shiftl_shiftl, land_bit_nonzero.
    replace (N.of_nat j + 1) with (N.of_nat (S j)) by lia.
    rewrite IH by lia. unfold set_positions, positions.
    cbn [seq map filter].
    destruct (N.testbit mask (N.of_nat j)); cbn [map].
    + now rewrite <- app_assoc.
    + reflexivity.
Qed.

(** The bits of a yielded value. *)
Lemma scatter_fold n i ps :
  forall r j,
    N.testbit
      (fst (fold_left
              (fun (st : N * N) bit =>
                 let '(r, srcmask) := st in
                 (if negb (N.land n srcmask =? 0) then N.lor r bit else r,
                  N.shiftl srcmask 1))
              (map (N.shiftl 1) ps) (r, N.shiftl 1 j))) i = true <->
    N.testbit r i = true \/
    exists idx, nth_error ps idx = Some i /\
                N.testbit n (j + N.of_nat idx) = true.
Proof.
  induction ps as [|pos ps IH]; intros r j; cbn [map fold_left].
  - cbn [fst]. split; auto. intros [H|(idx & H & _)]; auto. destruct idx; discriminate.
  - rewrite N.shiftl_shiftl, IH, land_bit_nonzero. split.
    + intros [H|(idx & Hn & Ht)].
      * destruct (N.testbit n j) eqn:E; auto.
        rewrite N.lor_spec, bit_bits, orb_true_iff, N.eqb_eq in H.
        destruct H as [H|H]; auto. right. exists 0%nat. subst i.
        split; auto. now rewrite N.add_0_r.
      * right. exists (S idx). split; auto.
        replace (j + N.of_nat (S idx)) with (j + 1 + N.of_nat idx) by lia.
        exact Ht.
    + intros [H|([|idx] & Hn & Ht)].
      * left. destruct (N.testbit n j); auto.
        rewrite N.lor_spec, H. reflexivity.
      * left. simpl in Hn. injection Hn as ->. rewrite N.add_0_r in Ht.
        rewrite Ht, N.lor_spec, bit_bits, N.eqb_refl. apply orb_true_r.
      * right. exists idx. split; auto.
        replace (j + 1 + N.of_nat idx) with (j + N.of_nat (S idx)) by lia.
        exact Ht.
Qed.

Lemma scatter_bits ps n i :
  N.testbit (scatter (map (N.shiftl 1) ps) n) i = true <->
  exists idx, nth_error ps idx = Some i /\ N.testbit n (N.of_nat idx) = true.
Proof.
  unfold scatter. change 1 with (N.shiftl 1 0) at 3.
  rewrite scatter_fold, N.bits_0. split.
  - intros [H|H]; [discriminate|exact H].
  - intros H. right. exact H.
Qed.

(** The number whose bit [idx] is bit [ps[idx]] of [r]. *)
Fixpoint gather (ps : list N) (r : N) : N :=
  match ps with
  | [] => 0
  | pos :: ps' => N.b2n (N.testbit r pos) + 2 * gather ps' r
  end.

Lemma gather_bits ps r :
  forall idx,
    N.testbit (gather ps r) (N.of_nat idx)
    = match nth_error ps idx with
      | Some pos => N.testbit r pos
      | None => false
      end.
Proof.
  induction ps as [|pos ps IH]; intros idx; cbn [gather].
  - rewrite N.bits_0. destruct idx; reflexivity.
  - destruct idx as [|idx].
    + cbn [nth_error N.of_nat]. rewrite N.add_comm. apply N.testbit_0_r.
    + rewrite Nat2N.inj_succ. cbn [nth_error]. rewrite N.add_comm.
      rewrite N.testbit_succ_r. apply IH.
Qed.

Lemma gather_below ps r : gather ps r < 2 ^ N.of_nat (List.length ps).
Proof.
  induction ps as [|pos ps IH]; cbn [List.length gather].
  - reflexivity.
  - rewrite Nat2N.inj_succ, N.pow_succ_r'.
    destruct (N.testbit r pos); cbn [N.b2n]; lia.
Qed.

Lemma set_positions_In mask j d i :
  In i (set_positions mask j d) <->
  N.of_nat j <= i < N.of_nat (j + d) /\ N.testbit mask i = true.
Proof.
  unfold set_positions, positions. rewrite filter_In, in_map_iff. split.
  - intros ((k & <- & Hk) & Ht). apply in_seq in Hk. split; auto. lia.
  - intros (Hi & Ht). split; auto. exists (N.to_nat i). split; [lia|].
    apply in_seq. lia.
Qed.

Lemma set_positions_nodup mask j d : NoDup (set_positions mask j d).
Proof.
  apply NoDup_filter. unfold positions.
  apply NoDup_map_NoDup_ForallPairs; [|apply seq_NoDup].
  intros a b _ _ H. lia.
Qed.

(** As many positions as [mask] has set bits. *)
Lemma set_positions_length d :
  forall mask, mask < 2 ^ N.of_nat d ->
    List.length (set_positions mask 0 d) = bit_count mask.
Proof.
  induction d as [|d IH]; intros mask Hm.
  - simpl in Hm. assert (mask = 0) by lia. now subst.
  - unfold set_positions, positions. rewrite <- cons_seq, <- seq_shift.
    rewrite map_cons, map_map. cbn [filter].
    change (N.of_nat 0) with 0.
    assert (Hd: N.div2 mask < 2 ^ N.of_nat d).
    { rewrite Nat2N.inj_succ, N.pow_succ_r' in Hm.
      rewrite N.div2_div. apply N.Div0.div_lt_upper_bound. lia. }
    assert (E: filter (N.testbit mask) (map (fun x => N.of_nat (S x)) (seq 0 d))
               = map N.succ (set_positions (N.div2 mask) 0 d)).
    { unfold set_positions, positions.
      induction (seq 0 d) as [|x l IHl]; cbn [map filter]; auto.
      rewrite Nat2N.inj_succ.
      rewrite (N.testbit_succ_r_div2 mask (N.of_nat x)) by lia.
      destruct (N.testbit (N.div2 mask) (N.of_nat x)); cbn [map];
        now rewrite IHl. }
    rewrite E.
    assert (L: List.length (map N.succ (set_positions (N.div2 mask) 0 d))
               = bit_count (N.div2 mask))
      by (rewrite length_map; now apply IH).
    assert (Hbc: bit_count mask
                 = if N.testbit mask 0 then S (bit_count (N.div2 mask))
                   else bit_count (N.div2 mask)).
    { generalize (N_binary_cases mask). generalize (N.div2 mask).
      intros h [Hb|Hb]; rewrite Hb.
      - rewrite bit_count_double, N.double_spec, N.testbit_even_0.
        reflexivity.
      - rewrite bit_count_succ_double, N.succ_double_spec, N.testbit_odd_0.
        reflexivity. }
    rewrite Hbc. destruct (N.testbit mask 0); cbn [List.length];
      now rewrite L.
Qed.

Lemma nth_error_lt A (l : list A) idx x :
  nth_error l idx = Some x -> (idx < List.length l)%nat.
Proof. intros H. apply nth_error_Some. congruence. Qed.

(** X12: the values of [iterate_mask].  For [mask = 0] the generator
    yields nothing, not even 0.  For a positive [mask] it yields the
    numbers [r] with [r & mask = r], each once: as many values as 2 to
    the number of set bits of [mask]. *)
Theorem iterate_mask_values mask :
  exists values,
    iterate_mask mask = Some values /\
    (mask = 0 -> values = []) /\
    (0 < mask ->
     (forall r, In r values <-> N.land r mask = r) /\
     NoDup values /\
     List.length values = (2 ^ bit_count mask)%nat).
Proof.
  unfold iterate_mask. destruct (N.ltb_spec mask 1) as [H0|H1].
  - exists []. repeat split; auto; intros; lia.
  - assert (Hm: 0 < mask) by lia.
    set (d := N.to_nat (N.size mask)).
    change 1 with (N.shiftl 1 (N.of_nat 0)) at 1.
    rewrite (@mask_bits_run mask d Hm 0 (S d) []) by (auto; lia).
    set (ps := set_positions mask 0 d). cbn [app].
    rewrite length_map.
    eexists. split; [reflexivity|]. split; [lia|]. intros _.
    assert (Hps: forall i, In i ps <-> N.testbit mask i = true).
    { intros i. unfold ps. rewrite set_positions_In. split; [tauto|].
      intros Ht. split; auto. split; [lia|]. unfold d.
      destruct (N.lt_ge_cases i (N.size mask)) as [Hlt|Hge]; [lia|].
      rewrite (@testbit_below mask (N.size mask) i) in Ht;
        [discriminate|apply N.size_gt|assumption]. }
    assert (Hnd: NoDup ps) by apply set_positions_nodup.
    split; [|split].
    + intros r. rewrite in_map_iff. split.
      * intros (n & <- & _). apply N.bits_inj. intros i.
        rewrite N.land_spec.
        destruct (N.testbit (scatter (map (N.shiftl 1) ps) n) i) eqn:E;
          [|reflexivity].
        apply scatter_bits in E. destruct E as (idx & Hidx & _).
        apply nth_error_In, Hps in Hidx. now rewrite Hidx.
      * intros Hr. exists (gather ps r). split.
        -- apply N.bits_inj. intros i.
           destruct (N.testbit r i) eqn:E.
           ++ apply scatter_bits.
              assert (Hi: In i ps).
              { apply Hps. apply (f_equal (fun z => N.testbit z i)) in Hr.
                rewrite N.land_spec, E in Hr. simpl in Hr. exact Hr. }
              apply In_nth_error in Hi. destruct Hi as (idx & Hidx).
              exists idx. split; auto. now rewrite gather_bits, Hidx.
           ++ destruct (N.testbit (scatter (map (N.shiftl 1) ps)
                                           (gather ps r)) i) eqn:E';
                [|reflexivity].
              apply scatter_bits in E'. destruct E' as (idx & Hidx & Ht).
              rewrite gather_bits, Hidx in Ht. congruence.
        -- apply range_In. apply gather_below.
    + apply NoDup_map_NoDup_ForallPairs.
      * intros n n' Hn Hn' E. apply range_In in Hn, Hn'.
        apply N.bits_inj. intros i.
        destruct (N.lt_ge_cases i (N.of_nat (List.length ps))) as [Hi|Hi].
        -- destruct (nth_error ps (N.to_nat i)) as [pos|] eqn:Ep;
             [|apply nth_error_None in Ep; lia].
           assert (Hs: forall m,
                      N.testbit (scatter (map (N.shiftl 1) ps) m) pos = true
                      <-> N.testbit m i = true).
           { intros m. rewrite scatter_bits. split.
             - intros (idx & Hidx & Ht).
               assert (idx = N.to_nat i).
               { apply (proj1 (NoDup_nth_error ps) Hnd).
                 - eapply nth_error_lt; eauto.
                 - congruence. }
               subst idx. now rewrite N2Nat.id in Ht.
             - intros Ht. exists (N.to_nat i). split; auto.
               now rewrite N2Nat.id. }
           pose proof (Hs n) as Sn. pose proof (Hs n') as Sn'.
           rewrite E in Sn.
           destruct (N.testbit n i), (N.testbit n' i); auto.
           ++ symmetry. apply Sn'. apply Sn. reflexivity.
           ++ apply Sn. apply Sn'. reflexivity.
        -- rewrite (@testbit_below n _ i Hn Hi).
           now rewrite (@testbit_below n' _ i Hn' Hi).
      * unfold range. apply NoDup_map_NoDup_ForallPairs; [|apply seq_NoDup].
        intros a b _ _ H. lia.
    + rewrite length_map. unfold range. rewrite length_map, length_seq.
      unfold ps. rewrite (@set_positions_length d mask).
      * rewrite <- (Nat2N.id (2 ^ bit_count mask)). f_equal.
        rewrite Nat2N.inj_pow. reflexivity.
      * unfold d. rewrite N2Nat.id. apply N.size_gt.
Qed.

End IterateMask.

(** ** pete.py: the pin names of the [-p] option *)

Module PinNames.
Import PyStr Pete PeteStart.
Open Scope string_scope.
Open Scope nat_scope.
Open Scope list_scope.

(** How often [c] occurs in [s]. *)
Fixpoint occurrences (c : ascii) (s : string) : nat :=
  match s with
  | EmptyString => 0
  | String c' s' => (if Ascii.eqb c' c then 1 else 0) + occurrences c s'
  end.

Lemma split_cons sep s : exists h t, split sep s = h :: t.
Proof.
  induction s as [|c s IH]; simpl; eauto.
  destruct (Ascii.eqb c sep); eauto.
  destruct IH as (h & t & ->). eauto.
Qed.

Lemma split_length sep s :
  List.length (split sep s) = S (occurrences sep s).
Proof.
  induction s as [|c s IH]; simpl; auto.
  destruct (Ascii.eqb c sep); simpl; [now rewrite IH|].
  destruct (split_cons sep s) as (h & t & E). rewrite E in *. exact IH.
Qed.

Lemma join_split sep s :
  join (String sep EmptyString) (split sep s) = s.
Proof.
  induction s as [|c s IH]; cbn [split join]; auto.
  destruct (split_cons sep s) as (h & t & E). rewrite E in *.
  destruct (Ascii.eqb_spec c sep) as [->|Hne].
  - change (join (String sep EmptyString) (EmptyString :: h :: t))
      with (String sep (join (String sep EmptyString) (h :: t))).
    now rewrite IH.
  - destruct t as [|h' t].
    + cbn [join] in *. now rewrite IH.
    + change (join (String sep EmptyString) (String c h :: h' :: t))
        with (String c (join (String sep EmptyString) (h :: h' :: t))).
      now rewrite IH.
Qed.

Lemma split_fields sep s f :
  In f (split sep s) -> occurrences sep f = 0.
Proof.
  revert f. induction s as [|c s IH]; intros f; simpl.
  - intros [<-|[]]. reflexivity.
  - destruct (split_cons sep s) as (h & t & E). rewrite E in *.
    destruct (Ascii.eqb c sep) eqn:Ec.
    + intros [<-|H]; [reflexivity|]. now apply IH.
    + intros [<-|H].
      * simpl. rewrite Ec. apply IH. now left.
      * apply IH. now right.
Qed.

Lemma combine_fst A B (l : list A) (l' : list B) :
  List.length l = List.length l' -> map fst (combine l l') = l.
Proof.
  revert l'. induction l as [|x l IH]; intros [|y l'] H; simpl in *;
    try discriminate; auto.
  f_equal. apply IH. lia.
Qed.

Lemma combine_snd A B (l : list A) (l' : list B) :
  List.length l = List.length l' -> map snd (combine l l') = l'.
Proof.
  revert l'. induction l as [|x l IH]; intros [|y l'] H; simpl in *;
    try discriminate; auto.
  f_equal. apply IH. lia.
Qed.

(** X13: the [-p] option.  The value is taken when it holds exactly 17
    commas: the 18 fields between them, empty ones included, become the
    names of the pins 1..9 and 11..19 in this order, and joined by
    commas they give the value back.  With any other number of commas
    the run ends with the error before a file is created. *)
Theorem pin_names_option s :
  (occurrences "," s = 17 ->
   exists pin_names,
     get_pin_names (Some s) = inr pin_names /\
     map fst pin_names = pal_pins /\
     join "," (map snd pin_names) = s /\
     forall name, In name (map snd pin_names) -> occurrences "," name = 0) /\
  (occurrences "," s <> 17 ->
   forall stem dumpdata fs,
     pete_start (Some s) stem dumpdata fs
     = (fs, inl WrongNumberOfPinNames)).
Proof.
  split.
  - intros H. unfold get_pin_names. cbv zeta.
    assert (L: List.length (split "," s) = 18)
      by (rewrite split_length; lia).
    rewrite L. simpl Nat.eqb. cbv iota. eexists. split; [reflexivity|].
    rewrite combine_fst, combine_snd by (rewrite L; reflexivity).
    split; [reflexivity|]. split; [apply join_split|].
    intros name. apply split_fields.
  - intros H stem dumpdata fs.
    apply (@wrong_pin_names_touch_nothing (Some s) stem dumpdata fs
             WrongNumberOfPinNames).
    unfold get_pin_names. cbv zeta. rewrite split_length.
    destruct (Nat.eqb_spec (S (occurrences "," s)) 18); [lia|reflexivity].
Qed.

End PinNames.

(** ** simplegalasm.py: how a run of the assembler can end *)

Module GalAsmRuns.
Import PyStr GalAsm GalAsmFacts GalAsmPins Unsupported.
Open Scope string_scope.
Open Scope nat_scope.
Open Scope list_scope.

(** The exceptions a call may raise. *)
Definition stops (P : exn -> Prop) A (r : result A) : Prop :=
  match r with
  | Raise e => P e
  | _ => True
  end.

Lemma stops_bind (P : exn -> Prop) A B (r : result A) (k : A -> result B) :
  stops P r -> (forall a, r = Ok a -> stops P (k a)) -> stops P (bind r k).
Proof. destruct r; simpl; auto. Qed.

Lemma stops_impl (P Q : exn -> Prop) A (r : result A) :
  (forall e, P e -> Q e) -> stops P r -> stops Q r.
Proof. intros H. destruct r; simpl; auto. Qed.

Definition runtime_error (e : exn) : Prop :=
  match e with
  | RuntimeError _ => True
  | _ => False
  end.

(** A token stream whose last token is a [TokenEndCmd], as the lexer
    leaves every stream that is not empty. *)
Definition closed (tokens : list Token) : Prop :=
  exists pre line, tokens = pre ++ [TokenEndCmd line].

Section Closed.
Variable tokens : list Token.
Hypothesis tokens_closed : closed tokens.

Definition present (i : nat) : Prop := exists t, nth_error tokens i = Some t.

(** A token other than [TokenEndCmd] is not the last one. *)
Lemma after_open_token i t :
  nth_error tokens i = Some t -> is_endcmd t = false -> present (i + 1).
Proof.
  intros Ht Hopen. destruct tokens_closed as (pre & line & E).
  assert (Hlt: i < List.length tokens) by (apply nth_error_Some; congruence).
  rewrite E, length_app in Hlt. simpl in Hlt.
  destruct (Nat.eq_dec i (List.length pre)) as [->|Hne].
  - rewrite E, nth_error_app2, Nat.sub_diag in Ht by lia. simpl in Ht.
    injection Ht as <-. discriminate Hopen.
  - unfold present. destruct (nth_error tokens (i + 1)) eqn:E1; eauto.
    apply nth_error_None in E1. rewrite E, length_app in E1. simpl in E1.
    lia.
Qed.

Lemma stops_tok B (P : exn -> Prop) i (k : Token -> result B) :
  present i ->
  (forall t, nth_error tokens i = Some t -> stops P (k t)) ->
  stops P (t <- tok tokens i ;; k t).
Proof.
  intros (t & Ht) Hk. unfold tok. rewrite Ht. cbn [bind]. now apply Hk.
Qed.

(** Read the next token, which is there because the token [H] is not a
    [TokenEndCmd]. *)
Ltac next_token H t Ht :=
  match goal with
  | |- stops _ (bind (tok _ ?j) _) =>
      apply stops_tok;
      [ let P := fresh in
        pose proof (@after_open_token _ _ H eq_refl) as P;
        match type of P with
        | present ?j' => replace j with j' by lia; exact P
        end
      | intros t Ht ]
  end.

Lemma get_products_stops fuel :
  forall i s c,
    present i -> stops runtime_error (get_products fuel tokens i s c).
Proof.
  induction fuel as [|fuel IH]; intros i s c Hi; [exact I|].
  cbn [get_products]. apply stops_tok; [exact Hi|]. intros t Ht.
  destruct t; cbn [bind]; try exact I.
  - apply stops_tok; [exact Hi|]. intros t0 Ht0.
    destruct t0; try exact I. cbv zeta. next_token Ht0 t1 Ht1.
    destruct t1; try exact I; apply IH;
      destruct (@after_open_token _ _ Ht1 eq_refl) as (t2 & Ht2);
      exists t2; exact Ht2.
  - next_token Ht t0 Ht0.
    destruct t0; try exact I. cbv zeta. next_token Ht0 t1 Ht1.
    destruct t1; try exact I; apply IH;
      destruct (@after_open_token _ _ Ht1 eq_refl) as (t2 & Ht2);
      exists t2; exact Ht2.
Qed.

Lemma get_equation_stops i :
  present i -> stops runtime_error (_get_equation tokens i).
Proof.
  intros Hi. unfold _get_equation. apply stops_tok; [exact Hi|].
  intros t Ht.
  assert (Hp: stops runtime_error
                (' (i0, products) <-
                   get_products (List.length tokens) tokens i [] [] ;;
                 Ok (i0, SopList products))).
  { apply stops_bind; [now apply get_products_stops|].
    intros [? ?] _. exact I. }
  destruct t; try exact Hp.
  apply stops_bind.
  - destruct (N.eqb number 0); [exact I|]. destruct (N.eqb number 1); exact I.
  - intros sop _. cbv zeta. next_token Ht t0 Ht0.
    destruct (is_endcmd t0); exact I.
Qed.

Lemma declare_pin_stops self number line1 name line3 :
  stops runtime_error (declare_pin self number line1 name line3).
Proof.
  unfold declare_pin.
  destruct (dmem _ (_pinname_by_pinnumber self)); [exact I|].
  destruct (dmem _ (_pinnumber_by_pinname self)); exact I.
Qed.

(** The rest of a statement, from its first token after a leading
    [TokenNot]. *)
Lemma statement_rest_stops i self (eqneg : bool) :
  present i ->
  stops runtime_error
    (t <- tok tokens i ;;
     match t with
     | TokenKeywordPin line =>
         t1 <- tok tokens (i + 1) ;;
         match t1 with
         | TokenNumber line1 number =>
             t2 <- tok tokens (i + 2) ;;
             if negb (is_equals t2)
             then error (NumberNotFollowedByEquals line1)
             else
               t3 <- tok tokens (i + 3) ;;
               match t3 with
               | TokenIdentifier line3 name =>
                   t4 <- tok tokens (i + 4) ;;
                   if negb (is_endcmd t4)
                   then error (UnexpectedTokenAfterIdentifier (linenumber t4))
                   else
                     self <- declare_pin self number line1 name line3 ;;
                     Ok (i + 4 + 1, self)
               | _ => error (EqualsNotFollowedByIdentifier (linenumber t3))
               end
         | _ => error (PinNotFollowedByNumber line)
         end
     | TokenIdentifier line name =>
         t1 <- tok tokens (i + 1) ;;
         if is_equals t1 then
           ' (i, sum_of_products) <- _get_equation tokens (i + 2) ;;
           Ok (i + 1,
               set_equation self name
                 {| negated := eqneg; sum_of_products := sum_of_products |})
         else if is_dot t1 then
           t2 <- tok tokens (i + 2) ;;
           match t2 with
           | TokenIdentifier _ sub =>
               t3 <- tok tokens (i + 3) ;;
               if is_equals t3 then
                 if negb (String.eqb sub "OE" || String.eqb sub "oe")
                 then error (InvalidSubIdentifier sub line)
                 else
                   ' (i, sum_of_products) <- _get_equation tokens (i + 4) ;;
                   Ok (i + 1,
                       set_oe_equation self name
                         {| negated := eqneg;
                            sum_of_products := sum_of_products |})
               else error (InvalidSyntax line)
           | _ => error (InvalidSyntax line)
           end
         else error (InvalidSyntax line)
     | TokenEndCmd _ => Ok (i + 1, self)
     | _ => error (InvalidSyntax (linenumber t))
     end).
Proof.
  intros Hi. apply stops_tok; [exact Hi|]. intros t Ht.
  destruct t; try exact I.
  - (* PIN *)
    next_token Ht t1 Ht1. destruct t1; try exact I.
    next_token Ht1 t2 Ht2. destruct t2; try exact I. cbn [is_equals negb].
    next_token Ht2 t3 Ht3. destruct t3; try exact I.
    next_token Ht3 t4 Ht4. destruct t4; try exact I. cbn [is_endcmd negb].
    apply stops_bind; [apply declare_pin_stops|]. intros; exact I.
  - (* an equation *)
    next_token Ht t1 Ht1. destruct t1; try exact I.
    + cbn [is_equals].
      apply stops_bind; [|intros [? ?] _; exact I].
      apply get_equation_stops.
      destruct (@after_open_token _ _ Ht1 eq_refl) as (t2 & Ht2).
      exists t2. now replace (i + 2) with (i + 1 + 1) by lia.
    + cbn [is_equals is_dot].
      next_token Ht1 t2 Ht2. destruct t2; try exact I.
      next_token Ht2 t3 Ht3. destruct t3; try exact I. cbn [is_equals].
      destruct (negb _); [exact I|].
      apply stops_bind; [|intros [? ?] _; exact I].
      apply get_equation_stops.
      destruct (@after_open_token _ _ Ht3 eq_refl) as (t4 & Ht4).
      exists t4. now replace (i + 4) with (i + 3 + 1) by lia.
Qed.

Lemma statement_stops i self :
  present i -> stops runtime_error (statement tokens i self).
Proof.
  intros Hi. unfold statement. apply stops_tok; [exact Hi|]. intros t Ht.
  destruct t; cbn [bind];
    try (apply (@statement_rest_stops i self false Hi)).
  destruct (@after_open_token _ _ Ht eq_refl) as (t1 & Ht1).
  unfold tok at 1. rewrite Ht1. cbn [bind].
  destruct (is_identifier t1); cbn [bind].
  - apply statement_rest_stops. exists t1. exact Ht1.
  - apply (@statement_rest_stops i self false Hi).
Qed.

Lemma statements_stop fuel :
  forall i self, stops runtime_error (statements fuel tokens i self).
Proof.
  induction fuel as [|fuel IH]; intros i self; cbn [statements];
    destruct (Nat.leb_spec (List.length tokens) i) as [Hge|Hlt];
    try exact I.
  apply stops_bind.
  - apply statement_stops. unfold present.
    destruct (nth_error tokens i) eqn:E; eauto.
    apply nth_error_None in E. lia.
  - intros [j self'] _. apply IH.
Qed.

End Closed.

(** X14: the parser on a token stream that ends with a [TokenEndCmd].
    The statement loop ends, and it ends with the statements stored or
    with a [RuntimeError]: no statement reads past the last token, so
    no [IndexError] escapes. *)
Theorem closed_stream_parsed tokens :
  closed tokens ->
  (exists self, parse tokens = Ok self) \/
  (exists err, parse tokens = Raise (RuntimeError err)).
Proof.
  intros Hc. pose proof (parse_total tokens) as Ht.
  pose proof (@statements_stop tokens Hc (List.length tokens) 0 new_assembler)
    as Hs.
  fold (parse tokens) in Hs.
  destruct (parse tokens) as [self|e|]; [eauto| |congruence].
  right. destruct e; try destruct Hs. eauto.
Qed.

Lemma closed_stream_parsed_witness :
  (exists self,
     parse [TokenNot 1; TokenIdentifier 1 "q"; TokenEquals 1;
            TokenIdentifier 1 "a"; TokenAnd 1; TokenEndCmd 1] = Ok self) \/
  (exists err,
     parse [TokenNot 1; TokenIdentifier 1 "q"; TokenEquals 1;
            TokenIdentifier 1 "a"; TokenAnd 1; TokenEndCmd 1]
     = Raise (RuntimeError err)).
Proof.
  apply (@closed_stream_parsed
           [TokenNot 1; TokenIdentifier 1 "q"; TokenEquals 1;
            TokenIdentifier 1 "a"; TokenAnd 1; TokenEndCmd 1]).
  exists [TokenNot 1; TokenIdentifier 1 "q"; TokenEquals 1;
          TokenIdentifier 1 "a"; TokenAnd 1], 1%N. reflexivity.
Defined.

(** *** The second phase *)

(** The eighteen pins the second phase looks up. *)
Definition looked_up (n : N) : Prop := In n (output_pins ++ input_pins).

(** A [RuntimeError], or the [KeyError] of a pin that is looked up and
    has no [PIN] statement. *)
Definition design_error (self : Assembler) (e : exn) : Prop :=
  match e with
  | RuntimeError _ => True
  | KeyError (KInt n) =>
      looked_up n /\ dget (KInt n) (_pinname_by_pinnumber self) = None
  | _ => False
  end.

Lemma stops_pin_name self n B (k : string -> result B) :
  looked_up n ->
  (forall name, stops (design_error self) (k name)) ->
  stops (design_error self)
        (name <- getitem (KInt n) (_pinname_by_pinnumber self) ;; k name).
Proof.
  intros Hn Hk. unfold getitem.
  destruct (dget (KInt n) (_pinname_by_pinnumber self)) eqn:E; cbn [bind].
  - apply Hk.
  - simpl. auto.
Qed.

Lemma stops_foldM_in (P : exn -> Prop) A B (f : A -> B -> result A) l :
  (forall a b, In b l -> stops P (f a b)) ->
  forall a, stops P (foldM f l a).
Proof.
  induction l as [|b l IH]; intros Hf a; simpl; [exact I|].
  apply stops_bind; [apply Hf; now left|]. intros a' _.
  apply IH. intros; apply Hf; now right.
Qed.

Lemma place_product_stops self nm base product fusemap :
  stops (design_error self) (place_product self nm base product fusemap).
Proof.
  unfold place_product. apply stops_bind.
  - apply stops_foldM_in. intros [p f] [idx n] Hin. unfold place_input.
    apply stops_pin_name.
    + unfold looked_up. apply in_or_app. right.
      apply (in_map snd) in Hin. exact Hin.
    + intros name.
      destruct (set_mem _ name p);
        match goal with
        | |- context [set_mem ?d ?x ?s] => destruct (set_mem d x s)
        end; exact I.
  - intros [p f] _. destruct (negb _); exact I.
Qed.

Lemma place_products_stops self nm products :
  forall productidx fusemap,
    stops (design_error self)
          (place_products self nm productidx products fusemap).
Proof.
  induction products as [|p rest IH]; intros productidx fusemap; simpl;
    [exact I|].
  destruct (6 <? productidx); [exact I|].
  apply stops_bind; [apply place_product_stops|]. intros f _. apply IH.
Qed.

Lemma assemble_pin_stops self n :
  stored_nodup self -> In n output_pins ->
  stops (design_error self) (assemble_pin self n).
Proof.
  intros Hst Hn. unfold assemble_pin. apply stops_pin_name.
  { unfold looked_up. apply in_or_app. now left. }
  intros nm. cbv zeta. apply stops_bind.
  - unfold place_equation.
    destruct (dget _ (_equations self)) as [eq|]; [|exact I].
    destruct (negb (negated eq)); [exact I|].
    destruct (sum_of_products eq); [exact I|].
    apply stops_bind; [apply place_products_stops|]. intros; exact I.
  - intros [f1 f2] _. apply stops_bind; [|intros; exact I].
    unfold place_oe_equation.
    destruct (dget _ (_oe_equations self)) as [eq|] eqn:E; [|exact I].
    destruct (negated eq); [exact I|].
    destruct (sum_of_products eq) as [v|products] eqn:Es; [exact I|].
    destruct (1 <? List.length products); [exact I|].
    destruct products as [|p rest]; [|apply place_product_stops].
    destruct Hst as [_ Hoe]. destruct (Hoe _ _ E _ Es) as [Hne _].
    congruence.
Qed.

Lemma assemble_pin_same self n self' :
  assemble_pin self n = Ok self' -> same_design self self'.
Proof.
  unfold assemble_pin. intros H.
  apply bind_Ok in H. destruct H as (nm & _ & H). cbv zeta in H.
  apply bind_Ok in H. destruct H as ([f1 f2] & _ & H).
  apply bind_Ok in H. destruct H as (f & _ & H).
  injection H as <-. repeat split.
Qed.

Lemma outputs_stop self0 l :
  stored_nodup self0 -> incl l output_pins ->
  forall self, same_design self0 self ->
               stops (design_error self0) (foldM assemble_pin l self).
Proof.
  intros Hst. induction l as [|n l IH]; intros Hl self Hs; simpl;
    [exact I|].
  pose proof Hs as (E1 & E2 & E3).
  assert (Hst': stored_nodup self).
  { destruct Hst as [Ha Hb]. split; intros nm eq Heq.
    - apply (Ha nm). now rewrite E2.
    - apply (Hb nm). now rewrite E3. }
  apply stops_bind.
  - eapply stops_impl; [|apply (assemble_pin_stops Hst')].
    + intros e. unfold design_error. now rewrite E1.
    + apply Hl. now left.
  - intros self1 H1. apply IH.
    + intros m Hm. apply Hl. now right.
    + apply assemble_pin_same in H1. destruct H1 as (F1 & F2 & F3).
      repeat split; congruence.
Qed.

(** The second phase has no loop that could go on for ever. *)
Definition finishes A (r : result A) : Prop := r <> OutOfFuel.

Lemma finishes_bind A B (r : result A) (k : A -> result B) :
  finishes r -> (forall a, finishes (k a)) -> finishes (bind r k).
Proof. unfold finishes. destruct r; simpl; auto. discriminate. Qed.

Lemma finishes_foldM A B (f : A -> B -> result A) l :
  (forall a b, finishes (f a b)) -> forall a, finishes (foldM f l a).
Proof.
  intros Hf. induction l as [|b l IH]; intros a; simpl; [discriminate|].
  apply finishes_bind; auto.
Qed.

Lemma finishes_getitem V k (d : dict V) : finishes (getitem k d).
Proof. unfold getitem, finishes. destruct (dget k d); discriminate. Qed.

Lemma place_product_finishes self nm base product fusemap :
  finishes (place_product self nm base product fusemap).
Proof.
  unfold place_product. apply finishes_bind.
  - apply finishes_foldM. intros [p f] [idx n]. unfold place_input.
    apply finishes_bind; [apply finishes_getitem|]. intros name.
    destruct (set_mem _ name p);
      match goal with
      | |- context [set_mem ?d ?x ?s] => destruct (set_mem d x s)
      end; discriminate.
  - intros [p f]. destruct (negb _); discriminate.
Qed.

Lemma place_products_finishes self nm products :
  forall productidx fusemap,
    finishes (place_products self nm productidx products fusemap).
Proof.
  induction products as [|p rest IH]; intros productidx fusemap; simpl;
    [discriminate|].
  destruct (6 <? productidx); [discriminate|].
  apply finishes_bind; [apply place_product_finishes|]. intros f. apply IH.
Qed.

Lemma assemble_pin_finishes self n : finishes (assemble_pin self n).
Proof.
  unfold assemble_pin. apply finishes_bind; [apply finishes_getitem|].
  intros nm. cbv zeta. apply finishes_bind.
  - unfold place_equation.
    destruct (dget _ (_equations self)) as [eq|]; [|discriminate].
    destruct (negb (negated eq)); [discriminate|].
    destruct (sum_of_products eq); [discriminate|].
    apply finishes_bind; [apply place_products_finishes|].
    intros; discriminate.
  - intros [f1 f2]. apply finishes_bind; [|intros; discriminate].
    unfold place_oe_equation.
    destruct (dget _ (_oe_equations self)) as [eq|]; [|discriminate].
    destruct (negated eq); [discriminate|].
    destruct (sum_of_products eq) as [v|products]; [discriminate|].
    destruct (1 <? List.length products); [discriminate|].
    destruct products as [|p rest]; [discriminate|].
    apply place_product_finishes.
Qed.

(** X15: how [assemble] ends on a token stream that ends with a
    [TokenEndCmd]: with the fuse maps, with a [RuntimeError], or with
    the [KeyError] of a pin number, and then the pin is one of the
    eighteen pins 1..9, 11..19 and the stream has no [PIN] statement for
    it.  The last case is the only one in which an accepted stream makes
    the program fail without a message of its own. *)
Theorem assemble_outcomes tokens :
  closed tokens ->
  match assemble tokens with
  | Ok _ => True
  | Raise (RuntimeError _) => True
  | Raise (KeyError (KInt n)) =>
      In n [1; 2; 3; 4; 5; 6; 7; 8; 9; 11; 12; 13; 14; 15; 16; 17; 18; 19]%N
      /\ exists self, parse tokens = Ok self /\
                      dget (KInt n) (_pinname_by_pinnumber self) = None
  | _ => False
  end.
Proof.
  intros Hc. unfold assemble.
  destruct (closed_stream_parsed Hc) as [(self & E)|(err & E)]; rewrite E;
    cbn [bind]; [|exact I].
  pose proof (@outputs_stop self output_pins (@parse_nodup tokens self E)
                (incl_refl _) self) as Hs.
  assert (Hsame: same_design self self) by (repeat split).
  specialize (Hs Hsame).
  assert (Hno: finishes (foldM assemble_pin output_pins self)).
  { apply finishes_foldM. intros. apply assemble_pin_finishes. }
  unfold finishes in Hno.
  destruct (foldM assemble_pin output_pins self) as [a|e|]; auto.
  destruct e as [err| |k| |]; simpl in Hs; auto.
  destruct k as [n|s]; [|destruct Hs].
  destruct Hs as [Hl Hd]. split; [|eauto].
  unfold looked_up in Hl. simpl in Hl. simpl.
  repeat match goal with
         | H : _ \/ _ |- _ => destruct H as [<-|H]
         end; tauto.
Qed.

Lemma assemble_outcomes_witness :
  match assemble [TokenKeywordPin 1; TokenNumber 1 1; TokenEquals 1;
                  TokenIdentifier 1 "a"; TokenEndCmd 1] with
  | Ok _ => True
  | Raise (RuntimeError _) => True
  | Raise (KeyError (KInt n)) =>
      In n [1; 2; 3; 4; 5; 6; 7; 8; 9; 11; 12; 13; 14; 15; 16; 17; 18; 19]%N
      /\ exists self,
           parse [TokenKeywordPin 1; TokenNumber 1 1; TokenEquals 1;
                  TokenIdentifier 1 "a"; TokenEndCmd 1] = Ok self /\
           dget (KInt n) (_pinname_by_pinnumber self) = None
  | _ => False
  end.
Proof.
  apply (@assemble_outcomes
           [TokenKeywordPin 1; TokenNumber 1 1; TokenEquals 1;
            TokenIdentifier 1 "a"; TokenEndCmd 1]).
  exists [TokenKeywordPin 1; TokenNumber 1 1; TokenEquals 1;
          TokenIdentifier 1 "a"], 1%N. reflexivity.
Defined.

End GalAsmRuns.

(** ** simplegalasm.py: from the fuse maps of the pins to the JEDEC file *)

Module JedLayout.
Import PyStr GalAsm GalAsmFacts GalAsmPins Unsupported GalAsmRuns.
Open Scope string_scope.
Open Scope nat_scope.
Open Scope list_scope.

(** *** Strings as byte arrays *)

Lemma length_set_char i c s :
  String.length (set_char i c s) = String.length s.
Proof.
  revert i. induction s as [|c' s IH]; intros [|i]; simpl; auto.
Qed.

Lemma get_set_char i c s :
  forall j, String.get j (set_char i c s)
            = if (j =? i) && (i <? String.length s) then Some c
              else String.get j s.
Proof.
  revert i. induction s as [|c' s IH]; intros i j.
  - destruct i; simpl; now rewrite andb_false_r.
  - destruct i as [|i], j as [|j]; simpl; auto.
Qed.

Lemma length_zeros k : String.length (zeros k) = k.
Proof. induction k; simpl; auto. Qed.

Lemma get_zeros k : forall j, String.get j (zeros k)
                              = if j <? k then Some "0"%char else None.
Proof.
  induction k as [|k IH]; intros j; simpl.
  - reflexivity.
  - destruct j as [|j]; simpl; auto.
Qed.

(** Only ['0'] and ['1']. *)
Fixpoint binary (s : string) : bool :=
  match s with
  | EmptyString => true
  | String c s' => (Ascii.eqb c "0" || Ascii.eqb c "1") && binary s'
  end.

Lemma binary_zeros k : binary (zeros k) = true.
Proof. induction k; simpl; auto. Qed.

Lemma binary_fuse_char status :
  (Ascii.eqb (fuse_char status) "0" || Ascii.eqb (fuse_char status) "1")
  = true.
Proof. unfold fuse_char. destruct (N.eqb status 0); reflexivity. Qed.

Lemma binary_set_char i status s :
  binary s = true -> binary (set_char i (fuse_char status) s) = true.
Proof.
  revert i. induction s as [|c s IH]; intros i H; [destruct i; exact H|].
  simpl in H. apply andb_true_iff in H. destruct H as [Hc Hs].
  destruct i as [|i]; simpl.
  - now rewrite binary_fuse_char.
  - rewrite Hc. simpl. now apply IH.
Qed.

Lemma binary_append a b :
  binary (a ++ b) = binary a && binary b.
Proof.
  induction a as [|c a IH]; simpl; auto. rewrite IH. now rewrite andb_assoc.
Qed.

Lemma binary_substring s : forall i l,
  binary s = true -> binary (substring i l s) = true.
Proof.
  induction s as [|c s IH]; intros i l H.
  - destruct i, l; reflexivity.
  - simpl in H. apply andb_true_iff in H. destruct H as [Hc Hs].
    destruct i as [|i], l as [|l]; simpl; auto.
    rewrite Hc. simpl. now apply IH.
Qed.

Lemma binary_reverse s : binary s = true -> binary (reverse s) = true.
Proof.
  induction s as [|c s IH]; simpl; auto. intros H.
  apply andb_true_iff in H. destruct H as [Hc Hs].
  rewrite binary_append, IH by assumption. simpl. now rewrite Hc.
Qed.

Lemma substring_nonempty s : forall i l,
  i < String.length s -> 0 < l -> substring i l s <> "".
Proof.
  induction s as [|c s IH]; intros i l Hi Hl; simpl in Hi; [lia|].
  destruct i as [|i], l as [|l]; simpl; try lia; try discriminate.
  apply IH; lia.
Qed.

Lemma reverse_nonempty s : s <> "" -> reverse s <> "".
Proof.
  destruct s as [|c s]; [congruence|]. intros _. simpl.
  destruct (reverse s); discriminate.
Qed.

(** *** The setters of the writer *)

Lemma set_fuses_spec count :
  forall offset statuses fusemap,
    count <= List.length statuses ->
    exists fusemap',
      set_fuses count offset statuses fusemap = Ok fusemap' /\
      String.length fusemap' = String.length fusemap /\
      (binary fusemap = true -> binary fusemap' = true) /\
      forall j,
        String.get j fusemap'
        = if (offset <=? j) && (j <? offset + count)
             && (j <? String.length fusemap)
          then Some (fuse_char (nth (j - offset) statuses 0%N))
          else String.get j fusemap.
Proof.
  induction count as [|count IH]; intros offset statuses fusemap Hc.
  - exists fusemap. repeat split; auto. intros j.
    destruct (Nat.leb_spec offset j); simpl; auto.
    destruct (Nat.ltb_spec j (offset + 0)); [lia|reflexivity].
  - destruct statuses as [|status rest]; [simpl in Hc; lia|].
    cbn [set_fuses].
    destruct (IH (offset + 1) rest
                 (set_char offset (fuse_char status) fusemap))
      as (f' & E & Hlen & Hbin & Hget); [simpl in Hc; lia|].
    exists f'. split; [exact E|]. rewrite length_set_char in Hlen.
    split; [exact Hlen|]. split.
    { intros Hb. apply Hbin. now apply binary_set_char. }
    intros j. rewrite Hget, length_set_char, get_set_char.
    destruct (Nat.ltb_spec j (String.length fusemap)) as [Hj|Hj].
    + rewrite !andb_true_r.
      destruct (Nat.leb_spec (offset + 1) j) as [H1|H1];
        destruct (Nat.ltb_spec j (offset + 1 + count)) as [H2|H2];
        destruct (Nat.leb_spec offset j) as [H3|H3];
        destruct (Nat.ltb_spec j (offset + S count)) as [H4|H4];
        try lia; cbn [andb].
      * replace (j - offset) with (S (j - (offset + 1))) by lia.
        reflexivity.
      * destruct (Nat.eqb_spec j offset); [lia|]. reflexivity.
      * destruct (Nat.eqb_spec j offset) as [->|]; [|lia].
        destruct (Nat.ltb_spec offset (String.length fusemap)); [|lia].
        rewrite Nat.sub_diag. reflexivity.
      * destruct (Nat.eqb_spec j offset); [lia|]. reflexivity.
    + rewrite !andb_false_r.
      destruct (Nat.eqb_spec j offset) as [->|]; [|reflexivity].
      destruct (Nat.ltb_spec offset (String.length fusemap)); [lia|].
      reflexivity.
Qed.

(** The place of an output pin in the fuse map: pin 19 first. *)
Definition pin_index (n : N) : nat := N.to_nat (19 - n).

Lemma pinnumber_to_index_output n :
  In n output_pins ->
  _pinnumber_to_index n = Ok (pin_index n) /\ pin_index n <= 7.
Proof.
  unfold output_pins.
  intros [<-|[<-|[<-|[<-|[<-|[<-|[<-|[<-|[]]]]]]]]];
    (split; [reflexivity|unfold pin_index; simpl; lia]).
Qed.

(** [_pinnumber_to_index] takes the pins 12..19 to the indexes 7..0 and
    refuses every other pin number. *)
Lemma pinnumber_to_index_cases n :
  ((12 <= n <= 19)%N ->
   exists index, _pinnumber_to_index n = Ok index /\
                 N.of_nat index = (19 - n)%N /\ index <= 7) /\
  ((n < 12 \/ 19 < n)%N ->
   _pinnumber_to_index n = Raise (RuntimeError (InvalidPinNumber n))).
Proof.
  unfold _pinnumber_to_index. split.
  - intros Hn. exists (N.to_nat (19 - n)).
    destruct (N.ltb_spec 19 n); [lia|]. destruct (N.ltb_spec n 12); [lia|].
    cbn [orb]. split; [reflexivity|split; lia].
  - intros Hn. destruct (N.ltb_spec 19 n); [reflexivity|].
    destruct (N.ltb_spec n 12); [reflexivity|lia].
Qed.

(** The fuses an output pin writes, and what it writes there. *)
Definition own (index j : nat) : bool :=
  ((256 * index <=? j) && (j <? 256 * index + 256))
  || (j =? 2048 + index) || (j =? 2120 + index)
  || ((2128 + 8 * index <=? j) && (j <? 2136 + 8 * index)).

Definition shared (j : nat) : bool := (j =? 2192) || (j =? 2193).

Definition fuse_of (oe terms : list N) (index j : nat) : ascii :=
  if j <? 256 * index + 32
  then fuse_char (nth (j - 256 * index) oe 0%N)
  else if j <? 256 * index + 256
       then fuse_char (nth (j - (256 * index + 32)) terms 0%N)
       else if j =? 2048 + index then "0"%char else "1"%char.

(** The pin has its two fuse maps, of the lengths the assembler gives
    them. *)
Definition ready (a : Assembler) (n : N) (oe terms : list N) : Prop :=
  dget (KInt n) (_pin_oe_fusemap a) = Some oe /\ List.length oe = 32 /\
  dget (KInt n) (_pin_fusemap a) = Some terms /\ List.length terms = 224.

Ltac by_cases :=
  repeat match goal with
         | |- context [?a <=? ?b] => destruct (Nat.leb_spec a b); try lia
         | |- context [?a <? ?b] => destruct (Nat.ltb_spec a b); try lia
         | |- context [?a =? ?b] => destruct (Nat.eqb_spec a b); try lia
         end.

Lemma write_pin_spec a fusemap n oe terms :
  In n output_pins -> ready a n oe terms ->
  String.length fusemap = 2194 ->
  exists fusemap',
    write_pin a fusemap n = Ok fusemap' /\
    String.length fusemap' = 2194 /\
    (binary fusemap = true -> binary fusemap' = true) /\
    forall j,
      String.get j fusemap'
      = if own (pin_index n) j || shared j
        then Some (if shared j then "1"%char
                   else fuse_of oe terms (pin_index n) j)
        else String.get j fusemap.
Proof.
  intros Hn (Eoe & Loe & Et & Lt) Hlen.
  destruct (@pinnumber_to_index_output n Hn) as [Ei Hi].
  set (idx := pin_index n) in *.
  unfold write_pin, getitem. rewrite Eoe, Et. cbn [bind].
  unfold set_pin_oe_term, set_pin_terms, set_output_polarity, set_ac1_bit,
    set_product_term_disable_bits. rewrite Ei. cbn [bind].
  destruct (@set_fuses_spec 32 (idx * 256) oe fusemap)
    as (f1 & E1 & L1 & B1 & G1); [lia|]. rewrite E1. cbn [bind].
  destruct (@set_fuses_spec 224 (idx * 256 + 32) terms f1)
    as (f2 & E2 & L2 & B2 & G2); [lia|]. rewrite E2. cbn [bind].
  set (f3 := set_char (2048 + idx) (fuse_char 0) f2).
  set (f4 := set_char (2120 + idx) (fuse_char 1) f3).
  destruct (@set_fuses_spec 8 (2128 + 8 * idx) [1; 1; 1; 1; 1; 1; 1; 1]%N f4)
    as (f5 & E5 & L5 & B5 & G5); [simpl; lia|]. rewrite E5. cbn [bind].
  assert (L3: String.length f3 = 2194)
    by (unfold f3; rewrite length_set_char; congruence).
  assert (L4: String.length f4 = 2194)
    by (unfold f4; rewrite length_set_char; congruence).
  eexists. split; [reflexivity|]. split.
  { unfold set_ac0, set_syn. rewrite !length_set_char. congruence. }
  split.
  { intros Hb. unfold set_ac0, set_syn.
    apply binary_set_char, binary_set_char, B5. unfold f4, f3.
    apply binary_set_char, binary_set_char, B2, B1, Hb. }
  intros j. unfold set_ac0, set_syn.
  rewrite !get_set_char, !length_set_char, G5.
  unfold f4 at 2. rewrite get_set_char. unfold f3 at 2.
  rewrite get_set_char, G2, G1.
  rewrite L5, L4, L3, L2, L1, Hlen.
  unfold own, shared, fuse_of.
  destruct (Nat.eqb_spec j 2193) as [->|N93].
  { by_cases. reflexivity. }
  destruct (Nat.eqb_spec j 2192) as [->|N92].
  { by_cases. reflexivity. }
  cbn [andb orb]. rewrite !orb_false_r.
  destruct (Nat.leb_spec (2128 + 8 * idx) j) as [A1|A1];
    destruct (Nat.ltb_spec j (2128 + 8 * idx + 8)) as [A2|A2];
    cbn [andb].
  { (* the product term disable bits *)
    by_cases; cbn [andb orb]; try lia.
    assert (Hd: j - (2128 + 8 * idx) < 8) by lia.
    revert Hd. generalize (j - (2128 + 8 * idx)). intros d Hd.
    do 8 (destruct d as [|d]; [reflexivity|]). lia. }
  all: by_cases; cbn [andb orb]; try lia; try reflexivity.
  all: try (f_equal; f_equal; f_equal; lia).
Qed.

(** *** All eight pins *)

Lemma own_below index j : index <= 7 -> own index j = true -> shared j = false.
Proof.
  unfold own, shared. intros Hi H.
  destruct (Nat.eqb_spec j 2192) as [->|]; [|destruct (Nat.eqb_spec j 2193) as [->|]];
    [exfalso|exfalso|reflexivity]; revert H; by_cases; discriminate.
Qed.

Lemma own_disjoint i1 i2 j :
  i1 <= 7 -> i2 <= 7 -> i1 <> i2 -> own i1 j = true -> own i2 j = false.
Proof.
  unfold own. intros H1 H2 Hne H.
  destruct ((256 * i2 <=? j) && (j <? 256 * i2 + 256) || (j =? 2048 + i2)
            || (j =? 2120 + i2)
            || (2128 + 8 * i2 <=? j) && (j <? 2136 + 8 * i2)) eqn:E;
    [exfalso|reflexivity].
  revert H E. by_cases; cbn [andb orb]; intros; try discriminate; lia.
Qed.

Lemma output_pins_range n : In n output_pins -> (12 <= n <= 19)%N.
Proof.
  unfold output_pins.
  intros [<-|[<-|[<-|[<-|[<-|[<-|[<-|[<-|[]]]]]]]]]; lia.
Qed.

Lemma pin_index_inj n m :
  In n output_pins -> In m output_pins -> pin_index n = pin_index m -> n = m.
Proof.
  intros Hn Hm H. apply output_pins_range in Hn, Hm.
  unfold pin_index in H. lia.
Qed.

Lemma fill_spec a l :
  forall fusemap,
    NoDup l -> incl l output_pins ->
    (forall n, In n l -> exists oe terms, ready a n oe terms) ->
    String.length fusemap = 2194 ->
    exists fusemap',
      foldM (write_pin a) l fusemap = Ok fusemap' /\
      String.length fusemap' = 2194 /\
      (binary fusemap = true -> binary fusemap' = true) /\
      forall j,
        (forall n oe terms,
           In n l -> ready a n oe terms -> own (pin_index n) j = true ->
           String.get j fusemap' = Some (fuse_of oe terms (pin_index n) j)) /\
        (l <> [] -> shared j = true -> String.get j fusemap' = Some "1"%char) /\
        ((forall n, In n l -> own (pin_index n) j = false) ->
         shared j = false \/ l = [] ->
         String.get j fusemap' = String.get j fusemap).
Proof.
  induction l as [|n l IH]; intros fusemap Hnd Hl Hr Hlen.
  - exists fusemap. simpl. repeat split; auto.
    + intros ? ? ? [].
    + congruence.
  - inversion Hnd as [|? ? Hnin Hnd']. subst.
    assert (Hn: In n output_pins) by (apply Hl; now left).
    destruct (Hr n (or_introl eq_refl)) as (oe0 & terms0 & Hr0).
    destruct (@write_pin_spec a fusemap n oe0 terms0 Hn Hr0 Hlen)
      as (f1 & E1 & L1 & B1 & G1).
    destruct (IH f1 Hnd' (fun m Hm => Hl m (or_intror Hm))
                 (fun m Hm => Hr m (or_intror Hm)) L1)
      as (f' & E' & L' & B' & G').
    exists f'. cbn [foldM]. rewrite E1. cbn [bind].
    split; [exact E'|]. split; [exact L'|]. split; [auto|].
    destruct (@pinnumber_to_index_output n Hn) as [_ Hi].
    intros j. destruct (G' j) as (Gown & Gsh & Gother). split; [|split].
    + intros m oe terms [<-|Hm] Hrm Hown.
      * assert (Hsh: shared j = false) by (eapply own_below; eauto).
        rewrite Gother.
        -- rewrite G1, Hown, Hsh. cbn [orb].
           destruct Hr0 as (A1 & _ & A2 & _), Hrm as (C1 & _ & C2 & _).
           assert (oe0 = oe) by congruence.
           assert (terms0 = terms) by congruence. subst. reflexivity.
        -- intros m Hm.
           destruct (@pinnumber_to_index_output m (Hl m (or_intror Hm)))
             as [_ Him].
           apply (@own_disjoint (pin_index n) (pin_index m) j); auto.
           intros E. apply pin_index_inj in E; auto.
           ++ subst. contradiction.
           ++ apply Hl. now right.
        -- now left.
      * now apply (Gown m oe terms).
    + intros _ Hsh. destruct l as [|m l'].
      * simpl in E'. injection E' as <-. rewrite G1, Hsh.
        rewrite orb_true_r. reflexivity.
      * apply Gsh; [discriminate|exact Hsh].
    + intros Hno [Hsh|Hnil]; [|discriminate].
      rewrite Gother.
      * rewrite G1, Hsh, (Hno n (or_introl eq_refl)). reflexivity.
      * intros m Hm. apply Hno. now right.
      * now left.
Qed.

(** *** The fuse maps the assembler leaves *)

Lemma returns_foldM_inv A B (f : A -> B -> result A) (I : A -> Prop) l :
  (forall a b, I a -> returns I (f a b)) ->
  forall a, I a -> returns I (foldM f l a).
Proof.
  intros Hf. induction l as [|b l IH]; intros a Ha; simpl; auto.
  apply returns_bind. intros a' E. apply IH.
  specialize (Hf a b Ha). rewrite E in Hf. exact Hf.
Qed.

Lemma length_set_first_row (fusemap : list N) :
  32 <= List.length fusemap ->
  List.length (set_first_row fusemap) = List.length fusemap.
Proof.
  intros H. unfold set_first_row.
  rewrite length_app, repeat_length, length_skipn. lia.
Qed.

Lemma length_set_at_list A k (v : A) l :
  List.length (set_at k v l) = List.length l.
Proof. revert k. induction l as [|x l IH]; intros [|k]; simpl; auto. Qed.

Lemma place_product_length self nm base product fusemap :
  returns (fun f => List.length f = List.length fusemap)
          (place_product self nm base product fusemap).
Proof.
  unfold place_product. apply returns_bind. intros [p f] E.
  assert (H: returns (fun st : list string * list N =>
                        List.length (snd st) = List.length fusemap)
                     (foldM (place_input self base) (enumerate input_pins)
                            (product, fusemap))).
  { apply returns_foldM_inv; [|reflexivity].
    intros [p0 f0] [idx n] Hlen. unfold place_input.
    apply returns_bind. intros name _.
    destruct (set_mem _ name p0);
      match goal with
      | |- context [set_mem ?d ?x ?s] => destruct (set_mem d x s)
      end; simpl in *; rewrite ?length_set_at_list; exact Hlen. }
  rewrite E in H. simpl in H. destruct (negb _); simpl; auto.
Qed.

Lemma place_products_length self nm products :
  forall productidx fusemap,
    returns (fun f => List.length f = List.length fusemap)
            (place_products self nm productidx products fusemap).
Proof.
  induction products as [|p rest IH]; intros productidx fusemap;
    cbn [place_products]; [reflexivity|].
  destruct (6 <? productidx); [exact I|].
  apply returns_bind. intros f E.
  pose proof (place_product_length self nm (32 * productidx) p fusemap) as H.
  rewrite E in H. cbn [returns] in H.
  specialize (IH (productidx + 1) f).
  destruct (place_products self nm (productidx + 1) rest f);
    cbn [returns] in *; auto. congruence.
Qed.

Lemma place_equation_length self nm (f1 f2 : list N) :
  32 <= List.length f1 -> 32 <= List.length f2 ->
  returns (fun g : list N * list N =>
             List.length (fst g) = List.length f1 /\
             List.length (snd g) = List.length f2)
          (place_equation self nm (f1, f2)).
Proof.
  intros H1 H2. unfold place_equation.
  destruct (dget _ (_equations self)) as [eq|]; [|simpl; auto].
  destruct (negb (negated eq)); [exact I|].
  assert (Lo: List.length
                (if negb (dmem (KStr nm) (_oe_equations self))
                 then set_first_row f2 else f2)
              = List.length f2).
  { destruct (negb _); auto. now apply length_set_first_row. }
  destruct (sum_of_products eq) as [v|products].
  - cbn [returns fst snd]. split; [|exact Lo].
    destruct (negb (N.eqb v 0)); auto. now apply length_set_first_row.
  - apply returns_bind. intros f0 E0. cbn [returns fst snd].
    split; [|exact Lo].
    pose proof (place_products_length self nm products 0 f1) as Hp.
    rewrite E0 in Hp. exact Hp.
Qed.

Lemma place_oe_equation_length self nm (f : list N) :
  32 <= List.length f ->
  returns (fun g => List.length g = List.length f)
          (place_oe_equation self nm f).
Proof.
  intros H. unfold place_oe_equation.
  destruct (dget _ (_oe_equations self)) as [eq|]; [|reflexivity].
  destruct (negated eq); [exact I|].
  destruct (sum_of_products eq) as [v|products].
  - cbn [returns]. destruct (negb (N.eqb v 0)); auto.
    now apply length_set_first_row.
  - destruct (1 <? List.length products); [exact I|].
    destruct products as [|p rest]; [exact I|].
    apply place_product_length.
Qed.

Lemma assemble_pin_ready self n self' :
  assemble_pin self n = Ok self' ->
  (exists oe terms, ready self' n oe terms) /\
  forall m, (exists oe terms, ready self m oe terms) ->
            exists oe terms, ready self' m oe terms.
Proof.
  unfold assemble_pin. intros H.
  apply bind_Ok in H. destruct H as (nm & _ & H). cbv zeta in H.
  assert (Z1: List.length (repeat 0%N (7 * 32)) = 224) by apply repeat_length.
  assert (Z2: List.length (repeat 0%N 32) = 32) by apply repeat_length.
  revert H Z1 Z2.
  generalize (repeat 0%N (7 * 32)). generalize (repeat 0%N 32).
  intros z2 z1 H Z1 Z2.
  apply bind_Ok in H. destruct H as ([f1 f2] & E1 & H).
  apply bind_Ok in H. destruct H as (f & E2 & H).
  injection H as <-.
  pose proof (@place_equation_length self nm z1 z2) as L1.
  rewrite E1 in L1. cbn [returns fst snd] in L1.
  destruct L1 as [L1 L2]; [lia|lia|].
  pose proof (@place_oe_equation_length self nm f2) as L3.
  rewrite E2 in L3. cbn [returns] in L3. specialize (L3 ltac:(lia)).
  assert (R: ready
               {| _pinname_by_pinnumber := _pinname_by_pinnumber self;
                  _pinnumber_by_pinname := _pinnumber_by_pinname self;
                  _equations := _equations self;
                  _oe_equations := _oe_equations self;
                  _pin_fusemap := dset (KInt n) f1 (_pin_fusemap self);
                  _pin_oe_fusemap := dset (KInt n) f (_pin_oe_fusemap self) |}
               n f f1).
  { unfold ready. cbn [_pin_oe_fusemap _pin_fusemap].
    rewrite !dget_dset_same. repeat split; lia. }
  split.
  - exists f, f1. exact R.
  - intros m (oe & terms & Hr).
    destruct (N.eq_dec m n) as [->|Hne].
    + exists f, f1. exact R.
    + exists oe, terms. unfold ready in *.
      cbn [_pin_oe_fusemap _pin_fusemap].
      rewrite !dget_dset_other by congruence. exact Hr.
Qed.

Lemma outputs_ready l :
  forall self a,
    foldM assemble_pin l self = Ok a ->
    (forall m, (exists oe terms, ready self m oe terms) ->
               exists oe terms, ready a m oe terms) /\
    forall n, In n l -> exists oe terms, ready a n oe terms.
Proof.
  induction l as [|n l IH]; intros self a H; simpl in H.
  - injection H as <-. split; auto. intros ? [].
  - apply bind_Ok in H. destruct H as (self1 & E1 & H).
    destruct (@assemble_pin_ready _ _ _ E1) as [Hn Hkeep].
    destruct (IH _ _ H) as [Hkeep' Hl]. split.
    + intros m Hm. auto.
    + intros m [<-|Hm]; auto.
Qed.

Lemma assemble_ready tokens a :
  assemble tokens = Ok a ->
  forall n, In n output_pins -> exists oe terms, ready a n oe terms.
Proof.
  unfold assemble. intros H. apply bind_Ok in H.
  destruct H as (self & _ & H). apply (@outputs_ready _ _ _ H).
Qed.

(** *** The file *)

Lemma int2_from_binary s :
  binary s = true -> forall acc, exists v, int2_from acc s = Ok v.
Proof.
  induction s as [|c s IH]; intros H acc; simpl; eauto.
  simpl in H. apply andb_true_iff in H. destruct H as [Hc Hs].
  destruct (Ascii.eqb c "0"); [now apply IH|].
  simpl in Hc. rewrite Hc. now apply IH.
Qed.

Lemma range_step_In start stop step i :
  0 < step -> In i (range_step start stop step) -> start <= i < stop.
Proof.
  intros Hs. unfold range_step. rewrite in_map_iff.
  intros (k & <- & Hk). apply in_seq in Hk.
  assert (Hd: step * ((stop - start + step - 1) / step)
              <= stop - start + step - 1) by (apply Nat.Div0.mul_div_le).
  nia.
Qed.

Lemma foldM_ok A B (f : A -> B -> result A) l :
  (forall a b, In b l -> exists a', f a b = Ok a') ->
  forall a, exists a', foldM f l a = Ok a'.
Proof.
  induction l as [|b l IH]; intros Hf a; simpl; eauto.
  destruct (Hf a b (or_introl eq_refl)) as (a1 & E). rewrite E. cbn [bind].
  apply IH. intros; apply Hf; now right.
Qed.

Lemma fuse_checksum_ok fusemap :
  binary fusemap = true -> exists v, fuse_checksum fusemap = Ok v.
Proof.
  intros Hb. unfold fuse_checksum. apply foldM_ok. intros acc i Hi.
  apply range_step_In in Hi; [|lia].
  destruct (@int2_from_binary (reverse (slice i (i + 8) fusemap))) with
    (acc := 0%N) as (v & E).
  { apply binary_reverse. unfold slice. now apply binary_substring. }
  unfold int2.
  assert (Hne: reverse (slice i (i + 8) fusemap) <> "").
  { apply reverse_nonempty. unfold slice. apply substring_nonempty; lia. }
  destruct (reverse (slice i (i + 8) fusemap)) eqn:Er; [congruence|].
  rewrite E. cbn [bind]. eauto.
Qed.

Lemma get_file_ok fusemap :
  binary fusemap = true -> exists data, get_file fusemap = Ok data.
Proof.
  intros Hb. destruct (@fuse_checksum_ok fusemap Hb) as (v & E).
  unfold get_file, jed_frame. rewrite E. cbn [bind]. eauto.
Qed.

Lemma pin_of_index index :
  index <= 7 ->
  In (19 - N.of_nat index)%N output_pins /\
  pin_index (19 - N.of_nat index) = index.
Proof.
  intros H. unfold pin_index.
  do 8 (destruct index as [|index];
        [split; [simpl; auto 10|reflexivity]|]).
  lia.
Qed.

Lemma own_oe index k : k < 32 -> own index (256 * index + k) = true.
Proof. intros H. unfold own. by_cases; try reflexivity. Qed.

Lemma own_terms index k : k < 224 -> own index (256 * index + 32 + k) = true.
Proof. intros H. unfold own. by_cases; try reflexivity. Qed.

(** A design with one equation, [!p19 = p2 & !p3;], after the eighteen
    [PIN] statements. *)
Definition and_gate : list Token :=
  PinStatements.declarations PinStatements.plain_pins
  ++ [TokenNot 20; TokenIdentifier 20 "p19"; TokenEquals 20;
      TokenIdentifier 20 "p2"; TokenAnd 20;
      TokenNot 20; TokenIdentifier 20 "p3"; TokenEndCmd 20].

Lemma and_gate_assembles : exists a, assemble and_gate = Ok a.
Proof.
  match goal with
  | |- exists a, ?r = _ =>
      let v := eval vm_compute in r in
      match v with
      | Ok ?a => exists a
      end
  end.
  vm_compute. reflexivity.
Qed.

(** X16: once [assemble] has returned, the rest of the program cannot
    fail.  Every setter of the writer finds its pin number and its 32
    or 224 statuses, every fuse written lies inside the 2194 fuses, the
    fuse map holds only ['0'] and ['1'], and the file is the framed part
    followed by the four hexadecimal digits of the sum of its bytes
    modulo [2^16]. *)
Theorem assembled_design_written tokens :
  (exists a, assemble tokens = Ok a) ->
  exists a fusemap frame,
    assemble tokens = Ok a /\
    fill_fusemap a = Ok fusemap /\
    String.length fusemap = 2194 /\
    binary fusemap = true /\
    jed_frame fusemap = Ok frame /\
    simplegalasm tokens
    = Ok (frame ++ format_04x (byte_sum frame mod 65536))%string /\
    String.length (format_04x (byte_sum frame mod 65536)) = 4.
Proof.
  intros (a & Ea). exists a.
  destruct (@fill_spec a output_pins new_fusemap) as (fm & Ef & Lf & Bf & _).
  - unfold output_pins. repeat constructor; simpl; intuition discriminate.
  - apply incl_refl.
  - apply (@assemble_ready tokens a Ea).
  - apply length_zeros.
  - specialize (Bf (binary_zeros _)).
    destruct (@get_file_ok fm Bf) as (data & Ed).
    destruct (@JedChecksums.transmission_checksum fm data Ed)
      as (frame & Efr & -> & L4).
    exists fm, frame. unfold simplegalasm, fill_fusemap.
    rewrite Ea. cbn [bind]. rewrite Ef. cbn [bind]. auto 10.
Qed.

Lemma assembled_design_written_witness :
  exists a fusemap frame,
    assemble and_gate = Ok a /\
    fill_fusemap a = Ok fusemap /\
    String.length fusemap = 2194 /\
    binary fusemap = true /\
    jed_frame fusemap = Ok frame /\
    simplegalasm and_gate
    = Ok (frame ++ format_04x (byte_sum frame mod 65536))%string /\
    String.length (format_04x (byte_sum frame mod 65536)) = 4.
Proof.
  apply (@assembled_design_written and_gate). exact and_gate_assembles.
Defined.

(** X17: where the fuses of a pin go.  The fuse map of the writer has
    256 fuses for each output pin, the pins in the order 19 down to 12:
    first the 32 fuses of the OE term, then the 224 fuses of the seven
    product terms, each fuse ['1'] where the status in the fuse map of
    the assembler is not 0.  The 8 polarity fuses and the 64 signature
    fuses from 2048 on are ['0'], and the 74 fuses from 2120 on (AC1,
    product term disable, SYN, AC0) are ['1']. *)
Theorem fuse_map_layout tokens :
  (exists a, assemble tokens = Ok a) ->
  exists a fusemap,
    assemble tokens = Ok a /\ fill_fusemap a = Ok fusemap /\
    (forall n, In n output_pins ->
       exists oe terms,
         dget (KInt n) (_pin_oe_fusemap a) = Some oe /\
         dget (KInt n) (_pin_fusemap a) = Some terms /\
         (forall k, k < 32 ->
            String.get (256 * N.to_nat (19 - n) + k) fusemap
            = Some (fuse_char (nth k oe 0%N))) /\
         (forall k, k < 224 ->
            String.get (256 * N.to_nat (19 - n) + 32 + k) fusemap
            = Some (fuse_char (nth k terms 0%N)))) /\
    (forall j, 2048 <= j < 2120 -> String.get j fusemap = Some "0"%char) /\
    (forall j, 2120 <= j < 2194 -> String.get j fusemap = Some "1"%char).
Proof.
  intros (a & Ea). exists a.
  pose proof (@assemble_ready tokens a Ea) as Hr.
  destruct (@fill_spec a output_pins new_fusemap) as (fm & Ef & Lf & _ & G).
  { unfold output_pins. repeat constructor; simpl; intuition discriminate. }
  { apply incl_refl. }
  { exact Hr. }
  { apply length_zeros. }
  exists fm. split; [exact Ea|]. split; [exact Ef|].
  assert (Hpin: forall index j,
            index <= 7 -> own index j = true ->
            256 * index + 256 <= j ->
            String.get j fm
            = Some (if j =? 2048 + index then "0"%char else "1"%char)).
  { intros index j Hi Hown Hj.
    destruct (@pin_of_index index Hi) as [Hin Hidx].
    destruct (Hr _ Hin) as (oe & terms & Hrd).
    destruct (G j) as (Gown & _ & _).
    rewrite (Gown _ oe terms Hin Hrd); rewrite Hidx; [|exact Hown].
    unfold fuse_of. by_cases; try reflexivity. }
  split; [|split].
  - intros n Hn. destruct (Hr n Hn) as (oe & terms & Hrd).
    exists oe, terms. pose proof Hrd as (E1 & _ & E2 & _).
    split; [exact E1|]. split; [exact E2|].
    fold (pin_index n). split; intros k Hk.
    + destruct (G (256 * pin_index n + k)) as (Gown & _ & _).
      rewrite (Gown n oe terms Hn Hrd (@own_oe _ k Hk)).
      unfold fuse_of. by_cases; try reflexivity. do 3 f_equal. lia.
    + destruct (G (256 * pin_index n + 32 + k)) as (Gown & _ & _).
      rewrite (Gown n oe terms Hn Hrd (@own_terms _ k Hk)).
      unfold fuse_of. by_cases; try reflexivity. do 3 f_equal. lia.
  - intros j Hj. destruct (Nat.lt_ge_cases j 2056) as [Hp|Hs].
    + rewrite (Hpin (j - 2048) j); try lia.
      * by_cases; try reflexivity.
      * unfold own. by_cases; try reflexivity.
    + destruct (G j) as (_ & _ & Gother). rewrite Gother.
      * unfold new_fusemap. rewrite get_zeros. by_cases; try reflexivity.
      * intros n Hn. destruct (@pinnumber_to_index_output n Hn) as [_ Hi].
        unfold own. by_cases; try reflexivity.
      * left. unfold shared. by_cases; try reflexivity.
  - intros j Hj. destruct (Nat.lt_ge_cases j 2128) as [Hac|Hptd].
    + rewrite (Hpin (j - 2120) j); try lia.
      * by_cases; try reflexivity.
      * unfold own. by_cases; try reflexivity.
    + destruct (Nat.lt_ge_cases j 2192) as [Hp|Hsh].
      * assert (Hd: 8 * ((j - 2128) / 8) <= j - 2128)
          by apply Nat.Div0.mul_div_le.
        assert (Hm: j - 2128 < 8 * ((j - 2128) / 8) + 8).
        { pose proof (Nat.div_mod_eq (j - 2128) 8).
          pose proof (Nat.mod_upper_bound (j - 2128) 8). lia. }
        rewrite (Hpin ((j - 2128) / 8) j); try lia.
        -- by_cases; try reflexivity.
        -- unfold own. by_cases; try reflexivity.
      * destruct (G j) as (_ & Gsh & _). apply Gsh; [discriminate|].
        unfold shared. by_cases; try reflexivity.
Qed.

Lemma fuse_map_layout_witness :
  exists a fusemap,
    assemble and_gate = Ok a /\ fill_fusemap a = Ok fusemap /\
    (forall n, In n output_pins ->
       exists oe terms,
         dget (KInt n) (_pin_oe_fusemap a) = Some oe /\
         dget (KInt n) (_pin_fusemap a) = Some terms /\
         (forall k, k < 32 ->
            String.get (256 * N.to_nat (19 - n) + k) fusemap
            = Some (fuse_char (nth k oe 0%N))) /\
         (forall k, k < 224 ->
            String.get (256 * N.to_nat (19 - n) + 32 + k) fusemap
            = Some (fuse_char (nth k terms 0%N)))) /\
    (forall j, 2048 <= j < 2120 -> String.get j fusemap = Some "0"%char) /\
    (forall j, 2120 <= j < 2194 -> String.get j fusemap = Some "1"%char).
Proof.
  apply (@fuse_map_layout and_gate). exact and_gate_assembles.
Defined.

End JedLayout.

(** ** simplegalasm.py: the fuses of the product terms *)

Module FuseRows.
Import PyStr GalAsm GalAsmFacts GalAsmPins Unsupported GalAsmRuns JedLayout.
Open Scope string_scope.
Open Scope nat_scope.
Open Scope list_scope.

(** *** One input column *)

Lemma set_mem_remove_other (a b : string) l :
  a <> b ->
  set_mem string_dec a (set_remove string_dec b l) = set_mem string_dec a l.
Proof.
  intros Hab. induction l as [|x l IH]; simpl; auto.
  destruct (string_dec b x) as [->|Hbx].
  - destruct (string_dec a x); [contradiction|reflexivity].
  - simpl. destruct (string_dec a x); auto.
Qed.

Lemma negated_name_differs name : ("!" ++ name)%string <> name.
Proof.
  intros H. apply (f_equal String.length) in H. simpl in H. lia.
Qed.

(** [lit] is the name, or the negated name, of one of [pins]. *)
Definition taken (self : Assembler) (pins : list N) (lit : string) : bool :=
  existsb (fun n => match dget (KInt n) (_pinname_by_pinnumber self) with
                    | Some name =>
                        String.eqb lit name || String.eqb lit ("!" ++ name)%string
                    | None => false
                    end) pins.

Lemma taken_spec self pins lit :
  taken self pins lit = true <-> input_literal_of self pins lit.
Proof.
  unfold taken, input_literal_of. rewrite existsb_exists. split.
  - intros (n & Hn & H).
    destruct (dget (KInt n) (_pinname_by_pinnumber self)) as [name|] eqn:E;
      [|discriminate].
    exists n, name. split; auto. split; [exact E|].
    apply orb_true_iff in H. destruct H as [H|H]; apply String.eqb_eq in H; auto.
  - intros (n & name & Hn & Hp & Hl). exists n. split; auto.
    unfold pin_name in Hp. rewrite Hp. apply orb_true_iff.
    destruct Hl as [->| ->]; [left|right]; apply String.eqb_refl.
Qed.

Lemma taken_cons self n pins lit :
  taken self (n :: pins) lit
  = match dget (KInt n) (_pinname_by_pinnumber self) with
    | Some name => String.eqb lit name || String.eqb lit ("!" ++ name)%string
    | None => false
    end || taken self pins lit.
Proof. reflexivity. Qed.

(** The fuse of a literal after its column has been visited: left as it
    was when the literal is still in the product, blown otherwise. *)
Definition fuse (self : Assembler) (product : list string) (pins : list N)
    (lit : string) (before : N) : N :=
  if set_mem string_dec lit product && negb (taken self pins lit)
  then before else 1%N.

Ltac by_position :=
  repeat match goal with
         | |- context [Nat.eqb ?a ?b] => destruct (Nat.eqb_spec a b)
         | |- context [Nat.ltb ?a ?b] => destruct (Nat.ltb_spec a b)
         end;
  cbn [andb]; try reflexivity; try lia.

Lemma place_input_fuses self base product fusemap idx n product' fusemap' :
  NoDup product ->
  base + 2 * idx + 1 < List.length fusemap ->
  place_input self base (product, fusemap) (idx, n) = Ok (product', fusemap') ->
  exists name,
    pin_name self n name /\ NoDup product' /\
    (forall lit,
        set_mem string_dec lit product'
        = set_mem string_dec lit product
          && negb (String.eqb lit name || String.eqb lit ("!" ++ name)%string)) /\
    List.length fusemap' = List.length fusemap /\
    forall pos,
      nth pos fusemap' 0%N =
      if pos =? base + 2 * idx
      then (if set_mem string_dec name product
            then nth pos fusemap 0%N else 1%N)
      else if pos =? base + 2 * idx + 1
           then (if set_mem string_dec ("!" ++ name)%string product
                 then nth pos fusemap 0%N else 1%N)
           else nth pos fusemap 0%N.
Proof.
  intros Hnd Hb H.
  assert (Hname: exists name, pin_name self n name).
  { unfold place_input, getitem in H. unfold pin_name.
    destruct (dget (KInt n) (_pinname_by_pinnumber self)) as [name|];
      [eauto|discriminate]. }
  destruct Hname as (name & Hn). exists name. split; [exact Hn|].
  destruct (@place_input_spec self base product fusemap idx n name Hn Hnd)
    as (p' & f' & E & Hnd' & Hin).
  rewrite E in H. injection H as -> ->. split; [exact Hnd'|]. split.
  { intros lit. apply eq_iff_eq_true.
    rewrite andb_true_iff, negb_true_iff, orb_false_iff. split.
    - intros Hm. apply set_mem_correct1 in Hm. apply Hin in Hm.
      destruct Hm as (Hm & H1 & H2). split; [now apply set_mem_correct2|].
      split; now apply String.eqb_neq.
    - intros (Hm & H1 & H2). apply set_mem_correct2. apply Hin.
      split; [now apply set_mem_correct1 in Hm|].
      split; now apply String.eqb_neq. }
  clear Hin Hnd'. unfold place_input, getitem in E. unfold pin_name in Hn.
  rewrite Hn in E. cbn [bind] in E.
  destruct (set_mem string_dec name product) eqn:E1.
  - rewrite set_mem_remove_other in E by apply negated_name_differs.
    destruct (set_mem string_dec ("!" ++ name)%string product) eqn:E2;
      injection E as _ <-.
    + split; [reflexivity|]. intros pos. by_position.
    + split; [apply length_set_at_list|]. intros pos.
      rewrite PeteDepends.nth_set_at. by_position.
  - destruct (set_mem string_dec ("!" ++ name)%string product) eqn:E2;
      injection E as _ <-.
    + split; [apply length_set_at_list|]. intros pos.
      rewrite PeteDepends.nth_set_at. by_position.
    + split; [now rewrite !length_set_at_list|]. intros pos.
      rewrite !PeteDepends.nth_set_at, length_set_at_list. by_position.
Qed.

(** *** The sixteen columns of a product *)

Lemma place_inputs_fuses self base :
  forall l product fusemap product' fusemap',
    NoDup product -> NoDup (map fst l) ->
    (forall x, In x l -> base + 2 * fst x + 1 < List.length fusemap) ->
    foldM (place_input self base) l (product, fusemap)
    = Ok (product', fusemap') ->
    List.length fusemap' = List.length fusemap /\
    (forall pos,
        (forall x, In x l -> pos <> base + 2 * fst x /\
                             pos <> base + 2 * fst x + 1) ->
        nth pos fusemap' 0%N = nth pos fusemap 0%N) /\
    forall k idx n,
      nth_error l k = Some (idx, n) ->
      exists name,
        pin_name self n name /\
        nth (base + 2 * idx) fusemap' 0%N
        = fuse self product (map snd (firstn k l)) name
               (nth (base + 2 * idx) fusemap 0%N) /\
        nth (base + 2 * idx + 1) fusemap' 0%N
        = fuse self product (map snd (firstn k l)) ("!" ++ name)%string
               (nth (base + 2 * idx + 1) fusemap 0%N).
Proof.
  induction l as [|[idx0 n0] l IH];
    intros product fusemap product' fusemap' Hnd Hl Hb H.
  - injection H as <- <-. split; [reflexivity|]. split; [reflexivity|].
    intros [|k] idx n Hk; discriminate.
  - cbn [foldM] in H. apply bind_Ok in H. destruct H as ([p1 f1] & E1 & H).
    destruct (@place_input_fuses self base product fusemap idx0 n0 p1 f1 Hnd)
      as (name0 & Hn0 & Hnd1 & Hmem & Hlen & Hnth); auto.
    { apply (Hb (idx0, n0)). now left. }
    cbn [map fst] in Hl. apply NoDup_cons_iff in Hl. destruct Hl as [Hfresh Hl].
    destruct (IH p1 f1 product' fusemap' Hnd1 Hl) as (L & U & V); auto.
    { intros x Hx. rewrite Hlen. apply Hb. now right. }
    assert (Hother: forall x, In x l -> fst x <> idx0).
    { intros x Hx E. apply Hfresh. rewrite <- E. now apply in_map. }
    split; [congruence|]. split.
    { intros pos Hpos. rewrite U by (intros x Hx; apply Hpos; now right).
      rewrite Hnth. destruct (Hpos (idx0, n0) (or_introl eq_refl)) as [P1 P2].
      cbn [fst] in P1, P2. by_position. }
    intros [|k] idx n Hk.
    + injection Hk as <- <-. exists name0. split; [exact Hn0|].
      cbn [firstn map]. unfold fuse. cbn [taken existsb negb].
      rewrite !andb_true_r. split.
      * rewrite U by (intros x Hx; specialize (Hother x Hx); lia).
        rewrite Hnth. by_position.
      * rewrite U by (intros x Hx; specialize (Hother x Hx); lia).
        rewrite Hnth. by_position.
    + cbn [nth_error] in Hk. destruct (V k idx n Hk) as (name & Hn & V1 & V2).
      exists name. split; [exact Hn|].
      assert (Hne: idx <> idx0).
      { apply nth_error_In in Hk. apply (Hother (idx, n) Hk). }
      rewrite V1, V2. cbn [firstn map snd]. unfold fuse.
      rewrite !taken_cons. unfold pin_name in Hn0. rewrite Hn0, !Hmem, !Hnth.
      split.
      * replace (base + 2 * idx =? base + 2 * idx0) with false
          by (symmetry; apply Nat.eqb_neq; lia).
        replace (base + 2 * idx =? base + 2 * idx0 + 1) with false
          by (symmetry; apply Nat.eqb_neq; lia).
        destruct (set_mem string_dec name product),
          (String.eqb name name0 || String.eqb name ("!" ++ name0)%string),
          (taken self (map snd (firstn k l)) name); reflexivity.
      * replace (base + 2 * idx + 1 =? base + 2 * idx0) with false
          by (symmetry; apply Nat.eqb_neq; lia).
        replace (base + 2 * idx + 1 =? base + 2 * idx0 + 1) with false
          by (symmetry; apply Nat.eqb_neq; lia).
        destruct (set_mem string_dec ("!" ++ name)%string product),
          (String.eqb ("!" ++ name)%string name0
           || String.eqb ("!" ++ name)%string ("!" ++ name0)%string),
          (taken self (map snd (firstn k l)) ("!" ++ name)%string); reflexivity.
Qed.

Lemma enumerate_nth A (l : list A) :
  forall s k x,
    nth_error l k = Some x ->
    nth_error (combine (seq s (List.length l)) l) k = Some (s + k, x).
Proof.
  induction l as [|a l IH]; intros s [|k] x H; simpl in *; try discriminate.
  - injection H as ->. now rewrite Nat.add_0_r.
  - rewrite (IH (S s) k x H). now rewrite Nat.add_succ_r.
Qed.

Lemma enumerate_fst A (l : list A) :
  forall s, map fst (combine (seq s (List.length l)) l)
            = seq s (List.length l).
Proof.
  induction l as [|a l IH]; intros s; simpl; [reflexivity|].
  now rewrite IH.
Qed.

Lemma enumerate_firstn A (l : list A) :
  forall s k, map snd (firstn k (combine (seq s (List.length l)) l))
              = firstn k l.
Proof.
  induction l as [|a l IH]; intros s [|k]; simpl; try reflexivity.
  now rewrite IH.
Qed.

Lemma place_product_fuses self nm base product fusemap fusemap' :
  NoDup product -> base + 32 <= List.length fusemap ->
  place_product self nm base product fusemap = Ok fusemap' ->
  List.length fusemap' = List.length fusemap /\
  (forall pos, pos < base \/ base + 32 <= pos ->
               nth pos fusemap' 0%N = nth pos fusemap 0%N) /\
  forall k n,
    nth_error input_pins k = Some n ->
    exists name,
      pin_name self n name /\
      nth (base + 2 * k) fusemap' 0%N
      = fuse self product (firstn k input_pins) name
             (nth (base + 2 * k) fusemap 0%N) /\
      nth (base + 2 * k + 1) fusemap' 0%N
      = fuse self product (firstn k input_pins) ("!" ++ name)%string
             (nth (base + 2 * k + 1) fusemap 0%N).
Proof.
  intros Hnd Hb H. unfold place_product in H. apply bind_Ok in H.
  destruct H as ([p f] & E & H).
  destruct (negb (List.length p =? 0)); [discriminate|]. injection H as <-.
  assert (Hidx: forall x, In x (enumerate input_pins) -> fst x < 16).
  { intros x Hx. apply (in_map fst) in Hx. unfold enumerate in Hx.
    rewrite enumerate_fst in Hx. apply in_seq in Hx. simpl in Hx. lia. }
  destruct (@place_inputs_fuses self base (enumerate input_pins)
              product fusemap p f Hnd) as (L & U & V); auto.
  { unfold enumerate. rewrite enumerate_fst. apply seq_NoDup. }
  { intros x Hx. specialize (Hidx x Hx). lia. }
  split; [exact L|]. split.
  - intros pos Hpos. apply U. intros x Hx. specialize (Hidx x Hx). lia.
  - intros k n Hk.
    destruct (V k k n) as (name & Hn & V1 & V2).
    { unfold enumerate. now rewrite (@enumerate_nth _ input_pins 0 k n Hk). }
    exists name. unfold enumerate in V1, V2.
    rewrite enumerate_firstn in V1, V2. auto.
Qed.

(** *** The products of an equation *)

Lemma place_products_fuses self nm :
  forall products productidx fusemap terms,
    products_nodup products -> List.length fusemap = 224 ->
    place_products self nm productidx products fusemap = Ok terms ->
    List.length terms = 224 /\
    (products = [] \/ productidx + List.length products <= 7) /\
    (forall pos, pos < 32 * productidx
                 \/ 32 * (productidx + List.length products) <= pos ->
                 nth pos terms 0%N = nth pos fusemap 0%N) /\
    forall j product,
      nth_error products j = Some product ->
      forall k n,
        nth_error input_pins k = Some n ->
        exists name,
          pin_name self n name /\
          nth (32 * (productidx + j) + 2 * k) terms 0%N
          = fuse self product (firstn k input_pins) name
                 (nth (32 * (productidx + j) + 2 * k) fusemap 0%N) /\
          nth (32 * (productidx + j) + 2 * k + 1) terms 0%N
          = fuse self product (firstn k input_pins) ("!" ++ name)%string
                 (nth (32 * (productidx + j) + 2 * k + 1) fusemap 0%N).
Proof.
  induction products as [|p rest IH];
    intros productidx fusemap terms Hnd Hlen H.
  - injection H as <-. split; [exact Hlen|]. split; [now left|].
    split; [reflexivity|]. intros [|j] product Hj; discriminate.
  - cbn [place_products] in H.
    destruct (Nat.ltb_spec 6 productidx) as [|H6]; [discriminate|].
    apply bind_Ok in H. destruct H as (f1 & E1 & H).
    destruct (@place_product_fuses self nm (32 * productidx) p fusemap f1)
      as (L1 & U1 & V1); auto.
    { apply Hnd. now left. }
    { lia. }
    destruct (IH (productidx + 1) f1 terms) as (L & B & U & V); auto.
    { intros q Hq. apply Hnd. now right. }
    { congruence. }
    cbn [List.length].
    split; [exact L|]. split; [right; destruct B as [->|B]; simpl; lia|].
    split.
    { intros pos Hpos. rewrite U by lia. apply U1. lia. }
    assert (Hk16: forall k n, nth_error input_pins k = Some n -> k < 16).
    { intros k n Hk. apply nth_error_Some_lt in Hk. exact Hk. }
    intros [|j] product Hj k n Hk.
    + injection Hj as <-. destruct (V1 k n Hk) as (name & Hn & W1 & W2).
      exists name. split; [exact Hn|]. specialize (Hk16 k n Hk).
      rewrite Nat.add_0_r. rewrite !U by lia. auto.
    + cbn [nth_error] in Hj.
      destruct (V j product Hj k n Hk) as (name & Hn & W1 & W2).
      exists name. split; [exact Hn|]. specialize (Hk16 k n Hk).
      replace (productidx + S j) with (productidx + 1 + j) by lia.
      rewrite W1, W2. rewrite !U1 by lia. auto.
Qed.

(** *** What the fuses of a pin say *)

(** The 32 fuses of a product term, two for each of the sixteen input
    columns: the first is left intact (0) when the name of the pin of
    the column is a literal of the product, the second when its negation
    is, and both only when no earlier column has a pin with that
    literal; every other fuse is blown (1). *)
Definition literal_fuses (self : Assembler) (product : list string)
    (row : nat -> N) : Prop :=
  forall k n,
    nth_error input_pins k = Some n ->
    exists name,
      pin_name self n name /\
      (row (2 * k) = 0%N \/ row (2 * k) = 1%N) /\
      (row (2 * k) = 0%N <->
       In name product /\
       ~ input_literal_of self (firstn k input_pins) name) /\
      (row (2 * k + 1) = 0%N \/ row (2 * k + 1) = 1%N) /\
      (row (2 * k + 1) = 0%N <->
       In ("!" ++ name)%string product /\
       ~ input_literal_of self (firstn k input_pins) ("!" ++ name)%string).

(** The 224 fuses of the seven product terms of the output pin called
    [name]. *)
Definition level_rows (self : Assembler) (name : string) (terms : list N)
  : Prop :=
  List.length terms = 224 /\
  match dget (KStr name) (_equations self) with
  | None => forall i, nth i terms 0%N = 0%N
  | Some eq =>
      match sum_of_products eq with
      | SopInt v =>
          forall i, nth i terms 0%N
                    = if N.eqb v 0 || (32 <=? i) then 0%N else 1%N
      | SopList products =>
          List.length products <= 7 /\
          (forall j product,
              nth_error products j = Some product ->
              literal_fuses self product
                            (fun c => nth (32 * j + c) terms 0%N)) /\
          forall i, 32 * List.length products <= i -> nth i terms 0%N = 0%N
      end
  end.

(** The 32 fuses of its output enable term. *)
Definition oe_row (self : Assembler) (name : string) (oe : list N) : Prop :=
  List.length oe = 32 /\
  match dget (KStr name) (_oe_equations self) with
  | None =>
      forall i, i < 32 ->
                nth i oe 0%N
                = if dmem (KStr name) (_equations self) then 1%N else 0%N
  | Some eq =>
      match sum_of_products eq with
      | SopInt v =>
          forall i, i < 32 -> nth i oe 0%N = if N.eqb v 0 then 0%N else 1%N
      | SopList products =>
          exists product,
            products = [product] /\
            literal_fuses self product (fun c => nth c oe 0%N)
      end
  end.

Lemma fuse_intact self product pins lit :
  (fuse self product pins lit 0 = 0 \/ fuse self product pins lit 0 = 1)%N /\
  (fuse self product pins lit 0 = 0%N <->
   In lit product /\ ~ input_literal_of self pins lit).
Proof.
  unfold fuse. rewrite <- taken_spec.
  destruct (set_mem string_dec lit product) eqn:E1.
  - apply set_mem_correct1 in E1.
    destruct (taken self pins lit); cbn [negb andb].
    + split; [now right|]. split; [discriminate|]. intros [_ H]. now elim H.
    + split; [now left|]. split; auto.
  - apply set_mem_complete1 in E1. cbn [andb]. split; [now right|].
    split; [discriminate|]. intros [H _]. contradiction.
Qed.

Lemma literal_fuses_intro self product (row : nat -> N) :
  (forall k n,
      nth_error input_pins k = Some n ->
      exists name,
        pin_name self n name /\
        row (2 * k) = fuse self product (firstn k input_pins) name 0 /\
        row (2 * k + 1)
        = fuse self product (firstn k input_pins) ("!" ++ name)%string 0) ->
  literal_fuses self product row.
Proof.
  intros H k n Hk. destruct (H k n Hk) as (name & Hn & -> & ->).
  exists name. split; [exact Hn|].
  destruct (fuse_intact self product (firstn k input_pins) name) as [A B].
  destruct (fuse_intact self product (firstn k input_pins) ("!" ++ name)%string)
    as [C D].
  auto.
Qed.

Lemma nth_zeros k i : nth i (repeat 0%N k) 0%N = 0%N.
Proof. apply nth_repeat. Qed.

Lemma nth_first_row k i :
  nth i (repeat 1%N 32 ++ repeat 0%N k) 0%N = if 32 <=? i then 0%N else 1%N.
Proof.
  destruct (Nat.leb_spec 32 i) as [H|H].
  - rewrite app_nth2 by (rewrite repeat_length; lia). apply nth_repeat.
  - rewrite app_nth1 by (rewrite repeat_length; lia).
    now apply nth_repeat_lt.
Qed.

Lemma place_equation_fuses self nm f1 f2 :
  stored_nodup self ->
  place_equation self nm (repeat 0%N 224, repeat 0%N 32) = Ok (f1, f2) ->
  level_rows self nm f1 /\
  f2 = if dmem (KStr nm) (_equations self)
          && negb (dmem (KStr nm) (_oe_equations self))
       then repeat 1%N 32 else repeat 0%N 32.
Proof.
  intros Hst H. unfold place_equation in H. unfold level_rows, dmem at 1.
  remember (repeat 0%N 224) as z1 eqn:Z1.
  remember (repeat 0%N 32) as z2 eqn:Z2.
  assert (L1: List.length z1 = 224) by (subst z1; apply repeat_length).
  assert (N1: forall i, nth i z1 0%N = 0%N)
    by (intros i; subst z1; apply nth_repeat).
  assert (S1: forall i, nth i (set_first_row z1) 0%N
                        = if 32 <=? i then 0%N else 1%N).
  { intros i. subst z1.
    change (set_first_row (repeat 0%N 224))
      with (repeat 1%N 32 ++ repeat 0%N 192).
    apply nth_first_row. }
  assert (S2: set_first_row z2 = repeat 1%N 32) by (subst z2; reflexivity).
  destruct (dget (KStr nm) (_equations self)) as [eq|] eqn:Eeq.
  2:{ injection H as <- <-. auto. }
  destruct (negb (negated eq)); [discriminate|]. cbn [andb].
  rewrite S2 in H.
  destruct (sum_of_products eq) as [v|products] eqn:Esop.
  - injection H as <- <-. split; [|reflexivity].
    destruct (N.eqb v 0); cbn [negb orb].
    + auto.
    + split; [|exact S1]. rewrite length_set_first_row; lia.
  - apply bind_Ok in H. destruct H as (terms & E & H). injection H as <- <-.
    split; [|reflexivity].
    destruct (proj1 Hst _ _ Eeq _ Esop) as [_ Hnd].
    destruct (@place_products_fuses self nm products 0 z1 terms Hnd L1 E)
      as (L & B & U & V).
    split; [exact L|]. split; [destruct B as [->|B]; simpl; lia|]. split.
    + intros j product Hj. apply literal_fuses_intro. intros k n Hk.
      destruct (V j product Hj k n Hk) as (name & Hn & V1 & V2).
      exists name. split; [exact Hn|]. cbn [Nat.add] in V1, V2.
      rewrite !N1 in V1, V2. rewrite Nat.add_assoc. auto.
    + intros i Hi. rewrite U by (right; simpl; lia). apply N1.
Qed.

Lemma place_oe_equation_fuses self nm oe :
  stored_nodup self ->
  place_oe_equation self nm
    (if dmem (KStr nm) (_equations self)
        && negb (dmem (KStr nm) (_oe_equations self))
     then repeat 1%N 32 else repeat 0%N 32) = Ok oe ->
  oe_row self nm oe.
Proof.
  intros Hst H. unfold place_oe_equation in H. unfold oe_row.
  remember (repeat 0%N 32) as z2 eqn:Z2.
  remember (repeat 1%N 32) as o2 eqn:O2.
  assert (L2: List.length z2 = 32) by (subst z2; apply repeat_length).
  assert (M2: List.length o2 = 32) by (subst o2; apply repeat_length).
  assert (N2: forall i, nth i z2 0%N = 0%N)
    by (intros i; subst z2; apply nth_repeat).
  assert (P2: forall i, i < 32 -> nth i o2 0%N = 1%N)
    by (intros i Hi; subst o2; now apply nth_repeat_lt).
  assert (S2: set_first_row z2 = o2) by (subst z2 o2; reflexivity).
  destruct (dget (KStr nm) (_oe_equations self)) as [eq|] eqn:Eeq.
  2:{ assert (Hd: dmem (KStr nm) (_oe_equations self) = false)
        by (unfold dmem; now rewrite Eeq).
      rewrite Hd in H. cbn [negb] in H. rewrite andb_true_r in H.
      injection H as <-.
      destruct (dmem (KStr nm) (_equations self)); auto. }
  assert (Hd: dmem (KStr nm) (_oe_equations self) = true)
    by (unfold dmem; now rewrite Eeq).
  rewrite Hd in H. cbn [negb] in H. rewrite andb_false_r in H.
  destruct (negated eq); [discriminate|].
  destruct (sum_of_products eq) as [v|products] eqn:Esop.
  - injection H as <-. destruct (N.eqb v 0); cbn [negb].
    + auto.
    + rewrite S2. auto.
  - destruct (Nat.ltb_spec 1 (List.length products)) as [|H1]; [discriminate|].
    destruct products as [|product [|q rest]];
      [discriminate| |simpl in H1; lia].
    destruct (proj2 Hst _ _ Eeq _ Esop) as [_ Hnd].
    destruct (@place_product_fuses self nm 0 product z2 oe)
      as (L & U & V); auto.
    { apply Hnd. now left. }
    { lia. }
    split; [congruence|].
    exists product. split; [reflexivity|].
    apply literal_fuses_intro. intros k n Hk.
    destruct (V k n Hk) as (name & Hn & V1 & V2).
    exists name. split; [exact Hn|]. cbn [Nat.add] in V1, V2.
    rewrite !N2 in V1, V2. auto.
Qed.

(** *** The loop over the output pins *)

Definition pin_fuses (self a : Assembler) (n : N) : Prop :=
  exists name terms oe,
    pin_name self n name /\
    dget (KInt n) (_pin_fusemap a) = Some terms /\
    dget (KInt n) (_pin_oe_fusemap a) = Some oe /\
    level_rows self name terms /\ oe_row self name oe.

Lemma pin_fuses_same self0 self a n :
  same_design self0 self -> pin_fuses self a n -> pin_fuses self0 a n.
Proof.
  intros (E1 & E2 & E3) (name & terms & oe & Hn & Ht & Ho & Hl & Hr).
  exists name, terms, oe.
  unfold pin_name, level_rows, oe_row, literal_fuses, input_literal_of,
    pin_name in *.
  rewrite E1, E2, E3. auto.
Qed.

Lemma assemble_pin_fuses self n self' :
  stored_nodup self ->
  assemble_pin self n = Ok self' ->
  pin_fuses self self' n /\
  forall m, m <> n ->
            dget (KInt m) (_pin_fusemap self')
            = dget (KInt m) (_pin_fusemap self) /\
            dget (KInt m) (_pin_oe_fusemap self')
            = dget (KInt m) (_pin_oe_fusemap self).
Proof.
  intros Hst H. unfold assemble_pin, getitem in H.
  destruct (dget (KInt n) (_pinname_by_pinnumber self)) as [name|] eqn:En;
    [|discriminate].
  cbn [bind] in H. cbv zeta in H. change (7 * 32) with 224 in H.
  apply bind_Ok in H. destruct H as ([f1 f2] & E1 & H).
  apply bind_Ok in H. destruct H as (oe & E2 & H). injection H as <-.
  destruct (@place_equation_fuses self name f1 f2 Hst E1) as [Hl ->].
  pose proof (@place_oe_equation_fuses self name oe Hst E2) as Hr.
  split.
  - exists name, f1, oe. cbn [_pin_fusemap _pin_oe_fusemap].
    rewrite !dget_dset_same. auto.
  - intros m Hm. cbn [_pin_fusemap _pin_oe_fusemap].
    rewrite !dget_dset_other by congruence. auto.
Qed.

Lemma outputs_fuses self0 :
  stored_nodup self0 ->
  forall l self a,
    NoDup l -> same_design self0 self ->
    foldM assemble_pin l self = Ok a ->
    (forall n, In n l -> pin_fuses self0 a n) /\
    (forall m, ~ In m l ->
               dget (KInt m) (_pin_fusemap a)
               = dget (KInt m) (_pin_fusemap self) /\
               dget (KInt m) (_pin_oe_fusemap a)
               = dget (KInt m) (_pin_oe_fusemap self)).
Proof.
  intros Hst. induction l as [|n l IH]; intros self a Hnd Hs H.
  - injection H as <-. split; [intros ? []|auto].
  - cbn [foldM] in H. apply bind_Ok in H. destruct H as (self1 & E1 & H).
    apply NoDup_cons_iff in Hnd. destruct Hnd as [Hfresh Hnd].
    pose proof Hs as (F1 & F2 & F3).
    assert (Hst': stored_nodup self).
    { destruct Hst as [Ha Hb]. split; intros nm eq Heq.
      - apply (Ha nm). now rewrite F2.
      - apply (Hb nm). now rewrite F3. }
    destruct (@assemble_pin_fuses self n self1 Hst' E1) as [Hn Hkeep].
    pose proof (@assemble_pin_same _ _ _ E1) as (G1 & G2 & G3).
    destruct (IH self1 a Hnd) as [Hl Hrest]; auto.
    { repeat split; congruence. }
    split.
    + intros m [<-|Hm]; [|now apply Hl].
      apply (@pin_fuses_same self0 self a n Hs).
      destruct Hn as (name & terms & oe & P1 & P2 & P3 & P4 & P5).
      exists name, terms, oe. destruct (Hrest n Hfresh) as [R1 R2].
      rewrite R1, R2. auto.
    + intros m Hm. destruct (Hrest m) as [R1 R2].
      { intros Hin. apply Hm. now right. }
      destruct (Hkeep m) as [K1 K2].
      { intros ->. apply Hm. now left. }
      split; congruence.
Qed.

(** X18: the product term fuses of an assembled design.  For each output
    pin the fuse maps the assembler leaves are those of the equations
    the parser stored under the name of the pin.  A level equation with
    the products [P0 .. Pm] (at most seven) gives product term [j] the
    fuses of [Pj]: in the column of each of the sixteen input pins the
    fuse of the pin is intact when its name is in [Pj] and the fuse of
    its complement when the negated name is, and every other fuse of the
    row is blown; the product terms after the last product are left with
    all fuses intact.  A constant 1 blows the first product term, a
    constant 0 or no equation leaves every fuse intact.  The output
    enable term is that of the single product of the OE equation, or of
    its constant; without an OE equation it is blown exactly when the
    pin has a level equation. *)
Theorem product_term_fuses tokens :
  (exists a, assemble tokens = Ok a) ->
  exists self a,
    parse tokens = Ok self /\ assemble tokens = Ok a /\
    forall n, In n output_pins ->
      exists name terms oe,
        pin_name self n name /\
        dget (KInt n) (_pin_fusemap a) = Some terms /\
        dget (KInt n) (_pin_oe_fusemap a) = Some oe /\
        level_rows self name terms /\ oe_row self name oe.
Proof.
  intros (a & Ha). pose proof Ha as H. unfold assemble in H.
  apply bind_Ok in H. destruct H as (self & Ep & H).
  exists self, a. split; [exact Ep|]. split; [exact Ha|].
  pose proof (@parse_nodup tokens self Ep) as Hst.
  destruct (@outputs_fuses self Hst output_pins self a) as [Hl _]; auto.
  - unfold output_pins. repeat constructor; simpl; intuition discriminate.
  - repeat split.
Qed.

Lemma product_term_fuses_witness :
  exists self a,
    parse and_gate = Ok self /\ assemble and_gate = Ok a /\
    forall n, In n output_pins ->
      exists name terms oe,
        pin_name self n name /\
        dget (KInt n) (_pin_fusemap a) = Some terms /\
        dget (KInt n) (_pin_oe_fusemap a) = Some oe /\
        level_rows self name terms /\ oe_row self name oe.
Proof.
  apply (@product_term_fuses and_gate). exact and_gate_assembles.
Defined.

End FuseRows.

(** ** pete.py: the minterms of an output pin *)

Module LevelAnalysis.
Import Facts BoolExpr MinimiserSpec.
Import Pete PeteHelpers PeteAnalysis PeteDepends HighZ PeteMaps IterateMask.
Open Scope string_scope.
Open Scope N_scope.
Open Scope list_scope.

(** *** The pin names *)

Lemma pin_name_of_pal pin_names k :
  map fst pin_names = pal_pins -> In k pal_pins ->
  exists name, pin_name_of pin_names k = inr name.
Proof.
  intros Hk Hin. unfold pin_name_of.
  destruct (find (fun e => fst e =? k) pin_names) as [e|] eqn:E; eauto.
  exfalso. rewrite <- Hk in Hin. apply in_map_iff in Hin.
  destruct Hin as (e & He & Hin).
  pose proof (find_none _ _ E e Hin) as Hf. cbv beta in Hf.
  rewrite He, N.eqb_refl in Hf. discriminate.
Qed.

Lemma addr_pin_in_pal pos :
  pos < 18 -> In (epromaddrbitpos_to_palpinnum pos) pal_pins.
Proof.
  intros Hp. unfold pal_pins, epromaddrbitpos_to_palpinnum.
  apply in_map_iff. destruct (N.leb_spec pos 8).
  - exists (N.to_nat (pos + 1)). split; [lia|].
    apply in_or_app. left. apply in_seq. lia.
  - exists (N.to_nat (pos + 2)). split; [lia|].
    apply in_or_app. right. apply in_seq. lia.
Qed.

Lemma data_pin_in_pal p :
  p < 8 -> In (epromdatabitpos_to_palpinnum p) pal_pins.
Proof.
  intros Hp. unfold pal_pins, epromdatabitpos_to_palpinnum.
  apply in_map_iff. exists (N.to_nat (p + 12)). split; [lia|].
  apply in_or_app. right. apply in_seq. lia.
Qed.

(** The name of the pin on address bit [pos]. *)
Definition name_at (pin_names : list (N * string)) (pos : N) : string :=
  match pin_name_of pin_names (epromaddrbitpos_to_palpinnum pos) with
  | inr name => name
  | inl _ => ""
  end.

Lemma shiftl_1_inj a b : N.shiftl 1 a = N.shiftl 1 b -> a = b.
Proof.
  intros H. apply (f_equal (fun z => N.testbit z b)) in H.
  rewrite !bit_bits, N.eqb_refl in H. now apply N.eqb_eq.
Qed.

(** The loop over the 18 address bits collects the set bits of
    [depends_on], lowest first. *)
Lemma depends_on_inputs_run pin_names depends_on q :
  map fst pin_names = pal_pins ->
  N.testbit depends_on q = false ->
  forall d j names bits,
    (j + d <= 18)%nat ->
    foldM (depends_on_input pin_names depends_on (N.shiftl 1 q))
          (map N.of_nat (seq j d)) (names, bits)
    = inr (names ++ map (name_at pin_names) (set_positions depends_on j d),
           bits ++ map (N.shiftl 1) (set_positions depends_on j d)).
Proof.
  intros Hk Hq. induction d as [|d IH]; intros j names bits Hj.
  - cbn [seq map foldM]. unfold set_positions, positions.
    cbn [seq map filter]. now rewrite !app_nil_r.
  - cbn [seq map foldM]. unfold depends_on_input at 1.
    destruct (@pin_name_of_pal pin_names
                (epromaddrbitpos_to_palpinnum (N.of_nat j)) Hk)
      as (name & Hn); [apply addr_pin_in_pal; lia|].
    rewrite Hn. cbn [bind]. rewrite land_bit_nonzero.
    assert (Hs: set_positions depends_on j (S d)
                = if N.testbit depends_on (N.of_nat j)
                  then N.of_nat j :: set_positions depends_on (S j) d
                  else set_positions depends_on (S j) d) by reflexivity.
    rewrite Hs.
    destruct (N.testbit depends_on (N.of_nat j)) eqn:Et.
    + assert (Hne: (N.shiftl 1 (N.of_nat j) =? N.shiftl 1 q) = false).
      { apply N.eqb_neq. intros H. apply shiftl_1_inj in H. congruence. }
      rewrite Hne. cbn [negb bind]. rewrite IH by lia.
      cbn [map]. unfold name_at at 2. rewrite Hn.
      now rewrite <- !app_assoc.
    + cbn [bind]. apply IH. lia.
Qed.

(** *** The minterm of a combination *)

Lemma condition_minterm notstr names ps addr k :
  (k <= List.length ps)%nat ->
  forall i,
    N.testbit (snd (fold_left (condition notstr names (map (N.shiftl 1) ps)
                                         addr)
                              (seq 0 k) ([], 0))) (N.of_nat i)
    = (i <? k)%nat && N.testbit addr (nth i ps 0).
Proof.
  induction k as [|k IH]; intros Hk i.
  - cbn [seq fold_left snd]. now rewrite N.bits_0.
  - rewrite seq_S, fold_left_app. cbn [fold_left Nat.add].
    specialize (IH ltac:(lia) i).
    destruct (fold_left _ (seq 0 k) ([], 0)) as [conditions minterm].
    cbn [snd] in IH. unfold condition.
    assert (Hb: nth k (map (N.shiftl 1) ps) 0 = N.shiftl 1 (nth k ps 0)).
    { rewrite (nth_indep _ 0 (N.shiftl 1 0)) by (rewrite length_map; lia).
      apply map_nth. }
    rewrite Hb.
    assert (Hz: (N.land addr (N.shiftl 1 (nth k ps 0)) =? 0)
                = negb (N.testbit addr (nth k ps 0))).
    { rewrite <- land_bit_nonzero. now rewrite negb_involutive. }
    rewrite Hz.
    destruct (N.testbit addr (nth k ps 0)) eqn:Et; cbn [negb snd].
    + rewrite N.lor_spec, bit_bits, IH.
      destruct (Nat.eqb_spec k i) as [<-|Hne].
      * rewrite N.eqb_refl, orb_true_r, Et.
        destruct (Nat.ltb_spec k (S k)); [reflexivity|lia].
      * destruct (N.eqb_spec (N.of_nat k) (N.of_nat i)); [lia|].
        rewrite orb_false_r.
        destruct (Nat.ltb_spec i k), (Nat.ltb_spec i (S k));
          try reflexivity; lia.
    + rewrite IH. destruct (Nat.eqb_spec k i) as [<-|Hne].
      * now rewrite Et, !andb_false_r.
      * destruct (Nat.ltb_spec i k), (Nat.ltb_spec i (S k));
          try reflexivity; lia.
Qed.

Lemma combination_minterm notstr names ps addr :
  snd (combination notstr names (map (N.shiftl 1) ps) addr) = gather ps addr.
Proof.
  unfold combination. rewrite length_map. apply N.bits_inj. intros n.
  rewrite <- (N2Nat.id n).
  rewrite condition_minterm by lia. rewrite gather_bits.
  destruct (nth_error ps (N.to_nat n)) as [pos|] eqn:E.
  - rewrite (nth_error_nth _ _ 0 E).
    apply nth_error_lt in E.
    destruct (Nat.ltb_spec (N.to_nat n) (List.length ps)); [reflexivity|lia].
  - apply nth_error_None in E.
    destruct (Nat.ltb_spec (N.to_nat n) (List.length ps)); [lia|reflexivity].
Qed.

(** *** The values of [iterate_mask] *)

Lemma filter_none A (f : A -> bool) l :
  (forall x, In x l -> f x = false) -> filter f l = [].
Proof.
  induction l as [|x l IH]; intros H; cbn [filter]; auto.
  rewrite (H x (or_introl eq_refl)). apply IH. intros y Hy. apply H. now right.
Qed.

Lemma set_positions_upto mask d d' :
  mask < 2 ^ N.of_nat d -> (d <= d')%nat ->
  set_positions mask 0 d' = set_positions mask 0 d.
Proof.
  intros Hm Hd. unfold set_positions, positions.
  replace d' with (d + (d' - d))%nat by lia.
  rewrite seq_app, map_app, filter_app.
  rewrite (@filter_none _ _ (map N.of_nat (seq (0 + d) (d' - d)))).
  - apply app_nil_r.
  - intros x Hx. apply in_map_iff in Hx. destruct Hx as (k & <- & Hk).
    apply in_seq in Hk. apply (@testbit_below mask (N.of_nat d)); auto. lia.
Qed.

(** The set bits of a mask below [2^18], lowest first. *)
Definition bits_of (mask : N) : list N := set_positions mask 0 18.

Lemma bits_of_In mask i :
  mask < 2 ^ 18 -> In i (bits_of mask) <-> N.testbit mask i = true.
Proof.
  intros Hm. unfold bits_of. rewrite set_positions_In. split; [tauto|].
  intros Ht. split; auto. split; [lia|].
  destruct (N.lt_ge_cases i 18) as [Hlt|Hge]; [lia|].
  rewrite (@testbit_below mask 18 i) in Ht; [discriminate|auto|auto].
Qed.

Lemma bits_of_nodup mask : NoDup (bits_of mask).
Proof. apply set_positions_nodup. Qed.

Lemma bits_of_length mask :
  mask < 2 ^ 18 -> List.length (bits_of mask) = bit_count mask.
Proof. intros Hm. now apply (@set_positions_length 18 mask). Qed.

Lemma iterate_mask_run mask :
  0 < mask -> mask < 2 ^ 18 ->
  iterate_mask mask
  = Some (map (scatter (map (N.shiftl 1) (bits_of mask)))
              (range (2 ^ N.of_nat (List.length (bits_of mask))))).
Proof.
  intros H0 H18. unfold iterate_mask.
  destruct (N.ltb_spec mask 1); [lia|].
  change 1 with (N.shiftl 1 (N.of_nat 0)) at 1.
  rewrite (@mask_bits_run mask (N.to_nat (N.size mask)) H0 0
             (S (N.to_nat (N.size mask))) []) by (auto; lia).
  cbn [app]. rewrite length_map.
  assert (E: set_positions mask 0 (N.to_nat (N.size mask)) = bits_of mask).
  { symmetry. apply set_positions_upto.
    - rewrite N2Nat.id. apply N.size_gt.
    - rewrite N.size_log2 by lia.
      assert (N.log2 mask < 18) by (apply N.log2_lt_pow2; lia). lia. }
  now rewrite E.
Qed.

(** The bits of a yielded value are those of its number, moved to the
    set bits of the mask. *)
Lemma scatter_at ps n idx pos :
  NoDup ps -> nth_error ps idx = Some pos ->
  N.testbit (scatter (map (N.shiftl 1) ps) n) pos = N.testbit n (N.of_nat idx).
Proof.
  intros Hnd Hp. apply eq_iff_eq_true. rewrite scatter_bits. split.
  - intros (idx' & Hidx & Ht).
    assert (idx' = idx).
    { apply (proj1 (NoDup_nth_error ps) Hnd).
      - eapply nth_error_lt; eauto.
      - congruence. }
    now subst idx'.
  - intros Ht. exists idx. auto.
Qed.

Lemma scatter_outside ps n i :
  ~ In i ps -> N.testbit (scatter (map (N.shiftl 1) ps) n) i = false.
Proof.
  intros Hi. destruct (N.testbit _ i) eqn:E; [|reflexivity].
  apply scatter_bits in E. destruct E as (idx & Hidx & _).
  apply nth_error_In in Hidx. contradiction.
Qed.

Lemma gather_scatter ps n :
  NoDup ps -> n < 2 ^ N.of_nat (List.length ps) ->
  gather ps (scatter (map (N.shiftl 1) ps) n) = n.
Proof.
  intros Hnd Hn. apply N.bits_inj. intros i. rewrite <- (N2Nat.id i).
  rewrite gather_bits.
  destruct (nth_error ps (N.to_nat i)) as [pos|] eqn:E.
  - now apply scatter_at.
  - apply nth_error_None in E. symmetry.
    apply (@testbit_below n (N.of_nat (List.length ps))); auto. lia.
Qed.

(** The addresses with a given combination on the bits of [mask]. *)
Lemma land_scatter mask n a :
  mask < 2 ^ 18 -> n < 2 ^ N.of_nat (List.length (bits_of mask)) ->
  N.land a mask = scatter (map (N.shiftl 1) (bits_of mask)) n <->
  gather (bits_of mask) a = n.
Proof.
  intros Hm Hn. pose proof (bits_of_nodup mask) as Hnd. split.
  - intros H. rewrite <- (@gather_scatter (bits_of mask) n Hnd Hn).
    rewrite <- H. apply N.bits_inj. intros i. rewrite <- (N2Nat.id i).
    rewrite !gather_bits.
    destruct (nth_error (bits_of mask) (N.to_nat i)) as [pos|] eqn:E; auto.
    apply nth_error_In, bits_of_In in E; auto.
    now rewrite N.land_spec, E, andb_true_r.
  - intros <-. apply N.bits_inj. intros i. rewrite N.land_spec.
    destruct (N.testbit mask i) eqn:Et.
    + rewrite andb_true_r. apply bits_of_In in Et; auto.
      apply In_nth_error in Et. destruct Et as (idx & Hidx).
      rewrite (@scatter_at _ _ idx i Hnd Hidx), gather_bits, Hidx.
      reflexivity.
    + rewrite andb_false_r. symmetry. apply scatter_outside.
      rewrite bits_of_In by auto. congruence.
Qed.

Lemma iterate_mask_In mask values r :
  0 < mask -> mask < 2 ^ 18 -> iterate_mask mask = Some values ->
  In r values <-> N.land r mask = r.
Proof.
  intros H0 H18 E. rewrite iterate_mask_run in E by auto.
  injection E as <-. rewrite in_map_iff. split.
  - intros (n & <- & Hn). apply range_In in Hn.
    apply N.bits_inj. intros i. rewrite N.land_spec.
    destruct (N.testbit mask i) eqn:Et; [apply andb_true_r|].
    rewrite andb_false_r. symmetry. apply scatter_outside.
    rewrite bits_of_In by auto. congruence.
  - intros Hr. exists (gather (bits_of mask) r). split.
    + symmetry. rewrite <- Hr at 1. apply land_scatter; auto.
      apply gather_below.
    + apply range_In. apply gather_below.
Qed.

(** *** One combination *)

(** The number of the combination that address [a] has on the pins that
    [depends_on] names: bit [i] of it is the bit of [a] at the [i]-th
    set bit of [depends_on]. *)
Definition minterm_of (depends_on a : N) : N := gather (bits_of depends_on) a.

(** A17..A10 of the address equal D7..D0 of the data: what the PAL puts
    on its pins 12 to 19 is what the address applies to them. *)
Definition feeds_back (dumpdata : list Byte.byte) (a : N) : Prop :=
  N.shiftr (N.land a 261120) 10 = dump_at dumpdata a.

(** Some address below [2^18] with combination [m] satisfies [P]. *)
Definition at_minterm (depends_on m : N) (P : N -> Prop) : Prop :=
  exists a, a < 2 ^ 18 /\ minterm_of depends_on a = m /\ P a.

(** What the three lists of minterms say about the dump. *)
Definition classified (dumpdata : list Byte.byte) (p depends_on : N)
    (dc neg pos : list N) : Prop :=
  (forall m, In m dc ->
             at_minterm depends_on m (driven dumpdata p) /\
             ~ at_minterm depends_on m (feeds_back dumpdata)) /\
  (forall m, In m neg ->
             at_minterm depends_on m (feeds_back dumpdata) /\
             at_minterm depends_on m
               (fun a => driven dumpdata p a /\
                         N.testbit (dump_at dumpdata a) p = false)) /\
  (forall m, In m pos ->
             at_minterm depends_on m (feeds_back dumpdata) /\
             at_minterm depends_on m
               (fun a => driven dumpdata p a /\
                         N.testbit (dump_at dumpdata a) p = true)).

Lemma driven_at_spec dumpdata p a :
  driven_at dumpdata (N.shiftl 1 p) (N.shiftl 1 (p + 10)) a = true <->
  driven dumpdata p a.
Proof.
  unfold driven_at, driven. rewrite land_bit_eqb. apply Bool.eqb_true_iff.
Qed.

Lemma ones_18_bits i : N.testbit (2 ^ 18 - 1) i = (i <? 18).
Proof.
  change (2 ^ 18 - 1) with (N.ones 18).
  destruct (N.ltb_spec i 18).
  - now apply N.ones_spec_low.
  - now apply N.ones_spec_high.
Qed.

Section Pin.
Variable dumpdata : list Byte.byte.
Variable pin_names : list (N * string).
Variable notstr : string.
Variables p depends_on : N.
Hypothesis pins : map fst pin_names = pal_pins.
Hypothesis output : p < 8.
Hypothesis some_input : 0 < depends_on.
Hypothesis inputs :
  forall b, N.testbit depends_on b = true -> b < 18 /\ b <> p + 10.

Local Abbreviation others_mask := (N.lxor (2 ^ 18 - 1) depends_on).
Local Abbreviation ps := (bits_of depends_on).
Local Abbreviation bits := (map (N.shiftl 1) (bits_of depends_on)).

Lemma depends_on_below : depends_on < 2 ^ 18.
Proof.
  apply below_testbit. intros k Hk.
  destruct (N.testbit depends_on k) eqn:E; auto.
  apply inputs in E. lia.
Qed.

Lemma probe_bit_clear : N.testbit depends_on (p + 10) = false.
Proof.
  destruct (N.testbit depends_on (p + 10)) eqn:E; auto.
  apply inputs in E. lia.
Qed.

Lemma others_mask_bits i :
  N.testbit others_mask i = (i <? 18) && negb (N.testbit depends_on i).
Proof.
  rewrite N.lxor_spec, ones_18_bits.
  destruct (N.ltb_spec i 18) as [H|H]; cbn [andb xorb].
  - now destruct (N.testbit depends_on i).
  - now rewrite (@testbit_below depends_on 18 i depends_on_below H).
Qed.

Lemma others_mask_below : others_mask < 2 ^ 18.
Proof.
  apply below_testbit. intros k Hk. rewrite others_mask_bits.
  destruct (N.ltb_spec k 18); [lia|reflexivity].
Qed.

Lemma others_mask_positive : 0 < others_mask.
Proof.
  apply N.neq_0_lt_0. intros H.
  apply (f_equal (fun z => N.testbit z (p + 10))) in H.
  rewrite others_mask_bits, probe_bit_clear, N.bits_0 in H.
  destruct (N.ltb_spec (p + 10) 18); [discriminate|lia].
Qed.

(** The addresses of the two inner loops: all those with the
    combination [c] on the pins of [depends_on]. *)
Lemma others_addresses others c :
  iterate_mask others_mask = Some others ->
  N.land c depends_on = c ->
  forall a, (a < 2 ^ 18 /\ N.land a depends_on = c) <->
            exists o, In o others /\ a = N.lor c o.
Proof.
  intros Ho Hc a.
  assert (Hin: forall o, In o others <-> N.land o others_mask = o).
  { intros o. apply iterate_mask_In; auto.
    - apply others_mask_positive.
    - apply others_mask_below. }
  split.
  - intros (Ha & Hac). exists (N.land a others_mask). split.
    + apply Hin. now rewrite <- N.land_assoc, N.land_diag.
    + rewrite <- Hac. apply N.bits_inj. intros i.
      rewrite N.lor_spec, !N.land_spec, others_mask_bits.
      destruct (N.ltb_spec i 18) as [Hi|Hi].
      * destruct (N.testbit a i), (N.testbit depends_on i); reflexivity.
      * rewrite (@testbit_below a 18 i Ha Hi). reflexivity.
  - intros (o & Ho' & ->). apply Hin in Ho'.
    assert (Hob: forall i, N.testbit o i = true ->
                           i < 18 /\ N.testbit depends_on i = false).
    { intros i Hi.
      assert (H: N.testbit (N.land o others_mask) i = true)
        by (now rewrite Ho').
      rewrite N.land_spec, others_mask_bits, Hi in H.
      cbn [andb] in H. apply andb_true_iff in H. destruct H as [H1 H2].
      apply N.ltb_lt in H1. apply negb_true_iff in H2. auto. }
    assert (Hcb: forall i, N.testbit c i = true -> N.testbit depends_on i = true).
    { intros i Hi.
      assert (H: N.testbit (N.land c depends_on) i = true)
        by (now rewrite Hc).
      rewrite N.land_spec in H. apply andb_true_iff in H. tauto. }
    split.
    + apply below_testbit. intros k Hk. rewrite N.lor_spec.
      destruct (N.testbit c k) eqn:E1.
      { apply Hcb in E1.
        rewrite (@testbit_below depends_on 18 k depends_on_below Hk) in E1.
        discriminate. }
      destruct (N.testbit o k) eqn:E2; auto.
      apply Hob in E2. lia.
    + apply N.bits_inj. intros i. rewrite N.land_spec, N.lor_spec.
      destruct (N.testbit c i) eqn:E1.
      * now rewrite (Hcb i E1).
      * destruct (N.testbit o i) eqn:E2; auto.
        destruct (Hob i E2) as [_ ->]. reflexivity.
Qed.

Lemma find_data_spec others c :
  iterate_mask others_mask = Some others ->
  N.land c depends_on = c ->
  match find_data dumpdata (N.shiftl 1 p) (N.shiftl 1 (p + 10)) c others with
  | Some data =>
      exists a, a < 2 ^ 18 /\ N.land a depends_on = c /\
                driven dumpdata p a /\ data = dump_at dumpdata a
  | None =>
      forall a, a < 2 ^ 18 -> N.land a depends_on = c -> ~ driven dumpdata p a
  end.
Proof.
  intros Ho Hc. pose proof (@others_addresses others c Ho Hc) as Ha.
  unfold find_data.
  destruct (find _ others) as [o|] eqn:E.
  - apply find_some in E. destruct E as [Hin Hd]. cbv beta in Hd.
    apply driven_at_spec in Hd. exists (N.lor c o).
    destruct (proj2 (Ha (N.lor c o))) as [H1 H2]; eauto.
  - intros a H1 H2 Hd. destruct (proj1 (Ha a)) as (o & Hin & ->); auto.
    pose proof (find_none _ _ E o Hin) as Hf. cbv beta in Hf.
    apply driven_at_spec in Hd. congruence.
Qed.

Lemma is_input_relevant_spec others c :
  iterate_mask others_mask = Some others ->
  N.land c depends_on = c ->
  is_input_relevant dumpdata c others = true <->
  exists a, a < 2 ^ 18 /\ N.land a depends_on = c /\ feeds_back dumpdata a.
Proof.
  intros Ho Hc. pose proof (@others_addresses others c Ho Hc) as Ha.
  unfold is_input_relevant. rewrite existsb_exists. split.
  - intros (o & Hin & H). cbv zeta in H. apply N.eqb_eq in H.
    exists (N.lor c o). destruct (proj2 (Ha (N.lor c o))) as [H1 H2]; eauto.
  - intros (a & H1 & H2 & H3). destruct (proj1 (Ha a)) as (o & Hin & ->); auto.
    exists o. split; auto. cbv zeta. now apply N.eqb_eq.
Qed.

Lemma combination_land n :
  n < 2 ^ N.of_nat (List.length ps) ->
  N.land (scatter bits n) depends_on = scatter bits n /\
  forall a, N.land a depends_on = scatter bits n <-> minterm_of depends_on a = n.
Proof.
  intros Hn. split.
  - apply N.bits_inj. intros i. rewrite N.land_spec.
    destruct (N.testbit depends_on i) eqn:Et; [apply andb_true_r|].
    rewrite andb_false_r. symmetry. apply scatter_outside.
    rewrite bits_of_In by apply depends_on_below. congruence.
  - intros a. apply land_scatter; auto. apply depends_on_below.
Qed.

Variable outputpinname : string.
Variable names : list string.

Let step : tables -> N -> outcome tables :=
  classify notstr dumpdata outputpinname depends_on (N.shiftl 1 p)
           (N.shiftl 1 (p + 10)) names bits.

(** One round of the loop over the combinations: the pin is in high-Z
    state at every address of the combination and the analysis stops,
    or the minterm goes to one of the three lists. *)
Lemma classify_spec t n :
  n < 2 ^ N.of_nat (List.length ps) ->
  (step t (scatter bits n) = inl (NoDrivenCombination outputpinname) /\
   forall a, a < 2 ^ 18 -> minterm_of depends_on a = n ->
             ~ driven dumpdata p a) \/
  (exists t' dc neg pos,
      step t (scatter bits n) = inr t' /\
      dontcareterms t' = dontcareterms t ++ dc /\
      negminterms t' = negminterms t ++ neg /\
      posminterms t' = posminterms t ++ pos /\
      dc ++ neg ++ pos = [n] /\
      classified dumpdata p depends_on dc neg pos /\
      at_minterm depends_on n (driven dumpdata p)).
Proof.
  intros Hn. destruct (combination_land Hn) as [Hc Hm].
  unfold step, classify.
  pose proof (combination_minterm notstr names ps (scatter bits n)) as Hmin.
  destruct (combination notstr names bits (scatter bits n))
    as [conditions minterm].
  cbn [snd] in Hmin.
  rewrite (@gather_scatter ps n (bits_of_nodup depends_on) Hn) in Hmin.
  subst minterm. unfold iterate.
  destruct (iterate_mask others_mask) as [others|] eqn:Eo.
  2:{ rewrite iterate_mask_run in Eo;
        [discriminate|apply others_mask_positive|apply others_mask_below]. }
  cbn [bind].
  pose proof (@find_data_spec others (scatter bits n) Eo Hc) as Hf.
  pose proof (@is_input_relevant_spec others (scatter bits n) Eo Hc) as Hr.
  destruct (find_data _ _ _ _ others) as [data|].
  2:{ left. split; [reflexivity|]. intros a H1 H2. apply Hf; auto.
      now apply Hm. }
  right. destruct Hf as (a & A1 & A2 & A3 & ->). apply Hm in A2.
  assert (Hdr: at_minterm depends_on n (driven dumpdata p))
    by (exists a; auto).
  assert (Hfb: is_input_relevant dumpdata (scatter bits n) others = true <->
               at_minterm depends_on n (feeds_back dumpdata)).
  { rewrite Hr. split; intros (b & B1 & B2 & B3); exists b;
      (split; [exact B1|]); (split; [now apply Hm|exact B3]). }
  destruct (is_input_relevant dumpdata (scatter bits n) others) eqn:Er;
    cbn [negb].
  - assert (Hl: (N.land (dump_at dumpdata a) (N.shiftl 1 p) =? 0)
                = negb (N.testbit (dump_at dumpdata a) p)).
    { rewrite <- land_bit_nonzero. now rewrite negb_involutive. }
    rewrite Hl.
    destruct (N.testbit (dump_at dumpdata a) p) eqn:Et; cbn [negb].
    + eexists. exists [], [], [n]. split; [reflexivity|].
      cbn [dontcareterms negminterms posminterms]. rewrite !app_nil_r.
      do 4 (split; [reflexivity|]). split; [|exact Hdr].
      split; [intros ? []|]. split; [intros ? []|].
      intros m [<-|[]]. split; [now apply Hfb|]. exists a. auto.
    + eexists. exists [], [n], []. split; [reflexivity|].
      cbn [dontcareterms negminterms posminterms]. rewrite !app_nil_r.
      do 4 (split; [reflexivity|]). split; [|exact Hdr].
      split; [intros ? []|]. split; [|intros ? []].
      intros m [<-|[]]. split; [now apply Hfb|]. exists a. auto.
  - eexists. exists [n], [], []. split; [reflexivity|].
    cbn [dontcareterms negminterms posminterms]. rewrite !app_nil_r.
    do 4 (split; [reflexivity|]). split; [|exact Hdr].
    split; [|split; intros ? []].
    intros m [<-|[]]. split; [exact Hdr|].
    intros H. apply Hfb in H. discriminate.
Qed.

Lemma perm_three A (a1 b1 c1 a2 b2 c2 : list A) :
  Permutation ((a1 ++ a2) ++ (b1 ++ b2) ++ c1 ++ c2)
              ((a1 ++ b1 ++ c1) ++ a2 ++ b2 ++ c2).
Proof.
  rewrite <- !app_assoc. apply Permutation_app_head.
  eapply Permutation_trans; [apply Permutation_app_swap_app|].
  apply Permutation_app_head.
  rewrite (app_assoc a2 b2 (c1 ++ c2)), (app_assoc a2 b2 c2).
  apply Permutation_app_swap_app.
Qed.

Lemma classified_app dc1 neg1 pos1 dc2 neg2 pos2 :
  classified dumpdata p depends_on dc1 neg1 pos1 ->
  classified dumpdata p depends_on dc2 neg2 pos2 ->
  classified dumpdata p depends_on (dc1 ++ dc2) (neg1 ++ neg2) (pos1 ++ pos2).
Proof.
  intros (A1 & A2 & A3) (B1 & B2 & B3).
  split; [|split]; intros m Hm; apply in_app_or in Hm;
    destruct Hm as [Hm|Hm]; auto.
Qed.

(** The loop over the combinations. *)
Lemma classify_run ns :
  (forall n, In n ns -> n < 2 ^ N.of_nat (List.length ps)) ->
  forall t,
    (exists n,
        In n ns /\
        foldM step (map (scatter bits) ns) t
        = inl (NoDrivenCombination outputpinname) /\
        forall a, a < 2 ^ 18 -> minterm_of depends_on a = n ->
                  ~ driven dumpdata p a) \/
    (exists t' dc neg pos,
        foldM step (map (scatter bits) ns) t = inr t' /\
        dontcareterms t' = dontcareterms t ++ dc /\
        negminterms t' = negminterms t ++ neg /\
        posminterms t' = posminterms t ++ pos /\
        Permutation (dc ++ neg ++ pos) ns /\
        classified dumpdata p depends_on dc neg pos /\
        forall n, In n ns -> at_minterm depends_on n (driven dumpdata p)).
Proof.
  induction ns as [|n ns IH]; intros Hns t.
  - right. exists t, [], [], []. cbn [map foldM]. rewrite !app_nil_r.
    do 4 (split; [reflexivity|]). split; [constructor|].
    split; [|intros ? []]. split; [intros ? []|]. split; intros ? [].
  - cbn [map foldM].
    destruct (@classify_spec t n (Hns n (or_introl eq_refl)))
      as [[E Hz]|(t1 & dc1 & neg1 & pos1 & E & D1 & N1 & P1 & L1 & C1 & A1)];
      rewrite E; cbn [bind].
    + left. exists n. split; [now left|]. auto.
    + destruct (IH (fun m Hm => Hns m (or_intror Hm)) t1)
        as [(m & Hm & E2 & Hz)
           |(t2 & dc2 & neg2 & pos2 & E2 & D2 & N2 & P2 & L2 & C2 & A2)].
      * left. exists m. split; [now right|]. auto.
      * right. exists t2, (dc1 ++ dc2), (neg1 ++ neg2), (pos1 ++ pos2).
        split; [exact E2|]. rewrite D2, N2, P2, D1, N1, P1.
        do 3 (split; [now rewrite app_assoc|]). split; [|split].
        -- eapply Permutation_trans; [apply perm_three|].
           rewrite L1. cbn [app]. now constructor.
        -- apply classified_app; auto.
        -- intros m [<-|Hm]; auto.
Qed.

End Pin.

(** *** The whole analysis *)

Lemma names_of_bits pin_names depends_on :
  map fst pin_names = pal_pins -> depends_on < 2 ^ 18 ->
  Forall2 (fun pos name =>
             pin_name_of pin_names (epromaddrbitpos_to_palpinnum pos)
             = inr name)
          (bits_of depends_on)
          (map (name_at pin_names) (bits_of depends_on)).
Proof.
  intros Hk Hd.
  assert (H: forall pos, In pos (bits_of depends_on) -> pos < 18).
  { intros pos Hp. unfold bits_of in Hp. apply set_positions_In in Hp. lia. }
  induction (bits_of depends_on) as [|pos l IH]; cbn [map]; constructor.
  - destruct (@pin_name_of_pal pin_names (epromaddrbitpos_to_palpinnum pos) Hk)
      as (name & Hn).
    { apply addr_pin_in_pal. apply H. now left. }
    unfold name_at. now rewrite Hn.
  - apply IH. intros q Hq. apply H. now right.
Qed.

Lemma level_analysis_run dumpdata pin_names notstr p depends_on :
  map fst pin_names = pal_pins -> p < 8 -> 0 < depends_on ->
  (forall b, N.testbit depends_on b = true -> b < 18 /\ b <> p + 10) ->
  exists name,
    pin_name_of pin_names (p + 12) = inr name /\
    ((exists n,
         n < 2 ^ N.of_nat (List.length (bits_of depends_on)) /\
         level_analysis pin_names notstr dumpdata p depends_on
         = inl (NoDrivenCombination name) /\
         forall a, a < 2 ^ 18 -> minterm_of depends_on a = n ->
                   ~ driven dumpdata p a) \/
     (exists t,
         level_analysis pin_names notstr dumpdata p depends_on
         = inr (map (name_at pin_names) (bits_of depends_on), t) /\
         Permutation (dontcareterms t ++ negminterms t ++ posminterms t)
                     (range (2 ^ N.of_nat (List.length (bits_of depends_on))))
         /\
         classified dumpdata p depends_on
                    (dontcareterms t) (negminterms t) (posminterms t) /\
         forall n, n < 2 ^ N.of_nat (List.length (bits_of depends_on)) ->
                   at_minterm depends_on n (driven dumpdata p))).
Proof.
  intros Hk Hp H0 Hb.
  destruct (@pin_name_of_pal pin_names (epromdatabitpos_to_palpinnum p) Hk)
    as (name & Hn); [now apply data_pin_in_pal|].
  exists name. split; [exact Hn|].
  assert (El: level_analysis pin_names notstr dumpdata p depends_on
              = bind (foldM (classify notstr dumpdata name depends_on
                               (N.shiftl 1 p) (N.shiftl 1 (p + 10))
                               (map (name_at pin_names) (bits_of depends_on))
                               (map (N.shiftl 1) (bits_of depends_on)))
                            (map (scatter (map (N.shiftl 1)
                                               (bits_of depends_on)))
                                 (range (2 ^ N.of_nat
                                           (List.length
                                              (bits_of depends_on)))))
                            empty_tables)
                     (fun t => inr (map (name_at pin_names)
                                        (bits_of depends_on), t))).
  { unfold level_analysis. rewrite Hn. cbn [bind]. cbv zeta.
    rewrite probe_position.
    unfold range at 1. change (N.to_nat 18) with 18%nat.
    rewrite (@depends_on_inputs_run pin_names depends_on (p + 10) Hk
               (probe_bit_clear Hp H0 Hb) 18 0 [] []) by lia.
    cbn [app bind]. fold (bits_of depends_on).
    unfold iterate.
    rewrite iterate_mask_run by (auto; apply (depends_on_below Hp H0 Hb)).
    reflexivity. }
  rewrite El.
  destruct (@classify_run dumpdata notstr p depends_on Hp H0 Hb name
              (map (name_at pin_names) (bits_of depends_on))
              (range (2 ^ N.of_nat (List.length (bits_of depends_on))))
              (fun n Hin => proj1 (range_In _ n) Hin) empty_tables)
    as [(n & Hin & E & Hz)|(t & dc & neg & pos & E & D1 & N1 & P1 & L & C & A)];
    rewrite E; cbn [bind].
  - left. exists n. apply range_In in Hin. auto.
  - right. exists t. split; [reflexivity|].
    cbn [empty_tables dontcareterms negminterms posminterms app] in D1, N1, P1.
    rewrite D1, N1, P1. split; [exact L|]. split; [exact C|].
    intros n Hlt. apply A. now apply range_In.
Qed.

(** X19: when the level analysis of an output pin fails.  For a value of
    [depends_on] as the discovery loop leaves it (not 0, address bits
    only, never the probe bit of the pin), with a dump of 262144 bytes
    and the 18 pin names, every index the analysis uses on the dump is
    inside the dump, and the analysis ends in one of two ways.  It
    returns, with the names of the pins on the set bits of
    [depends_on], lowest bit first, and then for every combination of
    levels on these pins there is an address at which the pin is driven.
    Or it raises the error 'Could not find input combination ...' with
    the name of the pin, and then there is a combination for which the
    pin is in high-Z state at every address that has it. *)
Theorem level_analysis_outcome dumpdata pin_names notstr p depends_on :
  N.of_nat (List.length dumpdata) = 262144 ->
  map fst pin_names = pal_pins -> p < 8 -> 0 < depends_on ->
  (forall b, N.testbit depends_on b = true -> b < 18 /\ b <> p + 10) ->
  (forall addrs others c o,
      iterate_mask depends_on = Some addrs ->
      iterate_mask (N.lxor (2 ^ 18 - 1) depends_on) = Some others ->
      In c addrs -> In o others ->
      N.lor c o < N.of_nat (List.length dumpdata) /\
      N.lxor (N.lor c o) (N.shiftl 1 (p + 10))
      < N.of_nat (List.length dumpdata)) /\
  ((exists names t,
       level_analysis pin_names notstr dumpdata p depends_on
       = inr (names, t) /\
       Forall2 (fun pos name =>
                  pin_name_of pin_names (epromaddrbitpos_to_palpinnum pos)
                  = inr name)
               (bits_of depends_on) names /\
       List.length names = bit_count depends_on /\
       forall m, m < 2 ^ N.of_nat (bit_count depends_on) ->
                 exists a, a < 2 ^ 18 /\ minterm_of depends_on a = m /\
                           driven dumpdata p a) \/
   (exists name m,
       level_analysis pin_names notstr dumpdata p depends_on
       = inl (NoDrivenCombination name) /\
       pin_name_of pin_names (p + 12) = inr name /\
       m < 2 ^ N.of_nat (bit_count depends_on) /\
       forall a, a < 2 ^ 18 -> minterm_of depends_on a = m ->
                 ~ driven dumpdata p a)).
Proof.
  intros Hlen Hk Hp H0 Hb.
  pose proof (depends_on_below Hp H0 Hb) as Hd.
  pose proof (bits_of_length Hd) as Hbc.
  split.
  - intros addrs others c o Ea Eo Hc Ho. rewrite Hlen.
    apply (@iterate_mask_In depends_on addrs c H0 Hd Ea) in Hc.
    destruct (proj2 (@others_addresses p depends_on Hp H0 Hb others c Eo Hc
                       (N.lor c o))) as [Hlt _]; [eauto|].
    split; [exact Hlt|]. change 262144 with (2 ^ 18).
    apply below_testbit. intros k Hk18.
    rewrite N.lxor_spec, bit_bits, (@testbit_below _ 18 k Hlt Hk18).
    destruct (N.eqb_spec (p + 10) k); [lia|reflexivity].
  - destruct (@level_analysis_run dumpdata pin_names notstr p depends_on
                Hk Hp H0 Hb)
      as (name & Hn & [(n & Hlt & E & Hz)|(t & E & _ & _ & A)]).
    + right. exists name, n. rewrite <- Hbc. auto.
    + left. exists (map (name_at pin_names) (bits_of depends_on)), t.
      split; [exact E|]. split; [now apply names_of_bits|].
      split; [now rewrite length_map|].
      intros m Hm. rewrite <- Hbc in Hm. apply (A m Hm).
Qed.

Lemma level_analysis_outcome_witness :
  (forall addrs others c o,
      iterate_mask 1 = Some addrs ->
      iterate_mask (N.lxor (2 ^ 18 - 1) 1) = Some others ->
      In c addrs -> In o others ->
      N.lor c o
      < N.of_nat (List.length (repeat Byte.x00 (N.to_nat 262144))) /\
      N.lxor (N.lor c o) (N.shiftl 1 (0 + 10))
      < N.of_nat (List.length (repeat Byte.x00 (N.to_nat 262144)))) /\
  ((exists names t,
       level_analysis (map (fun k => (k, ("pin" ++ PyStr.format_d k)%string))
                           pal_pins)
                      "!" (repeat Byte.x00 (N.to_nat 262144)) 0 1
       = inr (names, t) /\
       Forall2 (fun pos name =>
                  pin_name_of
                    (map (fun k => (k, ("pin" ++ PyStr.format_d k)%string))
                         pal_pins)
                    (epromaddrbitpos_to_palpinnum pos)
                  = inr name)
               (bits_of 1) names /\
       List.length names = bit_count 1 /\
       forall m, m < 2 ^ N.of_nat (bit_count 1) ->
                 exists a, a < 2 ^ 18 /\ minterm_of 1 a = m /\
                           driven (repeat Byte.x00 (N.to_nat 262144)) 0 a) \/
   (exists name m,
       level_analysis (map (fun k => (k, ("pin" ++ PyStr.format_d k)%string))
                           pal_pins)
                      "!" (repeat Byte.x00 (N.to_nat 262144)) 0 1
       = inl (NoDrivenCombination name) /\
       pin_name_of (map (fun k => (k, ("pin" ++ PyStr.format_d k)%string))
                        pal_pins) (0 + 12) = inr name /\
       m < 2 ^ N.of_nat (bit_count 1) /\
       forall a, a < 2 ^ 18 -> minterm_of 1 a = m ->
                 ~ driven (repeat Byte.x00 (N.to_nat 262144)) 0 a)).
Proof.
  apply (@level_analysis_outcome
           (repeat Byte.x00 (N.to_nat 262144))
           (map (fun k => (k, ("pin" ++ PyStr.format_d k)%string)) pal_pins)
           "!" 0 1).
  - rewrite repeat_length. apply N2Nat.id.
  - reflexivity.
  - reflexivity.
  - reflexivity.
  - intros [|b] Hb; [split; [reflexivity|discriminate]|].
    destruct b; discriminate.
Defined.

(** X20: the three lists of minterms of the level analysis.  When the
    analysis returns, every combination of levels on the pins the output
    depends on is in exactly one of [dontcareterms], [negminterms] and
    [posminterms], once.  A don't-care term is a combination that no
    address has with A17..A10 equal to D7..D0; a minterm of
    [negminterms] is one that some address has with the pin driven low,
    one of [posminterms] with the pin driven high.  The lists are within
    the range [simplify_minterms] asks for, and the call made with them
    returns.  The only error of the analysis is the one for a
    combination without a driven address. *)
Theorem level_minterms_classified (set_iter : forall A : Type, list A -> list A)
    dumpdata pin_names notstr p depends_on :
  map fst pin_names = pal_pins -> p < 8 -> 0 < depends_on ->
  (forall b, N.testbit depends_on b = true -> b < 18 /\ b <> p + 10) ->
  match level_analysis pin_names notstr dumpdata p depends_on with
  | inr (names, t) =>
      Permutation (dontcareterms t ++ negminterms t ++ posminterms t)
                  (range (2 ^ N.of_nat (List.length names))) /\
      classified dumpdata p depends_on
                 (dontcareterms t) (negminterms t) (posminterms t) /\
      exists negresults,
        level_equation set_iter pin_names notstr dumpdata p depends_on
        = inr (names, negresults)
  | inl e => exists name, e = NoDrivenCombination name
  end.
Proof.
  intros Hk Hp H0 Hb.
  destruct (@level_analysis_run dumpdata pin_names notstr p depends_on
              Hk Hp H0 Hb)
    as (name & Hn & [(n & Hlt & E & Hz)|(t & E & L & C & A)]).
  - rewrite E. eauto.
  - unfold level_equation. rewrite E. cbn [bind]. rewrite length_map.
    split; [exact L|]. split; [exact C|].
    assert (Hin: forall l, incl l (dontcareterms t ++ negminterms t
                                    ++ posminterms t) ->
                           Minimise.in_range (List.length (bits_of depends_on)) l).
    { intros l Hl x Hx. apply range_In.
      apply (Permutation_in _ L). now apply Hl. }
    destruct (@Minimise.run_spec set_iter (List.length (bits_of depends_on))
                (negminterms t) (dontcareterms t))
      as (pis & _ & _ & Hs).
    + apply Hin. intros x Hx. apply in_or_app. right.
      apply in_or_app. now left.
    + apply Hin. intros x Hx. apply in_or_app. now left.
    + rewrite Hs. eauto.
Qed.

Lemma level_minterms_classified_witness :
  match level_analysis (map (fun k => (k, ("pin" ++ PyStr.format_d k)%string))
                            pal_pins)
                       "!" (repeat Byte.x00 (N.to_nat 262144)) 0 1 with
  | inr (names, t) =>
      Permutation (dontcareterms t ++ negminterms t ++ posminterms t)
                  (range (2 ^ N.of_nat (List.length names))) /\
      classified (repeat Byte.x00 (N.to_nat 262144)) 0 1
                 (dontcareterms t) (negminterms t) (posminterms t) /\
      exists negresults,
        level_equation list_order
                       (map (fun k => (k, ("pin" ++ PyStr.format_d k)%string))
                            pal_pins)
                       "!" (repeat Byte.x00 (N.to_nat 262144)) 0 1
        = inr (names, negresults)
  | inl e => exists name, e = NoDrivenCombination name
  end.
Proof.
  apply (@level_minterms_classified list_order
           (repeat Byte.x00 (N.to_nat 262144))
           (map (fun k => (k, ("pin" ++ PyStr.format_d k)%string)) pal_pins)
           "!" 0 1).
  - reflexivity.
  - reflexivity.
  - reflexivity.
  - intros [|b] Hb; [split; [reflexivity|discriminate]|].
    destruct b; discriminate.
Defined.

End LevelAnalysis.
